(** * WaterSortScreenshotSolver: colour reconciliation, grid normalisation and
      the solve driver, embedded in Rocq.

    The vision worker ([vision.worker.js]) and the page script ([main.js]) are
    JavaScript.  Numbers are IEEE-754 binary64 values, so every [Number] that
    can carry a fraction is a primitive [float] here; quantities the code only
    ever uses as integers (array lengths, cluster ids, member counts, byte
    channels, image sizes) are [Z], converted with [Z2F] where the code mixes
    them with fractions.  Objects used as dictionaries are [gmap]s, arrays are
    lists. *)

From Stdlib Require Import ZArith List Bool Floats Uint63 String Ascii Lia.
From Stdlib Require Import DecimalString DecimalNat DecimalFacts.
From stdpp Require Import gmap sorting list.

Open Scope Z_scope.

#[local] Set Warnings "-clear-no-such-hyp".


(** * Part I: the programs *)

(** ** JavaScript numeric primitives *)

Module JS.

(** An integer as a [Number]; exact for |z| < 2^53. *)
Definition Z2F (z : Z) : float :=
  if z <? 0 then PrimFloat.opp (PrimFloat.of_uint63 (Uint63.of_Z (- z)))
  else PrimFloat.of_uint63 (Uint63.of_Z z).

Definition is_nan (x : float) : bool := negb (PrimFloat.eqb x x).

Definition is_neg_zero (x : float) : bool :=
  match PrimFloat.classify x with NZero => true | _ => false end.

Definition is_pos_zero (x : float) : bool :=
  match PrimFloat.classify x with PZero => true | _ => false end.

(** [Math.max(a, b)]: NaN is contagious, and +0 is larger than -0. *)
Definition Math_max (a b : float) : float :=
  if is_nan a || is_nan b then PrimFloat.nan
  else if PrimFloat.ltb a b then b
  else if PrimFloat.ltb b a then a
  else if is_neg_zero a then b else a.

(** [Math.min(a, b)]. *)
Definition Math_min (a b : float) : float :=
  if is_nan a || is_nan b then PrimFloat.nan
  else if PrimFloat.ltb a b then a
  else if PrimFloat.ltb b a then b
  else if is_pos_zero a then b else a.

(** The signed integer mantissa and exponent of a finite non-zero value:
    the value is [n * 2^e]. *)
Definition mant_exp (x : float) : option (Z * Z) :=
  match Prim2SF x with
  | S754_finite s m e => Some (if s then Z.neg m else Z.pos m, e)
  | _ => None
  end.

(** [Math.floor(x)]: zeros, infinities and NaN are returned as they are. *)
Definition Math_floor (x : float) : float :=
  match mant_exp x with
  | Some (n, e) => if 0 <=? e then x else Z2F (n / 2 ^ (- e))
  | None => x
  end.

(** [Math.round(x)]: the nearest integer, ties towards +infinity, computed on
    the exact value; a negative argument that rounds to zero gives -0. *)
Definition Math_round (x : float) : float :=
  match mant_exp x with
  | Some (n, e) =>
      if 0 <=? e then x
      else
        let r := (2 * n + 2 ^ (- e)) / 2 ^ (- e + 1) in
        if (r =? 0) && (n <? 0) then PrimFloat.opp PrimFloat.zero else Z2F r
  | None => x
  end.

(** [x | 0] (ToInt32): truncate towards zero, wrap modulo 2^32 into the signed
    range; NaN and the infinities give 0. *)
Definition toInt32 (x : float) : Z :=
  match mant_exp x with
  | Some (n, e) =>
      let t := if 0 <=? e then n * 2 ^ e else Z.quot n (2 ^ (- e)) in
      (t + 2 ^ 31) mod 2 ^ 32 - 2 ^ 31
  | None => 0
  end.

(** An array index computed as a [Number]: [a[x]] reads an element only when
    [x] is a non-negative integer. *)
Definition index_of (x : float) : option nat :=
  if PrimFloat.eqb x PrimFloat.zero then Some 0%nat
  else match mant_exp x with
       | Some (n, e) =>
           if (0 <? n) && (PrimFloat.eqb (Math_floor x) x)
           then Some (Z.to_nat (if 0 <=? e then n * 2 ^ e else n / 2 ^ (- e)))
           else None
       | None => None
       end.

(** [Array.prototype.sort(cmp)] for a comparator that is a strict order
    test: the sort is stable, so the result is the one of insertion sort
    that puts an element before the first one it is strictly below.

    The language fixes the result of [sort] only for a consistent
    comparator.  [(a, b) => a - b] is one on numbers none of which is NaN;
    on an array that holds a NaN the difference is NaN against every
    element, the comparator is not consistent, and the order is left to the
    engine.  The definition below is the language's result in the first
    case, and one of the orders an engine may give in the second: what is
    proved of a sorted array of numbers is a fact of the program for keys
    that are not NaN. *)
Fixpoint insert_by {A} (lt : A -> A -> bool) (x : A) (l : list A) : list A :=
  match l with
  | [] => [x]
  | y :: l' => if lt x y then x :: y :: l' else y :: insert_by lt x l'
  end.

Definition sort_by {A} (lt : A -> A -> bool) (l : list A) : list A :=
  fold_left (fun acc x => insert_by lt x acc) l [].

(** The comparator [(a, b) => a - b], read as "a sorts before b". *)
Definition num_lt (a b : float) : bool :=
  PrimFloat.ltb (PrimFloat.sub a b) PrimFloat.zero.

Definition hexDigit (d : Z) : ascii :=
  match d with
  | 0 => "0" | 1 => "1" | 2 => "2" | 3 => "3" | 4 => "4" | 5 => "5" | 6 => "6"
  | 7 => "7" | 8 => "8" | 9 => "9" | 10 => "A" | 11 => "B" | 12 => "C"
  | 13 => "D" | 14 => "E" | _ => "F"
  end%char.

End JS.

Import JS.

(** ** The vision worker: colour clustering and reconciliation *)

(** A sampled colour [[b, g, r]] (channel medians of a [CV_8UC3] patch) and its
    Lab conversion as read back from [labMat.data]: bytes. *)
Abbreviation Bgr := (Z * Z * Z)%type.
Abbreviation Lab := (Z * Z * Z)%type.
Abbreviation F3 := (float * float * float)%type.

(** [bgrToHex(b, g, r)]: each channel rounded, clamped to 0..255 and printed as
    two upper-case hex digits; a NaN channel prints as [NAN]. *)
Definition hexByte (x : float) : string :=
  let v := Math_max (Z2F 0) (Math_min (Z2F 255) (Math_round x)) in
  if is_nan v then "NAN"%string
  else let z := toInt32 v in
       String (hexDigit (z / 16)) (String (hexDigit (z mod 16)) EmptyString).

Definition bgrToHex (b g r : float) : string :=
  String "#"%char (hexByte r ++ hexByte g ++ hexByte b)%string.

(** One entry of [clusterInfo]. *)
Record Cluster := mkCluster {
  id : Z;
  count : Z;
  center_bgr : F3;
  center_lab : F3;
  center_hex : string
}.

Section Clustering.

(** [cv.cvtColor(bgrMat, labMat, cv.COLOR_BGR2Lab)] on an N x 1 matrix converts
    each pixel on its own; OpenCV's conversion is an external function. *)
Variable cvtColor_BGR2Lab : Bgr -> Lab.

(** The local [dist(a, b)] of [clusterColorsDbscan].  The operands are bytes,
    so the differences, squares and their sum are exact integers. *)
Definition dist (a b : Lab) : float :=
  let '(a0, a1, a2) := a in
  let '(b0, b1, b2) := b in
  let dx := a0 - b0 in
  let dy := a1 - b1 in
  let dz := a2 - b2 in
  PrimFloat.sqrt (Z2F (dx * dx + dy * dy + dz * dz)).

(** [labels[j] !== -1]; an index past the end reads [undefined], which is
    not [-1] either. *)
Definition labelled (labels : list Z) (j : nat) : bool :=
  match labels !! j with
  | Some l => negb (l =? -1)
  | None => true
  end.

(** Neighbourhood test [dist(labs[p], labs[j]) <= eps]. *)
Definition near (labs : list Lab) (eps : float) (p j : nat) : bool :=
  match labs !! p, labs !! j with
  | Some a, Some b => PrimFloat.leb (dist a b) eps
  | _, _ => false
  end.

(** The [for (let j = 0; j < n; j++)] loop inside the flood fill, over the
    remaining indices [js].  [queue] is the array used as a stack: its head
    here is the array's last element ([push] conses, [pop] takes the head). *)
Fixpoint scan (labs : list Lab) (eps : float) (p : nat) (cid : Z)
    (js : list nat) (labels : list Z) (queue : list nat) : list Z * list nat :=
  match js with
  | [] => (labels, queue)
  | j :: js' =>
      if labelled labels j then scan labs eps p cid js' labels queue
      else if near labs eps p j
           then scan labs eps p cid js' (<[j := cid]> labels) (j :: queue)
           else scan labs eps p cid js' labels queue
  end.

(** [while (queue.length) { const p = queue.pop(); ... }].  Every iteration
    pops one index and every index is pushed at most once, so [length labs]
    iterations are enough ([flood_spec] below). *)
Fixpoint flood (fuel : nat) (labs : list Lab) (eps : float) (cid : Z)
    (labels : list Z) (queue : list nat) : list Z * list nat :=
  match fuel with
  | O => (labels, queue)
  | S fuel' =>
      match queue with
      | [] => (labels, [])
      | p :: queue' =>
          let '(labels', queue'') :=
            scan labs eps p cid (seq 0 (length labs)) labels queue' in
          flood fuel' labs eps cid labels' queue''
      end
  end.

(** The outer [for (let i = 0; i < n; i++)] loop, over the remaining indices [rest]. *)
Fixpoint components (labs : list Lab) (eps : float) (rest : list nat)
    (labels : list Z) (cid : Z) : list Z * Z :=
  match rest with
  | [] => (labels, cid)
  | i :: rest' =>
      if labelled labels i then components labs eps rest' labels cid
      else
        let labels1 := <[i := cid]> labels in
        let labels2 := fst (flood (length labs) labs eps cid labels1 [i]) in
        components labs eps rest' labels2 (cid + 1)
  end.

(** [idxs]: the indices carrying label [k]. *)
Definition members (labels : list Z) (k : Z) : list nat :=
  filter (fun i => labels !! i = Some k) (seq 0 (length labels)).

Definition sum3 (l : list (Z * Z * Z)) : Z * Z * Z :=
  fold_left (fun '(s0, s1, s2) '(x0, x1, x2) => (s0 + x0, s1 + x1, s2 + x2))
            l (0, 0, 0).

Definition mean3 (s : Z * Z * Z) (cnt : Z) : F3 :=
  let '(s0, s1, s2) := s in
  (PrimFloat.div (Z2F s0) (Z2F cnt),
   PrimFloat.div (Z2F s1) (Z2F cnt),
   PrimFloat.div (Z2F s2) (Z2F cnt)).

Definition pick {A} (d : A) (l : list A) (idxs : list nat) : list A :=
  map (fun i => default d (l !! i)) idxs.

(** The body of [for (let k = 0; k < cid; k++)]: the record of cluster [k]. *)
Definition clusterOf (samplesBgr : list Bgr) (labs : list Lab)
    (labels : list Z) (k : Z) : Cluster :=
  let idxs := members labels k in
  let cnt := Z.of_nat (length idxs) in
  let cbgr := mean3 (sum3 (pick (0, 0, 0) samplesBgr idxs)) cnt in
  let clab := mean3 (sum3 (pick (0, 0, 0) labs idxs)) cnt in
  let '(cb, cg, cr) := cbgr in
  {| id := k; count := cnt; center_bgr := cbgr; center_lab := clab;
     center_hex := bgrToHex cb cg cr |}.

Definition buildClusterInfo (samplesBgr : list Bgr) (labs : list Lab)
    (labels : list Z) (cid : Z) : gmap Z Cluster :=
  fold_left (fun info k => <[k := clusterOf samplesBgr labs labels k]> info)
            (map Z.of_nat (seq 0 (Z.to_nat cid))) ∅.

(** [clusterColorsDbscan(cv, samplesBgr, eps)]. *)
Definition clusterColorsDbscan (samplesBgr : list Bgr) (eps : float)
    : list Z * gmap Z Cluster :=
  let n := length samplesBgr in
  if Nat.eqb n 0 then ([], ∅)
  else
    let labs := map cvtColor_BGR2Lab samplesBgr in
    let '(labels, cid) :=
      components labs eps (seq 0 n) (replicate n (-1)) 0 in
    (labels, buildClusterInfo samplesBgr labs labels cid).

End Clustering.

(** ** Reconciliation against the expected colour count *)

(** [labDist3(a, b)] on centroids, which carry fractions. *)
Definition labDist3 (a b : F3) : float :=
  let '(a0, a1, a2) := a in
  let '(b0, b1, b2) := b in
  let dx := PrimFloat.sub a0 b0 in
  let dy := PrimFloat.sub a1 b1 in
  let dz := PrimFloat.sub a2 b2 in
  PrimFloat.sqrt
    (PrimFloat.add (PrimFloat.add (PrimFloat.mul dx dx) (PrimFloat.mul dy dy))
                   (PrimFloat.mul dz dz)).

(** An entry of [merges]: [{ keep, drop, d }]. *)
Record Merge := mkMerge { keep : Z; drop : Z; d : float }.

(** The variables the closure [mergeInto] and the loop write to. *)
Record MergeState := mkMergeState {
  ms_labels : list Z;
  ms_clusterInfo : gmap Z Cluster;
  ms_merges : list Merge
}.

(** The object [mergeClustersToExpectedCount] returns; [expectedColors] is
    [null] when reconciliation is skipped. *)
Record MergeResult := mkMergeResult {
  labels : list Z;
  clusterInfo : gmap Z Cluster;
  merges : list Merge;
  expectedColors : option Z
}.

(** [a.center * wA + b.center * wB], channel by channel. *)
Definition mix3 (wA wB : float) (a b : F3) : F3 :=
  let '(a0, a1, a2) := a in
  let '(b0, b1, b2) := b in
  (PrimFloat.add (PrimFloat.mul a0 wA) (PrimFloat.mul b0 wB),
   PrimFloat.add (PrimFloat.mul a1 wA) (PrimFloat.mul b1 wB),
   PrimFloat.add (PrimFloat.mul a2 wA) (PrimFloat.mul b2 wB)).

(** The record [a] after [mergeInto] has absorbed [b] into it. *)
Definition absorb (a b : Cluster) : Cluster :=
  let tot := count a + count b in
  let wA := PrimFloat.div (Z2F (count a)) (Z2F tot) in
  let wB := PrimFloat.div (Z2F (count b)) (Z2F tot) in
  let cbgr := mix3 wA wB (center_bgr a) (center_bgr b) in
  let clab := mix3 wA wB (center_lab a) (center_lab b) in
  let '(cb, cg, cr) := cbgr in
  {| id := id a; count := tot; center_bgr := cbgr; center_lab := clab;
     center_hex := bgrToHex cb cg cr |}.

(** [mergeInto(keepId, dropId)]: relabel, then, when both records exist,
    update the kept record and delete the dropped key. *)
Definition mergeInto (keepId dropId : Z) (labels : list Z)
    (clusterInfo : gmap Z Cluster) : list Z * gmap Z Cluster :=
  let labels' := map (fun l => if l =? dropId then keepId else l) labels in
  match clusterInfo !! keepId, clusterInfo !! dropId with
  | Some a, Some b =>
      (labels', delete dropId (<[keepId := absorb a b]> clusterInfo))
  | _, _ => (labels', clusterInfo)
  end.

(** [Object.keys(clusterInfo).map((k) => parseInt(k, 10)).sort((a, b) => a - b)]. *)
Definition sortedIds (clusterInfo : gmap Z Cluster) : list Z :=
  merge_sort Z.le (map fst (map_to_list clusterInfo)).

(** The body of the inner [for j] loop for the pair [(idA, idB)]. *)
Definition consider (clusterInfo : gmap Z Cluster) (cap : Z) (maxDist : float)
    (idA idB : Z) (best : option Merge) : option Merge :=
  match clusterInfo !! idA, clusterInfo !! idB with
  | Some a, Some b =>
      if count a + count b >? cap then best
      else
        let dAB := labDist3 (center_lab a) (center_lab b) in
        if PrimFloat.ltb maxDist dAB then best
        else
          let cand :=
            {| keep := Z.min idA idB; drop := Z.max idA idB; d := dAB |} in
          match best with
          | None => Some cand
          | Some bst => if PrimFloat.ltb dAB (d bst) then Some cand else best
          end
  | _, _ => best
  end.

Fixpoint innerLoop (clusterInfo : gmap Z Cluster) (cap : Z) (maxDist : float)
    (idA : Z) (rest : list Z) (best : option Merge) : option Merge :=
  match rest with
  | [] => best
  | idB :: rest' =>
      innerLoop clusterInfo cap maxDist idA rest'
        (consider clusterInfo cap maxDist idA idB best)
  end.

Fixpoint outerLoop (clusterInfo : gmap Z Cluster) (cap : Z) (maxDist : float)
    (ids : list Z) (best : option Merge) : option Merge :=
  match ids with
  | [] => best
  | idA :: rest =>
      outerLoop clusterInfo cap maxDist rest
        (innerLoop clusterInfo cap maxDist idA rest best)
  end.

(** The search for [best] in one iteration of the [while] loop. *)
Definition findBest (clusterInfo : gmap Z Cluster) (cap : Z) (maxDist : float)
    : option Merge :=
  outerLoop clusterInfo cap maxDist (sortedIds clusterInfo) None.

(** [while (Object.keys(clusterInfo).length > expectedColors) { ... }].  Every
    iteration that does not leave the loop deletes a key, so as many
    iterations as there are keys are enough ([mergeLoop_Reconcile] below). *)
Fixpoint mergeLoop (fuel : nat) (cap : Z) (maxDist : float) (expected : Z)
    (st : MergeState) : MergeState :=
  match fuel with
  | O => st
  | S fuel' =>
      if Z.of_nat (size (ms_clusterInfo st)) >? expected then
        match findBest (ms_clusterInfo st) cap maxDist with
        | None => st
        | Some best =>
            let '(labels', info') :=
              mergeInto (keep best) (drop best) (ms_labels st)
                        (ms_clusterInfo st) in
            mergeLoop fuel' cap maxDist expected
              {| ms_labels := labels'; ms_clusterInfo := info';
                 ms_merges := ms_merges st ++ [best] |}
        end
      else st
  end.

(** [Math.max(8.0, (typeof dbscanEps === 'number' ? dbscanEps : 16.0) * 1.2)];
    an argument that is not a number is [None]. *)
Definition mergeCeiling (dbscanEps : option float) : float :=
  Math_max (Z2F 8)
    (PrimFloat.mul (default (Z2F 16) dbscanEps) 0x1.3333333333333p+0%float).

(** [(typeof capacity === 'number' && capacity > 0) ? capacity : null]. *)
Definition positiveCapacity (capacity : option Z) : option Z :=
  match capacity with
  | Some c => if c >? 0 then Some c else None
  | None => None
  end.

(** [mergeClustersToExpectedCount(labelsIn, clusterInfoIn, capacity, dbscanEps)]
    on the values of its arguments.  [capacity] is an integer when it is a
    number at all (the page passes 4). *)
Definition mergeClustersToExpectedCount (labelsIn : list Z)
    (clusterInfoIn : gmap Z Cluster) (capacity : option Z)
    (dbscanEps : option float) : MergeResult :=
  let labels := labelsIn in
  let clusterInfo := clusterInfoIn in
  let nSamples := Z.of_nat (length labels) in
  let skip := {| labels := labels; clusterInfo := clusterInfo; merges := [];
                 expectedColors := None |} in
  match positiveCapacity capacity with
  | None => skip
  | Some cap =>
      if nSamples =? 0 then skip
      else if negb (Z.rem nSamples cap =? 0) then skip
      else
        let expected := nSamples / cap in
        let maxDist := mergeCeiling dbscanEps in
        let st := mergeLoop (size clusterInfo) cap maxDist expected
                    {| ms_labels := labels; ms_clusterInfo := clusterInfo;
                       ms_merges := [] |} in
        {| labels := ms_labels st; clusterInfo := ms_clusterInfo st;
           merges := ms_merges st; expectedColors := Some expected |}
  end.

(** ** The vision worker: fixed-grid normalisation *)

#[local] Set Warnings "-inexact-float".

(** A candidate box [{ x, y, w, h }] ([area] is carried by the objects but
    never read here). *)
Record Box := mkBox {
  box_x : float; box_y : float; box_w : float; box_h : float
}.

(** A returned box: integer coordinates. *)
Record GridBox := mkGridBox { gx : Z; gy : Z; gw : Z; gh : Z }.

(** A predicted cell [{ r, c, cx, cy }]. *)
Record Pred := mkPred { pr_r : nat; pr_c : nat; pr_cx : float; pr_cy : float }.

(** [clampInt(v, lo, hi)] for integer bounds. *)
Definition clampInt (v : float) (lo hi : Z) : Z :=
  Z.max lo (Z.min hi (toInt32 v)).

(** [clamp(v, lo, hi)]. *)
Definition clamp (v lo hi : float) : float := Math_max lo (Math_min hi v).

(** An element read by index; past the end it is [undefined], which
    arithmetic turns into NaN. *)
Definition at_ (l : list float) (i : nat) : float := nth i l PrimFloat.nan.

(** [medianNumber(arr)]. *)
Definition medianNumber (arr : list float) : float :=
  match arr with
  | [] => Z2F 0
  | _ =>
      let a := sort_by num_lt arr in
      let mid := Nat.div (length a) 2 in
      if Nat.odd (length a) then at_ a mid
      else PrimFloat.div (PrimFloat.add (at_ a (mid - 1)) (at_ a mid)) (Z2F 2)
  end.

(** The assignment loop of [kmeans1D]: index of the first centre at least
    distance from [v]. *)
Definition nearestCenter (centers : list float) (v : float) : nat :=
  fst (fst (fold_left
    (fun '(best, bestDist, i) c =>
       let dd := PrimFloat.abs (PrimFloat.sub v c) in
       if PrimFloat.ltb dd bestDist then (i, dd, S i) else (best, bestDist, S i))
    centers (O, PrimFloat.infinity, O))).

Definition sumF (l : list float) : float :=
  fold_left PrimFloat.add l (Z2F 0).

(** One round of [kmeans1D]: regroup, then move every centre that has a
    non-empty group to the group's mean. *)
Definition kmeansRound (values centers : list float) : list float :=
  imap (fun i c =>
          let g := filter (fun v => nearestCenter centers v = i) values in
          match g with
          | [] => c
          | _ => PrimFloat.div (sumF g) (Z2F (Z.of_nat (length g)))
          end) centers.

(** [kmeans1D(values, k, iters)]. *)
Definition kmeans1D (values : list float) (k iters : nat) : list float :=
  let n := length values in
  let sorted := sort_by num_lt values in
  let centers0 :=
    map (fun i =>
           let q := PrimFloat.div (PrimFloat.add (Z2F (Z.of_nat i)) 0.5)
                                  (Z2F (Z.of_nat k)) in
           match index_of (Math_floor
                   (PrimFloat.mul q (Z2F (Z.of_nat n - 1)))) with
           | Some j => at_ sorted j
           | None => PrimFloat.nan
           end) (seq 0 k) in
  sort_by num_lt (Nat.iter iters (kmeansRound values) centers0).

Definition centerX (b : Box) : float :=
  PrimFloat.add (box_x b) (PrimFloat.div (box_w b) (Z2F 2)).
Definition centerY (b : Box) : float :=
  PrimFloat.add (box_y b) (PrimFloat.div (box_h b) (Z2F 2)).
Definition boxArea (b : Box) : float := PrimFloat.mul (box_w b) (box_h b).

Section Grid.

(** [detectBottleNear(cv, bgr, cx, cy, wMed, hMed)]: the local re-detection
    on the image, an OpenCV computation. *)
Variable detectBottleNear : float -> float -> float -> float -> option Box.

(** [Math.hypot], whose rounding the language leaves to the engine. *)
Variable Math_hypot : float -> float -> float.

(** [bgr.cols] and [bgr.rows]. *)
Variables W H : Z.

Definition EXPECTED : nat := 6.

Let Wf : float := Z2F W.
Let Hf : float := Z2F H.

(** The position filter, kept only when it leaves something. *)
Definition filterByPosition (boxes : list Box) : list Box :=
  let filtered :=
    filter (fun b =>
      PrimFloat.leb (PrimFloat.mul Wf 0.20) (centerX b) &&
      PrimFloat.leb (centerX b) (PrimFloat.mul Wf 0.80) &&
      PrimFloat.leb (PrimFloat.mul Hf 0.14) (centerY b) &&
      PrimFloat.leb (centerY b) (PrimFloat.mul Hf 0.85) = true) boxes in
  match filtered with [] => boxes | _ => filtered end.

(** The [if (boxes.length > EXPECTED)] block. *)
Definition filterBySize (boxes : list Box) : list Box :=
  if Nat.ltb EXPECTED (length boxes) then
    let medA := medianNumber (map boxArea boxes) in
    let loA := PrimFloat.mul medA 0.45 in
    let hiA := PrimFloat.mul medA 2.25 in
    let filteredByArea :=
      filter (fun b => PrimFloat.leb loA (boxArea b) &&
                       PrimFloat.leb (boxArea b) hiA = true) boxes in
    let boxes1 :=
      if Nat.leb 3 (length filteredByArea) then filteredByArea else boxes in
    let boxes2 :=
      sort_by (fun a b => PrimFloat.ltb
                 (PrimFloat.sub (boxArea b) (boxArea a)) (Z2F 0)) boxes1 in
    if Nat.ltb (EXPECTED * 2) (length boxes2) then take (EXPECTED * 2) boxes2
    else boxes2
  else boxes.

(** Differences of neighbours of a sorted list that reach [wMed * 0.6]. *)
Fixpoint gaps (wMed : float) (sx : list float) : list float :=
  match sx with
  | a :: (b :: _) as rest =>
      let dd := PrimFloat.sub b a in
      if PrimFloat.leb (PrimFloat.mul wMed 0.6) dd then dd :: gaps wMed rest
      else gaps wMed rest
  | _ => []
  end.

(** What the first half of [enforceFixedBottleGrid] derives from the
    candidates.  The assignments to [dx] and [dy] that no later statement
    reads are left out. *)
Record GridModel := mkGridModel {
  gm_boxes : list Box;
  gm_wMed : float;
  gm_hMed : float;
  gm_xCenters : list float;
  gm_yCenters : list float
}.

Definition estimateGrid (candidates : list Box) : GridModel :=
  let boxes := filterBySize (filterByPosition candidates) in
  let wMed := match boxes with
              | [] => PrimFloat.mul Wf 0.11
              | _ => medianNumber (map box_w boxes) end in
  let hMed := match boxes with
              | [] => PrimFloat.mul Hf 0.32
              | _ => medianNumber (map box_h boxes) end in
  let xs := map centerX boxes in
  let ys := map centerY boxes in
  let dx :=
    if Nat.leb 2 (length xs) then
      match gaps wMed (sort_by num_lt xs) with
      | [] => PrimFloat.mul wMed 1.60
      | diffs => medianNumber diffs
      end
    else PrimFloat.mul wMed 1.60 in
  let dy0 := Math_max (PrimFloat.mul hMed 1.25) (PrimFloat.mul Hf 0.25) in
  let dy :=
    if Nat.leb 2 (length ys) then
      let centers := kmeans1D ys 2 8 in
      let sep := PrimFloat.abs (PrimFloat.sub (at_ centers 1) (at_ centers 0)) in
      if PrimFloat.leb (PrimFloat.mul hMed 0.8) sep then sep else dy0
    else dy0 in
  let xCenters :=
    if Nat.leb 3 (length xs) then kmeans1D xs 3 10
    else match sort_by num_lt xs with
         | [x1; x2] =>
             let diff := PrimFloat.sub x2 x1 in
             if PrimFloat.ltb (PrimFloat.mul dx 1.6) diff then
               let step := PrimFloat.div diff (Z2F 2) in
               [x1; PrimFloat.add x1 step;
                PrimFloat.add x1 (PrimFloat.mul (Z2F 2) step)]
             else if PrimFloat.ltb x1 (PrimFloat.div Wf (Z2F 2))
                  then [x1; x2; PrimFloat.add x2 diff]
                  else [PrimFloat.sub x1 diff; x1; x2]
         | [x0] =>
             if PrimFloat.ltb x0 (PrimFloat.mul Wf 0.45)
             then [x0; PrimFloat.add x0 dx;
                   PrimFloat.add x0 (PrimFloat.mul (Z2F 2) dx)]
             else if PrimFloat.ltb (PrimFloat.mul Wf 0.55) x0
                  then [PrimFloat.sub x0 (PrimFloat.mul (Z2F 2) dx);
                        PrimFloat.sub x0 dx; x0]
                  else [PrimFloat.sub x0 dx; x0; PrimFloat.add x0 dx]
         | _ => [PrimFloat.mul Wf 0.38; PrimFloat.mul Wf 0.50;
                 PrimFloat.mul Wf 0.62]
         end in
  let yCenters :=
    if Nat.leb 2 (length ys) then
      let centers := kmeans1D ys 2 10 in
      let sep := PrimFloat.abs (PrimFloat.sub (at_ centers 1) (at_ centers 0)) in
      if PrimFloat.ltb sep (PrimFloat.mul hMed 0.8) then
        let y0 := at_ centers 0 in
        if PrimFloat.ltb y0 (PrimFloat.div Hf (Z2F 2))
        then [y0; PrimFloat.add y0 dy] else [PrimFloat.sub y0 dy; y0]
      else centers
    else match ys with
         | [y0] =>
             if PrimFloat.ltb y0 (PrimFloat.div Hf (Z2F 2))
             then [y0; PrimFloat.add y0 dy] else [PrimFloat.sub y0 dy; y0]
         | _ => [PrimFloat.mul Hf 0.33; PrimFloat.mul Hf 0.65]
         end in
  {| gm_boxes := boxes; gm_wMed := wMed; gm_hMed := hMed;
     gm_xCenters :=
       sort_by num_lt
         (map (fun v => clamp v (PrimFloat.mul wMed 0.6)
                          (PrimFloat.sub Wf (PrimFloat.mul wMed 0.6))) xCenters);
     gm_yCenters :=
       sort_by num_lt
         (map (fun v => clamp v (PrimFloat.mul hMed 0.6)
                          (PrimFloat.sub Hf (PrimFloat.mul hMed 0.6))) yCenters) |}.

(** [preds]: top row left to right, then bottom row. *)
Definition predictions (g : GridModel) : list Pred :=
  flat_map (fun r =>
    map (fun c => {| pr_r := r; pr_c := c; pr_cx := at_ (gm_xCenters g) c;
                     pr_cy := at_ (gm_yCenters g) r |}) (seq 0 3)) (seq 0 2).

(** [pairs] before sorting: [(dist, bi, pi)]. *)
Definition candidatePairs (g : GridModel) (preds : list Pred)
    : list (float * nat * nat) :=
  let reach := PrimFloat.mul (Math_max (gm_wMed g) (gm_hMed g)) 1.25 in
  flat_map (fun '(bi, b) =>
    flat_map (fun '(pi, p) =>
      let dist := Math_hypot (PrimFloat.sub (centerX b) (pr_cx p))
                             (PrimFloat.sub (centerY b) (pr_cy p)) in
      if PrimFloat.leb dist reach then [(dist, bi, pi)] else [])
      (imap pair preds)) (imap pair (gm_boxes g)).

(** The greedy loop over the sorted pairs. *)
Fixpoint greedy (boxes : list Box) (pairs : list (float * nat * nat))
    (assign : list (option Box)) (used : list nat) : list (option Box) :=
  match pairs with
  | [] => assign
  | (_, bi, pi) :: rest =>
      match assign !! pi with
      | Some (Some _) => greedy boxes rest assign used
      | _ =>
          if bool_decide (bi ∈ used) then greedy boxes rest assign used
          else greedy boxes rest (<[pi := boxes !! bi]> assign) (bi :: used)
      end
  end.

Definition greedyAssign (g : GridModel) (preds : list Pred)
    : list (option Box) :=
  greedy (gm_boxes g)
    (sort_by (fun a b => num_lt (fst (fst a)) (fst (fst b)))
             (candidatePairs g preds))
    (replicate EXPECTED None) [].

(** The synthetic fallback box at a predicted cell. *)
Definition syntheticBox (g : GridModel) (p : Pred) : Box :=
  {| box_x := Z2F (clampInt (Math_round (PrimFloat.sub (pr_cx p)
                     (PrimFloat.div (gm_wMed g) (Z2F 2)))) 0 (W - 1));
     box_y := Z2F (clampInt (Math_round (PrimFloat.sub (pr_cy p)
                     (PrimFloat.div (gm_hMed g) (Z2F 2)))) 0 (H - 1));
     box_w := Z2F (clampInt (Math_round (gm_wMed g)) 1 W);
     box_h := Z2F (clampInt (Math_round (gm_hMed g)) 1 H) |}.

(** The two loops over the cells still empty: local search, then the
    synthetic box. *)
Definition fillCell (g : GridModel) (p : Pred) (a : option Box) : Box :=
  match a with
  | Some b => b
  | None =>
      match detectBottleNear (pr_cx p) (pr_cy p) (gm_wMed g) (gm_hMed g) with
      | Some found => found
      | None => syntheticBox g p
      end
  end.

(** The final [assign.map(...)]. *)
Definition finalBox (b : Box) : GridBox :=
  {| gx := clampInt (Math_round (box_x b)) 0 (W - 1);
     gy := clampInt (Math_round (box_y b)) 0 (H - 1);
     gw := clampInt (Math_round (box_w b)) 1 W;
     gh := clampInt (Math_round (box_h b)) 1 H |}.

(** [enforceFixedBottleGrid(cv, bgr, candidates)]. *)
Definition enforceFixedBottleGrid (candidates : list Box) : list GridBox :=
  let g := estimateGrid candidates in
  let preds := predictions g in
  let assign := greedyAssign g preds in
  map finalBox
    (imap (fun pi a => fillCell g (default (mkPred 0 0 PrimFloat.nan PrimFloat.nan)
                                           (preds !! pi)) a) assign).

End Grid.

Definition hypotSqrt (a b : float) : float :=
  PrimFloat.sqrt (PrimFloat.add (PrimFloat.mul a a) (PrimFloat.mul b b)).

(** ** The puzzle solver *)

(** [solver.js] is not among the sources at hand; the page script imports
    [solveBfs], [applyMove] and [contentsToStacksTopBottom] from it.  The
    solver below is written from the specification's section 4.3. *)

Module Solver.

(** A container's stack, bottom first, and a board. *)
Abbreviation Stack := (list Z).
Abbreviation Board := (list (list Z)).

(** Modelled from the spec: a move [(source index, destination index, color
    token, amount)]; [solver.js] is missing. *)
Record Move := mkMove { src : nat; dst : nat; color : Z; amount : nat }.

(** Modelled from the spec: the colour at the top of a stack; [solver.js] is
    missing. *)
Definition topColor (s : list Z) : option Z := last s.

(** Modelled from the spec: "count of contiguous same-color slots from the
    top"; [solver.js] is missing. *)
Fixpoint runFrom (c : Z) (topFirst : list Z) : nat :=
  match topFirst with
  | x :: rest => if x =? c then S (runFrom c rest) else O
  | [] => O
  end.

(** Modelled from the spec: [runLength] of a stack, the length of the run
    of its top colour; [solver.js] is missing. *)
Definition runLength (s : list Z) : nat :=
  match topColor s with
  | Some c => runFrom c (rev s)
  | None => O
  end.

(** Modelled from the spec: the move from [i] to [j], if legal: [i <> j],
    [i] not blocked and not empty, [j] has free capacity and is empty or has
    the same top colour; the amount is
    [min(runLength, capacity - len(dst))]; [solver.js] is missing. *)
Definition moveBetween (capacity : nat) (blocked : gset nat) (b : list (list Z))
    (i j : nat) : option Move :=
  if bool_decide (i = j) then None
  else if bool_decide (i ∈ blocked) then None
  else
    match b !! i, b !! j with
    | Some s, Some t =>
        match topColor s with
        | Some c =>
            if Nat.ltb (length t) capacity &&
               match topColor t with None => true | Some c' => c' =? c end
            then Some {| src := i; dst := j; color := c;
                         amount := Nat.min (runLength s)
                                           (capacity - length t) |}
            else None
        | None => None
        end
    | _, _ => None
    end.

(** Modelled from the spec: applying a move "pops [amount] tokens off [src]
    and pushes them onto [dst]"; [solver.js] is missing. *)
Definition applyMove (b : list (list Z)) (m : Move) : list (list Z) :=
  match b !! src m, b !! dst m with
  | Some s, Some t =>
      <[dst m := t ++ replicate (amount m) (color m)]>
        (<[src m := take (length s - amount m) s]> b)
  | _, _ => b
  end.

(** Modelled from the spec: all legal moves of a state with their successor
    states, "ascending src, then ascending dst"; [solver.js] is missing. *)
Definition successors (capacity : nat) (blocked : gset nat) (b : list (list Z))
    : list (Move * list (list Z)) :=
  flat_map (fun i =>
    flat_map (fun j =>
      match moveBetween capacity blocked b i j with
      | Some m => [(m, applyMove b m)]
      | None => []
      end) (seq 0 (length b))) (seq 0 (length b)).

(** Modelled from the spec: the "mono" goal, "no container mixes two colors,
    regardless of fill level"; [solver.js] is missing. *)
Definition mono (s : list Z) : bool :=
  match s with
  | [] => true
  | c :: rest => forallb (Z.eqb c) rest
  end.

(** Modelled from the spec: the goal predicate holds when every container
    is of one colour; [solver.js] is missing. *)
Definition isGoal (b : list (list Z)) : bool := forallb mono b.

(** Modelled from the spec: the two failure categories, state limit
    exceeded and queue exhausted; [solver.js] is missing. *)
Inductive FailureReason := stateLimitExceeded | queueExhausted.

(** Modelled from the spec: the solver's result
    [{solved, moves, exploredCount, failureReason?}]; [solver.js] is missing. *)
Record SolveResult := mkSolveResult {
  solved : bool;
  moves : list Move;
  exploredCount : nat;
  failureReason : option FailureReason
}.

(** Modelled from the spec: "a successor is enqueued only if its canonical
    encoding has not been visited"; [solver.js] is missing.  Boards are
    compared as values.  An entry of the queue is a state with its
    predecessor link: the moves that led to it, latest first, sharing the
    tail with the entry it was expanded from. *)
Definition enqueue (path : list Move)
    (acc : list (list (list Z) * list Move) * list (list (list Z)))
    (ms : Move * list (list Z))
    : list (list (list Z) * list Move) * list (list (list Z)) :=
  let '(queue, visited) := acc in
  let '(m, t) := ms in
  if bool_decide (t ∈ visited) then (queue, visited)
  else (queue ++ [(t, m :: path)], t :: visited).

(** Modelled from the spec: the breadth-first loop.  The state at the head of
    the queue is dequeued; if it satisfies the goal the search ends at once
    with its path; otherwise it is expanded, which [budget] (what is left of
    [maxStates]) must still allow; [solver.js] is missing. *)
Fixpoint bfs (budget : nat) (capacity : nat) (blocked : gset nat)
    (queue : list (list (list Z) * list Move)) (visited : list (list (list Z)))
    (explored : nat) : SolveResult :=
  match queue with
  | [] => {| solved := false; moves := []; exploredCount := explored;
             failureReason := Some queueExhausted |}
  | (s, path) :: rest =>
      if isGoal s then
        {| solved := true; moves := rev path; exploredCount := explored;
           failureReason := None |}
      else
        match budget with
        | O => {| solved := false; moves := []; exploredCount := explored;
                  failureReason := Some stateLimitExceeded |}
        | S budget' =>
            let '(queue', visited') :=
              fold_left (enqueue path) (successors capacity blocked s)
                        (rest, visited) in
            bfs budget' capacity blocked queue' visited' (S explored)
        end
  end.

(** Modelled from the spec: [solve(initialBoard, maxStates, "mono")] with the
    static [(capacity, blockedSet)]; [solver.js] is missing. *)
Definition solveBfs (initial : list (list Z)) (capacity : nat)
    (blocked : gset nat) (maxStates : nat) : SolveResult :=
  bfs maxStates capacity blocked [(initial, [])] [initial] 0.

End Solver.

(** ** The page script: the solve driver *)

(** The analysis result the page keeps in [parseResult], as far as the
    driver reads it; [add_bottles] is [powerups.add_bottles], a number only
    once the badge has been read. *)
Record ParseResult := mkParseResult {
  capacity : Z;
  rock_bottles : list nat;
  bottle_contents_ids : list (list (option Z));
  add_bottles : option Z
}.

(** [info] with the two fields the driver adds to it. *)
Record SolveInfo := mkSolveInfo {
  info : Solver.SolveResult;
  extraUsed : nat;
  extraAllowed : nat
}.

(** What [solveAndRender] hands to [renderOutput], and the [solveBfs] calls
    it made on the way, in order: the number of extra bottles and the board
    of each call. *)
Record Rendered := mkRendered {
  chosenInitial : list (list Z);
  finalStacks : option (list (list Z));
  chosenInfo : SolveInfo;
  calls : list (nat * list (list Z))
}.

Definition DEFAULT_MAX_STATES : Z := 200000.

(** [getExtraBottlesFromPowerup()]; the badge count is a whole number. *)
Definition getExtraBottlesFromPowerup (parseResult : option ParseResult) : nat :=
  match parseResult with
  | Some r =>
      match add_bottles r with
      | Some n => if 0 <=? n then Z.to_nat n else 0%nat
      | None => 0%nat
      end
  | None => 0%nat
  end.

(** [addExtraEmptyBottles(stacks, extra)]. *)
Definition addExtraEmptyBottles (stacks : list (list Z)) (extra : nat)
    : list (list Z) :=
  map (fun s => s) stacks ++ replicate extra [].

Section Driver.

(** The three imports from [solver.js]; [goalMode] is always ['mono']. *)
Variable solveBfs : list (list Z) -> Z -> gset nat -> Z -> Solver.SolveResult.
Variable applyMove : list (list Z) -> Solver.Move -> list (list Z).
Variable contentsToStacksTopBottom : list (option Z) -> Z -> list Z.

(** The [for (let e = 0; e <= allowedExtra; e++)] loop from [e] on, with
    [remaining = allowedExtra - e]; leaving by [break] makes the current
    attempt the chosen one, running out makes the last attempt the chosen
    one. *)
Fixpoint tryExtras (baseStacks : list (list Z)) (cap : Z) (rockSet : gset nat)
    (maxStates : Z) (allowedExtra remaining e : nat)
    (log : list (nat * list (list Z)))
    : SolveInfo * list (list Z) * list (nat * list (list Z)) :=
  let init := addExtraEmptyBottles baseStacks e in
  let attempt := {| info := solveBfs init cap rockSet maxStates;
                    extraUsed := e; extraAllowed := allowedExtra |} in
  let log' := log ++ [(e, init)] in
  if Solver.solved (info attempt) then (attempt, init, log')
  else
    match remaining with
    | O => (attempt, init, log')
    | S remaining' =>
        tryExtras baseStacks cap rockSet maxStates allowedExtra remaining'
                  (S e) log'
    end.

(** [solveAndRender()]: nothing happens without an analysis result. *)
Definition solveAndRender (parseResult : option ParseResult) : option Rendered :=
  match parseResult with
  | None => None
  | Some r =>
      let cap := capacity r in
      let rockSet : gset nat := list_to_set (rock_bottles r) in
      let maxStates := Z.max 1000 DEFAULT_MAX_STATES in
      let baseStacks :=
        map (fun slots => contentsToStacksTopBottom slots cap)
            (bottle_contents_ids r) in
      let allowedExtra := getExtraBottlesFromPowerup parseResult in
      let '(chosen, initial, log) :=
        tryExtras baseStacks cap rockSet maxStates allowedExtra allowedExtra
                  0 [] in
      Some {| chosenInitial := initial;
              finalStacks :=
                if Solver.solved (info chosen)
                then Some (fold_left applyMove (Solver.moves (info chosen))
                                     initial)
                else None;
              chosenInfo := chosen;
              calls := log |}
  end.

End Driver.

(** ** The vision worker: the message handler *)

(** The fields of an [analyze] message the handler reads; a field that is
    not a number is [None]. *)
Record Message := mkMessage {
  msg_type : string;
  msg_capacity : option Z;
  msg_dbscanEps : option float
}.

(** The fields of the worker's result the page reads, with the palette. *)
Record WorkerResult := mkWorkerResult {
  result : ParseResult;
  num_bottles : nat;
  num_colors : nat;
  colors : list Cluster
}.

(** What the handler posts back. *)
Inductive Reply :=
  | ReplyResult (r : WorkerResult)
  | ReplyError (error : string).

Section Worker.

(** OpenCV and the frame at hand: colour conversion, the candidate boxes the
    contour passes of [detectBottlesRobust] find, the local re-detection,
    the frame size, rock detection (one flag per box) and slot sampling
    (per bottle and slot the index of its sample, if the slot is filled,
    and the samples). *)
Variable cvtColor_BGR2Lab : Bgr -> Lab.
Variable candidateBoxes : list Box.
Variable detectBottleNear : float -> float -> float -> float -> option Box.
Variable Math_hypot : float -> float -> float.
Variables W H : Z.
Variable detectRockBottles : list GridBox -> list bool.
Variable sampleBottleSlots :
  list GridBox -> Z -> list (list (option nat)) * list Bgr.

(** [detectBottlesRobust(cv, bgr)] ends in the grid normalisation. *)
Definition detectBottlesRobust : list GridBox :=
  enforceFixedBottleGrid detectBottleNear Math_hypot W H candidateBoxes.

(** "attach rock and color ids": the colour id of a slot.  Reading
    [clusterInfo[cid].center_hex] for an id without a record throws. *)
Definition slotColor (lbls : list Z) (cinfo : gmap Z Cluster)
    (slot : option nat) : string + option Z :=
  match slot with
  | None => inr None
  | Some idx =>
      match lbls !! idx with
      | Some cid =>
          match cinfo !! cid with
          | Some _ => inr (Some cid)
          | None => inl "TypeError"%string
          end
      | None => inl "TypeError"%string
      end
  end.

(** Run [f] over a list, stopping at the first exception. *)
Fixpoint mapE {A B} (f : A -> string + B) (l : list A) : string + list B :=
  match l with
  | [] => inr []
  | a :: rest =>
      match f a with
      | inl e => inl e
      | inr b => match mapE f rest with
                 | inl e => inl e
                 | inr bs => inr (b :: bs)
                 end
      end
  end.

(** [buildResult(cv, bgr, capacity, dbscanEps)]; [inl] is a thrown error. *)
Definition buildResult (cap : Z) (dbscanEps : float) : string + WorkerResult :=
  let boxes := detectBottlesRobust in
  if Nat.eqb (length boxes) 0 then
    inl "No bottles detected (outline HSV thresholds likely need tuning)."%string
  else
    let rockFlags := detectRockBottles boxes in
    let '(bottles, samplesBgr) := sampleBottleSlots boxes cap in
    let '(rawLabels, clusterInfo0) :=
      clusterColorsDbscan cvtColor_BGR2Lab samplesBgr dbscanEps in
    let merged :=
      mergeClustersToExpectedCount rawLabels clusterInfo0 (Some cap)
                                   (Some dbscanEps) in
    match mapE (mapE (slotColor (labels merged) (clusterInfo merged))) bottles with
    | inl e => inl e
    | inr contents =>
        let ids := sortedIds (clusterInfo merged) in
        inr {| result :=
                 {| capacity := cap;
                    rock_bottles :=
                      omap (fun '(i, f) => if f : bool then Some i else None)
                           (imap pair rockFlags);
                    bottle_contents_ids := contents;
                    add_bottles := None |};
               num_bottles := length bottles;
               num_colors := length ids;
               colors := omap (fun cid => clusterInfo merged !! cid) ids |}
    end.

(** [self.onmessage]: messages of another type are ignored, a busy worker
    answers with an error, and so does an analysis that throws; OpenCV is
    taken to be loaded. *)
Definition onmessage (isBusy : bool) (msg : Message) : option Reply :=
  if negb (String.eqb (msg_type msg) "analyze") then None
  else if isBusy then Some (ReplyError "Worker is busy; please retry.")
  else
    let cap := match msg_capacity msg with
               | Some c => if c >? 0 then c else 4
               | None => 4
               end in
    let eps := match msg_dbscanEps msg with
               | Some e => if PrimFloat.ltb (Z2F 0) e then e else Z2F 16
               | None => Z2F 16
               end in
    match buildResult cap eps with
    | inl e => Some (ReplyError e)
    | inr r => Some (ReplyResult r)
    end.

End Worker.

(** ** The reconciler on the JavaScript heap *)

(** JavaScript passes arrays and objects by reference, and [mergeInto]
    writes into the objects it reaches.  The heap maps references to the
    four kinds of object the call reads or writes: label arrays, centre
    arrays, cluster records and the [clusterInfo] dictionary, whose values
    are references to records. *)
Module Heap.

Abbreviation ref := positive.

(** A cluster record [{ id, count, center_bgr, center_lab, center_hex }];
    the two centres are arrays, held by reference. *)
Record RecordObj := mkRecordObj {
  ro_id : Z;
  ro_count : Z;
  ro_center_bgr : ref;
  ro_center_lab : ref;
  ro_center_hex : string
}.

Inductive Obj :=
  | OLabels (labels : list Z)
  | OTriple (v : F3)
  | ORecord (r : RecordObj)
  | ODict (d : gmap Z ref).

Abbreviation heap := (gmap positive Obj).

(** A computation on the heap; [None] is a [TypeError]: a property read
    from a reference that holds no object of the kind the code expects. *)
Definition M (A : Type) : Type := heap -> option (A * heap).

#[local] Instance heap_ret : MRet M := fun A a h => Some (a, h).

#[local] Instance heap_bind : MBind M :=
  fun A B k m h => match m h with
                   | Some (a, h') => k a h'
                   | None => None
                   end.

(** A new object: it gets a reference no object has. *)
Definition alloc (o : Obj) : M ref :=
  fun h => let l := fresh (dom h) in Some (l, <[l := o]> h).

(** A write into the object at [l]. *)
Definition write (l : ref) (o : Obj) : M unit :=
  fun h => Some (tt, <[l := o]> h).

Definition readLabels (l : ref) : M (list Z) :=
  fun h => match h !! l with Some (OLabels xs) => Some (xs, h) | _ => None end.

Definition readTriple (l : ref) : M F3 :=
  fun h => match h !! l with Some (OTriple v) => Some (v, h) | _ => None end.

Definition readRecord (l : ref) : M RecordObj :=
  fun h => match h !! l with Some (ORecord r) => Some (r, h) | _ => None end.

Definition readDict (l : ref) : M (gmap Z ref) :=
  fun h => match h !! l with Some (ODict d) => Some (d, h) | _ => None end.

(** The record at [l] with its centres read: what [a.count],
    [a.center_bgr[i]], [a.center_lab[i]] give. *)
Definition clusterAt (h : heap) (l : ref) : option Cluster :=
  match h !! l with
  | Some (ORecord r) =>
      match h !! ro_center_bgr r, h !! ro_center_lab r with
      | Some (OTriple bgr), Some (OTriple lab) =>
          Some {| id := ro_id r; count := ro_count r; center_bgr := bgr;
                  center_lab := lab; center_hex := ro_center_hex r |}
      | _, _ => None
      end
  | _ => None
  end.

(** The dictionary as the search of the loop reads it: every key with its
    record.  The search only reads, and of a record it reads the count and
    the Lab centre; here a record is read whole, so a record that lacks a
    centre array is an error already in the search. *)
Definition readClusters (d : gmap Z ref) : M (gmap Z Cluster) :=
  fun h =>
    if bool_decide (map_Forall (fun _ l => is_Some (clusterAt h l)) d)
    then Some (omap (clusterAt h) d, h)
    else None.

(** [labelsIn.slice()]: a new array with the same elements. *)
Definition slice (l : ref) : M ref :=
  xs ← readLabels l; alloc (OLabels xs).

(** [mergeInto(keepId, dropId)] of the closure over [labels] and
    [clusterInfo]: the label array is rewritten in place; with both records
    there, the new count, centres and code are computed from the two
    records (as [absorb] does) and then written into the kept record, the
    centres as new arrays; then the dropped key is deleted from the
    dictionary. *)
Definition mergeInto (labels clusterInfo : ref) (keepId dropId : Z) : M unit :=
  xs ← readLabels labels;
  write labels (OLabels (map (fun l => if l =? dropId then keepId else l) xs));;
  d ← readDict clusterInfo;
  match d !! keepId, d !! dropId with
  | Some a, Some b =>
      ra ← readRecord a;
      abgr ← readTriple (ro_center_bgr ra);
      alab ← readTriple (ro_center_lab ra);
      rb ← readRecord b;
      bbgr ← readTriple (ro_center_bgr rb);
      blab ← readTriple (ro_center_lab rb);
      let c := absorb (mkCluster (ro_id ra) (ro_count ra) abgr alab
                                 (ro_center_hex ra))
                      (mkCluster (ro_id rb) (ro_count rb) bbgr blab
                                 (ro_center_hex rb)) in
      ra1 ← readRecord a;
      write a (ORecord (mkRecordObj (ro_id ra1) (count c) (ro_center_bgr ra1)
                                    (ro_center_lab ra1) (ro_center_hex ra1)));;
      newBgr ← alloc (OTriple (center_bgr c));
      ra2 ← readRecord a;
      write a (ORecord (mkRecordObj (ro_id ra2) (ro_count ra2) newBgr
                                    (ro_center_lab ra2) (ro_center_hex ra2)));;
      newLab ← alloc (OTriple (center_lab c));
      ra3 ← readRecord a;
      write a (ORecord (mkRecordObj (ro_id ra3) (ro_count ra3)
                                    (ro_center_bgr ra3) newLab
                                    (ro_center_hex ra3)));;
      ra4 ← readRecord a;
      write a (ORecord (mkRecordObj (ro_id ra4) (ro_count ra4)
                                    (ro_center_bgr ra4) (ro_center_lab ra4)
                                    (center_hex c)));;
      d' ← readDict clusterInfo;
      write clusterInfo (ODict (delete dropId d'))
  | _, _ => mret tt
  end.

(** The [while] loop; [merges] is the array it pushes to. *)
Fixpoint mergeLoop (fuel : nat) (labels clusterInfo : ref) (cap : Z)
    (maxDist : float) (expected : Z) (merges : list Merge) : M (list Merge) :=
  match fuel with
  | O => mret merges
  | S fuel' =>
      d ← readDict clusterInfo;
      if Z.of_nat (size d) >? expected then
        info ← readClusters d;
        match findBest info cap maxDist with
        | None => mret merges
        | Some best =>
            mergeInto labels clusterInfo (keep best) (drop best);;
            mergeLoop fuel' labels clusterInfo cap maxDist expected
                      (merges ++ [best])
        end
      else mret merges
  end.

(** The returned object, with references where the code returns objects. *)
Record Return := mkReturn {
  ret_labels : ref;
  ret_clusterInfo : ref;
  ret_merges : list Merge;
  ret_expectedColors : option Z
}.

(** [mergeClustersToExpectedCount(labelsIn, clusterInfoIn, capacity,
    dbscanEps)] as a call on references. *)
Definition mergeClustersToExpectedCount (labelsIn clusterInfoIn : ref)
    (capacity : option Z) (dbscanEps : option float) : M Return :=
  labels ← slice labelsIn;
  let clusterInfo := clusterInfoIn in
  xs ← readLabels labels;
  let nSamples := Z.of_nat (length xs) in
  let skip := {| ret_labels := labels; ret_clusterInfo := clusterInfo;
                 ret_merges := []; ret_expectedColors := None |} in
  match positiveCapacity capacity with
  | None => mret skip
  | Some cap =>
      if nSamples =? 0 then mret skip
      else if negb (Z.rem nSamples cap =? 0) then mret skip
      else
        let expected := nSamples / cap in
        let maxDist := mergeCeiling dbscanEps in
        d ← readDict clusterInfo;
        merges ← mergeLoop (size d) labels clusterInfo cap maxDist expected [];
        mret {| ret_labels := labels; ret_clusterInfo := clusterInfo;
               ret_merges := merges; ret_expectedColors := Some expected |}
  end.

End Heap.

(** ** The vision worker: suppression of overlapping candidates and rows *)

(** A detection candidate [{ x, y, w, h, area }]. *)
Record Cand := mkCand { cand_box : Box; cand_area : float }.

(** [iou(a, b)]: intersection over union of two boxes. *)
Definition iou (a b : Box) : float :=
  let ax1 := box_x a in
  let ay1 := box_y a in
  let ax2 := PrimFloat.add (box_x a) (box_w a) in
  let ay2 := PrimFloat.add (box_y a) (box_h a) in
  let bx1 := box_x b in
  let by1 := box_y b in
  let bx2 := PrimFloat.add (box_x b) (box_w b) in
  let by2 := PrimFloat.add (box_y b) (box_h b) in
  let ix1 := Math_max ax1 bx1 in
  let iy1 := Math_max ay1 by1 in
  let ix2 := Math_min ax2 bx2 in
  let iy2 := Math_min ay2 by2 in
  if PrimFloat.leb ix2 ix1 || PrimFloat.leb iy2 iy1 then Z2F 0
  else
    let inter := PrimFloat.mul (PrimFloat.sub ix2 ix1) (PrimFloat.sub iy2 iy1) in
    let union :=
      PrimFloat.sub (PrimFloat.add (boxArea a) (boxArea b)) inter in
    if PrimFloat.leb union (Z2F 0) then Z2F 0 else PrimFloat.div inter union.

(** The suppression loop shared by [detectBottles] and [nmsBoxes]: a
    candidate is selected unless [iou(c, s) >= nmsIou] for a box [s] selected
    before it; [selected.push(c)] appends. *)
Fixpoint suppress {A} (box : A -> Box) (nmsIou : float)
    (cands selected : list A) : list A :=
  match cands with
  | [] => selected
  | c :: rest =>
      if existsb (fun s => PrimFloat.leb nmsIou (iou (box c) (box s))) selected
      then suppress box nmsIou rest selected
      else suppress box nmsIou rest (selected ++ [c])
  end.

(** The comparator [(a, b) => b.area - a.area]: larger areas first. *)
Definition area_gt (a b : Cand) : bool :=
  PrimFloat.ltb (PrimFloat.sub (cand_area b) (cand_area a)) (Z2F 0).

(** [nmsBoxes(candidates, nmsIou)]; a candidate without [area] gets
    [w * h]. *)
Definition nmsBoxes (candidates : list (Box * option float)) (nmsIou : float)
    : list Cand :=
  let boxes :=
    map (fun b => {| cand_box := fst b;
                     cand_area := default (boxArea (fst b)) (snd b) |})
        candidates in
  suppress cand_box nmsIou (sort_by area_gt boxes) [].

(** A row of [clusterRowsByY]: [{ cy, boxes }]. *)
Record Row (A : Type) := mkRow { row_cy : float; row_boxes : list A }.
Arguments mkRow {A} _ _.
Arguments row_cy {A} _.
Arguments row_boxes {A} _.

Section Rows.

Context {A : Type}.
Variable box : A -> Box.

(** The body of the loop of [clusterRowsByY] for the box [b]: it joins the
    first row whose centre is within [eps] of its own, and that row's centre
    becomes the mean of its members' centres; without such a row it opens a
    new one at the end. *)
Fixpoint placeInRow (eps : float) (b : A) (rows : list (Row A))
    : list (Row A) :=
  match rows with
  | [] => [{| row_cy := centerY (box b); row_boxes := [b] |}]
  | row :: rest =>
      if PrimFloat.leb
           (PrimFloat.abs (PrimFloat.sub (centerY (box b)) (row_cy row))) eps
      then
        let bs := row_boxes row ++ [b] in
        {| row_cy :=
             PrimFloat.div
               (fold_left (fun s x => PrimFloat.add s (centerY (box x))) bs
                          (Z2F 0))
               (Z2F (Z.of_nat (length bs)));
           row_boxes := bs |} :: rest
      else row :: placeInRow eps b rest
  end.

(** [clusterRowsByY(boxes, eps)]. *)
Definition clusterRowsByY (boxes : list A) (eps : float) : list (Row A) :=
  let sorted :=
    sort_by (fun a b => num_lt (centerY (box a)) (centerY (box b))) boxes in
  let rows := fold_left (fun rows b => placeInRow eps b rows) sorted [] in
  map (fun row =>
         {| row_cy := row_cy row;
            row_boxes :=
              sort_by (fun a b => num_lt (box_x (box a)) (box_x (box b)))
                      (row_boxes row) |})
      (sort_by (fun a b => num_lt (row_cy a) (row_cy b)) rows).

End Rows.

(** ** The vision worker: contour detection *)

(** The options of [detectBottles]; a missing one takes its default. *)
Record DetectOpts := mkDetectOpts {
  minArea : option float;
  aspectMin : option float;
  aspectMax : option float;
  nmsIou : option float
}.

(** The candidate built from the bounding rectangle of a contour. *)
Definition rectCand (r : GridBox) : Cand :=
  {| cand_box := {| box_x := Z2F (gx r); box_y := Z2F (gy r);
                    box_w := Z2F (gw r); box_h := Z2F (gh r) |};
     cand_area := PrimFloat.mul (Z2F (gw r)) (Z2F (gh r)) |}.

(** The two [continue] tests on a contour: it is kept unless its area is
    below [minArea] or its aspect [h / (w + 1e-6)] is outside the bounds. *)
Definition keepContour (opts : DetectOpts) (r : GridBox) : bool :=
  let area := PrimFloat.mul (Z2F (gw r)) (Z2F (gh r)) in
  let aspect := PrimFloat.div (Z2F (gh r)) (PrimFloat.add (Z2F (gw r)) 1e-6) in
  negb (PrimFloat.ltb area (default (Z2F 40000) (minArea opts))) &&
  negb (PrimFloat.ltb aspect (default (Z2F 2) (aspectMin opts)) ||
        PrimFloat.ltb (default 4.5%float (aspectMax opts)) aspect).

(** The positions that [ordered.indexOf(b)] gives for rows of the given
    lengths laid out one after the other from position [start]. *)
Fixpoint indexRows (lens : list nat) (start : nat) : list (list nat) :=
  match lens with
  | [] => []
  | n :: rest => seq start n :: indexRows rest (start + n)
  end.

(** [detectBottles(cv, bgr, hsvLower, hsvUpper, opts)] from the bounding
    rectangles [rects] of the contours OpenCV finds in the thresholded
    image, in their order: [{ boxes, rows }]. *)
Definition detectBottles (rects : list GridBox) (opts : DetectOpts)
    : list Cand * list (list nat) :=
  let candidates :=
    map rectCand (filter (fun r => keepContour opts r = true) rects) in
  let selected :=
    suppress cand_box (default 0.30%float (nmsIou opts))
             (sort_by area_gt candidates) [] in
  let medH :=
    match selected with
    | [] => Z2F 100
    | _ => at_ (sort_by num_lt (map (fun b => box_h (cand_box b)) selected))
               (Nat.div (length selected) 2)
    end in
  let rowEps := Math_max (Z2F 40) (PrimFloat.mul medH 0.60) in
  let rows := clusterRowsByY cand_box selected rowEps in
  (flat_map row_boxes rows,
   indexRows (map (fun row => length (row_boxes row)) rows) 0).

(** ** The vision worker: detection frame and rescaling *)

(** [maybeDownscaleForDetection(cv, bgr, maxDim)] for a [w] x [h] image: the
    size of the image to detect on and the scale. *)
Definition maybeDownscaleForDetection (w h maxDim : Z) : float * float * float :=
  let m := Z.max w h in
  if m <=? maxDim then (Z2F w, Z2F h, Z2F 1)
  else
    let scale := PrimFloat.div (Z2F maxDim) (Z2F m) in
    (Math_max (Z2F 1) (Math_round (PrimFloat.mul (Z2F w) scale)),
     Math_max (Z2F 1) (Math_round (PrimFloat.mul (Z2F h) scale)),
     scale).

(** The body of the loop of [scaleBoxesToOriginal]. *)
Definition scaleBoxToOriginal (invScale : float) (origW origH : Z) (b : Box)
    : GridBox :=
  let x0 := Math_round (PrimFloat.mul (box_x b) invScale) in
  let y0 := Math_round (PrimFloat.mul (box_y b) invScale) in
  let w0 := Math_round (PrimFloat.mul (box_w b) invScale) in
  let h0 := Math_round (PrimFloat.mul (box_h b) invScale) in
  let pad :=
    Math_max (Z2F 2) (Math_round (PrimFloat.mul (Math_min w0 h0) 0.03)) in
  let x1 := PrimFloat.sub x0 pad in
  let y1 := PrimFloat.sub y0 pad in
  let w1 := PrimFloat.add w0 (PrimFloat.mul pad (Z2F 2)) in
  let h1 := PrimFloat.add h0 (PrimFloat.mul pad (Z2F 2)) in
  let x := clampInt x1 0 (origW - 1) in
  let y := clampInt y1 0 (origH - 1) in
  {| gx := x; gy := y;
     gw := clampInt w1 1 (origW - x); gh := clampInt h1 1 (origH - y) |}.

(** [scaleBoxesToOriginal(boxesSmall, invScale, origW, origH)]. *)
Definition scaleBoxesToOriginal (boxesSmall : list Box) (invScale : float)
    (origW origH : Z) : list GridBox :=
  map (scaleBoxToOriginal invScale origW origH) boxesSmall.

(** An integer box read as a box of [Number]s. *)
Definition boxOfGrid (b : GridBox) : Box :=
  {| box_x := Z2F (gx b); box_y := Z2F (gy b);
     box_w := Z2F (gw b); box_h := Z2F (gh b) |}.

Section Detection.

(** [bgr.cols] and [bgr.rows]. *)
Variables W H : Z.

(** The bounding rectangles of the contours OpenCV finds between two HSV
    bounds in the region [roi] of the frame, resized by [scale] first. *)
Variable contourRects : GridBox -> float -> Z * Z * Z -> Z * Z * Z -> list GridBox.

(** The bounding rectangles of the contours in the top part of the mouth
    mask of a region; [None] when OpenCV throws. *)
Variable mouthRects : GridBox -> option (list GridBox).

Variable Math_hypot : float -> float -> float.

(** The coarse region of interest of [detectBottlesRobust]. *)
Definition coarseRoi : GridBox :=
  let rx := clampInt (Math_round (PrimFloat.mul (Z2F W) 0.14)) 0 (W - 1) in
  let ry := clampInt (Math_round (PrimFloat.mul (Z2F H) 0.12)) 0 (H - 1) in
  {| gx := rx; gy := ry;
     gw := clampInt (Math_round (PrimFloat.mul (Z2F W) 0.72)) 1 (W - rx);
     gh := clampInt (Math_round (PrimFloat.mul (Z2F H) 0.73)) 1 (H - ry) |}.

(** The two threshold passes. *)
Definition passes : list ((Z * Z * Z) * (Z * Z * Z)) :=
  [((85, 18, 80), (140, 255, 255)); ((85, 5, 40), (140, 255, 255))].

(** [detectBottlesRobust] up to its last statement: the [boxes] it hands to
    [enforceFixedBottleGrid]. *)
Definition gridCandidates : list Box :=
  let roi := coarseRoi in
  let '(cols, rows, detScale) :=
    maybeDownscaleForDetection (gw roi) (gh roi) 900 in
  let detInv := PrimFloat.div (Z2F 1) detScale in
  let area := PrimFloat.mul cols rows in
  let minAreaScaled := Math_max (Z2F 8000) (PrimFloat.mul area 0.008) in
  let all :=
    flat_map (fun p =>
      fst (detectBottles (contourRects roi detScale (fst p) (snd p))
             {| minArea := Some minAreaScaled; aspectMin := Some (Z2F 2);
                aspectMax := Some 6.5%float; nmsIou := Some 0.35%float |})) passes in
  let combinedSmall :=
    nmsBoxes (map (fun c => (cand_box c, Some (cand_area c))) all) 0.30 in
  let scaled :=
    if PrimFloat.eqb detScale (Z2F 1) then map cand_box combinedSmall
    else map boxOfGrid
           (scaleBoxesToOriginal (map cand_box combinedSmall) detInv
                                 (gw roi) (gh roi)) in
  map (fun b => {| box_x := PrimFloat.add (box_x b) (Z2F (gx roi));
                   box_y := PrimFloat.add (box_y b) (Z2F (gy roi));
                   box_w := box_w b; box_h := box_h b |}) scaled.

(** The loop of [inferBottleFromMouthOutline] over the contours: the
    rectangle of largest area among those of mouth shape. *)
Definition mouthShaped (wMed hMed : float) (r : GridBox) : bool :=
  let rw := Z2F (gw r) in
  let rh := Z2F (gh r) in
  let area := PrimFloat.mul rw rh in
  let ar := PrimFloat.div rw (PrimFloat.add rh 1e-6) in
  negb (PrimFloat.ltb area (Z2F 60)) &&
  negb (PrimFloat.ltb ar 1.4) &&
  negb (PrimFloat.ltb rw (PrimFloat.mul wMed 0.30) ||
        PrimFloat.ltb (PrimFloat.mul wMed 0.95) rw) &&
  negb (PrimFloat.ltb rh (PrimFloat.mul hMed 0.02) ||
        PrimFloat.ltb (PrimFloat.mul hMed 0.22) rh).

Definition bestMouth (wMed hMed : float) (rects : list GridBox)
    : option GridBox :=
  fst (fold_left
    (fun '(bestRect, bestArea) r =>
       let area := PrimFloat.mul (Z2F (gw r)) (Z2F (gh r)) in
       if mouthShaped wMed hMed r && PrimFloat.ltb bestArea area
       then (Some r, area) else (bestRect, bestArea))
    rects (None, Z2F 0)).

(** [inferBottleFromMouthOutline(cv, roiBgr, offX, offY, fullW, fullH, wMed,
    hMed)] for the region [roi], whose corner is [(offX, offY)]. *)
Definition inferBottleFromMouthOutline (roi : GridBox) (fullW fullH : Z)
    (wMed hMed : float) : option GridBox :=
  match mouthRects roi with
  | None => None
  | Some rects =>
      match bestMouth wMed hMed rects with
      | None => None
      | Some r =>
          let mouthCx :=
            PrimFloat.add (Z2F (gx r)) (PrimFloat.div (Z2F (gw r)) (Z2F 2)) in
          let mouthCy :=
            PrimFloat.add (Z2F (gy r)) (PrimFloat.div (Z2F (gh r)) (Z2F 2)) in
          let absCx := PrimFloat.add (Z2F (gx roi)) mouthCx in
          let absCy := PrimFloat.add (Z2F (gy roi)) mouthCy in
          let bx := clampInt (Math_round (PrimFloat.sub absCx
                       (PrimFloat.div wMed (Z2F 2)))) 0 (fullW - 1) in
          let by_ := clampInt (Math_round (PrimFloat.sub absCy
                       (PrimFloat.mul hMed 0.10))) 0 (fullH - 1) in
          Some {| gx := bx; gy := by_;
                  gw := clampInt (Math_round wMed) 1 (fullW - bx);
                  gh := clampInt (Math_round hMed) 1 (fullH - by_) |}
      end
  end.

(** The search window of [detectBottleNear]. *)
Definition searchWindow (cx cy wMed hMed : float) : GridBox :=
  let winW := PrimFloat.mul wMed 1.9 in
  let winH := PrimFloat.mul hMed 1.9 in
  let x0 := clampInt (Math_round (PrimFloat.sub cx
               (PrimFloat.div winW (Z2F 2)))) 0 (W - 1) in
  let y0 := clampInt (Math_round (PrimFloat.sub cy
               (PrimFloat.div winH (Z2F 2)))) 0 (H - 1) in
  {| gx := x0; gy := y0;
     gw := clampInt (Math_round winW) 1 (W - x0);
     gh := clampInt (Math_round winH) 1 (H - y0) |}.

(** A detected box moved to frame coordinates, and its score. *)
Definition shifted (roi : GridBox) (b : Cand) : Box :=
  {| box_x := PrimFloat.add (box_x (cand_box b)) (Z2F (gx roi));
     box_y := PrimFloat.add (box_y (cand_box b)) (Z2F (gy roi));
     box_w := box_w (cand_box b); box_h := box_h (cand_box b) |}.

Definition score (roi : GridBox) (cx cy wMed hMed : float) (b : Cand) : float :=
  let s := shifted roi b in
  let dist := Math_hypot (PrimFloat.sub (centerX s) cx)
                         (PrimFloat.sub (centerY s) cy) in
  let sizePenalty :=
    PrimFloat.div
      (PrimFloat.abs (PrimFloat.sub (boxArea (cand_box b))
                                    (PrimFloat.mul wMed hMed)))
      (PrimFloat.add (PrimFloat.mul wMed hMed) 1e-6) in
  PrimFloat.add dist (PrimFloat.mul sizePenalty (PrimFloat.mul wMed 0.35)).

(** The loop over the detected boxes: [best] and [bestScore]. *)
Definition bestScored (roi : GridBox) (cx cy wMed hMed : float)
    (boxes : list Cand) : option Box * float :=
  fold_left
    (fun '(best, bestScore) b =>
       let sc := score roi cx cy wMed hMed b in
       if PrimFloat.ltb sc bestScore then (Some (shifted roi b), sc)
       else (best, bestScore))
    boxes (None, PrimFloat.infinity).

(** [detectBottleNear(cv, bgr, cx, cy, wMed, hMed)]. *)
Definition detectBottleNear (cx cy wMed hMed : float) : option Box :=
  let roi := searchWindow cx cy wMed hMed in
  let minA :=
    Math_max (Z2F 2000) (PrimFloat.mul (PrimFloat.mul wMed hMed) 0.20) in
  let boxes :=
    fst (detectBottles (contourRects roi (Z2F 1) (85, 5, 35) (140, 255, 255))
           {| minArea := Some minA; aspectMin := Some (Z2F 2);
              aspectMax := Some 6.5%float; nmsIou := Some 0.30%float |}) in
  match boxes with
  | [] => boxOfGrid <$> inferBottleFromMouthOutline roi W H wMed hMed
  | _ => fst (bestScored roi cx cy wMed hMed boxes)
  end.

End Detection.

(** ** The vision worker: rock piles and slot sampling *)

(** An 8-bit matrix as the code reads it: [rows], [cols] and
    [ucharPtr(y, x)], the bytes from the pixel on. *)
Record Mat := mkMat {
  mat_rows : nat;
  mat_cols : nat;
  ucharPtr : nat -> nat -> list Z
}.

(** [medianOfChannelMat(mat, channelIndex)]. *)
Definition medianOfChannelMat (mat : Mat) (channelIndex : nat) : Z :=
  let vals :=
    flat_map (fun y =>
      map (fun x => default 0 (ucharPtr mat y x !! channelIndex))
          (seq 0 (mat_cols mat))) (seq 0 (mat_rows mat)) in
  let sorted := sort_by Z.ltb vals in
  default 0 (sorted !! Nat.div (length sorted) 2).

(** [medianBgr(mat)] and [medianHsv(mat)]. *)
Definition medianBgr (mat : Mat) : Bgr :=
  (medianOfChannelMat mat 0, medianOfChannelMat mat 1, medianOfChannelMat mat 2).

Definition medianHsv (mat : Mat) : Z * Z * Z :=
  (medianOfChannelMat mat 0, medianOfChannelMat mat 1, medianOfChannelMat mat 2).

(** [isFilledSlot(hsv)]. *)
Definition isFilledSlot (hsv : Z * Z * Z) : bool :=
  let '(_, s, v) := hsv in
  if (175 <=? v) && (s <=? 55) then false
  else if (130 <=? v) && (40 <=? s) then true
  else if (150 <=? s) && (80 <=? v) then true
  else false.

(** What OpenCV reports of the rock mask of a region: its size, the number
    of pixels set, and the area and bounding rectangle of each contour. *)
Record RockMask := mkRockMask {
  rm_rows : Z;
  rm_cols : Z;
  rm_nonZero : Z;
  rm_contours : list (float * GridBox)
}.

Section Rocks.

(** [hsv.cols] and [hsv.rows], and the mask of the region
    [(x, y, w, h)]. *)
Variables W H : Z.
Variable rockMaskOf : Z -> Z -> Z -> Z -> RockMask.

(** The loop that picks the contour of largest area. *)
Definition largestContour (contours : list (float * GridBox)) : option GridBox :=
  fst (fold_left
    (fun '(bestRect, bestArea) c =>
       if PrimFloat.ltb bestArea (fst c) then (Some (snd c), fst c)
       else (bestRect, bestArea))
    contours (None, Z2F 0)).

(** The body of the loop of [detectRockBottles] for one bottle box: its
    flag and its rock box. *)
Definition detectRock (b : GridBox) : bool * option GridBox :=
  let bh := Z2F (gh b) in
  let yStart :=
    clampInt (Math_floor (PrimFloat.add (Z2F (gy b)) (PrimFloat.mul bh 0.70)))
             0 (H - 1) in
  let yEnd :=
    clampInt (Math_floor (PrimFloat.add (PrimFloat.add (Z2F (gy b)) bh)
                                        (PrimFloat.mul bh 0.30)))
             0 H in
  if yEnd <=? yStart then (false, None)
  else
    let mask := rockMaskOf (gx b) yStart (gw b) (yEnd - yStart) in
    let denom := rm_rows mask * rm_cols mask in
    let ratio :=
      if 0 <? denom then PrimFloat.div (Z2F (rm_nonZero mask)) (Z2F denom)
      else Z2F 0 in
    let isRock := PrimFloat.leb 0.06 ratio in
    let rockBox :=
      if isRock then
        match largestContour (rm_contours mask) with
        | Some best =>
            let rw := Z2F (gw best) in
            let rh := Z2F (gh best) in
            let pad :=
              Math_max (Z2F 2)
                (Math_round (PrimFloat.mul (Math_min rw rh) 0.10)) in
            let rx := clampInt (PrimFloat.sub (Z2F (gx b + gx best)) pad)
                               0 (W - 1) in
            let ry := clampInt (PrimFloat.sub (Z2F (yStart + gy best)) pad)
                               0 (H - 1) in
            Some {| gx := rx; gy := ry;
                    gw := clampInt (PrimFloat.add rw (PrimFloat.mul pad (Z2F 2)))
                                   1 (W - rx);
                    gh := clampInt (PrimFloat.add rh (PrimFloat.mul pad (Z2F 2)))
                                   1 (H - ry) |}
        | None => None
        end
      else None in
    (isRock, rockBox).

(** [detectRockBottles(cv, bgr, boxes)]: [{ flags, rockBoxes }]. *)
Definition detectRockBottles (boxes : list GridBox)
    : list bool * list (option GridBox) :=
  (map (fun b => fst (detectRock b)) boxes,
   map (fun b => snd (detectRock b)) boxes).

End Rocks.

(** A slot of a sampled bottle: [{ filled, sample_idx, hsv, bgr }]. *)
Record Slot := mkSlot {
  filled : bool;
  sample_idx : option nat;
  slot_hsv : Z * Z * Z;
  slot_bgr : option Bgr
}.

(** A sampled bottle: [{ bbox, slots, rock }]. *)
Record Bottle := mkBottle {
  bbox : GridBox;
  slots : list Slot;
  rock : bool
}.

(** An entry of [samplePoints]; [colorId] and [colorHex] start as [null]. *)
Record SamplePoint := mkSamplePoint {
  bottleIndex : nat;
  slotIndex : nat;
  sp_x : float;
  sp_y : float
}.

Section Sampling.

(** The regions [hsv.roi(rect)] and [bgr.roi(rect)] of the frame. *)
Variable hsvRoi : float -> float -> float -> float -> Mat.
Variable bgrRoi : float -> float -> float -> float -> Mat.

(** Whether the patch [(px, py, pw, ph)] overlaps the rock box by a tenth
    of its own area or more. *)
Definition overlapsRock (px py pw ph : float) (rb : GridBox) : bool :=
  let ix0 := Math_max px (Z2F (gx rb)) in
  let iy0 := Math_max py (Z2F (gy rb)) in
  let ix1 := Math_min (PrimFloat.add px pw)
                      (PrimFloat.add (Z2F (gx rb)) (Z2F (gw rb))) in
  let iy1 := Math_min (PrimFloat.add py ph)
                      (PrimFloat.add (Z2F (gy rb)) (Z2F (gh rb))) in
  let interW := Math_max (Z2F 0) (PrimFloat.sub ix1 ix0) in
  let interH := Math_max (Z2F 0) (PrimFloat.sub iy1 iy0) in
  let inter := PrimFloat.mul interW interH in
  if PrimFloat.ltb (Z2F 0) inter then
    PrimFloat.leb 0.10
      (PrimFloat.div inter (PrimFloat.add (PrimFloat.mul pw ph) 1e-6))
  else false.

(** The body of the inner loop of [sampleBottleSlots] for slot [si] of
    bottle [bi]; [samplesBgr] is threaded through. *)
Definition sampleSlot (bi : nat) (rb : option GridBox)
    (ix iw iy ih slotH : float) (si : nat) (samplesBgr : list Bgr)
    : Slot * SamplePoint * list Bgr :=
  let cy :=
    Math_round (PrimFloat.add iy
      (PrimFloat.mul (PrimFloat.add (Z2F (Z.of_nat si)) 0.5) slotH)) in
  let y1 := Math_max iy (PrimFloat.sub cy (Z2F 6)) in
  let y2 := Math_min (PrimFloat.add iy ih) (PrimFloat.add cy (Z2F 6)) in
  let ph := Math_max (Z2F 1) (PrimFloat.sub y2 y1) in
  let patchBgr := bgrRoi ix y1 iw ph in
  let patchHsv := hsvRoi ix y1 iw ph in
  let forceEmpty :=
    match rb with
    | Some r => overlapsRock ix y1 iw ph r
    | None => false
    end in
  let medHsv := medianHsv patchHsv in
  let isFilled := if forceEmpty then false else isFilledSlot medHsv in
  let cx := Math_round (PrimFloat.add ix (PrimFloat.div iw (Z2F 2))) in
  let point := {| bottleIndex := bi; slotIndex := si; sp_x := cx; sp_y := cy |} in
  if isFilled then
    let medBgr := medianBgr patchBgr in
    ({| filled := true; sample_idx := Some (length samplesBgr);
        slot_hsv := medHsv; slot_bgr := Some medBgr |},
     point, samplesBgr ++ [medBgr])
  else
    ({| filled := false; sample_idx := None; slot_hsv := medHsv;
        slot_bgr := None |},
     point, samplesBgr).

(** The slots of one bottle, from slot [0] on. *)
Definition sampleBottle (capacity : Z) (bi : nat) (b : GridBox)
    (rb : option GridBox) (samplesBgr : list Bgr)
    : Bottle * list SamplePoint * list Bgr :=
  let bw := Z2F (gw b) in
  let bh := Z2F (gh b) in
  let mx := Math_round (PrimFloat.mul bw 0.28) in
  let top := Math_round (PrimFloat.mul bh 0.18) in
  let bot := Math_round (PrimFloat.mul bh 0.04) in
  let ix := PrimFloat.add (Z2F (gx b)) mx in
  let iw := Math_max (Z2F 1) (PrimFloat.sub bw (PrimFloat.mul (Z2F 2) mx)) in
  let iy := PrimFloat.add (Z2F (gy b)) top in
  let ih := Math_max (Z2F 1) (PrimFloat.sub (PrimFloat.sub bh top) bot) in
  let slotH := PrimFloat.div ih (Z2F capacity) in
  let '(slots, points, samples) :=
    fold_left
      (fun '(slots, points, samples) si =>
         let '(slot, point, samples') :=
           sampleSlot bi rb ix iw iy ih slotH si samples in
         (slots ++ [slot], points ++ [point], samples'))
      (seq 0 (Z.to_nat capacity)) ([], [], samplesBgr) in
  ({| bbox := b; slots := slots; rock := false |}, points, samples).

(** [sampleBottleSlots(cv, bgr, boxes, capacity, rockBoxes)]:
    [{ bottles, samplesBgr, samplePoints }].  The logging under
    [debugSampling] is left out. *)
Definition sampleBottleSlots (boxes : list GridBox) (capacity : Z)
    (rockBoxes : option (list (option GridBox)))
    : list Bottle * list Bgr * list SamplePoint :=
  let '(bottles, points, samples) :=
    fold_left
      (fun '(bottles, points, samples) '(bi, b) =>
         let rb := rockBoxes ≫= fun rbs => mjoin (rbs !! bi) in
         let '(bottle, points', samples') :=
           sampleBottle capacity bi b rb samples in
         (bottles ++ [bottle], points ++ points', samples'))
      (imap pair boxes) ([], [], []) in
  (bottles, samples, points).

End Sampling.

(** What the attaching loop of [buildResult] reads of a slot: the sample
    index when [slot.filled && slot.sample_idx !== null]. *)
Definition slotSample (s : Slot) : option nat :=
  if filled s then sample_idx s else None.

(** ** The vision worker: the analysis with its own detectors *)

Section Analysis.

Variable cvtColor_BGR2Lab : Bgr -> Lab.
Variables W H : Z.
Variable contourRects : GridBox -> float -> Z * Z * Z -> Z * Z * Z -> list GridBox.
Variable mouthRects : GridBox -> option (list GridBox).
Variable Math_hypot : float -> float -> float.
Variable rockMaskOf : Z -> Z -> Z -> Z -> RockMask.
Variable hsvRoi : float -> float -> float -> float -> Mat.
Variable bgrRoi : float -> float -> float -> float -> Mat.

(** The calls of [buildResult] to [detectRockBottles] and to
    [sampleBottleSlots], which gets the rock boxes of the former. *)
Definition rockFlagsOf (boxes : list GridBox) : list bool :=
  fst (detectRockBottles W H rockMaskOf boxes).

Definition sampledSlots (boxes : list GridBox) (capacity : Z)
    : list (list (option nat)) * list Bgr :=
  let '(bottles, samplesBgr, _) :=
    sampleBottleSlots hsvRoi bgrRoi boxes capacity
      (Some (snd (detectRockBottles W H rockMaskOf boxes))) in
  (map (fun b => map slotSample (slots b)) bottles, samplesBgr).

(** [buildResult(cv, bgr, capacity, dbscanEps)] with the worker's own
    detection, rock test and sampling. *)
Definition buildResultOnFrame (cap : Z) (dbscanEps : float)
    : string + WorkerResult :=
  buildResult cvtColor_BGR2Lab (gridCandidates W H contourRects)
    (detectBottleNear W H contourRects mouthRects Math_hypot) Math_hypot W H
    rockFlagsOf sampledSlots cap dbscanEps.

End Analysis.

(** ** JavaScript strings *)

(** A string is a sequence of UTF-16 code units; [string] holds the ones
    below 256, which is all the page's colour codes and labels use. *)
Module JSString.

(** The white space and line terminators below 256, which [trim] and
    [parseInt] skip: TAB, LF, VT, FF, CR, SP and NBSP. *)
Definition isWhiteSpace (c : ascii) : bool :=
  let n := nat_of_ascii c in
  (Nat.leb 9 n && Nat.leb n 13) || Nat.eqb n 32 || Nat.eqb n 160.

Fixpoint trimStart (s : string) : string :=
  match s with
  | String c rest => if isWhiteSpace c then trimStart rest else s
  | EmptyString => EmptyString
  end.

Fixpoint trimEnd (s : string) : string :=
  match s with
  | String c rest =>
      match trimEnd rest with
      | EmptyString => if isWhiteSpace c then EmptyString
                       else String c EmptyString
      | rest' => String c rest'
      end
  | EmptyString => EmptyString
  end.

(** [s.trim()]. *)
Definition trim (s : string) : string := trimEnd (trimStart s).

(** [s.replace(c, '')] for a one-character pattern: the first occurrence
    goes. *)
Fixpoint removeFirst (c : ascii) (s : string) : string :=
  match s with
  | String x rest => if Ascii.eqb x c then rest else String x (removeFirst c rest)
  | EmptyString => EmptyString
  end.

(** The value of a hexadecimal digit. *)
Definition hexDigitValue (c : ascii) : option Z :=
  let n := Z.of_nat (nat_of_ascii c) in
  if (48 <=? n) && (n <=? 57) then Some (n - 48)
  else if (65 <=? n) && (n <=? 70) then Some (n - 55)
  else if (97 <=? n) && (n <=? 102) then Some (n - 87)
  else None.

(** The value of the longest prefix of hexadecimal digits, if it is not
    empty. *)
Fixpoint hexPrefix (s : string) (acc : option Z) : option Z :=
  match s with
  | String c rest =>
      match hexDigitValue c with
      | Some v => hexPrefix rest (Some (16 * default 0 acc + v))
      | None => acc
      end
  | EmptyString => acc
  end.

(** [parseInt(s, 16)]: leading white space, a sign and a [0x] prefix are
    skipped, then the longest run of digits counts; without a digit the
    result is NaN.  The value is exact up to 2^53, that is for up to 13
    digits. *)
Definition parseInt16 (s : string) : float :=
  let s1 := trimStart s in
  let '(negative, s2) :=
    match s1 with
    | String "-" rest => (true, rest)
    | String "+" rest => (false, rest)
    | _ => (false, s1)
    end in
  let s3 :=
    match s2 with
    | String "0" (String "x" rest) => rest
    | String "0" (String "X" rest) => rest
    | _ => s2
    end in
  match hexPrefix s3 None with
  | Some v => if negative then PrimFloat.opp (Z2F v) else Z2F v
  | None => PrimFloat.nan
  end.

End JSString.

(** ** The page script: colour codes *)

(** [hexToRgb(hex)] of [main.js]: [{ r, g, b }]; [String(hex || '')] makes a
    missing argument the empty string. *)
Definition hexToRgb (hex : option string) : float * float * float :=
  let h := JSString.trim (JSString.removeFirst "#" (default EmptyString hex)) in
  if negb (Nat.eqb (String.length h) 6) then (Z2F 0, Z2F 0, Z2F 0)
  else (JSString.parseInt16 (substring 0 2 h),
        JSString.parseInt16 (substring 2 2 h),
        JSString.parseInt16 (substring 4 2 h)).

(** ** The page script: editing the detected palette *)

Module Page.

(** A slot of [parseResult.bottles[i].slots], as far as the page reads
    it. *)
Record Slot := mkSlot {
  filled : bool;
  color_id : option Z;
  color_hex : option string
}.

(** [parseResult] as the palette editing reads and writes it.  The keys of
    [colors_by_id] and [color_unit_counts] are the decimal forms of cluster
    ids, so they are [Z] here; [color_unit_counts], [colors] and [bottles]
    may be missing. *)
Record ParseResult := mkParseResult {
  capacity : Z;
  colors_by_id : gmap Z string;
  color_unit_counts : option (gmap Z Z);
  colors : option (list Cluster);
  bottle_contents_ids : list (list (option Z));
  bottle_contents_hex : list (list (option string));
  bottles : option (list (list Slot));
  num_colors : nat
}.

(** [x | 0] for an integer [x]. *)
Definition int32 (x : Z) : Z := (x + 2 ^ 31) mod 2 ^ 32 - 2 ^ 31.

(** [colorsById[String(cid)] || null]. *)
Definition hexOf (colorsById : gmap Z string) (cid : Z) : option string :=
  match colorsById !! cid with
  | Some EmptyString => None
  | o => o
  end.

(** The rebuilt [bottle_contents_hex]. *)
Definition contentsHex (colorsById : gmap Z string)
    (ids : list (list (option Z))) : list (list (option string)) :=
  map (map (fun cid => cid ≫= hexOf colorsById)) ids.

(** The centre used for a colour: the worker's, or else the one read back
    from the hex code, as [[b, g, r]]. *)
Definition bgrOf (info : option Cluster) (hex : option string) : F3 :=
  match info with
  | Some c => center_bgr c
  | None => let '(r, g, b) := hexToRgb hex in (b, g, r)
  end.

(** An update of the first element that satisfies [p], which is the
    element [find] returns. *)
Fixpoint updateFirst {A} (p : A -> bool) (f : A -> A) (l : list A) : list A :=
  match l with
  | [] => []
  | x :: rest => if p x then f x :: rest else x :: updateFirst p f rest
  end.

(** [mergeDetectedColors(keepId, dropId)]: its effect on [parseResult].
    The ids are integers; the labels are rebuilt and the page is drawn again
    from the new [parseResult] afterwards. *)
Definition mergeDetectedColors (keepId dropId : Z)
    (parseResult : option ParseResult) : option ParseResult :=
  match parseResult with
  | None => None
  | Some pr =>
      let colorsById := colors_by_id pr in
      let k := keepId in
      let d := dropId in
      if k =? d then Some pr
      else if negb (bool_decide (is_Some (colorsById !! k))) ||
              negb (bool_decide (is_Some (colorsById !! d))) then Some pr
      else
        let counts := default ∅ (color_unit_counts pr) in
        let cK := int32 (default 0 (counts !! k)) in
        let cD := int32 (default 0 (counts !! d)) in
        let total := cK + cD in
        let infoK := colors pr ≫= find (fun c => id c =? k) in
        let infoD := colors pr ≫= find (fun c => id c =? d) in
        let bgrK := bgrOf infoK (colorsById !! k) in
        let bgrD := bgrOf infoD (colorsById !! d) in
        let wK := if 0 <? total then PrimFloat.div (Z2F cK) (Z2F total)
                  else 0.5%float in
        let wD := if 0 <? total then PrimFloat.div (Z2F cD) (Z2F total)
                  else 0.5%float in
        let '(mb, mg, mr) := mix3 wK wD bgrK bgrD in
        let mergedHex := bgrToHex mb mg mr in
        let colorsById' := delete d (<[k := mergedHex]> colorsById) in
        let ids' :=
          map (map (fun cid => if bool_decide (cid = Some d) then Some k
                               else cid))
              (bottle_contents_ids pr) in
        Some {|
          capacity := capacity pr;
          colors_by_id := colorsById';
          color_unit_counts :=
            (fun c => delete d (<[k := total]> c)) <$> color_unit_counts pr;
          colors :=
            (fun cs =>
               filter (fun c => id c <> d)
                 (updateFirst (fun c => id c =? k)
                    (fun c => {| id := id c; count := total;
                                 center_bgr := (mb, mg, mr);
                                 center_lab := center_lab c;
                                 center_hex := mergedHex |}) cs))
            <$> colors pr;
          bottle_contents_ids := ids';
          bottle_contents_hex := contentsHex colorsById' ids';
          bottles :=
            map (map (fun s =>
              if filled s then
                let cid := if bool_decide (color_id s = Some d) then Some k
                           else color_id s in
                {| filled := true; color_id := cid;
                   color_hex :=
                     if bool_decide (cid = Some k)
                     then match mergedHex with
                          | EmptyString => color_hex s
                          | _ => Some mergedHex
                          end
                     else color_hex s |}
              else s)) <$> bottles pr;
          num_colors := size colorsById'
        |}
  end.

(** [deleteDetectedColor(colorId)]: its effect on [parseResult]. *)
Definition deleteDetectedColor (colorId : Z)
    (parseResult : option ParseResult) : option ParseResult :=
  match parseResult with
  | None => None
  | Some pr =>
      let d := colorId in
      let colorsById := colors_by_id pr in
      if negb (bool_decide (is_Some (colorsById !! d))) then Some pr
      else
        let colorsById' := delete d colorsById in
        let ids' :=
          map (map (fun cid => if bool_decide (cid = Some d) then None
                               else cid))
              (bottle_contents_ids pr) in
        Some {|
          capacity := capacity pr;
          colors_by_id := colorsById';
          color_unit_counts := delete d <$> color_unit_counts pr;
          colors := filter (fun c => id c <> d) <$> colors pr;
          bottle_contents_ids := ids';
          bottle_contents_hex := contentsHex colorsById' ids';
          bottles :=
            map (map (fun s =>
              if bool_decide (color_id s = Some d)
              then {| filled := false; color_id := None; color_hex := None |}
              else s)) <$> bottles pr;
          num_colors := size colorsById'
        |}
  end.

End Page.

(** ** The page script: the layout of the final board *)

(** [buildLayoutForFinal(layoutRows, origBottleCount, extraBottles)]: the
    extra bottles go to the end of the last row.  With extra bottles and no
    row at all, [lastRow] is [undefined] and the [push] throws, which is
    [None]. *)
Definition buildLayoutForFinal (layoutRows : list (list nat))
    (origBottleCount extraBottles : nat) : option (list (list nat)) :=
  if Nat.leb extraBottles 0 then Some layoutRows
  else
    match last layoutRows with
    | None => None
    | Some lastRow =>
        Some (removelast layoutRows
              ++ [lastRow ++ map (fun k => (origBottleCount + k)%nat)
                                 (seq 0 extraBottles)])
    end.

(** The two layouts of [renderOutput]: [parseResult.layout?.rows], or one
    row of all the bottles, and the layout of the final board for
    [addBottles] extra bottles. *)
Definition layouts (rows : option (list (list nat))) (num_bottles : nat)
    (addBottles : nat) : list (list nat) * option (list (list nat)) :=
  let layout := default [seq 0 num_bottles] rows in
  (layout, buildLayoutForFinal layout num_bottles addBottles).

(** ** The vision worker: the power-up badges *)

(** A contour of the red mask, as [detectRedBadges] reads it: its bounding
    rectangle, [cv.arcLength(cnt, true)] and [cv.contourArea(cnt)]. *)
Record Contour := mkContour {
  boundingRect : GridBox;
  arcLength : float;
  contourArea : float
}.

Definition Math_PI : float := 3.141592653589793%float.

Definition rectArea (r : GridBox) : Z := gw r * gh r.

(** The tests of the contour loop: [true] when the contour is pushed to
    [candidates]; [H] is the number of rows of the frame. *)
Definition badgeShaped (H : Z) (cnt : Contour) : bool :=
  let rect := boundingRect cnt in
  let area := rectArea rect in
  if (area <? 3500) || (25000 <? area) then false
  else if PrimFloat.ltb (Z2F (gy rect)) (PrimFloat.mul (Z2F H) 0.65) then false
  else
    let peri := arcLength cnt in
    let cArea := contourArea cnt in
    let circ :=
      if PrimFloat.leb peri 0 then 0%float
      else PrimFloat.div (PrimFloat.mul (PrimFloat.mul 4.0 Math_PI) cArea)
                         (PrimFloat.mul peri peri) in
    let ar := PrimFloat.div (Z2F (gw rect))
                            (PrimFloat.add (Z2F (gh rect)) 1e-6) in
    if PrimFloat.ltb circ 0.45 then false
    else if PrimFloat.ltb ar 0.7 || PrimFloat.ltb 1.3 ar then false
    else true.

(** [detectRedBadges], from the contours of the red mask on: the three
    largest candidates, ordered from left to right. *)
Definition detectRedBadges (H : Z) (contours : list Contour) : list GridBox :=
  let candidates := map boundingRect (filter (fun c => badgeShaped H c = true)
                                             contours) in
  let boxes :=
    take 3 (sort_by (fun a b => rectArea b <? rectArea a) candidates) in
  sort_by (fun a b => gx a <? gx b) boxes.

(** ** colors.js: names and abbreviations for the palette *)

Module Colors.

(** [x % y] on numbers: the remainder of the truncating division, computed
    on the exact values, with the sign of [x]. *)
Definition Number_rem (x y : float) : float :=
  if is_nan x || is_nan y then PrimFloat.nan
  else
    match mant_exp x, mant_exp y with
    | Some (n, e), Some (d, f) =>
        let E := Z.min e f in
        let r := Z.rem (n * 2 ^ (e - E)) (d * 2 ^ (f - E)) in
        if r =? 0
        then (if n <? 0 then PrimFloat.opp PrimFloat.zero else PrimFloat.zero)
        else Z.ldexp (Z2F r) E
    | Some _, None =>
        if PrimFloat.eqb y PrimFloat.zero then PrimFloat.nan else x
    | None, _ =>
        if PrimFloat.eqb x PrimFloat.zero
        then (if PrimFloat.eqb y PrimFloat.zero then PrimFloat.nan else x)
        else PrimFloat.nan
    end.

Record Hsv := mkHsv { hsv_h : float; hsv_s : float; hsv_v : float }.

(** [rgbToHsv(r, g, b)]. *)
Definition rgbToHsv (r g b : float) : Hsv :=
  let rf := PrimFloat.div r 255 in
  let gf := PrimFloat.div g 255 in
  let bf := PrimFloat.div b 255 in
  let max := Math_max (Math_max rf gf) bf in
  let min := Math_min (Math_min rf gf) bf in
  let d := PrimFloat.sub max min in
  let h :=
    if negb (PrimFloat.eqb d 0)
    then
      let h0 :=
        if PrimFloat.eqb max rf
        then Number_rem (PrimFloat.div (PrimFloat.sub gf bf) d) 6
        else if PrimFloat.eqb max gf
        then PrimFloat.add (PrimFloat.div (PrimFloat.sub bf rf) d) 2
        else PrimFloat.add (PrimFloat.div (PrimFloat.sub rf gf) d) 4 in
      let h1 := PrimFloat.mul h0 60 in
      if PrimFloat.ltb h1 0 then PrimFloat.add h1 360 else h1
    else 0%float in
  let s := if PrimFloat.eqb max 0 then 0%float else PrimFloat.div d max in
  {| hsv_h := h; hsv_s := s; hsv_v := max |}.

Definition isBrownish (hsv : Hsv) : bool :=
  PrimFloat.leb 0.25 (hsv_s hsv) && PrimFloat.leb (hsv_v hsv) 0.55 &&
  (PrimFloat.leb 10 (hsv_h hsv) && PrimFloat.leb (hsv_h hsv) 45).

(** The colour of a code: [rgbToHsv] of its [hexToRgb]. *)
Definition hsvOfHex (hex : string) : Hsv :=
  let '(r, g, b) := hexToRgb (Some hex) in rgbToHsv r g b.

(** [guessColorName(hex)]. *)
Definition guessColorName (hex : string) : string :=
  let hsv := hsvOfHex hex in
  let h := hsv_h hsv in
  let s := hsv_s hsv in
  let v := hsv_v hsv in
  if PrimFloat.ltb v 0.10 then "Black"
  else if PrimFloat.ltb s 0.10 && PrimFloat.ltb 0.90 v then "White"
  else if PrimFloat.ltb s 0.12 then "Gray"
  else if isBrownish hsv then "Brown"
  else if PrimFloat.leb 200 h && PrimFloat.ltb h 255 && PrimFloat.leb s 0.55
          && PrimFloat.leb 0.55 v then "Periwinkle"
  else if PrimFloat.leb 295 h && PrimFloat.ltb h 345 && PrimFloat.leb 0.75 v
  then "Pink"
  else if PrimFloat.ltb h 12 || PrimFloat.leb 345 h then "Red"
  else if PrimFloat.ltb h 35 then "Orange"
  else if PrimFloat.ltb h 65 then "Yellow"
  else if PrimFloat.ltb h 95 then "Lime"
  else if PrimFloat.ltb h 150 then "Green"
  else if PrimFloat.ltb h 190 then "Cyan"
  else if PrimFloat.ltb h 220 then "Sky"
  else if PrimFloat.ltb h 255 then "Blue"
  else if PrimFloat.ltb h 285 then "Periwinkle"
  else if PrimFloat.ltb h 315 then "Purple"
  else if PrimFloat.ltb h 345 then "Pink"
  else "Color".

(** [c.toUpperCase()] for one character of an ASCII name. *)
Definition upperChar (c : ascii) : ascii :=
  let n := nat_of_ascii c in
  if Nat.leb 97 n && Nat.leb n 122 then ascii_of_nat (n - 32) else c.

(** [s.toUpperCase()] for an ASCII name, which is what
    [guessColorName] returns. *)
Fixpoint toUpperCase (s : string) : string :=
  match s with
  | String c rest => String (upperChar c) (toUpperCase rest)
  | EmptyString => EmptyString
  end.

(** [s.replace(/[^A-Z]/g, '')]. *)
Fixpoint lettersOnly (s : string) : string :=
  match s with
  | String c rest =>
      let n := nat_of_ascii c in
      if Nat.leb 65 n && Nat.leb n 90 then String c (lettersOnly rest)
      else lettersOnly rest
  | EmptyString => EmptyString
  end.

Fixpoint repeatChar (c : ascii) (n : nat) : string :=
  match n with
  | O => EmptyString
  | S n' => String c (repeatChar c n')
  end.

(** [s.padEnd(n, c)]. *)
Definition padEnd (n : nat) (c : ascii) (s : string) : string :=
  (s ++ repeatChar c (n - String.length s))%string.

(** [abbrForName(name)]. *)
Definition abbrForName (name : string) : string :=
  let n := toUpperCase name in
  if String.prefix "ORANGE" n then "ORA"
  else if String.prefix "YELLOW" n then "YEL"
  else if String.prefix "LIME" n then "LIM"
  else if String.prefix "GREEN" n then "GRE"
  else if String.prefix "CYAN" n then "CYA"
  else if String.prefix "SKY" n then "SKY"
  else if String.prefix "BLUE" n then "BLU"
  else if String.prefix "PERIWINKLE" n then "PER"
  else if String.prefix "PURPLE" n then "PUR"
  else if String.prefix "PINK" n then "PIN"
  else if String.prefix "MAGENTA" n then "MAG"
  else if String.prefix "RED" n then "RED"
  else if String.prefix "BROWN" n then "BRO"
  else if String.prefix "GRAY" n then "GRY"
  else if String.prefix "WHITE" n then "WHT"
  else if String.prefix "BLACK" n then "BLK"
  else padEnd 3 "X" (substring 0 3 (lettersOnly n)).

(** [String(idx)] for a count. *)
Definition String_ (idx : nat) : string :=
  NilZero.string_of_uint (Nat.to_uint idx).

(** What [buildColorLabels] returns. *)
Record ColorLabels := mkColorLabels {
  namesById : gmap Z string;
  abbrById : gmap Z string;
  orderedIds : list Z
}.

(** [x || y] on numbers: [y] when [x] is 0 or NaN. *)
Definition orElse (x y : float) : float :=
  if PrimFloat.eqb x 0 || is_nan x then y else x.

Section Labels.

(** The palette, [{ "0": "#RRGGBB", ... }]. *)
Variable colorsById : gmap Z string.

(** [Object.keys(colorsById).map((k) => parseInt(k, 10)).sort((a, b) => a - b)]. *)
Definition ids : list Z := merge_sort Z.le (map fst (map_to_list colorsById)).

(** [hsvById]; every id of [ids] has an entry, and [hsvById.get(id)] is
    only used for those. *)
Definition hsvById : gmap Z Hsv := hsvOfHex <$> colorsById.

Definition hsvGet (id : Z) : Hsv :=
  default (mkHsv PrimFloat.nan PrimFloat.nan PrimFloat.nan) (hsvById !! id).

(** [rawNames.get(id)], for an id of [ids]. *)
Definition nameGet (rawNames : gmap Z string) (id : Z) : string :=
  default EmptyString (rawNames !! id).

(** The ids whose raw name is [a] or [b]. *)
Definition group (a b : string) (rawNames : gmap Z string) : list Z :=
  filter (fun id => nameGet rawNames id = a \/ nameGet rawNames id = b) ids.

(** The two blocks that resolve near-duplicates share this shape: with two
    or more ids in the sorted group, the first gets [firstName], the last
    [lastName], and the ones between the name [middle] picks. *)
Definition renameGroup (firstName lastName : string) (middle : Hsv -> string)
    (sorted : list Z) (rawNames : gmap Z string) : gmap Z string :=
  if Nat.leb 2 (length sorted) then
    let firstId := hd 0 sorted in
    let lastId := List.last sorted 0 in
    fold_left (fun names id => <[id := middle (hsvGet id)]> names)
              (removelast (tl sorted))
              (<[lastId := lastName]> (<[firstId := firstName]> rawNames))
  else rawNames.

(** Least saturated first, then brightest first. *)
Definition blueBefore (a b : Z) : bool :=
  PrimFloat.ltb
    (orElse (PrimFloat.sub (hsv_s (hsvGet a)) (hsv_s (hsvGet b)))
            (PrimFloat.sub (hsv_v (hsvGet b)) (hsv_v (hsvGet a)))) 0.

(** Brightest first, then lowest hue first. *)
Definition greenBefore (a b : Z) : bool :=
  PrimFloat.ltb
    (orElse (PrimFloat.sub (hsv_v (hsvGet b)) (hsv_v (hsvGet a)))
            (PrimFloat.sub (hsv_h (hsvGet a)) (hsv_h (hsvGet b)))) 0.

(** [rawNames] after the two blocks. *)
Definition rawNames : gmap Z string :=
  let names0 : gmap Z string := guessColorName <$> colorsById in
  let names1 :=
    renameGroup "Periwinkle"%string "Blue"%string
      (fun hsv => if PrimFloat.leb (hsv_s hsv) 0.55 then "Periwinkle"%string
                  else "Blue"%string)
      (sort_by blueBefore (group "Blue"%string "Periwinkle"%string names0))
      names0 in
  renameGroup "Lime"%string "Green"%string
    (fun hsv => if PrimFloat.leb 0.6 (hsv_v hsv) then "Lime"%string
                else "Green"%string)
    (sort_by greenBefore (group "Green"%string "Lime"%string names1)) names1.

(** [counts]: how many ids have each name. *)
Definition countNames (names : gmap Z string) : gmap string nat :=
  fold_left (fun counts id =>
               let n := nameGet names id in
               <[n := (default 0 (counts !! n) + 1)%nat]> counts)
            ids ∅.

(** The state of the last loop: [seen], [namesById] and [abbrById]. *)
Definition labelStep (names : gmap Z string) (counts : gmap string nat)
    (st : gmap string nat * gmap Z string * gmap Z string) (id : Z)
    : gmap string nat * gmap Z string * gmap Z string :=
  let '(seen, namesById, abbrById) := st in
  let base := nameGet names id in
  let total := default 1%nat (counts !! base) in
  if Nat.leb total 1 then
    (seen, <[id := base]> namesById, <[id := abbrForName base]> abbrById)
  else
    let idx := (default 0 (seen !! base) + 1)%nat in
    let name := (base ++ " " ++ String_ idx)%string in
    let baseAbbr := abbrForName base in
    let suffix := String_ idx in
    (<[base := idx]> seen, <[id := name]> namesById,
     <[id := padEnd 3 " " (substring 0 2 baseAbbr ++ suffix)]> abbrById).

(** [buildColorLabels(colorsById)]. *)
Definition buildColorLabels : ColorLabels :=
  let names := rawNames in
  let counts := countNames names in
  let '(_, namesById, abbrById) :=
    fold_left (labelStep names counts) ids (∅, ∅, ∅) in
  {| namesById := namesById; abbrById := abbrById; orderedIds := ids |}.

End Labels.

End Colors.

(** * Part II: verification *)

(** ** Flood fill computes the connected components of the eps-graph *)

Section FloodFill.

Variable labs : list Lab.
Variable eps : float.

Lemma dist_sym (a b : Lab) : dist a b = dist b a.
Proof.
  destruct a as [[a0 a1] a2], b as [[b0 b1] b2]; unfold dist.
  do 2 f_equal. ring.
Qed.

Lemma near_sym (p j : nat) : near labs eps p j = near labs eps j p.
Proof.
  unfold near. destruct (labs !! p), (labs !! j); try reflexivity.
  by rewrite dist_sym.
Qed.

Lemma near_lt (p j : nat) : near labs eps p j = true -> (j < length labs)%nat.
Proof.
  unfold near. destruct (labs !! p); [|done].
  destruct (labs !! j) eqn:Hj; [|done]. intros _. by eapply lookup_lt_Some.
Qed.

(** Two indices are linked when a chain of samples joins them, each hop
    between samples at distance at most [eps]. *)
Inductive chain : nat -> nat -> Prop :=
  | chain_here i : chain i i
  | chain_hop i j k : near labs eps i j = true -> chain j k -> chain i k.

Lemma chain_trans i j k : chain i j -> chain j k -> chain i k.
Proof. induction 1; eauto using chain. Qed.

Lemma chain_one i j : near labs eps i j = true -> chain i j.
Proof. eauto using chain. Qed.

Lemma chain_sym i j : chain i j -> chain j i.
Proof.
  induction 1; [constructor|].
  eapply chain_trans; [eassumption|]. apply chain_one. by rewrite near_sym.
Qed.

(** Number of entries still at [-1]. *)
Fixpoint unl (labels : list Z) : nat :=
  match labels with
  | [] => 0
  | l :: rest => Nat.add (if l =? -1 then 1%nat else 0%nat) (unl rest)
  end.

Lemma unl_insert (labels : list Z) (j : nat) (c : Z) :
  labels !! j = Some (-1) -> c <> -1 ->
  S (unl (<[j := c]> labels)) = unl labels.
Proof.
  revert j. induction labels as [|x l IH]; intros [|j] Hj Hc; simplify_eq/=.
  - destruct (Z.eqb_spec c (-1)); [done|lia].
  - specialize (IH j Hj Hc). lia.
Qed.

Lemma unl_le (labels : list Z) : (unl labels <= length labels)%nat.
Proof. induction labels as [|x l IH]; simpl; [lia|]. destruct (x =? -1); lia. Qed.

Lemma labelled_false (labels : list Z) (j : nat) :
  labelled labels j = false <-> labels !! j = Some (-1).
Proof.
  unfold labelled. destruct (labels !! j) as [l|]; [|done].
  destruct (Z.eqb_spec l (-1)); naive_solver.
Qed.

Lemma labelled_true (labels : list Z) (j : nat) :
  labelled labels j = true <-> labels !! j <> Some (-1).
Proof.
  rewrite <- labelled_false. destruct (labelled labels j); naive_solver.
Qed.

(** The invariant of the fill with id [c]; [open] are the indices whose
    neighbourhood has not been scanned to the end yet. *)
Record FillInv (c : Z) (labels : list Z) (open : list nat) : Prop := {
  fi_closed : forall i li j,
    labels !! i = Some li -> li <> -1 -> i ∉ open ->
    near labs eps i j = true -> labels !! j = Some li;
  fi_chain : forall i j l,
    labels !! i = Some l -> labels !! j = Some l -> l <> -1 -> chain i j;
  fi_open : forall q, q ∈ open -> labels !! q = Some c;
  fi_range : forall i l, labels !! i = Some l -> -1 <= l <= c;
  fi_length : length labels = length labs
}.

(** Labels are only ever written over [-1]. *)
Record grows (labels labels' : list Z) : Prop := {
  grows_length : length labels' = length labels;
  grows_keep : forall i l, labels !! i = Some l -> l <> -1 -> labels' !! i = Some l
}.

Lemma grows_refl labels : grows labels labels.
Proof. by split. Qed.

Lemma grows_trans l1 l2 l3 : grows l1 l2 -> grows l2 l3 -> grows l1 l3.
Proof. intros [? H1] [? H2]. split; [congruence|]. eauto. Qed.

Lemma grows_insert labels j c :
  labels !! j = Some (-1) -> grows labels (<[j := c]> labels).
Proof.
  intros Hj. split; [apply length_insert|].
  intros i l Hi Hl. rewrite list_lookup_insert_ne; [done|]. congruence.
Qed.

Lemma fill_label_step (c : Z) (p j : nat) labels queue :
  0 <= c ->
  FillInv c labels (p :: queue) ->
  labels !! j = Some (-1) -> near labs eps p j = true ->
  FillInv c (<[j := c]> labels) (p :: j :: queue).
Proof.
  intros Hc [Hcl Hch Hop Hrg Hlen] Hj Hpj.
  assert (Hjlt : (j < length labels)%nat) by by eapply lookup_lt_Some.
  assert (Hp : labels !! p = Some c) by (apply Hop; set_solver).
  split.
  - intros i li j' Hi Hli Hopen Hnear.
    destruct (decide (i = j)) as [->|Hij]; [set_solver|].
    rewrite list_lookup_insert_ne in Hi by done.
    assert (i ∉ p :: queue) by set_solver.
    specialize (Hcl i li j' Hi Hli ltac:(done) Hnear).
    destruct (decide (j' = j)) as [->|]; [congruence|].
    by rewrite list_lookup_insert_ne.
  - intros i i' l Hi Hi' Hl.
    destruct (decide (i = j)) as [->|Hij], (decide (i' = j)) as [->|Hij'].
    + constructor.
    + rewrite list_lookup_insert_eq in Hi by done.
      rewrite list_lookup_insert_ne in Hi' by done. simplify_eq.
      apply chain_sym. eapply chain_trans; [|by apply chain_one].
      eapply Hch; eauto; lia.
    + rewrite list_lookup_insert_eq in Hi' by done.
      rewrite list_lookup_insert_ne in Hi by done. simplify_eq.
      eapply chain_trans; [|by apply chain_one].
      eapply Hch; eauto; lia.
    + rewrite list_lookup_insert_ne in Hi, Hi' by done. eauto.
  - intros q Hq. destruct (decide (q = j)) as [->|].
    + by rewrite list_lookup_insert_eq.
    + rewrite list_lookup_insert_ne by done. apply Hop. set_solver.
  - intros i l. destruct (decide (i = j)) as [->|].
    + rewrite list_lookup_insert_eq by done. intros; simplify_eq. lia.
    + rewrite list_lookup_insert_ne by done. apply Hrg.
  - by rewrite length_insert.
Qed.

Lemma FillInv_open_perm c labels o1 o2 :
  (forall q, q ∈ o1 <-> q ∈ o2) -> FillInv c labels o1 -> FillInv c labels o2.
Proof.
  intros Ho [Hcl Hch Hop Hrg Hlen]. split; eauto.
  - intros i li j Hi Hli Hn. apply Hcl; auto. by rewrite Ho.
  - intros q Hq. apply Hop. by rewrite Ho.
Qed.

(** One neighbourhood scan: the invariant is kept, the measure is kept, and
    at the end every neighbour of [p] carries [c]. *)
Lemma scan_spec (c : Z) (p : nat) (js : list nat) :
  0 <= c ->
  forall labels queue,
  FillInv c labels (p :: queue) ->
  (forall j, j ∉ js -> near labs eps p j = true -> labels !! j = Some c) ->
  forall labels' queue',
  scan labs eps p c js labels queue = (labels', queue') ->
  FillInv c labels' (p :: queue') /\
  grows labels labels' /\
  (forall j, near labs eps p j = true -> labels' !! j = Some c) /\
  (unl labels' + length queue' = unl labels + length queue)%nat.
Proof.
  intros Hc. induction js as [|j js IH]; intros labels queue Hinv Hdone l' q' Hs.
  - simpl in Hs. simplify_eq. split_and!; auto using grows_refl.
    intros j. apply Hdone. set_solver.
  - simpl in Hs. destruct (labelled labels j) eqn:Hlab.
    + apply IH in Hs; auto.
      intros j' Hj' Hnear. destruct (decide (j' = j)) as [->|].
      * (* an already labelled neighbour of [p] carries [c] *)
        apply labelled_true in Hlab.
        assert (Hjl : (j < length labels)%nat).
        { rewrite (fi_length _ _ _ Hinv). by eapply near_lt. }
        destruct (lookup_lt_is_Some_2 labels j Hjl) as [lj Hlj].
        assert (lj <> -1) by congruence.
        assert (Hpc : labels !! p = Some c)
          by (apply (fi_open _ _ _ Hinv); set_solver).
        destruct (decide (j ∈ p :: queue)) as [Hin|Hout].
        { by apply (fi_open _ _ _ Hinv). }
        rewrite near_sym in Hnear.
        pose proof (fi_closed _ _ _ Hinv j lj p Hlj ltac:(done) Hout Hnear).
        congruence.
      * apply Hdone; [set_solver|done].
    + apply labelled_false in Hlab. destruct (near labs eps p j) eqn:Hnear.
      * pose proof (fill_label_step c p j labels queue Hc Hinv Hlab Hnear) as Hi.
        assert (Hc1 : c <> -1) by lia.
        assert (Hjlt : (j < length labels)%nat) by by eapply lookup_lt_Some.
        eapply (IH _ (j :: queue)) in Hs; [|exact Hi|].
        -- destruct Hs as (H1 & H2 & H3 & H4).
           refine (conj H1 (conj _ (conj H3 _))).
           ++ eapply grows_trans; [by apply grows_insert|done].
           ++ pose proof (unl_insert labels j c Hlab Hc1). simpl in H4. lia.
        -- intros j' Hj' Hn'. destruct (decide (j' = j)) as [->|].
           ++ by rewrite list_lookup_insert_eq.
           ++ rewrite list_lookup_insert_ne by done. apply Hdone; [set_solver|done].
      * apply IH in Hs; auto.
        intros j' Hj' Hn'. destruct (decide (j' = j)) as [->|]; [congruence|].
        apply Hdone; [set_solver|done].
Qed.

(** The fill loop empties its stack within the fuel it is given. *)
Lemma flood_spec (c : Z) :
  0 <= c ->
  forall fuel labels queue,
  FillInv c labels queue ->
  (unl labels + length queue <= fuel)%nat ->
  exists labels',
    flood fuel labs eps c labels queue = (labels', []) /\
    FillInv c labels' [] /\ grows labels labels'.
Proof.
  intros Hc. induction fuel as [|fuel IH]; intros labels queue Hinv Hfuel.
  - destruct queue; simpl in *; [|lia]. eauto using grows_refl.
  - destruct queue as [|p queue]; simpl; [eauto using grows_refl|].
    destruct (scan labs eps p c (seq 0 (length labs)) labels queue)
      as [l1 q1] eqn:Hs.
    eapply scan_spec in Hs as (H1 & H2 & H3 & H4); eauto.
    + destruct (IH l1 q1) as (l2 & Hf & Hi2 & Hg2).
      * destruct H1 as [Hcl Hch Hop Hrg Hlen]. split; auto.
        -- intros i li j Hi Hli Hq Hn. destruct (decide (i = p)) as [->|].
           ++ assert (l1 !! p = Some c) by (apply Hop; set_solver).
              simplify_eq. by apply H3.
           ++ eapply Hcl; eauto. set_solver.
        -- intros q Hq. apply Hop. set_solver.
      * simpl in Hfuel. lia.
      * exists l2. split_and!; auto. by eapply grows_trans.
    + intros j Hj Hn. exfalso. apply Hj. apply elem_of_seq.
      apply near_lt in Hn. lia.
Qed.

Lemma fill_start (cid : Z) (s : nat) labels :
  0 <= cid ->
  FillInv (cid - 1) labels [] -> labels !! s = Some (-1) ->
  FillInv cid (<[s := cid]> labels) [s].
Proof.
  intros Hc [Hcl Hch Hop Hrg Hlen] Hs.
  assert (Hslt : (s < length labels)%nat) by by eapply lookup_lt_Some.
  split.
  - intros i li j Hi Hli Hopen Hn.
    assert (i <> s) by set_solver.
    rewrite list_lookup_insert_ne in Hi by done.
    pose proof (Hcl i li j Hi Hli ltac:(set_solver) Hn) as Hj.
    rewrite list_lookup_insert_ne; [done|]. congruence.
  - intros i j l Hi Hj Hl.
    destruct (decide (i = s)) as [->|], (decide (j = s)) as [->|].
    + constructor.
    + rewrite list_lookup_insert_eq in Hi by done.
      rewrite list_lookup_insert_ne in Hj by done. simplify_eq.
      apply Hrg in Hj. lia.
    + rewrite list_lookup_insert_eq in Hj by done.
      rewrite list_lookup_insert_ne in Hi by done. simplify_eq.
      apply Hrg in Hi. lia.
    + rewrite list_lookup_insert_ne in Hi, Hj by done. eauto.
  - intros q Hq. assert (q = s) as -> by set_solver.
    by rewrite list_lookup_insert_eq.
  - intros i l. destruct (decide (i = s)) as [->|].
    + rewrite list_lookup_insert_eq by done. intros; simplify_eq. lia.
    + rewrite list_lookup_insert_ne by done. intros Hi. apply Hrg in Hi. lia.
  - by rewrite length_insert.
Qed.

Lemma components_spec (rest : list nat) :
  forall labels cid,
  0 <= cid -> FillInv (cid - 1) labels [] ->
  forall labels' cid',
  components labs eps rest labels cid = (labels', cid') ->
  0 <= cid' /\ FillInv (cid' - 1) labels' [] /\ grows labels labels' /\
  (forall i, i ∈ rest -> labelled labels' i = true).
Proof.
  induction rest as [|i rest IH]; intros labels cid Hc Hinv l' c' Hrun.
  - simpl in Hrun. simplify_eq. split_and!; auto using grows_refl. set_solver.
  - simpl in Hrun. destruct (labelled labels i) eqn:Hlab.
    + apply IH in Hrun as (H1 & H2 & H3 & H4); auto. split_and!; auto.
      intros i' [->|Hi']%elem_of_cons; [|by apply H4].
      apply labelled_true in Hlab. apply labelled_true.
      destruct (labels !! i) as [li|] eqn:Hli.
      * destruct H3 as [_ H3]. rewrite (H3 i li); congruence.
      * destruct H3 as [H3 _]. apply lookup_ge_None in Hli.
        rewrite (proj2 (lookup_ge_None l' i)); [done|lia].
    + apply labelled_false in Hlab.
      pose proof (fill_start cid i labels Hc Hinv Hlab) as Hst.
      destruct (flood_spec cid Hc (length labs) (<[i := cid]> labels) [i] Hst)
        as (l2 & Hf & Hi2 & Hg2).
      { assert (c1 : cid <> -1) by lia.
        pose proof (unl_insert labels i cid Hlab c1).
        pose proof (unl_le labels). rewrite (fi_length _ _ _ Hinv) in *.
        simpl. lia. }
      rewrite Hf in Hrun. simpl in Hrun.
      apply IH in Hrun as (H1 & H2 & H3 & H4); [|lia|].
      * split_and!; auto.
        -- eapply grows_trans; [by apply grows_insert|].
           by eapply grows_trans.
        -- intros i' [->|Hi']%elem_of_cons; [|by apply H4].
           apply labelled_true.
           assert (Hilt : (i < length labels)%nat) by by eapply lookup_lt_Some.
           destruct Hg2 as [_ Hg2], H3 as [_ H3].
           rewrite (H3 i cid); [intros ?; simplify_eq; lia| |lia].
           apply Hg2; [|lia]. by rewrite list_lookup_insert_eq.
      * by replace (cid + 1 - 1) with cid by lia.
Qed.

Lemma FillInv_initial : FillInv (-1) (replicate (length labs) (-1)) [].
Proof.
  split.
  - intros i li j [-> _]%lookup_replicate. done.
  - intros i j l [-> _]%lookup_replicate. done.
  - set_solver.
  - intros i l [-> _]%lookup_replicate. lia.
  - by rewrite length_replicate.
Qed.

Lemma chain_same_label c labels i j :
  FillInv c labels [] -> chain i j ->
  forall li, labels !! i = Some li -> li <> -1 -> labels !! j = Some li.
Proof.
  intros Hinv. induction 1 as [i|i j k Hn Hch IH]; intros li Hli Hne; [done|].
  apply IH; [|done].
  eapply (fi_closed _ _ _ Hinv i li j); eauto. set_solver.
Qed.

(** What [components] leaves behind on the whole index range. *)
Lemma components_full labels cid :
  components labs eps (seq 0 (length labs)) (replicate (length labs) (-1)) 0
    = (labels, cid) ->
  length labels = length labs /\ 0 <= cid /\
  (forall i, (i < length labs)%nat ->
     exists l, labels !! i = Some l /\ 0 <= l < cid) /\
  (forall i j, (i < length labs)%nat -> (j < length labs)%nat ->
     (labels !! i = labels !! j <-> chain i j)).
Proof.
  intros Hrun.
  apply components_spec in Hrun as (Hc & Hinv & Hg & Hall);
    [|lia|apply FillInv_initial].
  assert (Hlen : length labels = length labs) by apply (fi_length _ _ _ Hinv).
  assert (Hlab : forall i, (i < length labs)%nat ->
            exists l, labels !! i = Some l /\ 0 <= l < cid).
  { intros i Hi. destruct (lookup_lt_is_Some_2 labels i) as [l Hl]; [lia|].
    exists l. split; [done|].
    pose proof (fi_range _ _ _ Hinv i l Hl).
    assert (labelled labels i = true) as Hlb%labelled_true
      by (apply Hall, elem_of_seq; lia).
    assert (l <> -1) by congruence. lia. }
  split_and!; auto.
  intros i j Hi Hj. destruct (Hlab i Hi) as (li & Hli & Hri).
  destruct (Hlab j Hj) as (lj & Hlj & Hrj). split.
  - intros Heq. eapply (fi_chain _ _ _ Hinv i j li); [done|congruence|lia].
  - intros Hch. rewrite Hli.
    symmetry. eapply chain_same_label; eauto. lia.
Qed.

End FloodFill.

(** ** Order facts on binary64 comparisons *)

Section FloatOrder.

Lemma SFltb_irrefl (x : spec_float) : SFltb x x = false.
Proof.
  destruct x as [s|[|]| |[|] m e]; try reflexivity;
    unfold SFltb; simpl; rewrite Z.compare_refl;
    change (PosDef.Pos.compare_cont Eq m m) with (Pos.compare m m);
    by rewrite Pos.compare_refl.
Qed.

Lemma SFltb_trans (x y z : spec_float) :
  SFltb x y = true -> SFltb y z = true -> SFltb x z = true.
Proof.
  unfold SFltb.
  destruct x as [sx|[|]| |[|] mx ex], y as [sy|[|]| |[|] my ey],
           z as [sz|[|]| |[|] mz ez];
    simpl; try congruence; try (destruct sx; congruence);
    try (destruct sy; congruence); try (destruct sz; congruence).
  all: change (PosDef.Pos.compare_cont Eq) with Pos.compare.
  all: destruct (Z.compare_spec ex ey), (Z.compare_spec ey ez),
         (Z.compare_spec ex ez); try lia; try congruence; subst.
  all: destruct (Pos.compare_spec mx my), (Pos.compare_spec my mz),
         (Pos.compare_spec mx mz); simpl; try congruence; try lia.
Qed.

Lemma ltb_irrefl (x : float) : PrimFloat.ltb x x = false.
Proof. rewrite FloatAxioms.ltb_spec. apply SFltb_irrefl. Qed.

Lemma ltb_trans (x y z : float) :
  PrimFloat.ltb x y = true -> PrimFloat.ltb y z = true ->
  PrimFloat.ltb x z = true.
Proof. rewrite !FloatAxioms.ltb_spec. apply SFltb_trans. Qed.

Lemma SFltb_false_leb (x y : spec_float) :
  SFeqb x x = true -> SFeqb y y = true ->
  SFltb x y = false -> SFleb y x = true.
Proof.
  unfold SFltb, SFleb, SFeqb.
  destruct x as [sx|[|]| |[|] mx ex], y as [sy|[|]| |[|] my ey];
    simpl; try congruence; try (destruct sx; congruence);
    try (destruct sy; congruence).
  all: change (PosDef.Pos.compare_cont Eq) with Pos.compare.
  all: intros _ _.
  all: destruct (Z.compare_spec ex ey), (Z.compare_spec ey ex);
         try lia; try congruence; subst.
  all: destruct (Pos.compare_spec mx my), (Pos.compare_spec my mx);
         simpl; try congruence; try lia.
Qed.

(** Among numbers, "not below" is "at least": only NaN is neither. *)
Lemma ltb_false_leb (x y : float) :
  is_nan x = false -> is_nan y = false ->
  PrimFloat.ltb x y = false -> PrimFloat.leb y x = true.
Proof.
  unfold is_nan. rewrite !negb_false_iff.
  rewrite !FloatAxioms.eqb_spec, FloatAxioms.ltb_spec, FloatAxioms.leb_spec.
  apply SFltb_false_leb.
Qed.

(** If [y] is not below [x] and [z] is, then [y] is not below [z]. *)
Lemma ltb_not_below (x y z : float) :
  PrimFloat.ltb y x = false -> PrimFloat.ltb z x = true ->
  PrimFloat.ltb y z = false.
Proof.
  intros Hyx Hzx. destruct (PrimFloat.ltb y z) eqn:Hyz; [|done].
  by rewrite (ltb_trans y z x) in Hyx.
Qed.

Lemma binary_round_aux_not_below m e l z :
  SFltb (binary_round_aux prec emax false m e l) (S754_zero z) = false.
Proof.
  unfold binary_round_aux.
  destruct (shr_fexp prec emax m e l) as [mrs' e'].
  destruct (shr_fexp prec emax _ e' loc_Exact) as [mrs'' e''].
  destruct (shr_m mrs'') as [|p|p]; try reflexivity.
  destruct (e'' <=? emax - prec); reflexivity.
Qed.

Lemma binary_normalize_not_below m e z :
  0 <= m -> SFltb (binary_normalize prec emax m e false) (S754_zero z) = false.
Proof.
  intros Hm. destruct m as [|p|p]; [reflexivity| |lia].
  unfold binary_normalize, binary_round.
  destruct (shl_align p e _) as [mz ez]. apply binary_round_aux_not_below.
Qed.

Lemma binary_normalize_below m e z :
  SFltb (binary_normalize prec emax m e false) (S754_zero z) = true -> m < 0.
Proof.
  intros Hb. destruct (Z.ltb_spec m 0); [done|].
  rewrite binary_normalize_not_below in Hb by lia. discriminate.
Qed.

(** A difference and the opposite difference are not both negative. *)
Lemma SFsub_below_asym x y :
  SFltb (SF64sub x y) (S754_zero false) = true ->
  SFltb (SF64sub y x) (S754_zero false) = false.
Proof.
  unfold SF64sub, SFsub.
  destruct x as [sx|sx| |sx mx ex], y as [sy|sy| |sy my ey];
    try (repeat match goal with s : bool |- _ => destruct s end;
         cbn; congruence).
  intros Hb. apply binary_normalize_below in Hb.
  apply binary_normalize_not_below. rewrite (Z.min_comm ey ex). lia.
Qed.

Lemma num_lt_asym a b : num_lt a b = true -> num_lt b a = false.
Proof.
  unfold num_lt. rewrite !FloatAxioms.ltb_spec, !FloatAxioms.sub_spec.
  change (Prim2SF PrimFloat.zero) with (S754_zero false).
  apply SFsub_below_asym.
Qed.

End FloatOrder.

(** ** The stable sort leaves no element below its predecessor *)

Section SortBy.

Context {A : Type}.
Variable lt : A -> A -> bool.
Hypothesis lt_asym : forall a b, lt a b = true -> lt b a = false.

(** [b] may follow [a]: it does not sort before it. *)
Definition follows (a b : A) : Prop := lt b a = false.

Lemma insert_by_HdRel x y l :
  HdRel follows y l -> follows y x -> HdRel follows y (insert_by lt x l).
Proof.
  intros Hl Hx. destruct l as [|z l]; simpl; [by constructor|].
  destruct (lt x z); constructor; [done|]. by inversion Hl.
Qed.

Lemma insert_by_Sorted x l :
  Sorted follows l -> Sorted follows (insert_by lt x l).
Proof.
  induction 1 as [|y l Hs IH Hhd]; simpl; [by repeat constructor|].
  destruct (lt x y) eqn:Hxy.
  - constructor; [by constructor|]. constructor. by apply lt_asym.
  - constructor; [done|]. by apply insert_by_HdRel.
Qed.

Lemma sort_by_Sorted l : Sorted follows (sort_by lt l).
Proof.
  unfold sort_by. generalize (@nil A) (Sorted_nil follows).
  induction l as [|x l IH]; intros acc Hacc; simpl; [done|].
  apply IH. by apply insert_by_Sorted.
Qed.

End SortBy.

(** ** The claim's notions, written from its words *)

(** The Euclidean distance of two points in binary64: the square root of the
    sum of the squares of the three coordinate differences. *)
Definition euclidean (p q : F3) : float :=
  let square x := PrimFloat.mul x x in
  PrimFloat.sqrt
    (PrimFloat.add
       (PrimFloat.add (square (PrimFloat.sub p.1.1 q.1.1))
                      (square (PrimFloat.sub p.1.2 q.1.2)))
       (square (PrimFloat.sub p.2 q.2))).

(** [labDist3] computes it. *)
Lemma labDist3_euclidean (p q : F3) : labDist3 p q = euclidean p q.
Proof. by destruct p as [[p0 p1] p2], q as [[q0 q1] q2]. Qed.

(** ** The search for the closest eligible pair *)

Section FindBest.

Variable info : gmap Z Cluster.
Variable cap : Z.
Variable maxDist : float.

(** Centroid distance of two cluster records: the Euclidean distance of
    their Lab centroids. *)
Definition cdist (a b : Cluster) : float :=
  euclidean (center_lab a) (center_lab b).

(** The claim's eligibility of the unordered pair of live clusters [lo < hi],
    with records [a] and [b]: the combined member count does not exceed the
    capacity and the centroid distance does not exceed the ceiling. *)
Definition eligible (lo hi : Z) (a b : Cluster) : Prop :=
  lo < hi /\ info !! lo = Some a /\ info !! hi = Some b /\
  count a + count b <= cap /\ PrimFloat.ltb maxDist (cdist a b) = false.

(** All pairs the two nested loops visit, in order. *)
Fixpoint pairsOf (ids : list Z) : list (Z * Z) :=
  match ids with
  | [] => []
  | a :: rest => map (pair a) rest ++ pairsOf rest
  end.

Definition considerPair (best : option Merge) (p : Z * Z) : option Merge :=
  consider info cap maxDist (fst p) (snd p) best.

Lemma innerLoop_fold idA rest best :
  innerLoop info cap maxDist idA rest best
  = fold_left considerPair (map (pair idA) rest) best.
Proof. revert best. induction rest; intros; simpl; auto. Qed.

Lemma outerLoop_fold ids best :
  outerLoop info cap maxDist ids best = fold_left considerPair (pairsOf ids) best.
Proof.
  revert best. induction ids as [|a rest IH]; intros; simpl; [done|].
  by rewrite fold_left_app, IH, innerLoop_fold.
Qed.

(** What is known of [best] once the pairs satisfying [V] have been visited. *)
Definition bestOf (V : Z * Z -> Prop) (best : option Merge) : Prop :=
  match best with
  | None => forall lo hi a b, V (lo, hi) -> ~ eligible lo hi a b
  | Some m =>
      (exists a b, eligible (keep m) (drop m) a b /\ d m = cdist a b) /\
      forall lo hi a b, V (lo, hi) -> eligible lo hi a b ->
        PrimFloat.ltb (cdist a b) (d m) = false
  end.

Lemma consider_bestOf V best lo hi :
  lo < hi -> bestOf V best ->
  bestOf (fun p => V p \/ p = (lo, hi)) (considerPair best (lo, hi)).
Proof.
  intros Hlt Hb. unfold considerPair, consider; simpl.
  assert (Hskip : (forall a b, ~ eligible lo hi a b) ->
                  bestOf (fun p => V p \/ p = (lo, hi)) best).
  { intros Hne. destruct best as [m|]; simpl in *.
    - destruct Hb as [He Hmin]. split; [done|].
      intros lo' hi' a b [HV|Heq] Hel; [eauto|]. simplify_eq. by destruct (Hne a b).
    - intros lo' hi' a b [HV|Heq]; [eauto|]. simplify_eq. apply Hne. }
  destruct (info !! lo) as [a|] eqn:Ha; [|apply Hskip; intros ?? (?&?&?); congruence].
  destruct (info !! hi) as [b|] eqn:Hb'; [|apply Hskip; intros ?? (?&?&?&?); congruence].
  destruct (Z.gtb_spec (count a + count b) cap) as [Hgt|Hle].
  { apply Hskip. intros a' b' (?&?&?&?&?). simplify_eq. lia. }
  rewrite (labDist3_euclidean (center_lab a) (center_lab b)).
  fold (cdist a b).
  destruct (PrimFloat.ltb maxDist (cdist a b)) eqn:Hd.
  { apply Hskip. intros a' b' (?&?&?&?&Hd'). simplify_eq. congruence. }
  assert (Hel : eligible lo hi a b) by (by split_and!).
  rewrite Z.min_l, Z.max_r by lia.
  assert (Hsame : forall a' b', eligible lo hi a' b' -> a' = a /\ b' = b).
  { intros a' b' (?&?&?&?). split; congruence. }
  destruct best as [m|]; simpl in *.
  - destruct Hb as [He Hmin].
    destruct (PrimFloat.ltb (cdist a b) (d m)) eqn:Hlt'.
    + simpl. split; [by exists a, b|].
      intros lo' hi' a' b' [HV|Heq] Hel'.
      * eapply ltb_not_below; [by eapply Hmin|exact Hlt'].
      * simplify_eq. destruct (Hsame _ _ Hel') as [-> ->]. apply ltb_irrefl.
    + simpl. split; [done|].
      intros lo' hi' a' b' [HV|Heq] Hel'; [eauto|].
      simplify_eq. by destruct (Hsame _ _ Hel') as [-> ->].
  - split; [by exists a, b|].
    intros lo' hi' a' b' [HV|Heq] Hel'; [by edestruct Hb|].
    simplify_eq. destruct (Hsame _ _ Hel') as [-> ->]. apply ltb_irrefl.
Qed.

Lemma bestOf_ext V V' best :
  (forall p, V' p -> V p) -> bestOf V best -> bestOf V' best.
Proof.
  intros HV. destruct best as [m|]; simpl.
  - intros [He Hmin]. split; eauto.
  - eauto.
Qed.

Lemma fold_bestOf (ps : list (Z * Z)) :
  Forall (fun p => fst p < snd p) ps ->
  forall V best, bestOf V best ->
  bestOf (fun p => V p \/ p ∈ ps) (fold_left considerPair ps best).
Proof.
  induction 1 as [|[lo hi] ps Hlt _ IH]; intros V best Hb; simpl.
  - eapply bestOf_ext; [|exact Hb]. set_solver.
  - eapply bestOf_ext; [|apply IH, consider_bestOf; eauto].
    intros p [?|[->|?]%elem_of_cons]; simpl; auto.
Qed.

Lemma pairsOf_sound (ids : list Z) lo hi :
  StronglySorted Z.le ids -> NoDup ids ->
  (lo, hi) ∈ pairsOf ids -> lo < hi /\ lo ∈ ids /\ hi ∈ ids.
Proof.
  induction 1 as [|a rest Hs IH Hall]; intros Hnd Hin; simpl in *.
  - set_solver.
  - apply NoDup_cons in Hnd as [Hna Hnd].
    apply elem_of_app in Hin as [Hin|Hin].
    + apply list_elem_of_fmap in Hin as (y & [= -> ->] & Hy).
      rewrite Forall_forall in Hall. pose proof (Hall _ Hy).
      assert (a <> y) by (intros ->; done). split_and!; [lia|set_solver..].
    + destruct (IH Hnd Hin) as (?&?&?). set_solver.
Qed.

Lemma pairsOf_complete (ids : list Z) lo hi :
  StronglySorted Z.le ids -> lo ∈ ids -> hi ∈ ids -> lo < hi ->
  (lo, hi) ∈ pairsOf ids.
Proof.
  induction 1 as [|a rest Hs IH Hall]; intros Hlo Hhi Hlt; simpl.
  - set_solver.
  - rewrite Forall_forall in Hall. apply elem_of_app.
    apply elem_of_cons in Hlo as [->|Hlo], Hhi as [->|Hhi]; try lia.
    + left. apply list_elem_of_fmap. eauto.
    + pose proof (Hall _ Hlo). lia.
    + right. auto.
Qed.

Lemma sortedIds_elem (m : gmap Z Cluster) k : k ∈ sortedIds m <-> is_Some (m !! k).
Proof.
  unfold sortedIds. rewrite merge_sort_Permutation.
  rewrite list_elem_of_fmap. split.
  - intros ([k' c] & -> & Hin). apply elem_of_map_to_list in Hin. eauto.
  - intros [c Hc]. exists (k, c). split; [done|]. by apply elem_of_map_to_list.
Qed.

Lemma sortedIds_sorted (m : gmap Z Cluster) : StronglySorted Z.le (sortedIds m).
Proof.
  apply Sorted_StronglySorted; [intros ???; lia|].
  apply Sorted_merge_sort. intros x y. lia.
Qed.

Lemma sortedIds_NoDup (m : gmap Z Cluster) : NoDup (sortedIds m).
Proof.
  unfold sortedIds. rewrite merge_sort_Permutation. apply NoDup_fst_map_to_list.
Qed.

(** [findBest] returns an eligible pair of least distance, or nothing exactly
    when no pair is eligible. *)
Lemma findBest_spec :
  match findBest info cap maxDist with
  | None => forall lo hi a b, ~ eligible lo hi a b
  | Some m =>
      (exists a b, eligible (keep m) (drop m) a b /\ d m = cdist a b) /\
      forall lo hi a b, eligible lo hi a b ->
        PrimFloat.ltb (cdist a b) (d m) = false
  end.
Proof.
  unfold findBest. rewrite outerLoop_fold.
  pose proof (fold_bestOf (pairsOf (sortedIds info))) as Hf.
  specialize (Hf ltac:(
    apply Forall_forall; intros [lo hi] Hin;
    by apply pairsOf_sound in Hin as (?&?&?);
      [|apply sortedIds_sorted|apply sortedIds_NoDup]) (fun _ => False) None).
  specialize (Hf ltac:(by intros ????)).
  assert (Hall : forall lo hi a b, eligible lo hi a b ->
            (lo, hi) ∈ pairsOf (sortedIds info)).
  { intros lo hi a b (?&?&?&?). apply pairsOf_complete; auto.
    - apply sortedIds_sorted.
    - apply sortedIds_elem; eauto.
    - apply sortedIds_elem; eauto. }
  destruct (fold_left considerPair (pairsOf (sortedIds info)) None) as [m|];
    simpl in *.
  - destruct Hf as [He Hmin]. split; [done|]. eauto.
  - intros lo hi a b Hel. eapply Hf; eauto.
Qed.

End FindBest.

(** ** The reconciliation loop against the claim's wording *)

(** Pooling of members: every sample of the absorbed cluster joins the
    surviving one. *)
Definition relabel (dropId keepId : Z) (labels : list Z) : list Z :=
  map (fun l => if l =? dropId then keepId else l) labels.

(** The member-count-weighted mean of two centroids in binary64: in every
    coordinate, the first centroid times its share [na / (na + nb)] of the
    members plus the second centroid times its share [nb / (na + nb)]. *)
Definition weightedMean (na nb : Z) (ca cb : F3) : F3 :=
  let shareA := PrimFloat.div (Z2F na) (Z2F (na + nb)) in
  let shareB := PrimFloat.div (Z2F nb) (Z2F (na + nb)) in
  let mean x y :=
    PrimFloat.add (PrimFloat.mul x shareA) (PrimFloat.mul y shareB) in
  (mean ca.1.1 cb.1.1, mean ca.1.2 cb.1.2, mean ca.2 cb.2).

(** [mix3] with the two shares computes it. *)
Lemma mix3_weightedMean (na nb : Z) (ca cb : F3) :
  mix3 (PrimFloat.div (Z2F na) (Z2F (na + nb)))
       (PrimFloat.div (Z2F nb) (Z2F (na + nb))) ca cb
  = weightedMean na nb ca cb.
Proof. by destruct ca as [[a0 a1] a2], cb as [[b0 b1] b2]. Qed.

(** The surviving record after a merge, in the claim's words: it keeps its
    id, has the members of both, and its centroids are the weighted means;
    the hex code is the one of the new BGR centroid. *)
Definition pooled (a b c : Cluster) : Prop :=
  id c = id a /\ count c = count a + count b /\
  center_lab c = weightedMean (count a) (count b) (center_lab a) (center_lab b) /\
  center_bgr c = weightedMean (count a) (count b) (center_bgr a) (center_bgr b) /\
  center_hex c = bgrToHex (center_bgr c).1.1 (center_bgr c).1.2 (center_bgr c).2.

(** The reconciliation the claim describes, as a relation between the state
    before the loop and the state after it: it ends when the expected count
    is reached or no pair is eligible; otherwise it merges an eligible pair
    of least distance and goes on.  Least: no eligible pair is strictly
    closer and, where the two distances are numbers, the merged pair's
    distance is at most the other's (a distance that is NaN, which needs a
    centroid that is not a number, compares with nothing). *)
Inductive Reconcile (cap : Z) (maxDist : float) (expected : Z)
    : MergeState -> MergeState -> Prop :=
  | rec_reached st :
      Z.of_nat (size (ms_clusterInfo st)) <= expected ->
      Reconcile cap maxDist expected st st
  | rec_stuck st :
      expected < Z.of_nat (size (ms_clusterInfo st)) ->
      (forall lo hi a b, ~ eligible (ms_clusterInfo st) cap maxDist lo hi a b) ->
      Reconcile cap maxDist expected st st
  | rec_merge st lo hi a b c st' :
      expected < Z.of_nat (size (ms_clusterInfo st)) ->
      eligible (ms_clusterInfo st) cap maxDist lo hi a b ->
      (forall lo' hi' a' b',
         eligible (ms_clusterInfo st) cap maxDist lo' hi' a' b' ->
         PrimFloat.ltb (cdist a' b') (cdist a b) = false /\
         (is_nan (cdist a b) = false -> is_nan (cdist a' b') = false ->
          PrimFloat.leb (cdist a b) (cdist a' b') = true)) ->
      pooled a b c ->
      Reconcile cap maxDist expected
        {| ms_labels := relabel hi lo (ms_labels st);
           ms_clusterInfo := delete hi (<[lo := c]> (ms_clusterInfo st));
           ms_merges := ms_merges st
                        ++ [{| keep := lo; drop := hi; d := cdist a b |}] |}
        st' ->
      Reconcile cap maxDist expected st st'.

Lemma absorb_pooled (a b : Cluster) : pooled a b (absorb a b).
Proof.
  unfold pooled, absorb. rewrite !mix3_weightedMean.
  destruct (weightedMean _ _ (center_bgr a) (center_bgr b)) as [[cb cg] cr] eqn:E.
  simpl. by rewrite <- E.
Qed.

Lemma size_after_merge (info : gmap Z Cluster) lo hi c :
  lo <> hi -> is_Some (info !! lo) -> is_Some (info !! hi) ->
  S (size (delete hi (<[lo := c]> info))) = size info.
Proof.
  intros Hne Hlo Hhi.
  rewrite map_size_delete_Some by (by rewrite lookup_insert_ne).
  rewrite map_size_insert_Some by done.
  destruct Hlo as [x Hx].
  pose proof (map_size_ne_0_lookup_2 info lo ltac:(eauto)). lia.
Qed.

(** The loop as coded follows the claim's relation and leaves by its own
    tests: the fuel never runs out first. *)
Lemma mergeLoop_Reconcile cap maxDist expected :
  0 <= expected ->
  forall fuel st,
  (size (ms_clusterInfo st) <= fuel)%nat ->
  Reconcile cap maxDist expected st (mergeLoop fuel cap maxDist expected st).
Proof.
  intros He. induction fuel as [|fuel IH]; intros [lbls info mrg] Hsz; simpl in *.
  - apply rec_reached. simpl. lia.
  - destruct (Z.gtb_spec (Z.of_nat (size info)) expected) as [Hgt|Hle];
      [|by apply rec_reached].
    pose proof (findBest_spec info cap maxDist) as Hfb.
    destruct (findBest info cap maxDist) as [m|]; [|by apply rec_stuck].
    destruct Hfb as [(a & b & Hel & Hd) Hmin].
    pose proof Hel as (Hlt & Ha & Hb & _).
    unfold mergeInto. rewrite Ha, Hb.
    eapply rec_merge with (c := absorb a b); simpl; eauto.
    + intros lo' hi' a' b' Hel'. rewrite <- Hd.
      pose proof (Hmin _ _ _ _ Hel') as Hnb. split; [done|].
      intros Hn Hn'. by apply ltb_false_leb.
    + apply absorb_pooled.
    + rewrite <- Hd. destruct m as [k dr dd]; simpl in *. apply IH. simpl.
      pose proof (size_after_merge info k dr (absorb a b)
                    ltac:(lia) ltac:(eauto) ltac:(eauto)). lia.
Qed.

(** Every step of a reconciliation merges two distinct live clusters whose
    member counts together fit the capacity. *)
Inductive SafeMerges (cap : Z) : MergeState -> MergeState -> Prop :=
  | safe_done st : SafeMerges cap st st
  | safe_step st lo hi a b c st' :
      lo <> hi ->
      ms_clusterInfo st !! lo = Some a -> ms_clusterInfo st !! hi = Some b ->
      count a + count b <= cap -> count c = count a + count b ->
      SafeMerges cap
        {| ms_labels := relabel hi lo (ms_labels st);
           ms_clusterInfo := delete hi (<[lo := c]> (ms_clusterInfo st));
           ms_merges := ms_merges st
                        ++ [{| keep := lo; drop := hi; d := cdist a b |}] |}
        st' ->
      SafeMerges cap st st'.

Lemma Reconcile_safe cap maxDist expected st st' :
  Reconcile cap maxDist expected st st' -> SafeMerges cap st st'.
Proof.
  induction 1 as [| |st lo hi a b c st' _ (Hlt & Ha & Hb & Hc & _) _ Hp _ IH];
    try constructor.
  destruct Hp as (_ & Hcnt & _).
  eapply safe_step with (a := a) (b := b); eauto. lia.
Qed.

Lemma Reconcile_exit cap maxDist expected st st' :
  Reconcile cap maxDist expected st st' ->
  Z.of_nat (size (ms_clusterInfo st')) <= expected \/
  (forall lo hi a b, ~ eligible (ms_clusterInfo st') cap maxDist lo hi a b).
Proof. induction 1; auto. Qed.

(** Unfolding of the guards in front of the loop. *)
Lemma merge_runs labelsIn info cap eps :
  0 < cap -> (0 < length labelsIn)%nat ->
  Z.rem (Z.of_nat (length labelsIn)) cap = 0 ->
  mergeClustersToExpectedCount labelsIn info (Some cap) eps =
  let expected := Z.of_nat (length labelsIn) / cap in
  let st := mergeLoop (size info) cap (mergeCeiling eps) expected
              {| ms_labels := labelsIn; ms_clusterInfo := info;
                 ms_merges := [] |} in
  {| labels := ms_labels st; clusterInfo := ms_clusterInfo st;
     merges := ms_merges st; expectedColors := Some expected |}.
Proof.
  intros Hcap Hn Hrem. unfold mergeClustersToExpectedCount, positiveCapacity.
  destruct (Z.gtb_spec cap 0); [|lia].
  destruct (Z.eqb_spec (Z.of_nat (length labelsIn)) 0); [lia|].
  rewrite Hrem. reflexivity.
Qed.

Lemma merge_skips labelsIn info capacity eps :
  length labelsIn = 0%nat \/ positiveCapacity capacity = None \/
  (exists cap, capacity = Some cap /\
               Z.rem (Z.of_nat (length labelsIn)) cap <> 0) ->
  mergeClustersToExpectedCount labelsIn info capacity eps =
  {| labels := labelsIn; clusterInfo := info; merges := [];
     expectedColors := None |}.
Proof.
  unfold mergeClustersToExpectedCount.
  intros [Hn|[Hc|(cap & -> & Hrem)]].
  - rewrite Hn. simpl. by destruct (positiveCapacity capacity).
  - by rewrite Hc.
  - simpl. destruct (cap >? 0); [|done].
    destruct (Z.of_nat (length labelsIn) =? 0); [done|].
    by destruct (Z.eqb_spec (Z.rem (Z.of_nat (length labelsIn)) cap) 0).
Qed.

(** ** What [clusterColorsDbscan] returns *)

Section ClusterFacts.

Variable cvtColor_BGR2Lab : Bgr -> Lab.

Lemma fold_insert_lookup (f : Z -> Cluster) (ks : list Z) (m : gmap Z Cluster) k :
  fold_left (fun info k => <[k := f k]> info) ks m !! k
  = if decide (k ∈ ks) then Some (f k) else m !! k.
Proof.
  revert m. induction ks as [|a ks IH]; intros m; cbn [fold_left].
  - by rewrite decide_False by set_solver.
  - rewrite IH. destruct (decide (k ∈ ks)).
    + by rewrite decide_True by set_solver.
    + destruct (decide (k = a)) as [->|].
      * rewrite lookup_insert_eq. by rewrite decide_True by set_solver.
      * rewrite lookup_insert_ne by done. by rewrite decide_False by set_solver.
Qed.

Lemma elem_of_ids (cid k : Z) :
  k ∈ map Z.of_nat (seq 0 (Z.to_nat cid)) <-> 0 <= k < cid.
Proof.
  rewrite list_elem_of_fmap. split.
  - intros (x & -> & Hx%elem_of_seq). lia.
  - intros Hk. exists (Z.to_nat k). split; [lia|]. apply elem_of_seq. lia.
Qed.

Lemma buildClusterInfo_lookup samplesBgr labs labels cid k :
  buildClusterInfo samplesBgr labs labels cid !! k
  = if decide (0 <= k < cid) then Some (clusterOf samplesBgr labs labels k)
    else None.
Proof.
  unfold buildClusterInfo. rewrite fold_insert_lookup.
  destruct (decide (0 <= k < cid)) as [Hk|Hk].
  - by rewrite decide_True by by apply elem_of_ids.
  - rewrite decide_False; [done|]. by rewrite elem_of_ids.
Qed.

(** Sum of the member counts over the whole dictionary. *)
Definition totalCount (info : gmap Z Cluster) : Z :=
  foldr Z.add 0 (map (fun kc => count (snd kc)) (map_to_list info)).

Lemma sum_Permutation (l1 l2 : list Z) :
  l1 ≡ₚ l2 -> foldr Z.add 0 l1 = foldr Z.add 0 l2.
Proof. induction 1; simpl; lia. Qed.

Lemma totalCount_insert (info : gmap Z Cluster) k c :
  info !! k = None -> totalCount (<[k := c]> info) = count c + totalCount info.
Proof.
  intros Hk. unfold totalCount.
  rewrite (sum_Permutation _ (map (fun kc => count (snd kc))
                                  ((k, c) :: map_to_list info))); [done|].
  apply fmap_Permutation. by apply map_to_list_insert.
Qed.

Lemma totalCount_delete (info : gmap Z Cluster) k c :
  info !! k = Some c -> totalCount info = count c + totalCount (delete k info).
Proof.
  intros Hk. unfold totalCount.
  rewrite (sum_Permutation _ (map (fun kc => count (snd kc))
                                  ((k, c) :: map_to_list (delete k info))));
    [done|].
  apply fmap_Permutation. symmetry. by apply map_to_list_delete.
Qed.

Lemma totalCount_empty : totalCount ∅ = 0.
Proof. unfold totalCount. by rewrite map_to_list_empty. Qed.

Lemma totalCount_fold (f : Z -> Cluster) (ks : list Z) :
  NoDup ks ->
  totalCount (fold_left (fun info k => <[k := f k]> info) ks ∅)
  = foldr Z.add 0 (map (fun k => count (f k)) ks).
Proof.
  induction ks as [|k ks IH] using rev_ind; intros Hnd.
  - apply totalCount_empty.
  - apply NoDup_app in Hnd as (Hnd & Hk & _).
    rewrite fold_left_app. simpl. rewrite totalCount_insert.
    + rewrite IH by done. rewrite map_app, foldr_app. simpl.
      generalize (map (fun k0 => count (f k0)) ks). intros l.
      induction l; simpl; lia.
    + rewrite fold_insert_lookup. rewrite decide_False; [done|].
      intros Hin. apply (Hk k Hin). set_solver.
Qed.

(** Each index carries exactly one of the ids [0 .. m-1]. *)
Lemma one_label_each (labels : list Z) (ks : list Z) (idxs : list nat) :
  NoDup ks ->
  (forall i, i ∈ idxs -> exists l, labels !! i = Some l /\ l ∈ ks) ->
  foldr Z.add 0
    (map (fun k => Z.of_nat (length (filter (fun i => labels !! i = Some k) idxs)))
         ks)
  = Z.of_nat (length idxs).
Proof.
  intros Hnd. induction idxs as [|i idxs IH]; intros Hall.
  - clear Hall Hnd. simpl. induction ks; simpl; [done|]. by rewrite IHks.
  - destruct (Hall i ltac:(set_solver)) as (l & Hl & Hin).
    specialize (IH ltac:(intros; apply Hall; set_solver)).
    cbn [length]. rewrite Nat2Z.inj_succ, <- IH. clear IH Hall.
    induction ks as [|k ks IHk]; [set_solver|].
    apply NoDup_cons in Hnd as [Hk Hnd]. cbn [map foldr].
    rewrite filter_cons. destruct (decide (labels !! i = Some k)) as [Heq|Hne].
    + assert (l = k) as -> by congruence.
      assert (Hrest : forall ks', k ∉ ks' ->
        foldr Z.add 0 (map (fun k0 => Z.of_nat (length
           (filter (fun i0 => labels !! i0 = Some k0) (i :: idxs)))) ks')
        = foldr Z.add 0 (map (fun k0 => Z.of_nat (length
           (filter (fun i0 => labels !! i0 = Some k0) idxs))) ks')).
      { induction ks' as [|k' ks' IH']; intros Hni; cbn [map foldr]; [done|].
        rewrite filter_cons_False by (intros ?; set_solver).
        rewrite IH' by set_solver. done. }
      rewrite Hrest by done. cbn [length]. lia.
    + rewrite IHk; [lia|done|]. set_solver.
Qed.

Lemma ids_NoDup (cid : Z) : NoDup (map Z.of_nat (seq 0 (Z.to_nat cid))).
Proof.
  apply NoDup_fmap_2; [intros ???; lia|apply NoDup_seq].
Qed.

Lemma totalCount_build samplesBgr labs labels cid :
  (forall i, (i < length labels)%nat ->
     exists l, labels !! i = Some l /\ 0 <= l < cid) ->
  totalCount (buildClusterInfo samplesBgr labs labels cid)
  = Z.of_nat (length labels).
Proof.
  intros Hall. unfold buildClusterInfo.
  rewrite totalCount_fold by apply ids_NoDup.
  transitivity (Z.of_nat (length (seq 0 (length labels))));
    [|by rewrite length_seq].
  rewrite <- (one_label_each labels (map Z.of_nat (seq 0 (Z.to_nat cid)))
               (seq 0 (length labels))).
  - f_equal. apply map_ext. intros k. unfold clusterOf; simpl.
    by destruct (mean3 _ _) as [[??]?].
  - apply ids_NoDup.
  - intros i Hi%elem_of_seq. destruct (Hall i ltac:(lia)) as (l & ? & ?).
    exists l. split; [done|]. by apply elem_of_ids.
Qed.

(** The labels and dictionary of a non-empty sample list. *)
Lemma cluster_run samplesBgr eps :
  samplesBgr <> [] ->
  exists labels cid,
    components (map cvtColor_BGR2Lab samplesBgr) eps
      (seq 0 (length samplesBgr)) (replicate (length samplesBgr) (-1)) 0
      = (labels, cid) /\
    clusterColorsDbscan cvtColor_BGR2Lab samplesBgr eps
      = (labels, buildClusterInfo samplesBgr (map cvtColor_BGR2Lab samplesBgr)
                   labels cid).
Proof.
  intros Hne. unfold clusterColorsDbscan.
  destruct (components _ _ _ _ _) as [labels cid] eqn:Hc.
  exists labels, cid. split; [done|].
  destruct (Nat.eqb_spec (length samplesBgr) 0) as [H0|_]; [|done].
  by destruct samplesBgr.
Qed.

Lemma cluster_facts samplesBgr eps :
  let labs := map cvtColor_BGR2Lab samplesBgr in
  let out := clusterColorsDbscan cvtColor_BGR2Lab samplesBgr eps in
  length (fst out) = length samplesBgr /\
  (forall i, (i < length samplesBgr)%nat ->
     exists l, fst out !! i = Some l /\ is_Some (snd out !! l)) /\
  (forall i j, (i < length samplesBgr)%nat -> (j < length samplesBgr)%nat ->
     (fst out !! i = fst out !! j <-> chain labs eps i j)) /\
  (forall k c, snd out !! k = Some c ->
     c = clusterOf samplesBgr labs (fst out) k) /\
  totalCount (snd out) = Z.of_nat (length samplesBgr).
Proof.
  intros labs out. destruct (decide (samplesBgr = [])) as [->|Hne].
  - subst out. change (clusterColorsDbscan cvtColor_BGR2Lab [] eps)
      with (@nil Z, (∅ : gmap Z Cluster)). simpl.
    split_and!; try done; intros; simpl in *; lia.
  - destruct (cluster_run samplesBgr eps Hne) as (labels & cid & Hc & Hout).
    subst out. rewrite Hout. simpl.
    pose proof (components_full labs eps labels cid) as Hfull.
    unfold labs in Hfull at 2 3. rewrite !length_map in Hfull.
    destruct (Hfull Hc) as (Hlen & Hcid & Hlab & Hch).
    unfold labs in Hlen, Hlab, Hch. rewrite length_map in Hlen, Hlab, Hch.
    split_and!; auto.
    + intros i Hi. destruct (Hlab i Hi) as (l & Hl & Hr). exists l.
      split; [done|]. rewrite buildClusterInfo_lookup.
      by rewrite decide_True.
    + intros k c. rewrite buildClusterInfo_lookup.
      destruct (decide (0 <= k < cid)); naive_solver.
    + rewrite totalCount_build; [lia|]. intros i Hi. apply Hlab. lia.
Qed.

End ClusterFacts.

(** ** Reordering the samples *)

Section Reorder.

Variable labs : list Lab.
Variable eps : float.
Variable perm : list nat.
Hypothesis perm_ok : perm ≡ₚ seq 0 (length labs).

(** The sample list read in the order [perm]. *)
Let labs' : list Lab := pick (0, 0, 0) labs perm.

Lemma perm_lt i a : perm !! i = Some a -> (a < length labs)%nat.
Proof.
  intros Hi. assert (a ∈ perm) as Hin by (by eapply list_elem_of_lookup_2).
  rewrite perm_ok in Hin. apply elem_of_seq in Hin. lia.
Qed.

Lemma picked_lookup i a : perm !! i = Some a -> labs' !! i = labs !! a.
Proof.
  intros Hi. unfold labs', pick. rewrite list_lookup_fmap, Hi. simpl.
  destruct (lookup_lt_is_Some_2 labs a (perm_lt i a Hi)) as [x Hx].
  by rewrite Hx.
Qed.

Lemma near_picked i j a b :
  perm !! i = Some a -> perm !! j = Some b ->
  near labs' eps i j = near labs eps a b.
Proof.
  intros Hi Hj. unfold near.
  by rewrite (picked_lookup i a Hi), (picked_lookup j b Hj).
Qed.

Lemma length_picked : length labs' = length labs.
Proof.
  unfold labs', pick. rewrite length_map, perm_ok. apply length_seq.
Qed.

Lemma chain_picked_1 i j :
  chain labs' eps i j ->
  forall a b, perm !! i = Some a -> perm !! j = Some b -> chain labs eps a b.
Proof.
  induction 1 as [i|i k j Hn Hch IH]; intros a b Hi Hj.
  - simplify_eq. constructor.
  - assert (Hk : (k < length perm)%nat).
    { apply near_lt in Hn. rewrite length_picked in Hn.
      rewrite perm_ok, length_seq. done. }
    destruct (lookup_lt_is_Some_2 perm k Hk) as [c Hc].
    eapply chain_hop; [|by eapply IH].
    by rewrite <- (near_picked i k a c).
Qed.

Lemma chain_picked_2 a b :
  chain labs eps a b ->
  forall i j, perm !! i = Some a -> perm !! j = Some b -> chain labs' eps i j.
Proof.
  induction 1 as [a|a c b Hn Hch IH]; intros i j Hi Hj.
  - assert (NoDup perm) as Hnd by (rewrite perm_ok; apply NoDup_seq).
    rewrite (NoDup_lookup perm i j a Hnd Hi Hj). constructor.
  - assert (c ∈ perm) as Hc.
    { rewrite perm_ok. apply elem_of_seq. apply near_lt in Hn. lia. }
    apply list_elem_of_lookup_1 in Hc as [k Hk].
    eapply chain_hop; [|by eapply IH].
    by rewrite (near_picked i k a c).
Qed.

End Reorder.

(** ** Merging keeps labels and counts consistent *)

Section Conservation.

(** Every label is a key of the dictionary and the member counts add up to
    the number of samples. *)
Definition Conserved (st : MergeState) : Prop :=
  (forall l, l ∈ ms_labels st -> is_Some (ms_clusterInfo st !! l)) /\
  totalCount (ms_clusterInfo st) = Z.of_nat (length (ms_labels st)).

Lemma relabel_elem dropId keepId lbls l :
  l ∈ relabel dropId keepId lbls ->
  (l = keepId /\ dropId ∈ lbls) \/ (l <> dropId /\ l ∈ lbls).
Proof.
  unfold relabel. intros (x & -> & Hx)%list_elem_of_fmap.
  destruct (Z.eqb_spec x dropId) as [->|]; auto.
Qed.

Lemma SafeMerges_Conserved cap st st' :
  SafeMerges cap st st' -> Conserved st -> Conserved st'.
Proof.
  induction 1 as [|st lo hi a b c st' Hne Ha Hb Hle Hc _ IH]; [done|].
  intros [Hkeys Htot]. apply IH. split; simpl.
  - intros l [[-> _]|[Hl Hin]]%relabel_elem.
    + rewrite lookup_delete_ne by done. rewrite lookup_insert_eq. eauto.
    + rewrite lookup_delete_ne by done.
      destruct (decide (l = lo)) as [->|].
      * rewrite lookup_insert_eq. eauto.
      * rewrite lookup_insert_ne by done. auto.
  - unfold relabel. rewrite length_map, <- Htot.
    rewrite (totalCount_delete (ms_clusterInfo st) lo a Ha).
    rewrite (totalCount_delete (delete lo (ms_clusterInfo st)) hi b)
      by (by rewrite lookup_delete_ne).
    rewrite <- (insert_delete_eq (ms_clusterInfo st) lo c).
    rewrite (delete_insert_ne _ hi lo) by done.
    rewrite totalCount_insert by (rewrite lookup_delete_ne by done;
                                  apply lookup_delete_eq).
    rewrite (delete_delete _ hi lo). lia.
Qed.

Lemma SafeMerges_length cap st st' :
  SafeMerges cap st st' -> length (ms_labels st') = length (ms_labels st).
Proof.
  induction 1 as [|st lo hi a b c st' _ _ _ _ _ _ IH]; [done|].
  rewrite IH. simpl. unfold relabel. by rewrite length_map.
Qed.

(** Whatever the arguments, the call is a sequence of merges each of which
    fits some capacity bound. *)
Lemma merge_SafeMerges lbls info capacity eps :
  let r := mergeClustersToExpectedCount lbls info capacity eps in
  exists cap,
    SafeMerges cap {| ms_labels := lbls; ms_clusterInfo := info; ms_merges := [] |}
      {| ms_labels := labels r; ms_clusterInfo := clusterInfo r;
         ms_merges := merges r |}.
Proof.
  intros r. subst r. unfold mergeClustersToExpectedCount.
  destruct (positiveCapacity capacity) as [cap|] eqn:Hcap;
    [|exists 0; constructor].
  destruct (Z.of_nat (length lbls) =? 0); [exists 0; constructor|].
  destruct (negb _); [exists 0; constructor|].
  exists cap. simpl.
  assert (0 < cap).
  { unfold positiveCapacity in Hcap. destruct capacity as [c|]; [|done].
    destruct (Z.gtb_spec c 0); simplify_eq. lia. }
  pose proof (mergeLoop_Reconcile cap (mergeCeiling eps)
    (Z.of_nat (length lbls) / cap) ltac:(apply Z.div_pos; lia) (size info)
    {| ms_labels := lbls; ms_clusterInfo := info; ms_merges := [] |}
    ltac:(done)) as Hrec.
  apply Reconcile_safe in Hrec.
  by destruct (mergeLoop _ _ _ _ _).
Qed.

End Conservation.

(** ** Results on clustering and reconciliation *)

(** Three clusters, two of them close: the input of the examples below. *)
Definition demoInfo : gmap Z Cluster :=
  list_to_map
    [(0, mkCluster 0 2 (Z2F 10, Z2F 10, Z2F 10) (Z2F 10, Z2F 10, Z2F 10) "#0A0A0A");
     (1, mkCluster 1 1 (Z2F 90, Z2F 10, Z2F 10) (Z2F 90, Z2F 10, Z2F 10) "#0A0A5A");
     (2, mkCluster 2 1 (Z2F 96, Z2F 10, Z2F 10) (Z2F 96, Z2F 10, Z2F 10) "#0A0A60")].

(** Two single-sample clusters far apart (black and white in 8-bit Lab). *)
Definition farInfo : gmap Z Cluster :=
  list_to_map
    [(0, mkCluster 0 1 (Z2F 0, Z2F 0, Z2F 0) (Z2F 0, Z2F 128, Z2F 128) "#000000");
     (1, mkCluster 1 1 (Z2F 255, Z2F 255, Z2F 255) (Z2F 255, Z2F 128, Z2F 128)
           "#FFFFFF")].

(** C1.  When the number of samples is a positive multiple of the capacity,
    [mergeClustersToExpectedCount] reports [expected = total / capacity] and
    its result is reached as [Reconcile] describes: while more clusters are
    live than expected it merges an eligible pair (combined count within the
    capacity, centroid distance not above the ceiling
    [max(8.0, 1.2 * eps)]) of least centroid distance, relabelling the absorbed
    cluster's samples, giving the survivor the summed count and the
    count-weighted mean centroid and dropping the absorbed id, and it stops
    as soon as no pair is eligible even if more than [expected] clusters are
    left.  The distance is [euclidean] and the mean is [weightedMean], both
    written out from the claim's words; that [labDist3] and [mix3] compute
    them is part of the proof. *)
Theorem reconcile_merges_closest_eligible_pair
    (labelsIn : list Z) (info : gmap Z Cluster) (cap : Z) (eps : option float) :
  0 < cap -> (0 < length labelsIn)%nat ->
  Z.rem (Z.of_nat (length labelsIn)) cap = 0 ->
  let r := mergeClustersToExpectedCount labelsIn info (Some cap) eps in
  let expected := Z.of_nat (length labelsIn) / cap in
  expectedColors r = Some expected /\
  (forall e, eps = Some e ->
     mergeCeiling eps
     = Math_max (Z2F 8) (PrimFloat.mul e 0x1.3333333333333p+0%float)) /\
  Reconcile cap (mergeCeiling eps) expected
    {| ms_labels := labelsIn; ms_clusterInfo := info; ms_merges := [] |}
    {| ms_labels := labels r; ms_clusterInfo := clusterInfo r;
       ms_merges := merges r |}.
Proof.
  intros Hcap Hn Hrem r expected. subst r.
  rewrite merge_runs by done. cbv zeta. simpl.
  split; [done|]. split; [by intros e ->|].
  pose proof (mergeLoop_Reconcile cap (mergeCeiling eps) expected
    ltac:(apply Z.div_pos; lia) (size info)
    {| ms_labels := labelsIn; ms_clusterInfo := info; ms_merges := [] |}
    ltac:(done)) as Hrec.
  fold expected. by destruct (mergeLoop _ _ _ _ _).
Qed.

Lemma reconcile_merges_closest_eligible_pair_witness :
  let r := mergeClustersToExpectedCount [0; 1; 0; 2] demoInfo (Some 2)
             (Some (Z2F 4)) in
  expectedColors r = Some (Z.of_nat (length [0; 1; 0; 2]) / 2) /\
  (forall e, Some (Z2F 4) = Some e ->
     mergeCeiling (Some (Z2F 4))
     = Math_max (Z2F 8) (PrimFloat.mul e 0x1.3333333333333p+0%float)) /\
  Reconcile 2 (mergeCeiling (Some (Z2F 4))) (Z.of_nat (length [0; 1; 0; 2]) / 2)
    {| ms_labels := [0; 1; 0; 2]; ms_clusterInfo := demoInfo; ms_merges := [] |}
    {| ms_labels := labels r; ms_clusterInfo := clusterInfo r;
       ms_merges := merges r |}.
Proof.
  apply (reconcile_merges_closest_eligible_pair [0; 1; 0; 2] demoInfo 2
           (Some (Z2F 4))); [lia | simpl; lia | reflexivity].
Defined.

(** C2, as stated, fails: two clusters of one sample each that lie far apart
    stay two although [total / capacity = 1]. *)
Lemma reconcile_count_can_exceed_expected :
  ~ (forall (labelsIn : list Z) (info : gmap Z Cluster) (cap : Z)
            (eps : option float),
       0 < cap -> (0 < length labelsIn)%nat ->
       Z.rem (Z.of_nat (length labelsIn)) cap = 0 ->
       Z.of_nat (size (clusterInfo
          (mergeClustersToExpectedCount labelsIn info (Some cap) eps)))
       <= Z.of_nat (length labelsIn) / cap).
Proof.
  intros H.
  specialize (H [0; 1] farInfo 2 (Some (Z2F 16)) ltac:(lia) ltac:(simpl; lia)
                ltac:(reflexivity)).
  vm_compute in H. by apply H.
Qed.

(** C2, amended.  When the number of samples is a positive multiple of the
    capacity, then after [mergeClustersToExpectedCount] either at most
    [total / capacity] clusters remain or no eligible pair is left, and every
    merge step on the way combined two distinct live clusters whose member
    counts together do not exceed the capacity. *)
Theorem reconcile_bounded_unless_stuck
    (labelsIn : list Z) (info : gmap Z Cluster) (cap : Z) (eps : option float) :
  0 < cap -> (0 < length labelsIn)%nat ->
  Z.rem (Z.of_nat (length labelsIn)) cap = 0 ->
  let r := mergeClustersToExpectedCount labelsIn info (Some cap) eps in
  (Z.of_nat (size (clusterInfo r)) <= Z.of_nat (length labelsIn) / cap \/
   forall lo hi a b,
     ~ eligible (clusterInfo r) cap (mergeCeiling eps) lo hi a b) /\
  SafeMerges cap
    {| ms_labels := labelsIn; ms_clusterInfo := info; ms_merges := [] |}
    {| ms_labels := labels r; ms_clusterInfo := clusterInfo r;
       ms_merges := merges r |}.
Proof.
  intros Hcap Hn Hrem r. subst r. rewrite merge_runs by done. cbv zeta. simpl.
  pose proof (mergeLoop_Reconcile cap (mergeCeiling eps)
    (Z.of_nat (length labelsIn) / cap)
    ltac:(apply Z.div_pos; lia) (size info)
    {| ms_labels := labelsIn; ms_clusterInfo := info; ms_merges := [] |}
    ltac:(done)) as Hrec.
  split.
  - by apply Reconcile_exit in Hrec.
  - apply Reconcile_safe in Hrec. by destruct (mergeLoop _ _ _ _ _).
Qed.

Lemma reconcile_bounded_unless_stuck_witness :
  let r := mergeClustersToExpectedCount [0; 1] farInfo (Some 2)
             (Some (Z2F 16)) in
  (Z.of_nat (size (clusterInfo r)) <= Z.of_nat (length [0; 1]) / 2 \/
   forall lo hi a b,
     ~ eligible (clusterInfo r) 2 (mergeCeiling (Some (Z2F 16))) lo hi a b) /\
  SafeMerges 2
    {| ms_labels := [0; 1]; ms_clusterInfo := farInfo; ms_merges := [] |}
    {| ms_labels := labels r; ms_clusterInfo := clusterInfo r;
       ms_merges := merges r |}.
Proof.
  apply (reconcile_bounded_unless_stuck [0; 1] farInfo 2 (Some (Z2F 16)));
    [lia | simpl; lia | reflexivity].
Defined.

(** C6.  With no samples, with a capacity that is not a positive number, or
    with a sample count the capacity does not divide,
    [mergeClustersToExpectedCount] returns the labels and the clusters it was
    given, an empty merge list and no expected count; and for an empty sample
    list clustering followed by reconciliation gives an empty label list and
    an empty palette. *)
Theorem reconcile_skipped_returns_input
    (labelsIn : list Z) (info : gmap Z Cluster) (capacity : option Z)
    (eps : option float) (cvtColor_BGR2Lab : Bgr -> Lab) (eps0 : float) :
  length labelsIn = 0%nat \/ capacity = None \/
  (exists c, capacity = Some c /\ c <= 0) \/
  (exists c, capacity = Some c /\ Z.rem (Z.of_nat (length labelsIn)) c <> 0) ->
  mergeClustersToExpectedCount labelsIn info capacity eps
  = {| labels := labelsIn; clusterInfo := info; merges := [];
       expectedColors := None |} /\
  clusterColorsDbscan cvtColor_BGR2Lab [] eps0 = ([], ∅) /\
  mergeClustersToExpectedCount
    (fst (clusterColorsDbscan cvtColor_BGR2Lab [] eps0))
    (snd (clusterColorsDbscan cvtColor_BGR2Lab [] eps0)) capacity eps
  = {| labels := []; clusterInfo := ∅; merges := []; expectedColors := None |}.
Proof.
  intros Hskip. split_and!.
  - apply merge_skips. destruct Hskip as [?|[->|[(c & -> & Hc)|?]]]; auto.
    right; left. simpl. destruct (Z.gtb_spec c 0); [lia|done].
  - reflexivity.
  - apply merge_skips. by left.
Qed.

Lemma reconcile_skipped_returns_input_witness :
  mergeClustersToExpectedCount [0; 1; 0] demoInfo (Some 2) (Some (Z2F 4))
  = {| labels := [0; 1; 0]; clusterInfo := demoInfo; merges := [];
       expectedColors := None |} /\
  clusterColorsDbscan (fun c => c) [] (Z2F 16) = ([], ∅) /\
  mergeClustersToExpectedCount
    (fst (clusterColorsDbscan (fun c => c) [] (Z2F 16)))
    (snd (clusterColorsDbscan (fun c => c) [] (Z2F 16))) (Some 2)
    (Some (Z2F 4))
  = {| labels := []; clusterInfo := ∅; merges := []; expectedColors := None |}.
Proof.
  apply (reconcile_skipped_returns_input [0; 1; 0] demoInfo (Some 2)
           (Some (Z2F 4)) (fun c => c) (Z2F 16)).
  right; right; right. exists 2. split; [reflexivity|]. vm_compute. discriminate.
Defined.

(** ** Clustering against the claim's wording *)

(** The Euclidean distance of two Lab colours in binary64.  The coordinates
    are integers, so the sum of the squared differences is exact and the
    distance is its correctly rounded square root. *)
Definition euclideanLab (p q : Lab) : float :=
  PrimFloat.sqrt
    (Z2F ((p.1.1 - q.1.1) ^ 2 + (p.1.2 - q.1.2) ^ 2 + (p.2 - q.2) ^ 2)).

(** Two samples are joined when a chain of samples leads from one to the
    other in which consecutive samples are at Euclidean distance at most
    [eps]. *)
Inductive joined (labs : list Lab) (eps : float) : nat -> nat -> Prop :=
  | joined_here i : joined labs eps i i
  | joined_hop i j k p q :
      labs !! i = Some p -> labs !! j = Some q ->
      PrimFloat.leb (euclideanLab p q) eps = true ->
      joined labs eps j k -> joined labs eps i k.

(** The mean of a list of integer channel values in binary64: their exact
    sum divided by their number. *)
Definition meanOf (vals : list Z) : float :=
  PrimFloat.div (Z2F (foldr Z.add 0 vals)) (Z2F (Z.of_nat (length vals))).

(** The mean colour of a list of colours, channel by channel. *)
Definition meanColour (colours : list (Z * Z * Z)) : F3 :=
  (meanOf (map (fun c => c.1.1) colours),
   meanOf (map (fun c => c.1.2) colours),
   meanOf (map (fun c => c.2) colours)).

(** The colours of the samples that carry the label [k], in sample order. *)
Definition coloursOf (labels : list Z) (colours : list (Z * Z * Z)) (k : Z)
    : list (Z * Z * Z) :=
  omap (fun lc : Z * (Z * Z * Z) => if fst lc =? k then Some (snd lc) else None)
       (zip labels colours).

Lemma dist_euclideanLab (p q : Lab) : dist p q = euclideanLab p q.
Proof.
  destruct p as [[p0 p1] p2], q as [[q0 q1] q2]. unfold dist, euclideanLab.
  simpl. by rewrite !Z.pow_2_r.
Qed.

Lemma chain_joined (labs : list Lab) (eps : float) (i j : nat) :
  chain labs eps i j <-> joined labs eps i j.
Proof.
  split.
  - induction 1 as [i|i j k Hn _ IH]; [constructor|].
    unfold near in Hn. destruct (labs !! i) as [p|] eqn:Hp; [|done].
    destruct (labs !! j) as [q|] eqn:Hq; [|done].
    rewrite dist_euclideanLab in Hn. by eapply joined_hop.
  - induction 1 as [i|i j k p q Hp Hq Hd _ IH]; [constructor|].
    eapply chain_hop; [|exact IH]. unfold near. rewrite Hp, Hq.
    by rewrite dist_euclideanLab.
Qed.

Lemma sum3_channels (l : list (Z * Z * Z)) :
  sum3 l = (foldr Z.add 0 (map (fun c => c.1.1) l),
            foldr Z.add 0 (map (fun c => c.1.2) l),
            foldr Z.add 0 (map (fun c => c.2) l)).
Proof.
  unfold sum3.
  assert (Hgen : forall s0 s1 s2,
    fold_left (fun '(s0, s1, s2) '(x0, x1, x2) => (s0 + x0, s1 + x1, s2 + x2))
              l (s0, s1, s2)
    = (s0 + foldr Z.add 0 (map (fun c => c.1.1) l),
       s1 + foldr Z.add 0 (map (fun c => c.1.2) l),
       s2 + foldr Z.add 0 (map (fun c => c.2) l))).
  { induction l as [|[[x0 x1] x2] l IH]; intros s0 s1 s2; simpl.
    - by rewrite !Z.add_0_r.
    - rewrite IH. f_equal; [f_equal|]; lia. }
  by rewrite Hgen.
Qed.

Lemma mean3_meanColour (l : list (Z * Z * Z)) :
  mean3 (sum3 l) (Z.of_nat (length l)) = meanColour l.
Proof.
  rewrite sum3_channels. unfold mean3, meanColour, meanOf.
  by rewrite !length_map.
Qed.

Lemma pick_members_from (k : Z) (labels : list Z)
    (colours : list (Z * Z * Z)) (before : list Z)
    (coloursBefore : list (Z * Z * Z)) :
  length before = length coloursBefore -> length labels = length colours ->
  map (fun i => default (0, 0, 0) ((coloursBefore ++ colours) !! i))
      (filter (fun i => (before ++ labels) !! i = Some k)
              (seq (length before) (length labels)))
  = coloursOf labels colours k.
Proof.
  unfold coloursOf. revert colours before coloursBefore.
  induction labels as [|l labels IH]; intros colours before coloursBefore Hb Hl.
  { by destruct colours. }
  destruct colours as [|c colours]; [done|]. simpl in Hl.
  cbn [length seq zip_with omap list_omap fst snd]. rewrite filter_cons.
  assert (Hlk : (before ++ l :: labels) !! length before = Some l)
    by (by rewrite list_lookup_middle).
  assert (Hck : (coloursBefore ++ c :: colours) !! length before = Some c)
    by (by rewrite Hb, list_lookup_middle).
  assert (Hrest :
    map (fun i => default (0, 0, 0) ((coloursBefore ++ c :: colours) !! i))
        (filter (fun i => (before ++ l :: labels) !! i = Some k)
                (seq (S (length before)) (length labels)))
    = omap (fun lc : Z * (Z * Z * Z) =>
              if fst lc =? k then Some (snd lc) else None)
           (zip labels colours)).
  { specialize (IH colours (before ++ [l]) (coloursBefore ++ [c])).
    rewrite !length_app, <- !app_assoc in IH. simpl in IH.
    rewrite Nat.add_1_r in IH. apply IH; lia. }
  destruct (decide ((before ++ l :: labels) !! length before = Some k))
    as [Hk|Hk]; rewrite Hlk in Hk.
  - injection Hk as ->. rewrite Z.eqb_refl. simpl. rewrite Hck. simpl.
    f_equal. exact Hrest.
  - destruct (Z.eqb_spec l k) as [->|_]; [done|]. exact Hrest.
Qed.

Lemma pick_members (labels : list Z) (colours : list (Z * Z * Z)) (k : Z) :
  length labels = length colours ->
  pick (0, 0, 0) colours (members labels k) = coloursOf labels colours k.
Proof.
  intros Hl. exact (pick_members_from k labels colours [] [] eq_refl Hl).
Qed.

Lemma length_coloursOf (labels : list Z) (c1 c2 : list (Z * Z * Z)) (k : Z) :
  length labels = length c1 -> length labels = length c2 ->
  length (coloursOf labels c1 k) = length (coloursOf labels c2 k).
Proof.
  intros H1 H2. rewrite <- !pick_members by done. unfold pick.
  by rewrite !length_map.
Qed.

(** C5.  [clusterColorsDbscan] gives two samples the same label exactly when
    a chain of samples joins them in which consecutive samples are at
    Euclidean Lab distance at most [eps]; every sample's label has a cluster
    record, and the record of a cluster holds its id, the number of its
    members and, as centroids, the means of its members' BGR and Lab
    colours; and reading the same samples in another order yields the same
    partition: two positions share a label in the reordered run exactly when
    the samples they hold shared one in the original run. *)
Theorem clustering_is_single_link_components
    (cvtColor_BGR2Lab : Bgr -> Lab) (samplesBgr : list Bgr) (eps : float) :
  let labs := map cvtColor_BGR2Lab samplesBgr in
  let out := clusterColorsDbscan cvtColor_BGR2Lab samplesBgr eps in
  length (fst out) = length samplesBgr /\
  (forall i j, (i < length samplesBgr)%nat -> (j < length samplesBgr)%nat ->
     (fst out !! i = fst out !! j <-> joined labs eps i j)) /\
  (forall i l, fst out !! i = Some l -> is_Some (snd out !! l)) /\
  (forall k c, snd out !! k = Some c ->
     id c = k /\
     count c = Z.of_nat (length (coloursOf (fst out) samplesBgr k)) /\
     center_bgr c = meanColour (coloursOf (fst out) samplesBgr k) /\
     center_lab c = meanColour (coloursOf (fst out) labs k)) /\
  (forall perm, perm ≡ₚ seq 0 (length samplesBgr) ->
     let out' := clusterColorsDbscan cvtColor_BGR2Lab
                   (pick (0, 0, 0) samplesBgr perm) eps in
     forall i j a b, perm !! i = Some a -> perm !! j = Some b ->
       (fst out' !! i = fst out' !! j <-> fst out !! a = fst out !! b)).
Proof.
  intros labs out.
  destruct (cluster_facts cvtColor_BGR2Lab samplesBgr eps)
    as (Hlen & Hhas & Hch & Hrec & _).
  fold labs out in Hlen, Hhas, Hch, Hrec.
  assert (Hlabs : length labs = length samplesBgr)
    by (unfold labs; by rewrite length_map).
  split_and!.
  - exact Hlen.
  - intros i j Hi Hj. rewrite <- chain_joined. by apply Hch.
  - intros i l Hi.
    destruct (Hhas i) as (l' & Hl' & Hsome).
    { rewrite <- Hlen. by eapply lookup_lt_Some. }
    congruence.
  - intros k c Hc. rewrite (Hrec k c Hc). unfold clusterOf.
    set (idxs := members (fst out) k).
    assert (Hb : pick (0, 0, 0) samplesBgr idxs
                 = coloursOf (fst out) samplesBgr k)
      by (apply pick_members; congruence).
    assert (Hl : pick (0, 0, 0) labs idxs = coloursOf (fst out) labs k)
      by (apply pick_members; congruence).
    assert (Hn : length idxs = length (coloursOf (fst out) samplesBgr k))
      by (rewrite <- Hb; unfold pick; by rewrite length_map).
    assert (Hn' : length idxs = length (coloursOf (fst out) labs k))
      by (rewrite <- Hl; unfold pick; by rewrite length_map).
    assert (Hbgr : mean3 (sum3 (pick (0, 0, 0) samplesBgr idxs))
                         (Z.of_nat (length idxs))
                   = meanColour (coloursOf (fst out) samplesBgr k))
      by (rewrite Hb, Hn; apply mean3_meanColour).
    assert (Hlab : mean3 (sum3 (pick (0, 0, 0) labs idxs))
                         (Z.of_nat (length idxs))
                   = meanColour (coloursOf (fst out) labs k))
      by (rewrite Hl, Hn'; apply mean3_meanColour).
    rewrite Hbgr, Hlab, Hn.
    by destruct (meanColour (coloursOf (fst out) samplesBgr k)) as [[??]?].
  - intros perm Hperm out' i j a b Hi Hj.
    assert (Hplen : length perm = length samplesBgr)
      by (by rewrite Hperm, length_seq).
    assert (Hpick : length (pick (0, 0, 0) samplesBgr perm) = length samplesBgr)
      by (unfold pick; by rewrite length_map).
    assert (Hperm' : perm ≡ₚ seq 0 (length labs)) by by rewrite Hlabs.
    destruct (cluster_facts cvtColor_BGR2Lab (pick (0, 0, 0) samplesBgr perm) eps)
      as (_ & _ & Hch' & _).
    fold out' in Hch'. rewrite Hpick in Hch'.
    assert (Hil : (i < length samplesBgr)%nat)
      by (rewrite <- Hplen; by eapply lookup_lt_Some).
    assert (Hjl : (j < length samplesBgr)%nat)
      by (rewrite <- Hplen; by eapply lookup_lt_Some).
    assert (Hal : (a < length samplesBgr)%nat)
      by (rewrite <- Hlabs; by eapply perm_lt).
    assert (Hbl : (b < length samplesBgr)%nat)
      by (rewrite <- Hlabs; by eapply perm_lt).
    rewrite (Hch' i j Hil Hjl), (Hch a b Hal Hbl).
    assert (Hmap : map cvtColor_BGR2Lab (pick (0, 0, 0) samplesBgr perm)
                   = pick (0, 0, 0) labs perm).
    { unfold pick. rewrite map_map. apply map_ext_in. intros x Hx.
      apply list_elem_of_In in Hx. rewrite Hperm in Hx.
      apply elem_of_seq in Hx. unfold labs. rewrite list_lookup_fmap.
      destruct (lookup_lt_is_Some_2 samplesBgr x ltac:(lia)) as [y ->]. done. }
    rewrite Hmap. split.
    + intros Hc. by eapply chain_picked_1.
    + intros Hc. by eapply chain_picked_2.
Qed.

(** C10.  After [mergeClustersToExpectedCount] on the output of
    [clusterColorsDbscan], every returned label is a key of the returned
    dictionary, there is one label per input sample, and the member counts
    of the returned clusters add up to the number of input samples. *)
Theorem merge_after_clustering_conserves_samples
    (cvtColor_BGR2Lab : Bgr -> Lab) (samplesBgr : list Bgr) (eps : float)
    (capacity : option Z) (dbscanEps : option float) :
  let out := clusterColorsDbscan cvtColor_BGR2Lab samplesBgr eps in
  let r := mergeClustersToExpectedCount (fst out) (snd out) capacity dbscanEps in
  (forall l, l ∈ labels r -> is_Some (clusterInfo r !! l)) /\
  length (labels r) = length samplesBgr /\
  totalCount (clusterInfo r) = Z.of_nat (length samplesBgr).
Proof.
  intros out r.
  destruct (cluster_facts cvtColor_BGR2Lab samplesBgr eps)
    as (Hlen & Hkeys & _ & _ & Htot).
  fold out in Hlen, Hkeys, Htot.
  destruct (merge_SafeMerges (fst out) (snd out) capacity dbscanEps)
    as [cap Hsafe].
  fold r in Hsafe. pose proof (SafeMerges_length _ _ _ Hsafe) as Hl.
  apply SafeMerges_Conserved in Hsafe as [Hk Ht].
  - simpl in *. split_and!; [done|congruence|]. rewrite Ht. f_equal. congruence.
  - split; simpl; [|by rewrite Htot, Hlen].
    intros l (i & Hi)%list_elem_of_lookup_1.
    assert (Hil : (i < length samplesBgr)%nat)
      by (rewrite <- Hlen; by eapply lookup_lt_Some).
    destruct (Hkeys i Hil) as (l' & Hl' & Hsome). by simplify_eq.
Qed.

(** ** Results on grid normalisation *)

Example grid_empty_demo :
  enforceFixedBottleGrid (fun _ _ _ _ => None) hypotSqrt 1000 2000 []
  = [mkGridBox 325 340 110 640; mkGridBox 445 340 110 640;
     mkGridBox 565 340 110 640; mkGridBox 325 980 110 640;
     mkGridBox 445 980 110 640; mkGridBox 565 980 110 640].
Proof. vm_compute. reflexivity. Qed.

Lemma clampInt_range (v : float) (lo hi : Z) :
  lo <= hi -> lo <= clampInt v lo hi <= hi.
Proof. unfold clampInt. lia. Qed.

Lemma greedy_length boxes pairs assign used :
  length (greedy boxes pairs assign used) = length assign.
Proof.
  revert assign used.
  induction pairs as [|[[dist bi] pi] rest IH]; intros assign used; simpl;
    [done|].
  destruct (assign !! pi) as [[b|]|]; try apply IH;
    (case_bool_decide; [apply IH|rewrite IH; apply length_insert]).
Qed.

Lemma greedyAssign_length hypot g preds :
  length (greedyAssign hypot g preds) = 6%nat.
Proof. unfold greedyAssign. rewrite greedy_length. apply length_replicate. Qed.

Lemma predictions_cells (g : GridModel) :
  predictions g
  = map (fun '(r, c) =>
           {| pr_r := r; pr_c := c; pr_cx := at_ (gm_xCenters g) c;
              pr_cy := at_ (gm_yCenters g) r |})
        [(0, 0); (0, 1); (0, 2); (1, 0); (1, 1); (1, 2)]%nat.
Proof. reflexivity. Qed.

(** The column and row centres come out of the sort in ascending order: no
    centre sorts before its predecessor. *)
Lemma centres_ascending (W H : Z) (candidates : list Box) :
  Sorted (follows num_lt) (gm_xCenters (estimateGrid W H candidates)) /\
  Sorted (follows num_lt) (gm_yCenters (estimateGrid W H candidates)).
Proof. split; apply sort_by_Sorted, num_lt_asym. Qed.



(** ** Breadth-first search returns a shortest solution *)

Module SolverFacts.

Import Solver.

Section Search.

Variable capacity : nat.
Variable blocked : gset nat.
Variable init : list (list Z).

(** The specification's legality of a move, spelled out. *)
Definition Legal (b : list (list Z)) (m : Move) : Prop :=
  src m <> dst m /\ (src m ∉ blocked) /\
  exists s t,
    b !! src m = Some s /\ b !! dst m = Some t /\
    topColor s = Some (color m) /\ (length t < capacity)%nat /\
    (t = [] \/ topColor t = Some (color m)) /\
    amount m = Nat.min (runLength s) (capacity - length t).

Lemma topColor_None (t : list Z) : topColor t = None <-> t = [].
Proof. unfold topColor. apply last_None. Qed.

Lemma moveBetween_Legal b i j m :
  moveBetween capacity blocked b i j = Some m <->
  src m = i /\ dst m = j /\ Legal b m.
Proof.
  unfold moveBetween, Legal. split.
  - repeat case_bool_decide; try done.
    destruct (b !! i) as [s|] eqn:Hs; [|done].
    destruct (b !! j) as [t|] eqn:Ht; [|done].
    destruct (topColor s) as [c|] eqn:Hc; [|done].
    destruct (Nat.ltb_spec (length t) capacity); [|done].
    destruct (topColor t) as [c'|] eqn:Hc'; simpl.
    + destruct (Z.eqb_spec c' c) as [->|]; [|done].
      intros [= <-]. simpl. split_and!; auto. exists s, t. split_and!; auto.
    + intros [= <-]. simpl. split_and!; auto. exists s, t. split_and!; auto.
      left. by apply topColor_None.
  - intros (<- & <- & Hne & Hbl & s & t & Hs & Ht & Hc & Hlt & Htop & Ham).
    rewrite !bool_decide_eq_false_2 by done. rewrite Hs, Ht, Hc.
    destruct (Nat.ltb_spec (length t) capacity); [|lia].
    assert (match topColor t with None => true | Some c' => c' =? color m end
            = true) as ->.
    { destruct Htop as [-> | ->]; [done|]. apply Z.eqb_refl. }
    simpl. destruct m; simpl in *. by subst.
Qed.

Lemma successors_spec b m t :
  (m, t) ∈ successors capacity blocked b <-> Legal b m /\ t = applyMove b m.
Proof.
  unfold successors. rewrite list_elem_of_In, in_flat_map. split.
  - intros (i & Hi & Hin). apply in_flat_map in Hin as (j & Hj & Hin).
    destruct (moveBetween capacity blocked b i j) as [m'|] eqn:Hm; [|done].
    destruct Hin as [[= <- <-]|[]].
    apply moveBetween_Legal in Hm as (_ & _ & HL). done.
  - intros [HL ->].
    pose proof HL as (_ & _ & s & t & Hs & Ht & _).
    exists (src m). split; [apply in_seq; apply lookup_lt_Some in Hs; lia|].
    apply in_flat_map. exists (dst m).
    split; [apply in_seq; apply lookup_lt_Some in Ht; lia|].
    assert (moveBetween capacity blocked b (src m) (dst m) = Some m) as ->
      by (by apply moveBetween_Legal).
    by left.
Qed.

(** A legal move sequence from the initial board, and the board it reaches. *)
Inductive reach : list Move -> list (list Z) -> Prop :=
  | reach_nil : reach [] init
  | reach_snoc ms s m :
      reach ms s -> Legal s m -> reach (ms ++ [m]) (applyMove s m).

Lemma reach_functional ms s : reach ms s -> forall t, reach ms t -> s = t.
Proof.
  induction 1 as [|ms s m Hr IH HL]; intros t Ht.
  - inversion Ht as [|ms' s' m' _ _ Heq]; [done|]. by destruct ms'.
  - inversion Ht as [Heq|ms' s' m' Hr' _ Heq]; [by destruct ms|].
    apply app_inj_tail in Heq as [-> ->]. by rewrite (IH s' Hr').
Qed.

Definition depthIs (n : nat) (e : list (list Z) * list Move) : Prop :=
  length (snd e) = n.

(** The queue holds the states of one depth followed by those one deeper. *)
Definition Levels (queue : list (list (list Z) * list Move)) : Prop :=
  exists n l1 l2,
    queue = l1 ++ l2 /\ Forall (depthIs n) l1 /\ Forall (depthIs (S n)) l2.

Lemma Levels_front s p rest s' p' :
  Levels ((s, p) :: rest) -> (s', p') ∈ (s, p) :: rest ->
  (length p <= length p')%nat.
Proof.
  intros (n & l1 & l2 & Heq & H1 & H2) Hin.
  rewrite Heq in Hin. rewrite Forall_forall in H1, H2.
  destruct l1 as [|e l1]; simpl in Heq.
  - subst l2. pose proof (H2 (s, p) ltac:(set_solver)) as Hp.
    pose proof (H2 _ Hin) as Hp'. unfold depthIs in *; simpl in *. lia.
  - injection Heq as <- Hrest.
    pose proof (H1 (s, p) ltac:(set_solver)) as Hp.
    apply elem_of_app in Hin as [Hin|Hin].
    + pose proof (H1 _ Hin) as Hp'. unfold depthIs in *; simpl in *. lia.
    + pose proof (H2 _ Hin) as Hp'. unfold depthIs in *; simpl in *. lia.
Qed.

Lemma Levels_step s p rest news :
  Levels ((s, p) :: rest) -> Forall (depthIs (S (length p))) news ->
  Levels (rest ++ news).
Proof.
  intros (n & l1 & l2 & Heq & H1 & H2) Hnews.
  destruct l1 as [|e l1]; simpl in Heq.
  - subst l2. apply Forall_cons in H2 as [Hp H2]. unfold depthIs in Hp.
    simpl in Hp. rewrite Hp in Hnews.
    exists (S n), rest, news. done.
  - injection Heq as <- ->. apply Forall_cons in H1 as [Hp H1].
    unfold depthIs in Hp. simpl in Hp. rewrite Hp in Hnews.
    exists n, l1, (l2 ++ news). split_and!; [by rewrite app_assoc|done|].
    by apply Forall_app.
Qed.

(** The invariant of the search; [closed] are the states expanded so far. *)
Record SearchInv (closed : list (list (list Z)))
    (queue : list (list (list Z) * list Move))
    (visited : list (list (list Z))) : Prop := {
  si_init : init ∈ visited;
  si_queue : forall s p, (s, p) ∈ queue -> reach (rev p) s /\ s ∈ visited;
  si_levels : Levels queue;
  si_closed : forall s, s ∈ closed ->
    s ∈ visited /\ isGoal s = false /\
    forall m, Legal s m -> applyMove s m ∈ visited;
  si_cover : forall s, s ∈ visited -> s ∈ closed \/ exists p, (s, p) ∈ queue;
  si_short : forall s p, (s, p) ∈ queue ->
    forall ms, reach ms s -> (length p <= length ms)%nat
}.

(** Every legal sequence ends in an expanded state or passes through a state
    that waits in the queue. *)
Lemma frontier closed queue visited ms t :
  SearchInv closed queue visited -> reach ms t ->
  t ∈ closed \/
  exists ms1 ms2 s p,
    ms = ms1 ++ ms2 /\ reach ms1 s /\ (s, p) ∈ queue /\ (ms2 = [] -> t = s).
Proof.
  intros Hinv. induction 1 as [|ms s m Hr IH HL].
  - destruct (si_cover _ _ _ Hinv init (si_init _ _ _ Hinv)) as [?|[p Hp]];
      [by left|].
    right. exists [], [], init, p. split_and!; auto. constructor.
  - destruct IH as [Hc|(ms1 & ms2 & s' & p & -> & Hr1 & Hq & Hend)].
    + destruct (si_closed _ _ _ Hinv s Hc) as (_ & _ & Hsucc).
      destruct (si_cover _ _ _ Hinv _ (Hsucc m HL)) as [?|[p Hp]]; [by left|].
      right. exists (ms ++ [m]), [], (applyMove s m), p.
      split_and!; auto; [by rewrite app_nil_r|by constructor].
    + right. exists ms1, (ms2 ++ [m]), s', p.
      split_and!; auto; [by rewrite app_assoc|]. by destruct ms2.
Qed.

Lemma enqueue_fold path succs :
  forall q v q' v',
  fold_left (enqueue path) succs (q, v) = (q', v') ->
  exists news,
    q' = q ++ news /\
    (forall t p', (t, p') ∈ news ->
       exists m, (m, t) ∈ succs /\ p' = m :: path /\ t ∉ v) /\
    (forall t, t ∈ v' <-> t ∈ v \/ exists p', (t, p') ∈ news) /\
    (forall m t, (m, t) ∈ succs -> t ∈ v').
Proof.
  induction succs as [|[m t] succs IH]; intros q v q' v' Hf; simpl in Hf.
  - simplify_eq. exists []. rewrite app_nil_r. split_and!; auto; set_solver.
  - case_bool_decide as Hin.
    + destruct (IH _ _ _ _ Hf) as (news & -> & Hn & Hv & Hs).
      exists news. split_and!; auto.
      * intros t' p' Hin'. destruct (Hn t' p' Hin') as (m' & ? & ? & ?).
        exists m'. split_and!; auto. set_solver.
      * intros m' t' [[= -> ->]|?]%elem_of_cons; [|eauto].
        apply Hv. by left.
    + destruct (IH _ _ _ _ Hf) as (news & -> & Hn & Hv & Hs).
      exists ((t, m :: path) :: news). split_and!.
      * by rewrite <- app_assoc.
      * intros t' p' [[= -> ->]|Hin']%elem_of_cons.
        -- exists m. split_and!; auto. set_solver.
        -- destruct (Hn t' p' Hin') as (m' & ? & ? & ?).
           exists m'. split_and!; auto; set_solver.
      * intros t'. rewrite Hv. split.
        -- intros [[->|?]%elem_of_cons|[p' ?]]; [right|by left|right].
           ++ exists (m :: path). set_solver.
           ++ exists p'. set_solver.
        -- intros [?|[p' [[= -> ->]|?]%elem_of_cons]]; [left|left|right].
           ++ set_solver.
           ++ set_solver.
           ++ eauto.
      * intros m' t' [[= -> ->]|?]%elem_of_cons; [|eauto].
        apply Hv. left. set_solver.
Qed.

(** Expanding the head of the queue keeps the invariant. *)
Lemma expand_inv closed s p rest visited queue' visited' :
  SearchInv closed ((s, p) :: rest) visited ->
  isGoal s = false ->
  fold_left (enqueue p) (successors capacity blocked s) (rest, visited)
    = (queue', visited') ->
  SearchInv (s :: closed) queue' visited'.
Proof.
  intros Hinv Hgoal Hf.
  destruct (enqueue_fold _ _ _ _ _ _ Hf) as (news & -> & Hn & Hv & Hs).
  destruct (si_queue _ _ _ Hinv s p ltac:(set_solver)) as [Hrs Hsv].
  split.
  - apply Hv. left. apply (si_init _ _ _ Hinv).
  - intros t p' [Hin|Hin]%elem_of_app.
    + destruct (si_queue _ _ _ Hinv t p' ltac:(set_solver)) as [? ?].
      split; [done|]. apply Hv. by left.
    + destruct (Hn t p' Hin) as (m & Hm & -> & _).
      apply successors_spec in Hm as [HL ->]. split.
      * simpl. by constructor.
      * apply Hv. right. eauto.
  - eapply Levels_step; [apply (si_levels _ _ _ Hinv)|].
    apply Forall_forall. intros [t p'] Hin.
    destruct (Hn t p' Hin) as (m & _ & -> & _). done.
  - intros t [->|Hc]%elem_of_cons.
    + split_and!; [apply Hv; by left|done|].
      intros m HL. apply (Hs m). by apply successors_spec.
    + destruct (si_closed _ _ _ Hinv t Hc) as (? & ? & Hsucc).
      split_and!; [apply Hv; by left|done|].
      intros m HL. apply Hv. left. by apply Hsucc.
  - intros t [Hold|[p' Hnew]]%Hv.
    + destruct (si_cover _ _ _ Hinv t Hold) as [?|[p' Hq]]; [left; set_solver|].
      apply elem_of_cons in Hq as [[= -> ->]|Hq]; [left; set_solver|].
      right. exists p'. set_solver.
    + right. exists p'. set_solver.
  - intros t p' [Hin|Hin]%elem_of_app ms Hr.
    + apply (si_short _ _ _ Hinv t p'); [set_solver|done].
    + destruct (Hn t p' Hin) as (m & _ & -> & Hnv).
      destruct (frontier _ _ _ ms t Hinv Hr)
        as [Hc|(ms1 & ms2 & s' & p'' & -> & Hr1 & Hq & Hend)].
      * destruct (si_closed _ _ _ Hinv t Hc) as (? & _). done.
      * pose proof (si_short _ _ _ Hinv s' p'' Hq ms1 Hr1).
        pose proof (Levels_front s p rest s' p'' (si_levels _ _ _ Hinv) Hq).
        destruct ms2 as [|m2 ms2].
        -- rewrite (Hend eq_refl) in Hnv.
           destruct (si_queue _ _ _ Hinv s' p'' Hq). done.
        -- rewrite length_app. simpl. lia.
Qed.

Lemma bfs_sound_optimal budget :
  forall closed queue visited explored,
  SearchInv closed queue visited ->
  let r := bfs budget capacity blocked queue visited explored in
  solved r = true ->
  (exists final, reach (moves r) final /\ isGoal final = true) /\
  (forall ms t, reach ms t -> isGoal t = true ->
     (length (moves r) <= length ms)%nat).
Proof.
  induction budget as [|budget IH]; intros closed queue visited explored Hinv;
    destruct queue as [|[s p] rest]; simpl; try done.
  - destruct (isGoal s) eqn:Hg; [|done]. simpl. intros _.
    destruct (si_queue _ _ _ Hinv s p ltac:(set_solver)) as [Hrs _].
    split; [eauto|]. intros ms t Hr Ht. rewrite length_rev.
    destruct (frontier _ _ _ ms t Hinv Hr)
      as [Hc|(ms1 & ms2 & s' & p' & -> & Hr1 & Hq & _)].
    + destruct (si_closed _ _ _ Hinv t Hc) as (_ & ? & _). congruence.
    + pose proof (si_short _ _ _ Hinv s' p' Hq ms1 Hr1).
      pose proof (Levels_front s p rest s' p' (si_levels _ _ _ Hinv) Hq).
      rewrite length_app. lia.
  - destruct (isGoal s) eqn:Hg.
    + simpl. intros _.
      destruct (si_queue _ _ _ Hinv s p ltac:(set_solver)) as [Hrs _].
      split; [eauto|]. intros ms t Hr Ht. rewrite length_rev.
      destruct (frontier _ _ _ ms t Hinv Hr)
        as [Hc|(ms1 & ms2 & s' & p' & -> & Hr1 & Hq & _)].
      * destruct (si_closed _ _ _ Hinv t Hc) as (_ & ? & _). congruence.
      * pose proof (si_short _ _ _ Hinv s' p' Hq ms1 Hr1).
        pose proof (Levels_front s p rest s' p' (si_levels _ _ _ Hinv) Hq).
        rewrite length_app. lia.
    + destruct (fold_left (enqueue p) (successors capacity blocked s)
                  (rest, visited)) as [queue' visited'] eqn:Hf.
      apply (IH (s :: closed)). by eapply expand_inv.
Qed.

Lemma SearchInv_initial : SearchInv [] [(init, [])] [init].
Proof.
  split.
  - set_solver.
  - intros s p [= -> ->]%list_elem_of_singleton. split; [constructor|set_solver].
  - exists 0%nat, [(init, [])], []. split_and!; auto. by repeat constructor.
  - set_solver.
  - intros s ->%list_elem_of_singleton. right. exists []. set_solver.
  - intros s p [= -> ->]%list_elem_of_singleton ms _. simpl. lia.
Qed.

End Search.

(** C4.  When [solveBfs] reports solved, the returned moves are a legal
    sequence from the initial board to a goal state and no legal sequence
    reaching a goal state is shorter; and a dequeued state that satisfies the
    goal predicate ends the search at once, with its own path. *)
Theorem bfs_returns_shortest_solution
    (initial : list (list Z)) (capacity : nat) (blocked : gset nat)
    (maxStates : nat) :
  let r := solveBfs initial capacity blocked maxStates in
  solved r = true ->
  (exists final,
     reach capacity blocked initial (moves r) final /\ isGoal final = true) /\
  (forall ms t, reach capacity blocked initial ms t -> isGoal t = true ->
     (length (moves r) <= length ms)%nat) /\
  (forall budget s path rest visited explored, isGoal s = true ->
     bfs budget capacity blocked ((s, path) :: rest) visited explored
     = {| solved := true; moves := rev path; exploredCount := explored;
          failureReason := None |}).
Proof.
  intros r Hs.
  destruct (bfs_sound_optimal capacity blocked initial maxStates []
              [(initial, [])] [initial] 0%nat
              (SearchInv_initial capacity blocked initial) Hs) as [Hfin Hmin].
  split_and!; [done|done|].
  intros budget s path rest visited explored Hg.
  destruct budget; simpl; by rewrite Hg.
Qed.

Lemma bfs_returns_shortest_solution_witness :
  let r := solveBfs [[1; 2]; [2; 1]; []] 2 ∅ 1000 in
  solved r = true /\
  (exists final,
     reach 2 ∅ [[1; 2]; [2; 1]; []] (moves r) final /\ isGoal final = true) /\
  (forall ms t, reach 2 ∅ [[1; 2]; [2; 1]; []] ms t -> isGoal t = true ->
     (length (moves r) <= length ms)%nat) /\
  (forall budget s path rest visited explored, isGoal s = true ->
     bfs budget 2 ∅ ((s, path) :: rest) visited explored
     = {| solved := true; moves := rev path; exploredCount := explored;
          failureReason := None |}).
Proof.
  split; [vm_compute; reflexivity|].
  apply (bfs_returns_shortest_solution [[1; 2]; [2; 1]; []] 2 ∅ 1000).
  vm_compute. reflexivity.
Defined.

End SolverFacts.

Example solve_demo :
  let r := Solver.solveBfs [[1; 2]; [2; 1]; []] 2 ∅ 1000 in
  Solver.solved r = true /\
  Solver.moves r = [Solver.mkMove 0 2 2 1; Solver.mkMove 1 0 1 1].
Proof. vm_compute. repeat split. Qed.

(** ** Results on the solve driver *)

Lemma tryExtras_spec
    (solveBfs : list (list Z) -> Z -> gset nat -> Z -> Solver.SolveResult)
    baseStacks cap rockSet maxStates allowedExtra :
  let run e := solveBfs (addExtraEmptyBottles baseStacks e) cap rockSet
                        maxStates in
  forall remaining e log chosen initial log',
  tryExtras solveBfs baseStacks cap rockSet maxStates allowedExtra remaining e
    log
    = (chosen, initial, log') ->
  exists k, (e <= k <= e + remaining)%nat /\
    log' = log ++ map (fun i => (i, addExtraEmptyBottles baseStacks i))
                      (seq e (S k - e)) /\
    (forall i, (e <= i < k)%nat -> Solver.solved (run i) = false) /\
    (Solver.solved (run k) = true \/ k = (e + remaining)%nat) /\
    chosen = {| info := run k; extraUsed := k; extraAllowed := allowedExtra |} /\
    initial = addExtraEmptyBottles baseStacks k.
Proof.
  intros run. induction remaining as [|remaining IH];
    intros e log chosen initial log' Hrun; simpl in Hrun.
  - exists e. replace (S e - e)%nat with 1%nat by lia. simpl.
    destruct (Solver.solved _) eqn:Hs; simplify_eq;
      split_and!; auto; try lia; intros; lia.
  - destruct (Solver.solved _) eqn:Hs.
    + simplify_eq. exists e. replace (S e - e)%nat with 1%nat by lia. simpl.
      split_and!; auto; try lia; intros; lia.
    + apply IH in Hrun as (k & Hk & -> & Hfail & Hlast & -> & ->).
      exists k. split_and!; auto; try lia.
      * rewrite <- app_assoc. f_equal. simpl.
        replace (S k - e)%nat with (S (k - e)) by lia.
        replace (S k - S e)%nat with (k - e)%nat by lia. done.
      * intros i Hi. destruct (decide (i = e)) as [->|]; [done|].
        apply Hfail. lia.
      * destruct Hlast as [?| ->]; [by left|right; lia].
Qed.

(** A stack from a bottle's contents listed top first, blanks skipped: the
    reading of [contentsToStacksTopBottom] used in the examples. *)
Definition stackOfContents (slots : list (option Z)) (cap : Z) : list Z :=
  rev (omap (fun c => c) slots).

Definition demoParse : ParseResult :=
  {| capacity := 2; rock_bottles := [2%nat];
     bottle_contents_ids :=
       [[Some 2; Some 1]; [Some 1; Some 2]; [Some 3; Some 3]];
     add_bottles := Some 1 |}.

Lemma addExtra_base stacks e i :
  (i < length stacks)%nat -> addExtraEmptyBottles stacks e !! i = stacks !! i.
Proof.
  intros Hi. unfold addExtraEmptyBottles. rewrite map_id.
  by rewrite lookup_app_l.
Qed.

Lemma addExtra_extra stacks e i :
  (length stacks <= i < length stacks + e)%nat ->
  addExtraEmptyBottles stacks e !! i = Some [].
Proof.
  intros Hi. unfold addExtraEmptyBottles. rewrite map_id.
  rewrite lookup_app_r by lia. apply lookup_replicate_2. lia.
Qed.

(** C7.  With an analysis result whose rock indices refer to analysed
    bottles, [solveAndRender] calls [solveBfs] for [e = 0, 1, 2, ...] extra
    bottles in increasing order, each time on a board that is the base
    stacks followed by exactly [e] empty stacks and nothing else; it stops
    at the first [e <= allowedExtra] (the badge count [add_bottles], 0
    when there is none) whose result is solved and hands that
    result on with [extraUsed = e], together with the board of that call; if
    none is solved the last attempt, [e = allowedExtra], is handed on; the
    appended bottles are empty and none of them is in the rock set. *)
Theorem driver_tries_increasing_extras
    (solveBfs : list (list Z) -> Z -> gset nat -> Z -> Solver.SolveResult)
    (applyMove : list (list Z) -> Solver.Move -> list (list Z))
    (contentsToStacksTopBottom : list (option Z) -> Z -> list Z)
    (r : ParseResult) :
  Forall (fun i => (i < length (bottle_contents_ids r))%nat) (rock_bottles r) ->
  let baseStacks :=
    map (fun slots => contentsToStacksTopBottom slots (capacity r))
        (bottle_contents_ids r) in
  let allowedExtra := Z.to_nat (default 0 (add_bottles r)) in
  let rockSet : gset nat := list_to_set (rock_bottles r) in
  let board (e : nat) : list (list Z) := baseStacks ++ replicate e [] in
  let run e := solveBfs (board e) (capacity r) rockSet
                        (Z.max 1000 DEFAULT_MAX_STATES) in
  exists out k,
    solveAndRender solveBfs applyMove contentsToStacksTopBottom (Some r)
      = Some out /\
    (k <= allowedExtra)%nat /\
    calls out = map (fun e => (e, board e)) (seq 0 (S k)) /\
    (forall e, (e < k)%nat -> Solver.solved (run e) = false) /\
    (Solver.solved (run k) = true \/ k = allowedExtra) /\
    chosenInfo out
      = {| info := run k; extraUsed := k; extraAllowed := allowedExtra |} /\
    chosenInitial out = board k /\
    (forall e, length (board e) = (length (bottle_contents_ids r) + e)%nat) /\
    (forall e i, (i < length baseStacks)%nat -> board e !! i = baseStacks !! i) /\
    (forall e i, (length baseStacks <= i < length baseStacks + e)%nat ->
       board e !! i = Some [] /\ i ∉ rockSet).
Proof.
  intros Hrock baseStacks allowedExtra rockSet board run.
  assert (Hboard : forall e, addExtraEmptyBottles baseStacks e = board e).
  { intros e. unfold addExtraEmptyBottles, board. by rewrite map_id. }
  assert (Hallowed : getExtraBottlesFromPowerup (Some r) = allowedExtra).
  { unfold getExtraBottlesFromPowerup, allowedExtra.
    destruct (add_bottles r) as [n|]; [|done]. simpl.
    destruct (Z.leb_spec 0 n); [done|lia]. }
  unfold solveAndRender. rewrite Hallowed. fold baseStacks rockSet.
  destruct (tryExtras solveBfs baseStacks (capacity r) rockSet
              (Z.max 1000 DEFAULT_MAX_STATES) allowedExtra allowedExtra 0 [])
    as [[chosen initial] log] eqn:Hrun.
  apply tryExtras_spec in Hrun as (k & Hk & -> & Hfail & Hlast & -> & ->).
  eexists _, k. split; [reflexivity|]. simpl.
  split_and!.
  - lia.
  - rewrite Hboard. f_equal. apply map_ext. intros e. by rewrite Hboard.
  - intros e Hek. unfold run. rewrite <- Hboard. apply Hfail. lia.
  - unfold run. rewrite <- Hboard. destruct Hlast as [?| ->]; [by left|by right].
  - unfold run. by rewrite <- Hboard.
  - apply Hboard.
  - intros e. unfold board, baseStacks.
    by rewrite length_app, length_map, length_replicate.
  - intros e i Hi. rewrite <- Hboard. by apply addExtra_base.
  - intros e i Hi. rewrite <- Hboard. split; [by apply addExtra_extra|].
    unfold rockSet. rewrite elem_of_list_to_set. intros Hin.
    rewrite Forall_forall in Hrock. apply Hrock in Hin.
    unfold baseStacks in Hi. rewrite length_map in Hi. lia.
Qed.

Lemma driver_tries_increasing_extras_witness :
  let solve b c bl n := Solver.solveBfs b (Z.to_nat c) bl (Z.to_nat n) in
  let baseStacks :=
    map (fun slots => stackOfContents slots (capacity demoParse))
        (bottle_contents_ids demoParse) in
  exists out k,
    solveAndRender solve Solver.applyMove stackOfContents (Some demoParse)
      = Some out /\
    (k <= 1)%nat /\
    calls out = map (fun e => (e, baseStacks ++ replicate e [])) (seq 0 (S k)) /\
    chosenInitial out = baseStacks ++ replicate k [].
Proof.
  intros solve baseStacks.
  destruct (driver_tries_increasing_extras
              (fun b c bl n => Solver.solveBfs b (Z.to_nat c) bl (Z.to_nat n))
              Solver.applyMove stackOfContents demoParse)
    as (out & k & Hout & Hk & Hcalls & _ & _ & _ & Hinit & _).
  - repeat constructor.
  - exists out, k. split_and!; [exact Hout|exact Hk|exact Hcalls|exact Hinit].
Defined.

Example driver_demo :
  let solve b c bl n := Solver.solveBfs b (Z.to_nat c) bl (Z.to_nat n) in
  (fun o => (chosenInitial o, extraUsed (chosenInfo o),
             Solver.solved (info (chosenInfo o)), map fst (calls o)))
    <$> solveAndRender solve Solver.applyMove stackOfContents (Some demoParse)
  = Some ([[1; 2]; [2; 1]; [3; 3]; []], 1%nat, true, [0%nat; 1%nat]).
Proof. vm_compute. reflexivity. Qed.

(** ** Results on the call's effect on its arguments *)

(** The loop only appends to the log. *)
Lemma mergeLoop_prefix cap maxDist expected fuel :
  forall st, exists new,
    ms_merges (mergeLoop fuel cap maxDist expected st) = ms_merges st ++ new.
Proof.
  induction fuel as [|fuel IH]; intros st; simpl.
  - exists []. by rewrite app_nil_r.
  - destruct (Z.of_nat (size (ms_clusterInfo st)) >? expected);
      [|exists []; by rewrite app_nil_r].
    destruct (findBest (ms_clusterInfo st) cap maxDist) as [best|];
      [|exists []; by rewrite app_nil_r].
    destruct (mergeInto _ _ _ _) as [labels' info'].
    destruct (IH {| ms_labels := labels'; ms_clusterInfo := info';
                    ms_merges := ms_merges st ++ [best] |}) as [new Hnew].
    exists (best :: new). rewrite Hnew. simpl. by rewrite <- app_assoc.
Qed.

(** Every logged merge takes one key out of the dictionary. *)
Lemma SafeMerges_size cap st st' :
  SafeMerges cap st st' ->
  (size (ms_clusterInfo st') + length (ms_merges st')
   = size (ms_clusterInfo st) + length (ms_merges st))%nat.
Proof.
  induction 1 as [|st lo hi a b c st' Hne Ha Hb _ _ _ IH]; [done|].
  simpl in IH. rewrite length_app in IH. simpl in IH.
  pose proof (size_after_merge (ms_clusterInfo st) lo hi c Hne
                ltac:(eauto) ltac:(eauto)). lia.
Qed.

Lemma merge_size lbls info capacity eps :
  let r := mergeClustersToExpectedCount lbls info capacity eps in
  (size (clusterInfo r) + length (merges r) = size info)%nat.
Proof.
  intros r. destruct (merge_SafeMerges lbls info capacity eps) as [cap Hs].
  apply SafeMerges_size in Hs. simpl in Hs. fold r in Hs. lia.
Qed.

Section HeapFacts.

Import Heap(RecordObj(..), ro_id, ro_count, ro_center_bgr, ro_center_lab,
            ro_center_hex, Obj(..), alloc, write, readLabels, readTriple,
            readRecord, readDict, clusterAt, readClusters, slice, Return(..),
            ret_labels, ret_clusterInfo, ret_merges, ret_expectedColors,
            heap_ret, heap_bind).
#[local] Abbreviation ref := positive.
#[local] Abbreviation heap := (gmap positive Obj).

(** Three records and their centres, a dictionary and a label array: the
    caller's heap before the call of the examples. *)
Definition demoHeap : heap :=
  list_to_map
    [(1%positive, OLabels [0; 1; 0; 2]);
     (2%positive, ODict (list_to_map [(0, 3%positive); (1, 4%positive);
                                      (2, 5%positive)]));
     (3%positive, ORecord (mkRecordObj 0 2 6%positive 7%positive "#0A0A0A"));
     (4%positive, ORecord (mkRecordObj 1 1 8%positive 9%positive "#0A0A5A"));
     (5%positive, ORecord (mkRecordObj 2 1 10%positive 11%positive "#0A0A60"));
     (6%positive, OTriple (Z2F 10, Z2F 10, Z2F 10));
     (7%positive, OTriple (Z2F 10, Z2F 10, Z2F 10));
     (8%positive, OTriple (Z2F 90, Z2F 10, Z2F 10));
     (9%positive, OTriple (Z2F 90, Z2F 10, Z2F 10));
     (10%positive, OTriple (Z2F 96, Z2F 10, Z2F 10));
     (11%positive, OTriple (Z2F 96, Z2F 10, Z2F 10))].

(** The heap after [mergeInto(k, dr)] when both records are there. *)
Definition merged (h : heap) (labels cinfo : ref) (xs : list Z)
    (d : gmap Z ref) (k dr : Z) (a : ref) (ra : RecordObj) (c : Cluster)
    : heap :=
  let h1 := <[labels := OLabels (relabel dr k xs)]> h in
  let h2 := <[a := ORecord (mkRecordObj (ro_id ra) (count c) (ro_center_bgr ra)
                              (ro_center_lab ra) (ro_center_hex ra))]> h1 in
  let l1 := fresh (dom h2) in
  let h3 := <[l1 := OTriple (center_bgr c)]> h2 in
  let h4 := <[a := ORecord (mkRecordObj (ro_id ra) (count c) l1
                              (ro_center_lab ra) (ro_center_hex ra))]> h3 in
  let l2 := fresh (dom h4) in
  let h5 := <[l2 := OTriple (center_lab c)]> h4 in
  let h6 := <[a := ORecord (mkRecordObj (ro_id ra) (count c) l1 l2
                              (ro_center_hex ra))]> h5 in
  let h7 := <[a := ORecord (mkRecordObj (ro_id ra) (count c) l1 l2
                              (center_hex c))]> h6 in
  <[cinfo := ODict (delete dr d)]> h7.

Lemma fresh_ne (h : heap) (l : ref) (o : Obj) :
  h !! l = Some o -> fresh (dom h) <> l.
Proof.
  intros Hl Heq. apply (is_fresh (dom h)). rewrite Heq.
  apply elem_of_dom. eauto.
Qed.

Lemma mergeInto_run (h : heap) (labels cinfo : ref) (xs : list Z)
    (d : gmap Z ref) (k dr : Z) (a b : ref) (ca cb : Cluster) :
  h !! labels = Some (OLabels xs) ->
  h !! cinfo = Some (ODict d) ->
  d !! k = Some a -> d !! dr = Some b ->
  clusterAt h a = Some ca -> clusterAt h b = Some cb ->
  exists ra,
    h !! a = Some (ORecord ra) /\
    Heap.mergeInto labels cinfo k dr h
    = Some (tt, merged h labels cinfo xs d k dr a ra (absorb ca cb)).
Proof.
  intros Hl Hc Hk Hdr Ha Hb. unfold clusterAt in Ha, Hb.
  destruct (h !! a) as [[| |ra|]|] eqn:Hra; try done.
  destruct (h !! ro_center_bgr ra) as [[|abgr| |]|] eqn:Habgr; try done.
  destruct (h !! ro_center_lab ra) as [[|alab| |]|] eqn:Halab; try done.
  destruct (h !! b) as [[| |rb|]|] eqn:Hrb; try done.
  destruct (h !! ro_center_bgr rb) as [[|bbgr| |]|] eqn:Hbbgr; try done.
  destruct (h !! ro_center_lab rb) as [[|blab| |]|] eqn:Hblab; try done.
  injection Ha as <-. injection Hb as <-.
  exists ra. split; [done|].
  assert (labels <> cinfo) by congruence.
  assert (labels <> a) by congruence.
  assert (labels <> b) by congruence.
  assert (labels <> ro_center_bgr ra) by congruence.
  assert (labels <> ro_center_lab ra) by congruence.
  assert (labels <> ro_center_bgr rb) by congruence.
  assert (labels <> ro_center_lab rb) by congruence.
  assert (cinfo <> a) by congruence.
  unfold Heap.mergeInto, merged, relabel.
  unfold mbind, heap_bind, mret, heap_ret, readLabels, readDict, readRecord,
    readTriple, write, alloc.
  rewrite Hl. cbv beta iota. rewrite lookup_insert_ne by done.
  rewrite Hc. cbv beta iota. rewrite Hk, Hdr. cbv beta iota.
  set (h1 := <[labels := _]> h).
  assert (Hra1 : h1 !! a = Some (ORecord ra))
    by (unfold h1; by rewrite lookup_insert_ne).
  assert (Hx1 : forall x o, h !! x = Some o -> x <> labels -> h1 !! x = Some o)
    by (intros x o Hx Hne; unfold h1; by rewrite lookup_insert_ne).
  rewrite Hra1. cbv beta iota.
  rewrite (Hx1 _ _ Habgr) by done. cbv beta iota.
  rewrite (Hx1 _ _ Halab) by done. cbv beta iota.
  rewrite (Hx1 _ _ Hrb) by done. cbv beta iota.
  rewrite (Hx1 _ _ Hbbgr) by done. cbv beta iota.
  rewrite (Hx1 _ _ Hblab) by done. cbv beta iota zeta.
  rewrite Hra1. cbv beta iota.
  cbn [ro_id ro_count ro_center_bgr ro_center_lab ro_center_hex].
  set (c := absorb _ _).
  set (h2 := <[a := _]> h1).
  assert (Hf1 : fresh (dom h2) <> a)
    by (eapply (fresh_ne h2 a); apply lookup_insert_eq).
  rewrite (lookup_insert_ne _ (fresh (dom h2)) a) by done.
  assert (Hh2a : h2 !! a = Some (ORecord (mkRecordObj (ro_id ra) (count c)
            (ro_center_bgr ra) (ro_center_lab ra) (ro_center_hex ra))))
    by apply lookup_insert_eq.
  rewrite Hh2a. cbv beta iota.
  cbn [ro_id ro_count ro_center_bgr ro_center_lab ro_center_hex].
  set (h3 := <[fresh (dom h2) := _]> h2).
  set (h4 := <[a := _]> h3).
  assert (Hf2 : fresh (dom h4) <> a)
    by (eapply (fresh_ne h4 a); apply lookup_insert_eq).
  rewrite (lookup_insert_ne _ (fresh (dom h4)) a) by done.
  assert (Hh4a : h4 !! a = Some (ORecord (mkRecordObj (ro_id ra) (count c)
            (fresh (dom h2)) (ro_center_lab ra) (ro_center_hex ra))))
    by apply lookup_insert_eq.
  rewrite Hh4a. cbv beta iota.
  cbn [ro_id ro_count ro_center_bgr ro_center_lab ro_center_hex].
  rewrite lookup_insert_eq. cbv beta iota.
  cbn [ro_id ro_count ro_center_bgr ro_center_lab ro_center_hex].
  set (h5 := <[fresh (dom h4) := _]> h4).
  assert (Hc2 : h2 !! cinfo = Some (ODict d)).
  { unfold h2, h1. by rewrite !lookup_insert_ne. }
  assert (Hc4 : h4 !! cinfo = Some (ODict d)).
  { unfold h4, h3. rewrite lookup_insert_ne by done.
    rewrite lookup_insert_ne; [done|]. by eapply fresh_ne. }
  assert (Hc5 : h5 !! cinfo = Some (ODict d)).
  { unfold h5. rewrite lookup_insert_ne; [done|]. by eapply fresh_ne. }
  rewrite !(lookup_insert_ne _ a cinfo) by done.
  rewrite Hc5. reflexivity.
Qed.

(** What [mergeInto] leaves alone: every object but the label array, the
    kept record and the dictionary. *)
Lemma merged_other (h : heap) labels cinfo xs d k dr a ra c x o :
  h !! x = Some o -> x <> labels -> x <> a -> x <> cinfo ->
  merged h labels cinfo xs d k dr a ra c !! x = Some o.
Proof.
  intros Hx ? ? ?. unfold merged.
  set (h1 := <[labels := _]> h).
  set (h2 := <[a := _]> h1).
  set (h3 := <[fresh (dom h2) := _]> h2).
  set (h4 := <[a := _]> h3).
  set (h5 := <[fresh (dom h4) := _]> h4).
  assert (H2 : h2 !! x = Some o) by (unfold h2, h1; by rewrite !lookup_insert_ne).
  assert (H4 : h4 !! x = Some o).
  { unfold h4, h3. rewrite lookup_insert_ne by done.
    rewrite lookup_insert_ne; [done|]. by eapply fresh_ne. }
  assert (H5 : h5 !! x = Some o).
  { unfold h5. rewrite lookup_insert_ne; [done|]. by eapply fresh_ne. }
  cbv zeta. by rewrite !lookup_insert_ne.
Qed.

Lemma merged_labels (h : heap) labels cinfo xs d k dr a ra c :
  labels <> a -> labels <> cinfo -> is_Some (h !! labels) ->
  merged h labels cinfo xs d k dr a ra c !! labels
  = Some (OLabels (relabel dr k xs)).
Proof.
  intros ? ? [o Ho]. unfold merged.
  set (h1 := <[labels := _]> h).
  set (h2 := <[a := _]> h1).
  set (h3 := <[fresh (dom h2) := _]> h2).
  set (h4 := <[a := _]> h3).
  set (h5 := <[fresh (dom h4) := _]> h4).
  assert (H2 : h2 !! labels = Some (OLabels (relabel dr k xs))).
  { unfold h2, h1. rewrite lookup_insert_ne by done. apply lookup_insert_eq. }
  assert (H4 : h4 !! labels = Some (OLabels (relabel dr k xs))).
  { unfold h4, h3. rewrite lookup_insert_ne by done.
    rewrite lookup_insert_ne; [done|]. by eapply fresh_ne. }
  assert (H5 : h5 !! labels = Some (OLabels (relabel dr k xs))).
  { unfold h5. rewrite lookup_insert_ne; [done|]. by eapply fresh_ne. }
  cbv zeta. by rewrite !lookup_insert_ne.
Qed.

Lemma merged_dict (h : heap) labels cinfo xs d k dr a ra c :
  merged h labels cinfo xs d k dr a ra c !! cinfo = Some (ODict (delete dr d)).
Proof. unfold merged. cbv zeta. apply lookup_insert_eq. Qed.

(** The kept record after [mergeInto], read with its new centres. *)
Lemma merged_keep (h : heap) labels cinfo xs d k dr a ra c :
  cinfo <> a -> is_Some (h !! cinfo) ->
  clusterAt (merged h labels cinfo xs d k dr a ra c) a
  = Some {| id := ro_id ra; count := count c; center_bgr := center_bgr c;
            center_lab := center_lab c; center_hex := center_hex c |}.
Proof.
  intros ? [o Ho]. unfold merged.
  set (h1 := <[labels := _]> h).
  set (h2 := <[a := _]> h1).
  set (l1 := fresh (dom h2)).
  set (h3 := <[l1 := _]> h2).
  set (h4 := <[a := _]> h3).
  set (l2 := fresh (dom h4)).
  set (h5 := <[l2 := _]> h4).
  assert (Hc2 : is_Some (h2 !! cinfo)).
  { unfold h2, h1. rewrite lookup_insert_ne by done.
    destruct (decide (labels = cinfo)) as [->|];
      [rewrite lookup_insert_eq|rewrite lookup_insert_ne by done]; eauto. }
  assert (Hl1a : l1 <> a)
    by (eapply (fresh_ne h2 a); apply lookup_insert_eq).
  assert (Hl1c : l1 <> cinfo)
    by (destruct Hc2; by eapply (fresh_ne h2 cinfo)).
  assert (Hl2a : l2 <> a)
    by (eapply (fresh_ne h4 a); apply lookup_insert_eq).
  assert (H41 : h4 !! l1 = Some (OTriple (center_bgr c))).
  { unfold h4, h3. rewrite lookup_insert_ne by done. apply lookup_insert_eq. }
  assert (Hl21 : l2 <> l1) by (by eapply (fresh_ne h4 l1)).
  assert (Hl2c : l2 <> cinfo).
  { apply not_eq_sym. intros ->. destruct Hc2 as [o2 Hc2].
    eapply (fresh_ne h4 (fresh (dom h4))); [|done].
    unfold h4, h3. rewrite lookup_insert_ne by done.
    rewrite lookup_insert_ne by done. done. }
  cbv zeta. unfold clusterAt.
  rewrite (lookup_insert_ne _ cinfo a) by done. rewrite lookup_insert_eq.
  cbn [ro_id ro_count ro_center_bgr ro_center_lab ro_center_hex].
  rewrite (lookup_insert_ne _ cinfo l1) by done.
  rewrite !(lookup_insert_ne _ a l1) by done.
  rewrite (lookup_insert_ne _ cinfo l2) by done.
  rewrite !(lookup_insert_ne _ a l2) by done.
  fold h5. unfold h5 at 2. rewrite lookup_insert_eq.
  unfold h5. rewrite lookup_insert_ne by done. by rewrite H41.
Qed.

(** A record other than the kept one reads as before. *)
Lemma merged_record (h : heap) labels cinfo xs d k dr a ra c l cl o1 o2 :
  h !! labels = Some (OLabels o1) -> h !! cinfo = Some (ODict o2) ->
  h !! a = Some (ORecord ra) ->
  clusterAt h l = Some cl -> l <> a ->
  clusterAt (merged h labels cinfo xs d k dr a ra c) l = Some cl.
Proof.
  intros Hl Hc Ha Hcl Hne. unfold clusterAt in *.
  destruct (h !! l) as [[| |r|]|] eqn:Hr; try done.
  destruct (h !! ro_center_bgr r) as [[|bgr| |]|] eqn:Hbgr; try done.
  destruct (h !! ro_center_lab r) as [[|lab| |]|] eqn:Hlab; try done.
  rewrite (merged_other _ _ _ _ _ _ _ _ _ _ _ _ Hr) by congruence.
  rewrite (merged_other _ _ _ _ _ _ _ _ _ _ _ _ Hbgr) by congruence.
  by rewrite (merged_other _ _ _ _ _ _ _ _ _ _ _ _ Hlab) by congruence.
Qed.

(** The caller's objects as the call expects them: a label array, and a
    dictionary whose keys hold distinct records, each with its two centre
    arrays. *)
Definition wellFormed (h : heap) (labels cinfo : ref) (xs : list Z)
    (d : gmap Z ref) : Prop :=
  h !! labels = Some (OLabels xs) /\
  h !! cinfo = Some (ODict d) /\
  (forall k l, d !! k = Some l -> is_Some (clusterAt h l)) /\
  (forall k1 k2 l, d !! k1 = Some l -> d !! k2 = Some l -> k1 = k2).

(** The dictionary with every record read: the value the search works on. *)
Definition view (h : heap) (d : gmap Z ref) : gmap Z Cluster :=
  omap (clusterAt h) d.

Lemma view_lookup (h : heap) (d : gmap Z ref) (k : Z) :
  view h d !! k = d !! k ≫= clusterAt h.
Proof. apply lookup_omap. Qed.

Lemma view_size (h : heap) (d : gmap Z ref) :
  (forall k l, d !! k = Some l -> is_Some (clusterAt h l)) ->
  size (view h d) = size d.
Proof.
  intros Hall. rewrite <- !size_dom. f_equal. apply set_eq. intros k.
  rewrite !elem_of_dom, view_lookup. split.
  - intros [c Hc]. destruct (d !! k); [eauto|done].
  - intros [l Hl]. rewrite Hl. simpl. eauto.
Qed.

Lemma readClusters_run (h : heap) (d : gmap Z ref) :
  (forall k l, d !! k = Some l -> is_Some (clusterAt h l)) ->
  readClusters d h = Some (view h d, h).
Proof.
  intros Hall. unfold readClusters. by rewrite bool_decide_eq_true_2.
Qed.

Lemma absorb_id (a b : Cluster) : id (absorb a b) = id a.
Proof. unfold absorb. by destruct (mix3 _ _ (center_bgr a) _) as [[??]?]. Qed.

(** One [mergeInto] on the heap is one [mergeInto] on the values. *)
Lemma mergeInto_sim (h : heap) labels cinfo xs d k dr ca cb :
  wellFormed h labels cinfo xs d ->
  k <> dr -> view h d !! k = Some ca -> view h d !! dr = Some cb ->
  exists a ra,
    d !! k = Some a /\ h !! a = Some (ORecord ra) /\
    let h' := merged h labels cinfo xs d k dr a ra (absorb ca cb) in
    Heap.mergeInto labels cinfo k dr h = Some (tt, h') /\
    wellFormed h' labels cinfo (relabel dr k xs) (delete dr d) /\
    view h' (delete dr d) = delete dr (<[k := absorb ca cb]> (view h d)).
Proof.
  intros (Hl & Hc & Hall & Hinj) Hne Hk Hdr.
  rewrite view_lookup in Hk, Hdr.
  destruct (d !! k) as [a|] eqn:Hka; [simpl in Hk|done].
  destruct (d !! dr) as [b|] eqn:Hdb; [simpl in Hdr|done].
  destruct (mergeInto_run h labels cinfo xs d k dr a b ca cb Hl Hc Hka Hdb Hk Hdr)
    as (ra & Hra & Hrun).
  exists a, ra. split; [done|]. split; [done|]. intros h'.
  assert (Hla : labels <> a) by congruence.
  assert (Hlc : labels <> cinfo) by congruence.
  assert (Hca : cinfo <> a) by congruence.
  assert (Hida : ro_id ra = id ca).
  { unfold clusterAt in Hk. rewrite Hra in Hk.
    destruct (h !! ro_center_bgr ra) as [[| | |]|]; try done.
    destruct (h !! ro_center_lab ra) as [[| | |]|]; try done.
    by injection Hk as <-. }
  assert (Hkeep : clusterAt h' a = Some (absorb ca cb)).
  { unfold h'. rewrite merged_keep by eauto. f_equal.
    rewrite Hida, <- (absorb_id ca cb). by destruct (absorb ca cb). }
  assert (Hother : forall i l, d !! i = Some l -> i <> k ->
            clusterAt h' l = clusterAt h l).
  { intros i l Hi Hik. destruct (Hall _ _ Hi) as [cl Hcl]. rewrite Hcl.
    eapply merged_record; eauto. intros ->. apply Hik. eauto. }
  split; [done|]. split.
  - split_and!.
    + apply merged_labels; eauto.
    + apply merged_dict.
    + intros i l [Hi Hl']%lookup_delete_Some.
      destruct (decide (i = k)) as [->|Hik].
      * assert (l = a) as -> by congruence. eauto.
      * rewrite (Hother _ _ Hl' Hik). eauto.
    + intros k1 k2 l [_ H1]%lookup_delete_Some [_ H2]%lookup_delete_Some. eauto.
  - apply map_eq. intros i. rewrite view_lookup.
    destruct (decide (i = dr)) as [->|Hidr].
    { by rewrite !lookup_delete_eq. }
    rewrite !lookup_delete_ne by done.
    destruct (decide (i = k)) as [->|Hik].
    { rewrite Hka, lookup_insert_eq. done. }
    rewrite lookup_insert_ne by done. rewrite view_lookup.
    destruct (d !! i) as [l|] eqn:Hi; [simpl|done].
    by apply (Hother i).
Qed.

(** The loop on the heap runs as the loop on the values: it ends with the
    same labels, records and log; the dictionary only loses keys; and the
    only objects it writes to, next to the label array and the dictionary,
    are the records kept by a logged merge. *)
Lemma mergeLoop_sim cap maxDist expected labels cinfo fuel :
  forall h xs d ms,
  wellFormed h labels cinfo xs d ->
  let st' := mergeLoop fuel cap maxDist expected
               {| ms_labels := xs; ms_clusterInfo := view h d;
                  ms_merges := ms |} in
  exists h' d',
    Heap.mergeLoop fuel labels cinfo cap maxDist expected ms h
      = Some (ms_merges st', h') /\
    wellFormed h' labels cinfo (ms_labels st') d' /\
    d' ⊆ d /\
    view h' d' = ms_clusterInfo st' /\
    (forall l o, h !! l = Some o -> l <> labels -> l <> cinfo ->
       (forall m, m ∈ ms_merges st' -> d !! keep m <> Some l) ->
       h' !! l = Some o).
Proof.
  induction fuel as [|fuel IH]; intros h xs d ms Hwf; simpl.
  { exists h, d. by split_and!. }
  pose proof Hwf as (Hl & Hc & Hall & Hinj).
  unfold mbind, heap_bind, readDict. rewrite Hc.
  rewrite (view_size h d Hall).
  destruct (Z.of_nat (size d) >? expected); [|exists h, d; by split_and!].
  rewrite (readClusters_run h d Hall).
  pose proof (findBest_spec (view h d) cap maxDist) as Hfb.
  destruct (findBest (view h d) cap maxDist) as [best|];
    [|exists h, d; by split_and!].
  destruct Hfb as [(ca & cb & (Hlt & Hk & Hdr & _) & _) _].
  destruct (mergeInto_sim h labels cinfo xs d (keep best) (drop best) ca cb
              Hwf ltac:(lia) Hk Hdr)
    as (a & ra & Hka & Hra & Hrun & Hwf' & Hview).
  rewrite Hrun. unfold mergeInto. rewrite Hk, Hdr.
  set (h1 := merged _ _ _ _ _ _ _ _ _ _) in *.
  destruct (IH h1 _ _ (ms ++ [best]) Hwf')
    as (h' & d' & Hloop & Hwf'' & Hsub & Hview' & Hframe).
  rewrite Hview in Hloop, Hwf'', Hview', Hframe. unfold relabel in *.
  set (st' := mergeLoop fuel _ _ _ _) in *.
  exists h', d'. split_and!; try done.
  - etrans; [exact Hsub|]. apply delete_subseteq.
  - intros l o Hlo Hnl Hnc Hkeep.
    destruct (mergeLoop_prefix cap maxDist expected fuel
                {| ms_labels := map (fun l0 => if l0 =? drop best
                                                then keep best else l0) xs;
                   ms_clusterInfo := delete (drop best)
                     (<[keep best := absorb ca cb]> (view h d));
                   ms_merges := ms ++ [best] |}) as [new Hnew].
    fold st' in Hnew. simpl in Hnew.
    assert (Hbest : best ∈ ms_merges st').
    { rewrite Hnew. apply elem_of_app. left. apply elem_of_app. right.
      by apply list_elem_of_singleton. }
    assert (l <> a) by (intros ->; by apply (Hkeep best)).
    apply Hframe; try done.
    + by apply merged_other.
    + intros m Hm [_ Hd]%lookup_delete_Some. by apply (Hkeep m).
Qed.

(** A new object does not change what the records read. *)
Lemma clusterAt_alloc (h : heap) (o : Obj) (l : ref) (c : Cluster) :
  clusterAt h l = Some c -> clusterAt (<[fresh (dom h) := o]> h) l = Some c.
Proof.
  unfold clusterAt. intros Hc.
  destruct (h !! l) as [[| |r|]|] eqn:Hr; try done.
  destruct (h !! ro_center_bgr r) as [[|bgr| |]|] eqn:Hbgr; try done.
  destruct (h !! ro_center_lab r) as [[|lab| |]|] eqn:Hlab; try done.
  rewrite (lookup_insert_ne _ _ l) by (by eapply fresh_ne).
  rewrite Hr. cbv beta iota.
  rewrite !lookup_insert_ne by (by eapply fresh_ne).
  by rewrite Hbgr, Hlab.
Qed.

Lemma wellFormed_slice (h : heap) labelsIn cinfo xs d :
  wellFormed h labelsIn cinfo xs d ->
  let copy := fresh (dom h) in
  let h0 := <[copy := OLabels xs]> h in
  slice labelsIn h = Some (copy, h0) /\
  wellFormed h0 copy cinfo xs d /\ view h0 d = view h d.
Proof.
  intros (Hl & Hc & Hall & Hinj) copy h0.
  assert (Hat : forall k l, d !! k = Some l -> clusterAt h0 l = clusterAt h l).
  { intros k l Hk. destruct (Hall _ _ Hk) as [c Hcl]. rewrite Hcl.
    by apply clusterAt_alloc. }
  split_and!.
  - unfold slice, mbind, heap_bind, readLabels, alloc. by rewrite Hl.
  - split_and!; [apply lookup_insert_eq| |intros k l Hk|done].
    + unfold h0. rewrite lookup_insert_ne; [done|]. by eapply fresh_ne.
    + rewrite (Hat _ _ Hk). eauto.
  - apply map_eq. intros k. rewrite !view_lookup.
    destruct (d !! k) as [l|] eqn:Hk; [simpl; eauto|done].
Qed.

(** The call on the heap against the function on the values. *)
Lemma call_sim (h : heap) labelsIn cinfo xs d capacity eps :
  wellFormed h labelsIn cinfo xs d ->
  let r := mergeClustersToExpectedCount xs (view h d) capacity eps in
  let copy := fresh (dom h) in
  exists h' d',
    Heap.mergeClustersToExpectedCount labelsIn cinfo capacity eps h
      = Some ({| ret_labels := copy; ret_clusterInfo := cinfo;
                 ret_merges := merges r;
                 ret_expectedColors := expectedColors r |}, h') /\
    wellFormed h' copy cinfo (labels r) d' /\
    d' ⊆ d /\
    view h' d' = clusterInfo r /\
    (forall l o, h !! l = Some o -> l <> cinfo ->
       (forall m, m ∈ merges r -> d !! keep m <> Some l) ->
       h' !! l = Some o).
Proof.
  intros Hwf r copy.
  destruct (wellFormed_slice h labelsIn cinfo xs d Hwf)
    as (Hslice & Hwf0 & Hview0).
  fold copy in Hslice, Hwf0, Hview0.
  set (h0 := <[copy := OLabels xs]> h) in *.
  pose proof Hwf0 as (Hl0 & Hc0 & Hall0 & _).
  assert (Hframe0 : forall l o, h !! l = Some o ->
            h0 !! l = Some o /\ l <> copy).
  { intros l o Hlo.
    assert (copy <> l) by (by eapply fresh_ne).
    split; [|done]. unfold h0. by rewrite lookup_insert_ne. }
  assert (Hskip : exists h' d',
    Some ({| ret_labels := copy; ret_clusterInfo := cinfo; ret_merges := [];
             ret_expectedColors := None |}, h0)
      = Some ({| ret_labels := copy; ret_clusterInfo := cinfo;
                 ret_merges := [];
                 ret_expectedColors := None |}, h') /\
    wellFormed h' copy cinfo xs d' /\ d' ⊆ d /\ view h' d' = view h d /\
    (forall l o, h !! l = Some o -> l <> cinfo ->
       (forall m, m ∈ @nil Merge -> d !! keep m <> Some l) ->
       h' !! l = Some o)).
  { exists h0, d. split_and!; try done. intros l o Hlo _ _.
    by apply Hframe0. }
  subst r. unfold Heap.mergeClustersToExpectedCount, mergeClustersToExpectedCount.
  unfold mbind at 1. unfold heap_bind at 1. rewrite Hslice.
  unfold mbind at 1. unfold heap_bind at 1. unfold readLabels at 1.
  rewrite Hl0.
  destruct (positiveCapacity capacity) as [cap|]; [|exact Hskip].
  destruct (Z.of_nat (length xs) =? 0); [exact Hskip|].
  destruct (negb _); [exact Hskip|].
  unfold mbind, heap_bind, readDict, mret, heap_ret. rewrite Hc0.
  destruct (mergeLoop_sim cap (mergeCeiling eps) (Z.of_nat (length xs) / cap)
              copy cinfo (size d) h0 xs d [] Hwf0)
    as (h' & d' & Hloop & Hwf' & Hsub & Hview' & Hframe).
  rewrite Hview0 in Hloop, Hwf', Hview', Hframe.
  destruct Hwf as (_ & _ & Hall & _).
  rewrite (view_size h d Hall).
  set (st' := mergeLoop (size d) _ _ _ _) in *.
  rewrite Hloop. exists h', d'. cbn [labels clusterInfo merges expectedColors].
  split_and!; try done.
  intros l o Hlo Hnc Hkeep. destruct (Hframe0 _ _ Hlo). by apply Hframe.
Qed.

Lemma demoHeap_wellFormed :
  wellFormed demoHeap 1 2 [0; 1; 0; 2]
    (list_to_map [(0, 3%positive); (1, 4%positive); (2, 5%positive)]).
Proof.
  split_and!; [by vm_compute..| |].
  - apply (bool_decide_unpack
             (map_Forall (fun (_ : Z) l => is_Some (clusterAt demoHeap l))
                (list_to_map [(0, 3%positive); (1, 4%positive);
                              (2, 5%positive)] : gmap Z ref))).
    by vm_compute.
  - intros k1 k2 l H1 H2.
    set (dd := list_to_map [(0, 3%positive); (1, 4%positive);
                            (2, 5%positive)] : gmap Z ref) in *.
    assert (HF : map_Forall (fun k1 (l1 : ref) =>
              map_Forall (fun k2 (l2 : ref) => l1 = l2 -> k1 = k2) dd) dd)
      by (apply (bool_decide_unpack _); by vm_compute).
    exact (HF k1 l H1 k2 l H2 eq_refl).
Qed.

(** C9, as stated, fails: the call leaves another dictionary in the caller's
    cluster map object than it found there. *)
Lemma merge_mutates_the_cluster_map :
  ~ (forall labelsIn clusterInfoIn capacity eps (h h' : heap) ret,
       Heap.mergeClustersToExpectedCount labelsIn clusterInfoIn capacity eps h
         = Some (ret, h') ->
       h' !! labelsIn = h !! labelsIn /\
       h' !! clusterInfoIn = h !! clusterInfoIn).
Proof.
  intros H.
  destruct (Heap.mergeClustersToExpectedCount 1 2 (Some 2) (Some (Z2F 4))
              demoHeap) as [[ret h']|] eqn:Hcall;
    [|vm_compute in Hcall; discriminate].
  destruct (H _ _ _ _ _ _ _ Hcall) as [_ Hsame].
  vm_compute in Hcall. injection Hcall as <- <-.
  apply (f_equal (fun o => match o with
                           | Some (ODict dd) => size dd
                           | _ => 0%nat
                           end)) in Hsame.
  vm_compute in Hsame. discriminate.
Qed.

(** In the same call the record kept by the merge is written to: it holds
    the members of both clusters afterwards, while the absorbed record stays
    as it was, out of the dictionary. *)
Example merge_writes_into_the_kept_record :
  (fun '(ret, h') =>
     (ret_labels ret, ret_clusterInfo ret, map keep (ret_merges ret),
      count <$> clusterAt demoHeap 4, count <$> clusterAt h' 4,
      count <$> clusterAt demoHeap 5, count <$> clusterAt h' 5,
      (fun o => match o with
                | Some (ODict dd) => [dd !! 0; dd !! 1; dd !! 2]
                | _ => []
                end) (h' !! 2%positive)))
    <$> Heap.mergeClustersToExpectedCount 1 2 (Some 2) (Some (Z2F 4)) demoHeap
  = Some (12%positive, 2%positive, [1], Some 1, Some 2, Some 1, Some 1,
          [Some 3%positive; Some 4%positive; None]).
Proof. vm_compute. reflexivity. Qed.

(** C9, amended.  On a label array and a dictionary of distinct records,
    each with its two centre arrays, a call of
    [mergeClustersToExpectedCount] returns.  It never writes to the input
    label array: it works on a copy, which it returns as a new array holding
    the reconciled labels.  The cluster map is not copied: the returned
    [clusterInfo] is the input dictionary itself, which after the call has
    lost the absorbed keys and whose records read as the reconciled clusters;
    it is as it was exactly when nothing was merged.  Of the objects the
    caller had, the call writes to no other than the dictionary and the
    records kept by a merge. *)
Theorem merge_copies_labels_and_updates_map_in_place
    (labelsIn clusterInfoIn : ref) (capacity : option Z) (eps : option float)
    (h : heap) (xs : list Z) (d : gmap Z ref) :
  wellFormed h labelsIn clusterInfoIn xs d ->
  let r := mergeClustersToExpectedCount xs (view h d) capacity eps in
  exists ret h' d',
    Heap.mergeClustersToExpectedCount labelsIn clusterInfoIn capacity eps h
      = Some (ret, h') /\
    h' !! labelsIn = h !! labelsIn /\
    h !! ret_labels ret = None /\
    h' !! ret_labels ret = Some (OLabels (labels r)) /\
    ret_clusterInfo ret = clusterInfoIn /\
    ret_merges ret = merges r /\
    ret_expectedColors ret = expectedColors r /\
    h' !! clusterInfoIn = Some (ODict d') /\
    d' ⊆ d /\
    view h' d' = clusterInfo r /\
    (h' !! clusterInfoIn = h !! clusterInfoIn <-> ret_merges ret = []) /\
    (forall l o, h !! l = Some o -> l <> clusterInfoIn ->
       (forall m, m ∈ ret_merges ret -> d !! keep m <> Some l) ->
       h' !! l = Some o).
Proof.
  intros Hwf r.
  destruct (call_sim h labelsIn clusterInfoIn xs d capacity eps Hwf)
    as (h' & d' & Hcall & Hwf' & Hsub & Hview & Hframe).
  fold r in Hcall, Hwf', Hview, Hframe.
  pose proof Hwf as (Hl & Hc & Hall & Hinj).
  pose proof Hwf' as (Hl' & Hc' & Hall' & _).
  pose proof (merge_size xs (view h d) capacity eps) as Hsize.
  cbv zeta in Hsize. fold r in Hsize. rewrite <- Hview in Hsize.
  rewrite (view_size h d Hall), (view_size h' d' Hall') in Hsize.
  eexists _, h', d'. split; [exact Hcall|].
  cbn [ret_labels ret_clusterInfo ret_merges ret_expectedColors].
  split.
  { rewrite Hl. apply Hframe; [done|congruence|].
    intros m _ Hm. destruct (Hall _ _ Hm) as [c Hcl].
    unfold clusterAt in Hcl. by rewrite Hl in Hcl. }
  split; [apply not_elem_of_dom, is_fresh|].
  do 7 (split; [done|]).
  split; [split|exact Hframe].
  - intros Hsame. rewrite Hc, Hc' in Hsame. injection Hsame as ->.
    apply length_zero_iff_nil. lia.
  - intros Hm. rewrite Hc, Hc'. do 2 f_equal.
    apply map_subseteq_size_eq; [done|]. rewrite Hm in Hsize. simpl in Hsize.
    lia.
Qed.

Lemma merge_copies_labels_and_updates_map_in_place_witness :
  let d : gmap Z ref :=
    list_to_map [(0, 3%positive); (1, 4%positive); (2, 5%positive)] in
  let r := mergeClustersToExpectedCount [0; 1; 0; 2] (view demoHeap d)
             (Some 2) (Some (Z2F 4)) in
  exists ret h' d',
    Heap.mergeClustersToExpectedCount 1 2 (Some 2) (Some (Z2F 4)) demoHeap
      = Some (ret, h') /\
    h' !! 1%positive = demoHeap !! 1%positive /\
    demoHeap !! ret_labels ret = None /\
    h' !! ret_labels ret = Some (OLabels (labels r)) /\
    ret_clusterInfo ret = 2%positive /\
    ret_merges ret = merges r /\
    ret_expectedColors ret = expectedColors r /\
    h' !! 2%positive = Some (ODict d') /\
    d' ⊆ d /\
    view h' d' = clusterInfo r /\
    (h' !! 2%positive = demoHeap !! 2%positive <-> ret_merges ret = []) /\
    (forall l o, demoHeap !! l = Some o -> l <> 2%positive ->
       (forall m, m ∈ ret_merges ret -> d !! keep m <> Some l) ->
       h' !! l = Some o).
Proof.
  exact (merge_copies_labels_and_updates_map_in_place 1 2 (Some 2)
           (Some (Z2F 4)) demoHeap [0; 1; 0; 2] _ demoHeap_wellFormed).
Defined.

End HeapFacts.

(** ** Results on the message handler *)

(** A frame on which nothing is found: no candidate boxes, no local
    detection, no rocks, six bottles of [cap] empty slots each. *)
Definition blankFrame (isBusy : bool) (msg : Message) : option Reply :=
  onmessage (fun c => c) [] (fun _ _ _ _ => None) hypotSqrt 1000 2000
    (fun boxes => map (fun _ => false) boxes)
    (fun boxes cap => (map (fun _ => replicate (Z.to_nat cap) None) boxes, []))
    isBusy msg.

(** C8, as stated, fails: a message with capacity 0 is analysed with the
    default capacity 4 and answered with a result. *)
Lemma nonpositive_capacity_is_not_rejected :
  ~ (forall (isBusy : bool) (msg : Message) (c : Z),
       msg_type msg = "analyze"%string -> msg_capacity msg = Some c -> c <= 0 ->
       exists e, blankFrame isBusy msg = Some (ReplyError e)).
Proof.
  intros Hrej.
  destruct (Hrej false (mkMessage "analyze" (Some 0) None) 0
              eq_refl eq_refl ltac:(lia)) as [e He].
  vm_compute in He. discriminate.
Qed.

(** C8, amended.  A capacity that is not a positive number is not rejected:
    the handler analyses the frame with the default capacity 4, so its reply
    is the one for capacity 4; and [mergeClustersToExpectedCount] called with
    such a capacity skips reconciliation and returns the provisional labels
    and clusters as they are, with no merges and no expected count. *)
Theorem nonpositive_capacity_falls_back
    (cvtColor_BGR2Lab : Bgr -> Lab) (candidateBoxes : list Box)
    (detectBottleNear : float -> float -> float -> float -> option Box)
    (hypot : float -> float -> float) (W H : Z)
    (detectRockBottles : list GridBox -> list bool)
    (sampleBottleSlots : list GridBox -> Z -> list (list (option nat)) * list Bgr)
    (isBusy : bool) (msg : Message)
    (labelsIn : list Z) (cinfo : gmap Z Cluster) (eps : option float) :
  msg_capacity msg = None \/ (exists c, msg_capacity msg = Some c /\ c <= 0) ->
  onmessage cvtColor_BGR2Lab candidateBoxes detectBottleNear hypot W H
    detectRockBottles sampleBottleSlots isBusy msg
  = onmessage cvtColor_BGR2Lab candidateBoxes detectBottleNear hypot W H
      detectRockBottles sampleBottleSlots isBusy
      {| msg_type := msg_type msg; msg_capacity := Some 4;
         msg_dbscanEps := msg_dbscanEps msg |} /\
  mergeClustersToExpectedCount labelsIn cinfo (msg_capacity msg) eps
  = {| labels := labelsIn; clusterInfo := cinfo; merges := [];
       expectedColors := None |}.
Proof.
  intros Hcap. split.
  - unfold onmessage. simpl.
    destruct Hcap as [->|(c & -> & Hc)]; [done|].
    by destruct (Z.gtb_spec c 0); [lia|].
  - apply merge_skips. right; left.
    destruct Hcap as [->|(c & -> & Hc)]; [done|]. simpl.
    by destruct (Z.gtb_spec c 0); [lia|].
Qed.

Lemma nonpositive_capacity_falls_back_witness :
  blankFrame false (mkMessage "analyze" (Some (-1)) None)
  = blankFrame false (mkMessage "analyze" (Some 4) None) /\
  mergeClustersToExpectedCount [0; 1; 0; 2] demoInfo (Some (-1)) None
  = {| labels := [0; 1; 0; 2]; clusterInfo := demoInfo; merges := [];
       expectedColors := None |}.
Proof.
  apply (nonpositive_capacity_falls_back (fun c => c) []
           (fun _ _ _ _ => None) hypotSqrt 1000 2000
           (fun boxes => map (fun _ => false) boxes)
           (fun boxes cap =>
              (map (fun _ => replicate (Z.to_nat cap) None) boxes, []))
           false (mkMessage "analyze" (Some (-1)) None)
           [0; 1; 0; 2] demoInfo None).
  right. exists (-1). split; [reflexivity|lia].
Defined.

Example blank_frame_demo :
  (fun rep => match rep with
              | ReplyResult r => Some (capacity (result r), num_bottles r,
                                       num_colors r, rock_bottles (result r))
              | ReplyError _ => None
              end)
    <$> blankFrame false (mkMessage "analyze" (Some 0) None)
  = Some (Some (4, 6%nat, 0%nat, [])).
Proof. vm_compute. reflexivity. Qed.

Example cluster_demo :
  fst (clusterColorsDbscan (fun c => c)
         [(10, 10, 10); (200, 0, 0); (20, 10, 10); (200, 5, 0); (30, 10, 10)]
         (Z2F 16))
  = [0; 1; 0; 1; 0].
Proof. vm_compute. reflexivity. Qed.

Example merge_demo :
  let r := mergeClustersToExpectedCount [0; 1; 0; 2]
      (list_to_map
         [(0, mkCluster 0 2 (Z2F 10, Z2F 10, Z2F 10) (Z2F 10, Z2F 10, Z2F 10) EmptyString);
          (1, mkCluster 1 1 (Z2F 90, Z2F 10, Z2F 10) (Z2F 90, Z2F 10, Z2F 10) EmptyString);
          (2, mkCluster 2 1 (Z2F 96, Z2F 10, Z2F 10) (Z2F 96, Z2F 10, Z2F 10) EmptyString)])
      (Some 2) (Some (Z2F 4)) in
  labels r = [0; 1; 0; 1] /\ merges r = [mkMerge 1 2 (Z2F 6)] /\
  (count <$> clusterInfo r !! 1) = Some 2 /\
  (center_lab <$> clusterInfo r !! 1) = Some (Z2F 93, Z2F 10, Z2F 10) /\
  clusterInfo r !! 2 = None /\ expectedColors r = Some 2.
Proof. vm_compute. repeat split. Qed.

(** ** Further results on reconciliation *)

(** A state the loop has left is left at once when the loop is entered
    again. *)
Lemma mergeLoop_terminal cap maxDist expected fuel st :
  Z.of_nat (size (ms_clusterInfo st)) <= expected \/
  (forall lo hi a b, ~ eligible (ms_clusterInfo st) cap maxDist lo hi a b) ->
  mergeLoop fuel cap maxDist expected st = st.
Proof.
  intros Hterm. destruct fuel as [|fuel]; simpl; [done|].
  destruct (Z.gtb_spec (Z.of_nat (size (ms_clusterInfo st))) expected)
    as [Hgt|Hle]; [|done].
  destruct Hterm as [?|Hno]; [lia|].
  pose proof (findBest_spec (ms_clusterInfo st) cap maxDist) as Hfb.
  destruct (findBest _ _ _) as [m|]; [|done].
  destruct Hfb as [(a & b & Hel & _) _]. by destruct (Hno _ _ _ _ Hel).
Qed.

(** Merging relabels samples; it neither adds nor removes any. *)
Lemma Reconcile_length cap maxDist expected st st' :
  Reconcile cap maxDist expected st st' ->
  length (ms_labels st') = length (ms_labels st).
Proof.
  intros Hrec. apply Reconcile_safe in Hrec. by eapply SafeMerges_length.
Qed.

(** X1.  Reconciliation is idempotent: calling
    [mergeClustersToExpectedCount] again on the labels and the cluster map
    it returned, with the same capacity and eps, merges nothing and returns
    the same labels, the same map and the same expected count. *)
Theorem reconcile_is_idempotent
    (labelsIn : list Z) (info : gmap Z Cluster) (capacity : option Z)
    (eps : option float) :
  let r := mergeClustersToExpectedCount labelsIn info capacity eps in
  mergeClustersToExpectedCount (labels r) (clusterInfo r) capacity eps
  = {| labels := labels r; clusterInfo := clusterInfo r; merges := [];
       expectedColors := expectedColors r |}.
Proof.
  intros r.
  assert (Hskip : forall (Hs : length labelsIn = 0%nat \/
                     positiveCapacity capacity = None \/
                     (exists cap, capacity = Some cap /\
                        Z.rem (Z.of_nat (length labelsIn)) cap <> 0)),
            mergeClustersToExpectedCount (labels r) (clusterInfo r) capacity eps
            = {| labels := labels r; clusterInfo := clusterInfo r;
                 merges := []; expectedColors := expectedColors r |}).
  { intros Hs. subst r. rewrite (merge_skips labelsIn info capacity eps Hs).
    simpl. by apply merge_skips. }
  destruct (positiveCapacity capacity) as [cap|] eqn:Hcap; [|auto].
  destruct (Z.eqb_spec (Z.of_nat (length labelsIn)) 0) as [H0|H0];
    [apply Hskip; left; lia|].
  assert (capacity = Some cap /\ 0 < cap) as [-> Hpos].
  { unfold positiveCapacity in Hcap. destruct capacity as [c|]; [|done].
    destruct (Z.gtb_spec c 0); simplify_eq. split; [done|lia]. }
  destruct (Z.eqb_spec (Z.rem (Z.of_nat (length labelsIn)) cap) 0)
    as [Hrem|Hrem]; [|apply Hskip; right; right; exists cap; by split].
  clear Hskip. subst r.
  rewrite (merge_runs labelsIn info cap eps) by (done || lia).
  cbv zeta. cbn [labels clusterInfo merges expectedColors].
  set (expected := Z.of_nat (length labelsIn) / cap).
  set (st0 := {| ms_labels := labelsIn; ms_clusterInfo := info;
                 ms_merges := [] |}).
  pose proof (mergeLoop_Reconcile cap (mergeCeiling eps) expected
    ltac:(apply Z.div_pos; lia) (size info) st0 ltac:(done)) as Hrec.
  pose proof (Reconcile_length _ _ _ _ _ Hrec) as Hlen.
  pose proof (Reconcile_exit _ _ _ _ _ Hrec) as Hexit.
  set (st := mergeLoop (size info) cap (mergeCeiling eps) expected st0) in *.
  simpl in Hlen.
  rewrite merge_runs; [|done|lia|by rewrite Hlen].
  cbv zeta. rewrite Hlen. fold expected.
  rewrite mergeLoop_terminal; [done|]. exact Hexit.
Qed.

(** Whatever the arguments, the call is a reconciliation in the sense of
    [Reconcile], for some capacity, ceiling and expected count. *)
Lemma merge_Reconcile lbls info capacity eps :
  let r := mergeClustersToExpectedCount lbls info capacity eps in
  exists cap maxDist expected,
    Reconcile cap maxDist expected
      {| ms_labels := lbls; ms_clusterInfo := info; ms_merges := [] |}
      {| ms_labels := labels r; ms_clusterInfo := clusterInfo r;
         ms_merges := merges r |}.
Proof.
  intros r. subst r. unfold mergeClustersToExpectedCount.
  assert (Hid : exists cap maxDist expected,
            Reconcile cap maxDist expected
              {| ms_labels := lbls; ms_clusterInfo := info; ms_merges := [] |}
              {| ms_labels := lbls; ms_clusterInfo := info; ms_merges := [] |}).
  { exists 0, (Z2F 0), (Z.of_nat (size info)). by apply rec_reached. }
  destruct (positiveCapacity capacity) as [cap|] eqn:Hcap; [|done].
  destruct (Z.of_nat (length lbls) =? 0); [done|].
  destruct (negb _); [done|].
  exists cap, (mergeCeiling eps), (Z.of_nat (length lbls) / cap). simpl.
  assert (0 < cap).
  { unfold positiveCapacity in Hcap. destruct capacity as [c|]; [|done].
    destruct (Z.gtb_spec c 0); simplify_eq. lia. }
  pose proof (mergeLoop_Reconcile cap (mergeCeiling eps)
    (Z.of_nat (length lbls) / cap) ltac:(apply Z.div_pos; lia) (size info)
    {| ms_labels := lbls; ms_clusterInfo := info; ms_merges := [] |}
    ltac:(done)) as Hrec.
  by destruct (mergeLoop _ _ _ _ _).
Qed.

(** An id that is neither a label nor a key never becomes a label. *)
Lemma Reconcile_no_new_label cap maxDist expected st st' x :
  Reconcile cap maxDist expected st st' ->
  x ∉ ms_labels st -> ms_clusterInfo st !! x = None -> x ∉ ms_labels st'.
Proof.
  induction 1 as [| |st lo hi a b c st' _ (Hlt & Ha & Hb & _) _ _ _ IH];
    [done|done|].
  intros Hx Hk. apply IH; simpl.
  - intros [[-> _]|[_ Hin]]%relabel_elem; [congruence|done].
  - destruct (decide (x = hi)) as [->|]; [apply lookup_delete_eq|].
    rewrite lookup_delete_ne by done. rewrite lookup_insert_ne; [done|].
    congruence.
Qed.

(** What the merge log says about the keys. *)
Lemma Reconcile_log cap maxDist expected st st' :
  Reconcile cap maxDist expected st st' ->
  exists new,
    ms_merges st' = ms_merges st ++ new /\
    (size (ms_clusterInfo st') + length new = size (ms_clusterInfo st))%nat /\
    dom (ms_clusterInfo st')
      = dom (ms_clusterInfo st) ∖ list_to_set (drop <$> new) /\
    NoDup (drop <$> new) /\
    Forall (fun m => keep m < drop m /\
                     is_Some (ms_clusterInfo st !! keep m) /\
                     is_Some (ms_clusterInfo st !! drop m) /\
                     drop m ∉ ms_labels st') new.
Proof.
  induction 1 as [st _|st _ _|st lo hi a b c st' _ (Hlt & Ha & Hb & _) _ _ Hrec
                   (new & Hm & Hsz & Hdom & Hnd & Hall)].
  1, 2: exists []; rewrite app_nil_r; simpl;
        split_and!; [done|lia|set_solver|constructor|constructor].
  simpl in *.
  assert (Hdom1 : dom (delete hi (<[lo := c]> (ms_clusterInfo st)))
                  = dom (ms_clusterInfo st) ∖ {[hi]}).
  { rewrite dom_delete_L, dom_insert_L.
    assert (lo ∈ dom (ms_clusterInfo st)) by (apply elem_of_dom; eauto).
    set_solver. }
  exists ({| keep := lo; drop := hi; d := cdist a b |} :: new).
  split_and!.
  - by rewrite Hm, <- app_assoc.
  - pose proof (size_after_merge (ms_clusterInfo st) lo hi c
                  ltac:(lia) ltac:(eauto) ltac:(eauto)). simpl. lia.
  - rewrite Hdom, Hdom1. simpl. set_solver.
  - simpl. constructor; [|done]. intros Hin.
    assert (hi ∈ dom (delete hi (<[lo := c]> (ms_clusterInfo st)))) as Hd.
    { rewrite Forall_forall in Hall.
      apply list_elem_of_fmap in Hin as (m & -> & Hin).
      destruct (Hall m Hin) as (_ & _ & Hs & _). by apply elem_of_dom. }
    rewrite Hdom1 in Hd. set_solver.
  - constructor; simpl.
    + split_and!; eauto.
      eapply Reconcile_no_new_label; [exact Hrec| |]; simpl.
      * intros [[-> _]|[? _]]%relabel_elem; [lia|done].
      * apply lookup_delete_eq.
    + eapply Forall_impl; [exact Hall|]. intros m (? & Hk & Hd & ?).
      split_and!; auto.
      * apply elem_of_dom in Hk. rewrite Hdom1 in Hk.
        apply elem_of_dom. set_solver.
      * apply elem_of_dom in Hd. rewrite Hdom1 in Hd.
        apply elem_of_dom. set_solver.
Qed.

(** X2.  The merge log accounts for every cluster that disappears: the
    returned map has one key less per logged merge, its keys are the input
    keys without the logged [drop] ids, no id is dropped twice, and every
    logged merge has [keep < drop], both of them keys of the input map,
    while no returned label refers to a dropped id any more. *)
Theorem merge_log_accounts_for_dropped_clusters
    (labelsIn : list Z) (info : gmap Z Cluster) (capacity : option Z)
    (eps : option float) :
  let r := mergeClustersToExpectedCount labelsIn info capacity eps in
  (size (clusterInfo r) + length (merges r) = size info)%nat /\
  dom (clusterInfo r) = dom info ∖ list_to_set (drop <$> merges r) /\
  NoDup (drop <$> merges r) /\
  Forall (fun m => keep m < drop m /\ is_Some (info !! keep m) /\
                   is_Some (info !! drop m) /\ drop m ∉ labels r) (merges r).
Proof.
  intros r.
  destruct (merge_Reconcile labelsIn info capacity eps)
    as (cap & maxDist & expected & Hrec).
  apply Reconcile_log in Hrec as (new & Hm & Hsz & Hdom & Hnd & Hall).
  simpl in *. fold r in Hm, Hsz, Hdom, Hall. by rewrite Hm.
Qed.

(** ** Cluster ids follow the order of the samples *)

Section Numbering.

Variable labs : list Lab.
Variable eps : float.

(** Every id below [cid] is in use, and before the first index that carries
    it only smaller ids occur. *)
Definition FirstSeen (labels : list Z) (cid : Z) : Prop :=
  forall k, 0 <= k < cid ->
  exists i, labels !! i = Some k /\
    forall j l, (j < i)%nat -> labels !! j = Some l -> 0 <= l < k.

Lemma FirstSeen_grows labels labels' cid :
  grows labels labels' -> FirstSeen labels cid -> FirstSeen labels' cid.
Proof.
  intros [Hlen Hkeep] Hfs k Hk. destruct (Hfs k Hk) as (i & Hi & Hbefore).
  exists i. split; [apply Hkeep; [done|lia]|].
  intros j l Hj Hl.
  assert (Hjlt : (j < length labels)%nat).
  { apply lookup_lt_Some in Hi. lia. }
  destruct (lookup_lt_is_Some_2 labels j Hjlt) as [l0 Hl0].
  pose proof (Hbefore j l0 Hj Hl0) as Hr.
  rewrite (Hkeep j l0 Hl0 ltac:(lia)) in Hl. by simplify_eq.
Qed.

Lemma labelled_grows labels labels' j :
  grows labels labels' -> labelled labels j = true ->
  labelled labels' j = true.
Proof.
  intros [Hlen Hkeep]. rewrite !labelled_true. intros Hj.
  destruct (labels !! j) as [l|] eqn:Hl.
  - rewrite (Hkeep j l Hl); congruence.
  - apply lookup_ge_None in Hl.
    rewrite (proj2 (lookup_ge_None labels' j)); [done|lia].
Qed.

Lemma components_numbering (m : nat) :
  forall i0 labels cid,
  0 <= cid -> FillInv labs eps (cid - 1) labels [] ->
  (forall j, (j < i0)%nat -> labelled labels j = true) ->
  FirstSeen labels cid ->
  forall labels' cid',
  components labs eps (seq i0 m) labels cid = (labels', cid') ->
  FirstSeen labels' cid'.
Proof.
  induction m as [|m IH]; intros i0 labels cid Hc Hinv Hpre Hfs l' c' Hrun.
  - simpl in Hrun. by simplify_eq.
  - simpl in Hrun. destruct (labelled labels i0) eqn:Hlab.
    + eapply IH in Hrun; eauto. intros j Hj.
      destruct (decide (j = i0)) as [->|]; [done|]. apply Hpre. lia.
    + apply labelled_false in Hlab.
      pose proof (fill_start labs eps cid i0 labels Hc Hinv Hlab) as Hst.
      destruct (flood_spec labs eps cid Hc (length labs) (<[i0 := cid]> labels)
                  [i0] Hst) as (l2 & Hf & Hi2 & Hg2).
      { assert (c1 : cid <> -1) by lia.
        pose proof (unl_insert labels i0 cid Hlab c1).
        pose proof (unl_le labels). rewrite (fi_length _ _ _ _ _ Hinv) in *.
        simpl. lia. }
      rewrite Hf in Hrun. simpl in Hrun.
      assert (Hg : grows labels l2)
        by (eapply grows_trans; [by apply grows_insert|done]).
      assert (Hi0 : l2 !! i0 = Some cid).
      { destruct Hg2 as [_ Hg2]. apply Hg2; [|lia].
        rewrite list_lookup_insert_eq; [done|]. by eapply lookup_lt_Some. }
      eapply IH in Hrun; eauto; [lia|by replace (cid + 1 - 1) with cid by lia| |].
      * intros j Hj. destruct (decide (j = i0)) as [->|].
        -- apply labelled_true. rewrite Hi0. intros ?; simplify_eq; lia.
        -- eapply labelled_grows; [done|]. apply Hpre. lia.
      * intros k Hk. destruct (decide (k = cid)) as [->|].
        -- exists i0. split; [done|]. intros j l Hj Hl.
           assert (Hjlt : (j < length labels)%nat).
           { apply lookup_lt_Some in Hlab. lia. }
           destruct (lookup_lt_is_Some_2 labels j Hjlt) as [l0 Hl0].
           pose proof (proj1 (labelled_true labels j) (Hpre j Hj)) as Hne.
           assert (l0 <> -1) by congruence.
           pose proof (fi_range _ _ _ _ _ Hinv j l0 Hl0).
           destruct Hg as [_ Hg]. rewrite (Hg j l0 Hl0) in Hl by done.
           simplify_eq. lia.
        -- eapply FirstSeen_grows; [done| |]; [exact Hfs|lia].
Qed.

End Numbering.

(** X3.  [clusterColorsDbscan] numbers the clusters 0, 1, 2, ... without
    gaps, in the order in which their first samples occur: the keys of the
    cluster map are exactly the ids below their number [k]; every cluster has
    at least one member, carries its key as [id] and the hex form of its own
    BGR centre; before the first sample of cluster [c] only samples with
    smaller ids occur, so the first sample of all has id 0. *)
Theorem clusters_are_numbered_by_first_sample
    (cvtColor_BGR2Lab : Bgr -> Lab) (samplesBgr : list Bgr) (eps : float) :
  let out := clusterColorsDbscan cvtColor_BGR2Lab samplesBgr eps in
  exists k,
    0 <= k /\
    (forall c, is_Some (snd out !! c) <-> 0 <= c < k) /\
    (forall c cl, snd out !! c = Some cl ->
       id cl = c /\ 1 <= count cl /\
       center_hex cl = bgrToHex (center_bgr cl).1.1 (center_bgr cl).1.2
                                (center_bgr cl).2) /\
    (forall c, 0 <= c < k ->
       exists i, fst out !! i = Some c /\
         forall j l, (j < i)%nat -> fst out !! j = Some l -> 0 <= l < c) /\
    (samplesBgr <> [] -> fst out !! 0%nat = Some 0).
Proof.
  intros out. destruct (decide (samplesBgr = [])) as [->|Hne].
  - exists 0. subst out.
    change (clusterColorsDbscan cvtColor_BGR2Lab [] eps)
      with (@nil Z, (∅ : gmap Z Cluster)). simpl.
    split_and!; [lia| | |intros; lia|done].
    + intros c. rewrite lookup_empty. split; [by intros []|lia].
    + intros c cl. by rewrite lookup_empty.
  - destruct (cluster_run cvtColor_BGR2Lab samplesBgr eps Hne)
      as (labels & cid & Hc & Hout).
    subst out. rewrite Hout. simpl.
    set (labs := map cvtColor_BGR2Lab samplesBgr) in *.
    assert (Hn : length labs = length samplesBgr) by apply length_map.
    rewrite <- Hn in Hc.
    destruct (components_full labs eps labels cid Hc)
      as (Hlen & Hcid & Hlab & _).
    assert (Hfs : FirstSeen labels cid).
    { eapply (components_numbering labs eps (length labs) 0
                (replicate (length labs) (-1)) 0); eauto.
      - lia.
      - apply FillInv_initial.
      - intros j Hj. lia.
      - intros k Hk. lia. }
    exists cid. split_and!; [done| | |done|].
    + intros c. rewrite buildClusterInfo_lookup.
      destruct (decide (0 <= c < cid)); [by eauto|].
      split; [by intros []|done].
    + intros c cl. rewrite buildClusterInfo_lookup.
      destruct (decide (0 <= c < cid)) as [Hr|]; [|done].
      intros [= <-]. unfold clusterOf.
      destruct (mean3 (sum3 (pick (0, 0, 0) samplesBgr (members labels c))) _)
        as [[cb cg] cr] eqn:Hm. simpl. split_and!; [done| |done].
      destruct (Hfs c Hr) as (i & Hi & _).
      assert (Hin : i ∈ members labels c).
      { unfold members. apply list_elem_of_filter. split; [done|].
        apply elem_of_seq. apply lookup_lt_Some in Hi. lia. }
      destruct (members labels c); [by apply not_elem_of_nil in Hin|].
      simpl. lia.
    + intros _. assert (0 < length labs)%nat as Hpos.
      { rewrite Hn. destruct samplesBgr; [done|simpl; lia]. }
      destruct (Hlab 0%nat Hpos) as (l & Hl & Hr).
      destruct (Hfs l Hr) as (i & Hi & Hbefore).
      destruct (decide (i = 0%nat)) as [->|]; [|].
      * destruct (Hfs 0 ltac:(lia)) as (i0 & Hi0 & Hb0).
        destruct (decide (i0 = 0%nat)) as [->|]; [done|].
        specialize (Hb0 0%nat l ltac:(lia) Hl). lia.
      * specialize (Hbefore 0%nat l ltac:(lia) Hl). lia.
Qed.

(** ** The stable sort rearranges, it neither adds nor drops *)

Lemma insert_by_Permutation {A} (lt : A -> A -> bool) x l :
  insert_by lt x l ≡ₚ x :: l.
Proof.
  induction l as [|y l IH]; simpl; [done|].
  destruct (lt x y); [done|]. rewrite IH. apply Permutation_swap.
Qed.

Lemma sort_by_Permutation {A} (lt : A -> A -> bool) l : sort_by lt l ≡ₚ l.
Proof.
  unfold sort_by. rewrite <- (app_nil_r l) at 2.
  generalize (@nil A). induction l as [|x l IH]; intros acc; simpl; [done|].
  rewrite IH, insert_by_Permutation. by rewrite Permutation_middle.
Qed.

(** ** Assignment of candidates to grid cells *)

(** The entries of an array that are not [null]. *)
Definition chosen {A} (l : list (option A)) : list A := omap (fun o => o) l.

Lemma omap_lookup_seq {A} (l0 l : list A) :
  omap (fun i => (l0 ++ l) !! i) (seq (length l0) (length l)) = l.
Proof.
  revert l0. induction l as [|x l IH]; intros l0; simpl; [done|].
  rewrite lookup_app_r, Nat.sub_diag by lia. simpl. f_equal.
  specialize (IH (l0 ++ [x])). rewrite length_app in IH. simpl in IH.
  rewrite Nat.add_1_r in IH. by rewrite <- app_assoc in IH.
Qed.

Lemma omap_submseteq_mono {A B} (f : A -> option B) (l k : list A) :
  l ⊆+ k -> omap f l ⊆+ omap f k.
Proof.
  induction 1 as [|x l1 l2 _ IH|x y l|x l1 l2 _ IH|l1 l2 l3 _ IH1 _ IH2]; simpl.
  - done.
  - destruct (f x); [by apply submseteq_skip|done].
  - destruct (f x), (f y); try done. apply submseteq_swap.
  - destruct (f x); [by apply submseteq_cons|done].
  - by etransitivity.
Qed.

Section Matching.

Variable boxes : list Box.

(** What makes a candidate admissible for a cell. *)
Variable P : nat -> Box -> Prop.

(** The candidate placed in each cell, by index. *)
Definition placed (cells : list (option nat)) : list (option Box) :=
  (fun c => c ≫= fun bi => boxes !! bi) <$> cells.

Record Matched (assign : list (option Box)) (used : list nat)
    (cells : list (option nat)) : Prop := {
  mt_placed : assign = placed cells;
  mt_used : forall pi bi, cells !! pi = Some (Some bi) ->
    bi ∈ used /\ exists b, boxes !! bi = Some b /\ P pi b;
  mt_once : NoDup (chosen cells)
}.

Lemma omap_insert_fresh (cells : list (option nat)) pi bi :
  cells !! pi = Some None ->
  chosen (<[pi := Some bi]> cells) ≡ₚ bi :: chosen cells.
Proof.
  unfold chosen. revert pi.
  induction cells as [|c cells IH]; intros [|pi] Hpi; simplify_eq/=.
  - done.
  - destruct c as [x|]; simpl.
    + rewrite IH by done. apply Permutation_swap.
    + by apply IH.
Qed.

Lemma elem_of_omap_id (cells : list (option nat)) bi :
  bi ∈ chosen cells -> exists pi, cells !! pi = Some (Some bi).
Proof.
  unfold chosen. intros (c & Hc & Hid)%list_elem_of_omap. simpl in Hid. subst c.
  by apply list_elem_of_lookup_1.
Qed.

Lemma greedy_Matched pairs :
  Forall (fun '(_, bi, pi) => exists b, boxes !! bi = Some b /\ P pi b) pairs ->
  forall assign used cells,
  Matched assign used cells ->
  exists used' cells', Matched (greedy boxes pairs assign used) used' cells'.
Proof.
  induction 1 as [|[[dist bi] pi] pairs (b & Hb & HP) _ IH];
    intros assign used cells Hm; simpl; [eauto|].
  destruct (assign !! pi) as [[b'|]|] eqn:Ha; [by apply IH with cells| |].
  - case_bool_decide as Hu; [by apply IH with cells|].
    apply IH with (<[pi := Some bi]> cells).
    destruct Hm as [-> Hused Hnd].
    assert (Hc : cells !! pi = Some None).
    { unfold placed in Ha. rewrite list_lookup_fmap in Ha.
      destruct (cells !! pi) as [[bj|]|] eqn:Hc; simplify_eq/=; [|done].
      destruct (Hused pi bj Hc) as (_ & b' & Hb' & _). congruence. }
    split.
    + unfold placed. rewrite list_fmap_insert. simpl. by rewrite Hb.
    + intros pj bj. destruct (decide (pj = pi)) as [->|].
      * rewrite list_lookup_insert_eq by by eapply lookup_lt_Some.
        intros [= <-]. split; [set_solver|eauto].
      * rewrite list_lookup_insert_ne by done. intros Hj.
        destruct (Hused pj bj Hj). split; [set_solver|done].
    + rewrite omap_insert_fresh by done. constructor; [|done].
      intros (pj & Hj)%elem_of_omap_id. by destruct (Hused pj bi Hj).
  - case_bool_decide as Hu; [by apply IH with cells|].
    apply IH with cells. destruct Hm as [-> Hused Hnd].
    assert (Hge : (length cells <= pi)%nat).
    { apply lookup_ge_None in Ha. unfold placed in Ha.
      by rewrite length_fmap in Ha. }
    split; [|intros pj bj Hj; destruct (Hused pj bj Hj); split;
               [set_solver|done]|done].
    apply list_insert_ge. unfold placed. by rewrite length_fmap.
Qed.

Lemma placed_submseteq (cells : list (option nat)) used :
  Matched (placed cells) used cells -> chosen (placed cells) ⊆+ boxes.
Proof.
  intros [_ Hused Hnd].
  set (f := fun bi : nat => boxes !! bi).
  assert (Heq : chosen (placed cells) = omap f (chosen cells)).
  { unfold placed, chosen. subst f. clear.
    induction cells as [|[bi|] cells IH]; simpl; [done| |exact IH].
    destruct (boxes !! bi); [f_equal|]; exact IH. }
  rewrite Heq.
  assert (Hsub : chosen cells ⊆+ seq 0 (length boxes)).
  { apply NoDup_submseteq; [done|]. intros bi (pi & Hpi)%elem_of_omap_id.
    destruct (Hused pi bi Hpi) as (_ & b & Hb & _).
    apply elem_of_seq. apply lookup_lt_Some in Hb. lia. }
  assert (Hall : omap f (seq 0 (length boxes)) = boxes).
  { apply (omap_lookup_seq [] boxes). }
  transitivity (omap f (seq 0 (length boxes)));
    [by apply omap_submseteq_mono|by rewrite Hall].
Qed.

End Matching.

Lemma elem_of_flat_map {A B} (f : A -> list B) (l : list A) (y : B) :
  y ∈ flat_map f l <-> exists x, x ∈ l /\ y ∈ f x.
Proof.
  rewrite list_elem_of_In, in_flat_map.
  by setoid_rewrite list_elem_of_In.
Qed.

Lemma candidatePairs_spec hypot (g : GridModel) (preds : list Pred) dist bi pi :
  (dist, bi, pi) ∈ candidatePairs hypot g preds ->
  exists b p,
    gm_boxes g !! bi = Some b /\ preds !! pi = Some p /\
    PrimFloat.leb (hypot (PrimFloat.sub (centerX b) (pr_cx p))
                         (PrimFloat.sub (centerY b) (pr_cy p)))
                  (PrimFloat.mul (Math_max (gm_wMed g) (gm_hMed g)) 1.25)
    = true.
Proof.
  unfold candidatePairs.
  intros ([bi' b] & (bi0 & b0 & [= -> ->] & Hb)%elem_of_lookup_imap & Hin)
    %elem_of_flat_map.
  apply elem_of_flat_map in Hin
    as ([pi' p] & (pi0 & p0 & [= -> ->] & Hp)%elem_of_lookup_imap & Hin).
  exists b0, p0.
  destruct (PrimFloat.leb _ _) eqn:Hle; [|by apply not_elem_of_nil in Hin].
  apply list_elem_of_singleton in Hin as [= -> -> ->]. done.
Qed.

Lemma filterByPosition_sublist W H boxes :
  filterByPosition W H boxes `sublist_of` boxes.
Proof.
  unfold filterByPosition.
  destruct (filter _ boxes) eqn:Hf; [done|]. rewrite <- Hf. apply sublist_filter.
Qed.

Lemma filterBySize_submseteq boxes :
  filterBySize boxes ⊆+ boxes /\ (length (filterBySize boxes) <= 12)%nat.
Proof.
  unfold filterBySize, EXPECTED.
  destruct (Nat.ltb_spec 6 (length boxes)) as [Hlt|Hle]; [|split; [done|lia]].
  set (fa := filter _ boxes).
  assert (Hfa : fa `sublist_of` boxes) by apply sublist_filter.
  set (b1 := if Nat.leb 3 (length fa) then fa else boxes).
  assert (Hb1 : b1 ⊆+ boxes).
  { subst b1. destruct (Nat.leb 3 (length fa)); [|done].
    by apply sublist_submseteq. }
  set (b2 := sort_by _ b1).
  assert (Hb2 : b2 ⊆+ boxes).
  { subst b2. by rewrite sort_by_Permutation. }
  destruct (Nat.ltb_spec (6 * 2) (length b2)) as [Hbig|Hsmall].
  - split.
    + etransitivity; [|exact Hb2]. apply sublist_submseteq, sublist_take.
    + rewrite length_take. lia.
  - split; [done|lia].
Qed.

(** X4.  The greedy assignment of [enforceFixedBottleGrid] is a matching:
    the boxes it places in cells are, counted with multiplicity, among the
    candidates that passed the filters, which are in turn among the input
    candidates and never more than 12; hence no candidate is placed in two
    cells.  A box placed in a cell lies within [max(wMed, hMed) * 1.25] of
    the cell's predicted centre. *)
Theorem grid_assignment_is_a_matching
    (hypot : float -> float -> float) (W H : Z) (candidates : list Box) :
  let g := estimateGrid W H candidates in
  let preds := predictions g in
  let assign := greedyAssign hypot g preds in
  chosen assign ⊆+ gm_boxes g /\
  gm_boxes g ⊆+ candidates /\
  (length (gm_boxes g) <= 12)%nat /\
  (forall pi b, assign !! pi = Some (Some b) ->
     exists p, preds !! pi = Some p /\
       PrimFloat.leb (hypot (PrimFloat.sub (centerX b) (pr_cx p))
                            (PrimFloat.sub (centerY b) (pr_cy p)))
                     (PrimFloat.mul (Math_max (gm_wMed g) (gm_hMed g)) 1.25)
       = true).
Proof.
  intros g preds assign.
  set (P := fun (pi : nat) (b : Box) =>
    exists p, preds !! pi = Some p /\
      PrimFloat.leb (hypot (PrimFloat.sub (centerX b) (pr_cx p))
                           (PrimFloat.sub (centerY b) (pr_cy p)))
                    (PrimFloat.mul (Math_max (gm_wMed g) (gm_hMed g)) 1.25)
      = true).
  set (pairs := sort_by (fun a b => num_lt (fst (fst a)) (fst (fst b)))
                        (candidatePairs hypot g preds)).
  assert (Hpairs : Forall (fun '(_, bi, pi) =>
            exists b, gm_boxes g !! bi = Some b /\ P pi b) pairs).
  { apply Forall_forall. intros [[dist bi] pi] Hin.
    subst pairs. rewrite sort_by_Permutation in Hin.
    apply candidatePairs_spec in Hin as (b & p & Hb & Hp & Hle).
    exists b. split; [done|]. by exists p. }
  destruct (greedy_Matched (gm_boxes g) P pairs Hpairs
              (replicate EXPECTED None) [] (replicate EXPECTED None))
    as (used & cells & Hm).
  { split; [done| |].
    - intros pi bi [? _]%lookup_replicate. done.
    - unfold EXPECTED, chosen. simpl. constructor. }
  change (greedy _ _ _ _) with assign in Hm.
  pose proof (mt_placed _ _ _ _ _ Hm) as Hpl.
  split_and!.
  - rewrite Hpl. eapply placed_submseteq. rewrite <- Hpl. exact Hm.
  - subst g. unfold estimateGrid. simpl.
    etransitivity; [apply filterBySize_submseteq|].
    apply sublist_submseteq, filterByPosition_sublist.
  - subst g. unfold estimateGrid. simpl. apply filterBySize_submseteq.
  - intros pi b Ha. rewrite Hpl in Ha. unfold placed in Ha.
    rewrite list_lookup_fmap in Ha.
    destruct (cells !! pi) as [[bi|]|] eqn:Hc; simplify_eq/=.
    destruct (mt_used _ _ _ _ _ Hm pi bi Hc) as (_ & b' & Hb' & HP).
    by simplify_eq.
Qed.

(** ** The normalised grid *)

Lemma kmeansRound_length values centers :
  length (kmeansRound values centers) = length centers.
Proof. unfold kmeansRound. apply length_imap. Qed.

Lemma kmeans1D_length values k iters : length (kmeans1D values k iters) = k.
Proof.
  unfold kmeans1D. rewrite (Permutation_length (sort_by_Permutation _ _)).
  induction iters as [|n IH]; simpl.
  - by rewrite length_map, length_seq.
  - by rewrite kmeansRound_length.
Qed.

(** Three column centres and two row centres, whatever the candidates. *)
Lemma centres_count (W H : Z) (candidates : list Box) :
  length (gm_xCenters (estimateGrid W H candidates)) = 3%nat /\
  length (gm_yCenters (estimateGrid W H candidates)) = 2%nat.
Proof.
  unfold estimateGrid. cbn [gm_xCenters gm_yCenters].
  rewrite !(Permutation_length (sort_by_Permutation _ _)), !length_map.
  set (boxes := filterBySize _).
  split.
  - destruct (Nat.leb 3 _); [apply kmeans1D_length|].
    destruct (sort_by num_lt (map centerX boxes)) as [|x1 [|x2 [|x3 l]]];
      try done; repeat (destruct (PrimFloat.ltb _ _)); done.
  - destruct (Nat.leb 2 _).
    + destruct (PrimFloat.ltb _ _); [|apply kmeans1D_length].
      by destruct (PrimFloat.ltb _ _).
    + destruct (map centerY boxes) as [|y0 [|y1 l]]; try done.
      by destruct (PrimFloat.ltb _ _).
Qed.

(** A candidate placed in a cell passed the filters, hence is one of the
    input candidates, and lies within reach of the cell's centre. *)
Lemma assigned_within_reach (hypot : float -> float -> float) (W H : Z)
    (candidates : list Box) (pi : nat) (b : Box) :
  let g := estimateGrid W H candidates in
  greedyAssign hypot g (predictions g) !! pi = Some (Some b) ->
  b ∈ candidates /\
  exists p, predictions g !! pi = Some p /\
    PrimFloat.leb (hypot (PrimFloat.sub (centerX b) (pr_cx p))
                         (PrimFloat.sub (centerY b) (pr_cy p)))
                  (PrimFloat.mul (Math_max (gm_wMed g) (gm_hMed g)) 1.25)
    = true.
Proof.
  intros g Ha.
  set (preds := predictions g) in *.
  set (P := fun (pi : nat) (b : Box) =>
    exists p, preds !! pi = Some p /\
      PrimFloat.leb (hypot (PrimFloat.sub (centerX b) (pr_cx p))
                           (PrimFloat.sub (centerY b) (pr_cy p)))
                    (PrimFloat.mul (Math_max (gm_wMed g) (gm_hMed g)) 1.25)
      = true).
  set (pairs := sort_by (fun a b => num_lt (fst (fst a)) (fst (fst b)))
                        (candidatePairs hypot g preds)).
  assert (Hpairs : Forall (fun '(_, bi, pi) =>
            exists b, gm_boxes g !! bi = Some b /\ P pi b) pairs).
  { apply Forall_forall. intros [[dist bi] pj] Hin.
    subst pairs. rewrite sort_by_Permutation in Hin.
    apply candidatePairs_spec in Hin as (b' & p & Hb & Hp & Hle).
    exists b'. split; [done|]. by exists p. }
  destruct (greedy_Matched (gm_boxes g) P pairs Hpairs
              (replicate EXPECTED None) [] (replicate EXPECTED None))
    as (used & cells & Hm).
  { split; [done| |].
    - intros pj bi [? _]%lookup_replicate. done.
    - unfold EXPECTED, chosen. simpl. constructor. }
  change (greedy _ _ _ _) with (greedyAssign hypot g preds) in Hm.
  rewrite (mt_placed _ _ _ _ _ Hm) in Ha. unfold placed in Ha.
  rewrite list_lookup_fmap in Ha.
  destruct (cells !! pi) as [[bi|]|] eqn:Hc; simplify_eq/=.
  destruct (mt_used _ _ _ _ _ Hm pi bi Hc) as (_ & b' & Hb' & HP).
  simplify_eq. split; [|done].
  apply list_elem_of_lookup_2 in Ha.
  assert (Hsub : gm_boxes g ⊆+ candidates).
  { subst g. unfold estimateGrid. simpl.
    etransitivity; [apply filterBySize_submseteq|].
    apply sublist_submseteq, filterByPosition_sublist. }
  by eapply elem_of_submseteq.
Qed.

(** X23.  For every candidate list [enforceFixedBottleGrid] returns exactly
    6 = 2 * 3 boxes, in row-major order: there are three column centres and
    two row centres, each list in ascending order, and entry [r * 3 + c] of
    the result is the box of the cell whose centre is the [c]-th column
    centre and the [r]-th row centre.  That box is, rounded and clamped,
    either an input candidate that lies within [max(wMed, hMed) * 1.25] of
    the cell's centre, or, when no candidate was assigned to the cell, the
    box the local search finds around the centre, or, when that finds
    nothing, the synthetic box of the median width and height centred at the
    cell's centre.  In a frame of at least one pixel every returned
    coordinate is clamped on its own: [0 <= x <= W-1], [0 <= y <= H-1],
    [1 <= w <= W], [1 <= h <= H]. *)
Theorem grid_normalization_returns_full_grid
    (detectBottleNear : float -> float -> float -> float -> option Box)
    (hypot : float -> float -> float) (W H : Z) (candidates : list Box) :
  let g := estimateGrid W H candidates in
  let assign := greedyAssign hypot g (predictions g) in
  let out := enforceFixedBottleGrid detectBottleNear hypot W H candidates in
  let reach := PrimFloat.mul (Math_max (gm_wMed g) (gm_hMed g)) 1.25 in
  length out = (2 * 3)%nat /\
  length (gm_xCenters g) = 3%nat /\
  length (gm_yCenters g) = 2%nat /\
  Sorted (follows num_lt) (gm_xCenters g) /\
  Sorted (follows num_lt) (gm_yCenters g) /\
  (forall r c, (r < 2)%nat -> (c < 3)%nat ->
     exists cx cy box,
       gm_xCenters g !! c = Some cx /\
       gm_yCenters g !! r = Some cy /\
       out !! (r * 3 + c)%nat
       = Some {| gx := clampInt (Math_round (box_x box)) 0 (W - 1);
                 gy := clampInt (Math_round (box_y box)) 0 (H - 1);
                 gw := clampInt (Math_round (box_w box)) 1 W;
                 gh := clampInt (Math_round (box_h box)) 1 H |} /\
       ((assign !! (r * 3 + c)%nat = Some (Some box) /\
         box ∈ candidates /\
         PrimFloat.leb (hypot (PrimFloat.sub (centerX box) cx)
                              (PrimFloat.sub (centerY box) cy)) reach = true) \/
        (assign !! (r * 3 + c)%nat = Some None /\
         detectBottleNear cx cy (gm_wMed g) (gm_hMed g) = Some box) \/
        (assign !! (r * 3 + c)%nat = Some None /\
         detectBottleNear cx cy (gm_wMed g) (gm_hMed g) = None /\
         box = {| box_x := Z2F (clampInt (Math_round (PrimFloat.sub cx
                              (PrimFloat.div (gm_wMed g) (Z2F 2)))) 0 (W - 1));
                  box_y := Z2F (clampInt (Math_round (PrimFloat.sub cy
                              (PrimFloat.div (gm_hMed g) (Z2F 2)))) 0 (H - 1));
                  box_w := Z2F (clampInt (Math_round (gm_wMed g)) 1 W);
                  box_h := Z2F (clampInt (Math_round (gm_hMed g)) 1 H) |}))) /\
  (1 <= W -> 1 <= H ->
   Forall (fun b => 0 <= gx b <= W - 1 /\ 0 <= gy b <= H - 1 /\
                    1 <= gw b <= W /\ 1 <= gh b <= H) out).
Proof.
  intros g assign out reach.
  set (preds := predictions g).
  assert (Hlen : length assign = 6%nat) by apply greedyAssign_length.
  destruct (centres_count W H candidates) as [Hnx Hny].
  fold g in Hnx, Hny.
  assert (Hout : forall i p a, preds !! i = Some p -> assign !! i = Some a ->
            out !! i = Some (finalBox W H (fillCell detectBottleNear W H g p a))).
  { intros i p a Hp Ha. unfold out, enforceFixedBottleGrid.
    fold g. fold assign. fold preds.
    rewrite list_lookup_fmap, list_lookup_imap, Ha. simpl. by rewrite Hp. }
  split_and!; try done.
  - unfold out, enforceFixedBottleGrid. fold g. fold assign. fold preds.
    by rewrite length_map, length_imap.
  - apply centres_ascending.
  - apply centres_ascending.
  - intros r c Hr Hc.
    destruct (lookup_lt_is_Some_2 (gm_xCenters g) c) as [cx Hcx]; [lia|].
    destruct (lookup_lt_is_Some_2 (gm_yCenters g) r) as [cy Hcy]; [lia|].
    destruct (lookup_lt_is_Some_2 assign (r * 3 + c)) as [a Ha]; [lia|].
    set (p := {| pr_r := r; pr_c := c; pr_cx := cx; pr_cy := cy |}).
    assert (Hp : preds !! (r * 3 + c)%nat = Some p).
    { unfold preds. rewrite predictions_cells. unfold p, at_.
      rewrite <- (nth_lookup_Some _ _ PrimFloat.nan _ Hcx).
      rewrite <- (nth_lookup_Some _ _ PrimFloat.nan _ Hcy).
      destruct r as [|[|r]]; [| |lia];
        (destruct c as [|[|[|c]]]; [done|done|done|lia]). }
    exists cx, cy, (fillCell detectBottleNear W H g p a).
    split; [done|]. split; [done|]. split; [by apply Hout|].
    destruct a as [b|]; simpl.
    + left. split; [done|].
      destruct (assigned_within_reach hypot W H candidates _ _ Ha)
        as (Hin & p' & Hp' & Hle).
      fold g in Hp', Hle. fold preds in Hp'. rewrite Hp in Hp'.
      injection Hp' as <-. done.
    + right. destruct (detectBottleNear cx cy _ _) as [found|]; [by left|].
      by right.
  - intros HW HH. unfold out, enforceFixedBottleGrid.
    apply Forall_fmap, Forall_forall. intros b _. simpl.
    pose proof (clampInt_range (Math_round (box_x b)) 0 (W - 1)).
    pose proof (clampInt_range (Math_round (box_y b)) 0 (H - 1)).
    pose proof (clampInt_range (Math_round (box_w b)) 1 W).
    pose proof (clampInt_range (Math_round (box_h b)) 1 H). lia.
Qed.

(** Five bottles of a 3 x 2 layout, out of order; the bottom right one is
    missing. *)
Definition fiveBottles : list Box :=
  map (fun '(x, y) => {| box_x := Z2F x; box_y := Z2F y;
                         box_w := Z2F 120; box_h := Z2F 520 |})
      [(440, 1050); (660, 350); (220, 350); (220, 1050); (440, 350)].

Example grid_five_demo :
  enforceFixedBottleGrid (fun _ _ _ _ => None) hypotSqrt 1000 2000 fiveBottles
  = [mkGridBox 220 350 120 520; mkGridBox 440 350 120 520;
     mkGridBox 660 350 120 520; mkGridBox 220 1050 120 520;
     mkGridBox 440 1050 120 520; mkGridBox 660 1050 120 520].
Proof. vm_compute. reflexivity. Qed.

Lemma grid_normalization_returns_full_grid_witness :
  let out := enforceFixedBottleGrid (fun _ _ _ _ => None) hypotSqrt 1000 2000
               fiveBottles in
  length out = 6%nat /\
  Forall (fun b => 0 <= gx b <= 1000 - 1 /\ 0 <= gy b <= 2000 - 1 /\
                   1 <= gw b <= 1000 /\ 1 <= gh b <= 2000) out.
Proof.
  intros out.
  destruct (grid_normalization_returns_full_grid (fun _ _ _ _ => None)
              hypotSqrt 1000 2000 fiveBottles)
    as (Hlen & _ & _ & _ & _ & _ & Hclamp).
  split; [exact Hlen|]. apply Hclamp; lia.
Defined.

(** ** Rescaled boxes and the detection frame *)

(** The clamping pattern [x = clampInt(., 0, W - 1); w = clampInt(., 1, W - x)]
    keeps an interval inside [0, W]. *)
Lemma clamped_span (v1 v2 : float) (W : Z) :
  1 <= W ->
  let x := clampInt v1 0 (W - 1) in
  let w := clampInt v2 1 (W - x) in
  0 <= x /\ 1 <= w /\ x + w <= W.
Proof.
  intros HW x w.
  pose proof (clampInt_range v1 0 (W - 1) ltac:(lia)).
  pose proof (clampInt_range v2 1 (W - x) ltac:(subst x; lia)).
  subst x w. lia.
Qed.

(** A box that lies inside a [W] x [H] frame and has at least one pixel. *)
Definition insideFrame (W H : Z) (b : GridBox) : Prop :=
  0 <= gx b /\ 0 <= gy b /\ 1 <= gw b /\ 1 <= gh b /\
  gx b + gw b <= W /\ gy b + gh b <= H.

Lemma rescaled_boxes_inside (boxesSmall : list Box) (invScale : float)
    (origW origH : Z) :
  1 <= origW -> 1 <= origH ->
  Forall (insideFrame origW origH)
         (scaleBoxesToOriginal boxesSmall invScale origW origH).
Proof.
  intros HW HH. unfold scaleBoxesToOriginal.
  apply Forall_fmap, Forall_forall. intros b _.
  unfold insideFrame, scaleBoxToOriginal. cbv zeta. simpl.
  match goal with
  | |- context [clampInt ?v 1 (origW - clampInt ?u 0 (origW - 1))] =>
      pose proof (clamped_span u v origW HW)
  end.
  match goal with
  | |- context [clampInt ?v 1 (origH - clampInt ?u 0 (origH - 1))] =>
      pose proof (clamped_span u v origH HH)
  end.
  simpl in *. lia.
Qed.

(** X5.  [scaleBoxesToOriginal] returns one box per input box, and for an
    original size of at least one pixel each returned box has at least one
    pixel and lies inside the original image: [0 <= x], [0 <= y],
    [x + w <= origW], [y + h <= origH]. *)
Theorem rescaled_boxes_lie_inside_the_image
    (boxesSmall : list Box) (invScale : float) (origW origH : Z) :
  1 <= origW -> 1 <= origH ->
  length (scaleBoxesToOriginal boxesSmall invScale origW origH)
    = length boxesSmall /\
  Forall (insideFrame origW origH)
         (scaleBoxesToOriginal boxesSmall invScale origW origH).
Proof.
  intros HW HH. split; [apply length_map|by apply rescaled_boxes_inside].
Qed.

Lemma rescaled_boxes_lie_inside_the_image_witness :
  length (scaleBoxesToOriginal
            [{| box_x := Z2F 10; box_y := Z2F 10; box_w := Z2F 100;
                box_h := Z2F 300 |}] 2.5 200 2000) = 1%nat /\
  Forall (insideFrame 200 2000)
         (scaleBoxesToOriginal
            [{| box_x := Z2F 10; box_y := Z2F 10; box_w := Z2F 100;
                box_h := Z2F 300 |}] 2.5 200 2000).
Proof.
  apply (rescaled_boxes_lie_inside_the_image
           [{| box_x := Z2F 10; box_y := Z2F 10; box_w := Z2F 100;
               box_h := Z2F 300 |}] 2.5 200 2000); lia.
Defined.

(** ** Suppression of overlapping candidates *)

Section Suppress.

Context {A : Type}.
Variable box : A -> Box.
Variable thr : float.

(** [c] overlaps [s] too much to be selected after it. *)
Definition clashes (c s : A) : bool :=
  PrimFloat.leb thr (iou (box c) (box s)).

(** No element of the list clashes with one before it. *)
Fixpoint apart (l : list A) : Prop :=
  match l with
  | [] => True
  | c :: rest => apart rest /\ Forall (fun later => clashes later c = false) rest
  end.

Lemma apart_snoc l c :
  apart l -> Forall (fun s => clashes c s = false) l -> apart (l ++ [c]).
Proof.
  induction l as [|s l IH]; simpl; [by repeat constructor|].
  intros [Hl Hs] Hc. apply Forall_cons in Hc as [Hcs Hc].
  split; [by apply IH|]. apply Forall_app. split; [done|by constructor].
Qed.

Lemma suppress_spec cands :
  forall selected, apart selected ->
  exists kept,
    suppress box thr cands selected = selected ++ kept /\
    kept `sublist_of` cands /\
    apart (selected ++ kept) /\
    Forall (fun c => c ∈ kept \/
                     exists s, s ∈ selected ++ kept /\ clashes c s = true) cands.
Proof.
  induction cands as [|c cands IH]; intros selected Hap; simpl.
  - exists []. rewrite app_nil_r. by repeat constructor.
  - fold (clashes c). destruct (existsb (clashes c) selected) eqn:Hex.
    + destruct (IH selected Hap) as (kept & Heq & Hsub & Hap' & Hall).
      exists kept. split_and!; [done|by constructor|done|].
      constructor; [|done]. right.
      apply existsb_exists in Hex as (s & Hs%list_elem_of_In & Hcl).
      exists s. split; [set_solver|done].
    + destruct (IH (selected ++ [c])) as (kept & Heq & Hsub & Hap' & Hall).
      { apply apart_snoc; [done|]. apply Forall_forall. intros s Hs.
        destruct (clashes c s) eqn:Hcl; [|done].
        assert (existsb (clashes c) selected = true) as Ht; [|congruence].
        apply existsb_exists. exists s. by rewrite <- list_elem_of_In. }
      exists (c :: kept). rewrite <- app_assoc in Heq, Hap'. simpl in *.
      split_and!; [done|by constructor|done|].
      constructor; [left; set_solver|].
      eapply Forall_impl; [exact Hall|]. simpl.
      intros c' [Hin|(s & Hs & Hcl)]; [left; set_solver|].
      right. exists s. split; [|done]. by rewrite <- app_assoc in Hs.
Qed.

Lemma suppress_from_nothing cands :
  let out := suppress box thr cands [] in
  out `sublist_of` cands /\ apart out /\
  Forall (fun c => c ∈ out \/ exists s, s ∈ out /\ clashes c s = true) cands.
Proof.
  intros out. destruct (suppress_spec cands [] I) as (kept & Heq & ? & ? & ?).
  subst out. rewrite Heq. done.
Qed.

End Suppress.

Lemma area_gt_asym a b : area_gt a b = true -> area_gt b a = false.
Proof. unfold area_gt. apply num_lt_asym. Qed.

(** X6.  [nmsBoxes] selects among the candidates, taken largest area first
    (a candidate without [area] counting with [w * h]): the selection is a
    sublist of that ordering, so nothing is invented or duplicated; no
    selected box has [iou >= nmsIou] with a box selected before it; and every
    candidate that is not selected has [iou >= nmsIou] with a selected
    box. *)
Theorem nms_selects_boxes_that_do_not_overlap
    (candidates : list (Box * option float)) (nmsIou : float) :
  let withArea := fun b : Box * option float =>
    {| cand_box := fst b; cand_area := default (boxArea (fst b)) (snd b) |} in
  let ordered := sort_by area_gt (map withArea candidates) in
  let out := nmsBoxes candidates nmsIou in
  ordered ≡ₚ map withArea candidates /\
  Sorted (follows area_gt) ordered /\
  out `sublist_of` ordered /\
  (forall i j s c, (i < j)%nat -> out !! i = Some s -> out !! j = Some c ->
     PrimFloat.leb nmsIou (iou (cand_box c) (cand_box s)) = false) /\
  (forall c, c ∈ ordered -> c ∉ out ->
     exists s, s ∈ out /\
       PrimFloat.leb nmsIou (iou (cand_box c) (cand_box s)) = true).
Proof.
  intros withArea ordered out.
  destruct (suppress_from_nothing cand_box nmsIou ordered)
    as (Hsub & Hap & Hall).
  change (suppress cand_box nmsIou ordered []) with out in *.
  split_and!; [apply sort_by_Permutation| |done| |].
  - apply sort_by_Sorted, area_gt_asym.
  - clear Hsub Hall. induction out as [|x l IH]; intros i j s c Hij Hi Hj;
      [done|].
    destruct Hap as [Hap Hx]. destruct j as [|j]; [lia|]. simpl in Hj.
    destruct i as [|i]; simpl in Hi.
    + simplify_eq. rewrite Forall_forall in Hx.
      apply (Hx c). by eapply list_elem_of_lookup_2.
    + apply (IH Hap i j); [lia|done|done].
  - intros c Hc Hout. rewrite Forall_forall in Hall.
    destruct (Hall c Hc) as [?|?]; done.
Qed.

(** ** Rows of boxes *)

Section RowFacts.

Context {A : Type}.
Variable box : A -> Box.

Lemma placeInRow_members eps b (rows : list (Row A)) :
  flat_map row_boxes (placeInRow box eps b rows)
    ≡ₚ b :: flat_map row_boxes rows.
Proof.
  induction rows as [|row rows IH]; simpl; [done|].
  destruct (PrimFloat.leb _ eps); simpl.
  - rewrite <- app_assoc. simpl.
    by rewrite <- Permutation_middle.
  - rewrite IH. by rewrite Permutation_middle.
Qed.

Lemma placeInRow_nonempty eps b (rows : list (Row A)) :
  Forall (fun row => row_boxes row <> []) rows ->
  Forall (fun row => row_boxes row <> []) (placeInRow box eps b rows).
Proof.
  induction 1 as [|row rows Hrow Hrows IH]; simpl; [by repeat constructor|].
  destruct (PrimFloat.leb _ eps); constructor; try done.
  simpl. by destruct (row_boxes row).
Qed.

Lemma rows_fold eps (l : list A) (rows : list (Row A)) :
  Forall (fun row => row_boxes row <> []) rows ->
  let rows' := fold_left (fun rows b => placeInRow box eps b rows) l rows in
  flat_map row_boxes rows' ≡ₚ l ++ flat_map row_boxes rows /\
  Forall (fun row => row_boxes row <> []) rows'.
Proof.
  revert rows. induction l as [|b l IH]; intros rows Hne; simpl; [done|].
  destruct (IH (placeInRow box eps b rows)) as [Hp Hn];
    [by apply placeInRow_nonempty|].
  split; [|done]. rewrite Hp, placeInRow_members.
  by rewrite Permutation_middle.
Qed.

Lemma flat_map_sorted_rows (f : list A -> list A) (rows : list (Row A)) :
  (forall l, f l ≡ₚ l) ->
  flat_map row_boxes
    (map (fun row => {| row_cy := row_cy row; row_boxes := f (row_boxes row) |})
         rows)
  ≡ₚ flat_map row_boxes rows.
Proof.
  intros Hf. induction rows as [|row rows IH]; simpl; [done|].
  by rewrite Hf, IH.
Qed.

Lemma clusterRowsByY_members (boxes : list A) (eps : float) :
  flat_map row_boxes (clusterRowsByY box boxes eps) ≡ₚ boxes /\
  Forall (fun row => row_boxes row <> []) (clusterRowsByY box boxes eps).
Proof.
  unfold clusterRowsByY.
  set (sorted := sort_by _ boxes).
  destruct (rows_fold eps sorted [] ltac:(constructor)) as [Hp Hn].
  set (rows0 := fold_left _ sorted []) in *. simpl in Hp.
  set (byCy := sort_by (fun a b : Row A => num_lt (row_cy a) (row_cy b)) rows0).
  assert (Hperm : byCy ≡ₚ rows0) by apply sort_by_Permutation.
  split.
  - rewrite flat_map_sorted_rows by (intros; apply sort_by_Permutation).
    rewrite (Permutation_flat_map _ Hperm), Hp, app_nil_r.
    apply sort_by_Permutation.
  - apply Forall_fmap. rewrite Hperm.
    eapply Forall_impl; [exact Hn|]. simpl. intros row Hrow Hnil.
    apply Hrow. apply Permutation_nil_r. rewrite <- Hnil.
    symmetry. apply sort_by_Permutation.
Qed.

(** X7.  [clusterRowsByY] partitions the boxes into rows: the rows together
    hold exactly the input boxes, no row is empty, the rows come in
    ascending order of their centre [cy], and within a row the boxes come in
    ascending order of [x] (in both orders no element sorts before its
    predecessor). *)
Theorem rows_partition_the_boxes (boxes : list A) (eps : float) :
  let rows := clusterRowsByY box boxes eps in
  flat_map row_boxes rows ≡ₚ boxes /\
  Forall (fun row => row_boxes row <> []) rows /\
  Sorted (fun a b => num_lt (row_cy b) (row_cy a) = false) rows /\
  Forall (fun row =>
            Sorted (fun a b => num_lt (box_x (box b)) (box_x (box a)) = false)
                   (row_boxes row)) rows.
Proof.
  intros rows. subst rows.
  destruct (clusterRowsByY_members boxes eps) as [Hp Hn].
  split_and!; [done|done| |]; unfold clusterRowsByY.
  - eapply (Sorted_fmap _ (follows (fun a b : Row A =>
                                      num_lt (row_cy a) (row_cy b))));
      [by intros a b|].
    apply sort_by_Sorted. intros a b. apply num_lt_asym.
  - apply Forall_fmap, Forall_forall. intros row _. simpl.
    apply (sort_by_Sorted (fun a b : A => num_lt (box_x (box a)) (box_x (box b)))).
    intros a b. apply num_lt_asym.
Qed.

End RowFacts.

(** ** Contour detection *)

Lemma indexRows_concat (lens : list nat) (start : nat) :
  concat (indexRows lens start) = seq start (foldr Nat.add 0%nat lens).
Proof.
  revert start. induction lens as [|n lens IH]; intros start; simpl; [done|].
  by rewrite IH, seq_app.
Qed.

Lemma length_flat_map_rows {A} (rows : list (Row A)) :
  length (flat_map row_boxes rows)
  = foldr Nat.add 0%nat (map (fun row => length (row_boxes row)) rows).
Proof.
  induction rows as [|row rows IH]; simpl; [done|].
  by rewrite length_app, IH.
Qed.

(** X8.  [detectBottles] returns only boxes of contours that pass its area
    and aspect tests, each contour at most once; they are, rearranged into
    rows, a selection in which no box has [iou >= nmsIou] with a box
    selected before it; and the [rows] it returns list the positions
    0, 1, 2, ... of the returned boxes row by row, none of them empty. *)
Theorem detected_boxes_are_filtered_contours
    (rects : list GridBox) (opts : DetectOpts) :
  let out := detectBottles rects opts in
  fst out ⊆+ map rectCand (filter (fun r => keepContour opts r = true) rects) /\
  (exists selected,
     fst out ≡ₚ selected /\
     apart cand_box (default 0.30%float (nmsIou opts)) selected) /\
  concat (snd out) = seq 0 (length (fst out)) /\
  Forall (fun idxs => idxs <> []) (snd out).
Proof.
  intros out. subst out. unfold detectBottles. cbv zeta.
  set (candidates := map rectCand _).
  set (thr := default 0.30%float (nmsIou opts)).
  destruct (suppress_from_nothing cand_box thr (sort_by area_gt candidates))
    as (Hsub & Hap & _).
  set (selected := suppress cand_box thr (sort_by area_gt candidates) []) in *.
  set (rowEps := Math_max _ _).
  destruct (clusterRowsByY_members cand_box selected rowEps) as [Hp Hn].
  simpl. split_and!.
  - rewrite Hp. etransitivity; [by apply sublist_submseteq|].
    by rewrite sort_by_Permutation.
  - by exists selected.
  - by rewrite indexRows_concat, length_flat_map_rows.
  - revert Hn. generalize (clusterRowsByY cand_box selected rowEps).
    intros rows Hn. generalize 0%nat.
    induction Hn as [|row rows Hrow _ IH]; intros start; simpl; constructor.
    + destruct (row_boxes row); [done|]. simpl. discriminate.
    + apply IH.
Qed.

(** ** Local search around a predicted cell *)

Section NearFacts.

Variables W H : Z.
Variable contourRects : GridBox -> float -> Z * Z * Z -> Z * Z * Z -> list GridBox.
Variable mouthRects : GridBox -> option (list GridBox).
Variable hypot : float -> float -> float.

Lemma searchWindow_inside cx cy wMed hMed :
  1 <= W -> 1 <= H -> insideFrame W H (searchWindow W H cx cy wMed hMed).
Proof.
  intros HW HH. unfold insideFrame, searchWindow. cbv zeta. simpl.
  match goal with
  | |- context [clampInt ?v 1 (W - clampInt ?u 0 (W - 1))] =>
      pose proof (clamped_span u v W HW)
  end.
  match goal with
  | |- context [clampInt ?v 1 (H - clampInt ?u 0 (H - 1))] =>
      pose proof (clamped_span u v H HH)
  end.
  simpl in *. lia.
Qed.

Lemma mouth_box_inside roi wMed hMed g :
  1 <= W -> 1 <= H ->
  inferBottleFromMouthOutline mouthRects roi W H wMed hMed = Some g ->
  insideFrame W H g.
Proof.
  intros HW HH. unfold inferBottleFromMouthOutline.
  destruct (mouthRects roi) as [rects|]; [|done].
  destruct (bestMouth wMed hMed rects) as [r|]; [|done].
  cbv zeta. intros [= <-]. unfold insideFrame. simpl.
  match goal with
  | |- context [clampInt ?v 1 (W - clampInt ?u 0 (W - 1))] =>
      pose proof (clamped_span u v W HW)
  end.
  match goal with
  | |- context [clampInt ?v 1 (H - clampInt ?u 0 (H - 1))] =>
      pose proof (clamped_span u v H HH)
  end.
  simpl in *. lia.
Qed.

(** What the scoring loop has found after the boxes [seen]. *)
Definition leastScore (roi : GridBox) (cx cy wMed hMed : float)
    (seen : list Cand) (r : option Box * float) : Prop :=
  (forall c, c ∈ seen ->
     PrimFloat.ltb (score hypot roi cx cy wMed hMed c) (snd r) = false) /\
  (fst r = None \/
   exists c, c ∈ seen /\ fst r = Some (shifted roi c) /\
             snd r = score hypot roi cx cy wMed hMed c).

Lemma bestScored_least roi cx cy wMed hMed boxes :
  leastScore roi cx cy wMed hMed boxes
    (bestScored hypot roi cx cy wMed hMed boxes).
Proof.
  unfold bestScored.
  induction boxes as [|b boxes IH] using rev_ind.
  - split; [by intros c Hc%not_elem_of_nil|by left].
  - rewrite fold_left_app. simpl.
    destruct (fold_left _ boxes _) as [best bs]. destruct IH as [Hlow Hbest].
    simpl in *.
    destruct (PrimFloat.ltb (score hypot roi cx cy wMed hMed b) bs) eqn:Hlt.
    + split; simpl.
      * intros c [Hc| ->%list_elem_of_singleton]%elem_of_app.
        -- eapply ltb_not_below; eauto.
        -- apply ltb_irrefl.
      * right. exists b. split; [set_solver|done].
    + split; simpl.
      * intros c [Hc| ->%list_elem_of_singleton]%elem_of_app; auto.
      * destruct Hbest as [->|(c & Hc & ? & ?)]; [by left|].
        right. exists c. split; [set_solver|done].
Qed.

(** X9.  When [detectBottleNear] returns a box, in a frame of at least one
    pixel: its search window lies inside the frame; if the contour pass
    found boxes in the window, the returned box is one of them, moved to
    frame coordinates, and none of them has a smaller score; if the contour
    pass found nothing, the returned box is the one placed under the bottle
    mouth, which lies inside the frame. *)
Theorem local_search_returns_the_best_scored_box
    (cx cy wMed hMed : float) (b : Box) :
  1 <= W -> 1 <= H ->
  detectBottleNear W H contourRects mouthRects hypot cx cy wMed hMed = Some b ->
  let roi := searchWindow W H cx cy wMed hMed in
  let found :=
    fst (detectBottles
           (contourRects roi (Z2F 1) (85, 5, 35) (140, 255, 255))
           {| minArea := Some (Math_max (Z2F 2000)
                (PrimFloat.mul (PrimFloat.mul wMed hMed) 0.20));
              aspectMin := Some (Z2F 2); aspectMax := Some 6.5%float;
              nmsIou := Some 0.30%float |}) in
  insideFrame W H roi /\
  ((found = [] /\ exists g, b = boxOfGrid g /\ insideFrame W H g) \/
   (exists c, c ∈ found /\ b = shifted roi c /\
      forall c', c' ∈ found ->
        PrimFloat.ltb (score hypot roi cx cy wMed hMed c')
                      (score hypot roi cx cy wMed hMed c) = false)).
Proof.
  intros HW HH Hret roi found. split; [by apply searchWindow_inside|].
  unfold detectBottleNear in Hret. cbv zeta in Hret.
  fold roi in Hret. fold found in Hret.
  destruct found as [|c0 rest] eqn:Hfound.
  - left. split; [done|].
    destruct (inferBottleFromMouthOutline mouthRects roi W H wMed hMed)
      as [g|] eqn:Hg; [|done].
    simpl in Hret. injection Hret as <-. exists g. split; [done|].
    by eapply mouth_box_inside.
  - right. rewrite <- Hfound in *. clear Hfound.
    destruct (bestScored_least roi cx cy wMed hMed found) as [Hlow Hbest].
    destruct Hbest as [Hnone|(c & Hc & Hb & Hs)]; [congruence|].
    exists c. split_and!; [done|congruence|].
    intros c' Hc'. rewrite <- Hs. by apply Hlow.
Qed.

End NearFacts.

Lemma local_search_returns_the_best_scored_box_witness :
  1 <= 1000 /\ 1 <= 2000 /\
  detectBottleNear 1000 2000 (fun _ _ _ _ => [mkGridBox 10 20 100 300])
    (fun _ => None) hypotSqrt (Z2F 500) (Z2F 500) (Z2F 100) (Z2F 300)
  = Some {| box_x := Z2F 415; box_y := Z2F 235; box_w := Z2F 100;
            box_h := Z2F 300 |} /\
  insideFrame 1000 2000
    (searchWindow 1000 2000 (Z2F 500) (Z2F 500) (Z2F 100) (Z2F 300)).
Proof.
  split; [lia|]. split; [lia|]. split; [vm_compute; reflexivity|].
  apply (local_search_returns_the_best_scored_box 1000 2000
           (fun _ _ _ _ => [mkGridBox 10 20 100 300]) (fun _ => None)
           hypotSqrt (Z2F 500) (Z2F 500) (Z2F 100) (Z2F 300)
           {| box_x := Z2F 415; box_y := Z2F 235; box_w := Z2F 100;
              box_h := Z2F 300 |});
    [lia|lia|vm_compute; reflexivity].
Defined.

(** ** The candidates handed to the grid normalisation *)

Lemma coarseRoi_inside W H : 1 <= W -> 1 <= H -> insideFrame W H (coarseRoi W H).
Proof.
  intros HW HH. unfold insideFrame, coarseRoi. cbv zeta. simpl.
  match goal with
  | |- context [clampInt ?v 1 (W - clampInt ?u 0 (W - 1))] =>
      pose proof (clamped_span u v W HW)
  end.
  match goal with
  | |- context [clampInt ?v 1 (H - clampInt ?u 0 (H - 1))] =>
      pose proof (clamped_span u v H HH)
  end.
  simpl in *. lia.
Qed.

(** X10.  In a frame of at least one pixel the coarse region of interest of
    [detectBottlesRobust] lies inside the frame; and when detection runs on
    a downscaled copy of it, every candidate handed to
    [enforceFixedBottleGrid] is an integer box inside the region, moved by
    the region's corner, so that it lies inside the frame. *)
Theorem robust_candidates_lie_inside_the_frame
    (W H : Z)
    (contourRects : GridBox -> float -> Z * Z * Z -> Z * Z * Z -> list GridBox) :
  1 <= W -> 1 <= H ->
  let roi := coarseRoi W H in
  let detScale := snd (maybeDownscaleForDetection (gw roi) (gh roi) 900) in
  insideFrame W H roi /\
  (PrimFloat.eqb detScale (Z2F 1) = false ->
   exists ints : list GridBox,
     gridCandidates W H contourRects
     = map (fun b => {| box_x := PrimFloat.add (Z2F (gx b)) (Z2F (gx roi));
                        box_y := PrimFloat.add (Z2F (gy b)) (Z2F (gy roi));
                        box_w := Z2F (gw b); box_h := Z2F (gh b) |}) ints /\
     Forall (fun b => insideFrame (gw roi) (gh roi) b /\
                      0 <= gx b + gx roi /\ 0 <= gy b + gy roi /\
                      gx b + gx roi + gw b <= W /\
                      gy b + gy roi + gh b <= H) ints).
Proof.
  intros HW HH roi detScale.
  pose proof (coarseRoi_inside W H HW HH) as Hroi. fold roi in Hroi.
  split; [done|]. intros Hscaled.
  unfold gridCandidates. fold roi. subst detScale.
  destruct (maybeDownscaleForDetection (gw roi) (gh roi) 900)
    as [[cols rows] detScale]. simpl in Hscaled. rewrite Hscaled.
  eexists. split; [by rewrite map_map|].
  destruct Hroi as (? & ? & ? & ? & ? & ?).
  eapply Forall_impl;
    [apply rescaled_boxes_inside; lia|].
  intros b (? & ? & ? & ? & ? & ?). unfold insideFrame. lia.
Qed.

Lemma robust_candidates_lie_inside_the_frame_witness :
  1 <= 1000 /\ 1 <= 2000 /\
  PrimFloat.eqb
    (snd (maybeDownscaleForDetection (gw (coarseRoi 1000 2000))
                                     (gh (coarseRoi 1000 2000)) 900))
    (Z2F 1) = false /\
  insideFrame 1000 2000 (coarseRoi 1000 2000).
Proof.
  split; [lia|]. split; [lia|]. split; [vm_compute; reflexivity|].
  apply (robust_candidates_lie_inside_the_frame 1000 2000
           (fun _ _ _ _ => [mkGridBox 10 20 100 300])); lia.
Defined.

(** ** Channel medians *)

(** The values [medianOfChannelMat] collects, row by row. *)
Definition channelValues (mat : Mat) (channelIndex : nat) : list Z :=
  flat_map (fun y =>
    map (fun x => default 0 (ucharPtr mat y x !! channelIndex))
        (seq 0 (mat_cols mat))) (seq 0 (mat_rows mat)).

Lemma Sorted_weaken {A} (R1 R2 : A -> A -> Prop) (l : list A) :
  (forall a b, R1 a b -> R2 a b) -> Sorted R1 l -> Sorted R2 l.
Proof.
  intros HR. induction 1 as [|x l _ IH Hhd]; constructor; [done|].
  destruct Hhd; constructor; auto.
Qed.

Lemma sort_by_ltb_sorted (l : list Z) : StronglySorted Z.le (sort_by Z.ltb l).
Proof.
  apply Sorted_StronglySorted; [intros x y z; lia|].
  eapply Sorted_weaken; [|apply (sort_by_Sorted Z.ltb); intros a b; lia].
  intros a b. unfold follows. lia.
Qed.

Lemma length_filter_app_ge (P : Z -> Prop) `{forall x, Decision (P x)}
    (l1 l2 : list Z) :
  Forall P l1 -> (length l1 <= length (filter P (l1 ++ l2)))%nat.
Proof.
  intros Hall. rewrite filter_app, length_app.
  assert (filter P l1 = l1) as ->; [|lia].
  induction Hall as [|x l Hx _ IH]; [done|].
  by rewrite filter_cons_True, IH.
Qed.

Lemma length_filter_app_ge_r (P : Z -> Prop) `{forall x, Decision (P x)}
    (l1 l2 : list Z) :
  Forall P l2 -> (length l2 <= length (filter P (l1 ++ l2)))%nat.
Proof.
  intros Hall. rewrite filter_app, length_app.
  assert (filter P l2 = l2) as ->; [|lia].
  induction Hall as [|x l Hx _ IH]; [done|].
  by rewrite filter_cons_True, IH.
Qed.

Lemma StronglySorted_lookup {A} (R : A -> A -> Prop) (l : list A) i j a b :
  StronglySorted R l -> (i < j)%nat ->
  l !! i = Some a -> l !! j = Some b -> R a b.
Proof.
  intros Hs Hij Hi Hj. rewrite <- (take_drop j l) in Hs.
  eapply StronglySorted_app_1_elem_of; [exact Hs| |].
  - apply list_elem_of_lookup. exists i. by rewrite lookup_take_lt.
  - apply list_elem_of_lookup. exists 0%nat.
    by rewrite lookup_drop, Nat.add_0_r.
Qed.

Lemma sorted_middle (l : list Z) (k : nat) (m : Z) :
  StronglySorted Z.le l -> l !! k = Some m ->
  (k + 1 <= length (filter (fun v => (v <= m)%Z) l))%nat /\
  (length l - k <= length (filter (fun v => (m <= v)%Z) l))%nat.
Proof.
  intros Hs Hk.
  assert (Hlt : (k < length l)%nat) by by eapply lookup_lt_Some.
  split.
  - rewrite <- (take_drop (S k) l).
    etransitivity; [|apply length_filter_app_ge].
    + rewrite length_take. lia.
    + apply Forall_forall. intros v (i & Hi)%list_elem_of_lookup_1.
      assert (i < S k)%nat.
      { apply lookup_lt_Some in Hi. rewrite length_take in Hi. lia. }
      rewrite lookup_take_lt in Hi by lia.
      destruct (decide (i = k)) as [->|]; [by simplify_eq|].
      eapply (StronglySorted_lookup Z.le l i k); eauto. lia.
  - rewrite <- (take_drop k l) at 2.
    etransitivity; [|apply length_filter_app_ge_r].
    + rewrite length_drop. lia.
    + apply Forall_forall. intros v (i & Hi)%list_elem_of_lookup_1.
      rewrite lookup_drop in Hi.
      destruct (decide (i = 0%nat)) as [->|].
      * rewrite Nat.add_0_r in Hi. by simplify_eq.
      * eapply (StronglySorted_lookup Z.le l k (k + i)); eauto. lia.
Qed.

(** X11.  [medianOfChannelMat] returns 0 for a matrix without pixels;
    otherwise it returns one of the channel values of the matrix, and that
    value is a median: more than half of the values are at most it and at
    least half of them are at least it. *)
Theorem channel_median_is_a_median (mat : Mat) (channelIndex : nat) :
  let vals := channelValues mat channelIndex in
  let m := medianOfChannelMat mat channelIndex in
  (vals = [] -> m = 0) /\
  (vals <> [] ->
   m ∈ vals /\
   (length vals < 2 * length (filter (fun v => (v <= m)%Z) vals))%nat /\
   (length vals <= 2 * length (filter (fun v => (m <= v)%Z) vals))%nat).
Proof.
  intros vals m. subst m. unfold medianOfChannelMat.
  fold (channelValues mat channelIndex). fold vals.
  set (sorted := sort_by Z.ltb vals).
  assert (Hperm : sorted ≡ₚ vals) by apply sort_by_Permutation.
  split.
  - intros Hnil. subst sorted. by rewrite Hnil.
  - intros Hne.
    assert (Hlen : length sorted = length vals) by by rewrite Hperm.
    assert (0 < length vals)%nat by (destruct vals; [done|simpl; lia]).
    assert (Hk : (length sorted / 2 < length sorted)%nat)
      by (apply Nat.div_lt; lia).
    destruct (lookup_lt_is_Some_2 sorted _ Hk) as [m Hm]. rewrite Hm. simpl.
    destruct (sorted_middle sorted _ m (sort_by_ltb_sorted vals) Hm)
      as [Hlow Hhigh].
    assert (Hf1 : length (filter (fun v => (v <= m)%Z) sorted)
                  = length (filter (fun v => (v <= m)%Z) vals))
      by by rewrite Hperm.
    assert (Hf2 : length (filter (fun v => (m <= v)%Z) sorted)
                  = length (filter (fun v => (m <= v)%Z) vals))
      by by rewrite Hperm.
    split_and!.
    + rewrite <- Hperm. by eapply list_elem_of_lookup_2.
    + rewrite <- Hf1, <- Hlen.
      pose proof (Nat.div_mod_eq (length sorted) 2).
      pose proof (Nat.mod_upper_bound (length sorted) 2). lia.
    + rewrite <- Hf2, <- Hlen.
      pose proof (Nat.div_mod_eq (length sorted) 2).
      pose proof (Nat.mod_upper_bound (length sorted) 2). lia.
Qed.

(** ** Slots, samples and rock piles *)

Section SamplingFacts.

Variable hsvRoi : float -> float -> float -> float -> Mat.
Variable bgrRoi : float -> float -> float -> float -> Mat.

(** The samples of the slots seen so far are numbered in order from
    [length before] on, and each filled slot carries its own sample. *)
Record Numbered (before : list Bgr) (seen : list Slot) (samples : list Bgr)
    : Prop := {
  nb_samples : samples = before ++ omap slot_bgr seen;
  nb_indices : omap slotSample seen
               = seq (length before) (length (omap slot_bgr seen));
  nb_slots : Forall (fun s => if filled s
                              then is_Some (sample_idx s) /\ is_Some (slot_bgr s)
                              else sample_idx s = None /\ slot_bgr s = None)
                    seen
}.

Lemma Numbered_nil before : Numbered before [] before.
Proof. split; simpl; [by rewrite app_nil_r|done|constructor]. Qed.

Lemma Numbered_filled before seen samples hsv c :
  Numbered before seen samples ->
  Numbered before
    (seen ++ [{| filled := true; sample_idx := Some (length samples);
                 slot_hsv := hsv; slot_bgr := Some c |}])
    (samples ++ [c]).
Proof.
  intros [Hs Hi Hf]. split.
  - rewrite omap_app. simpl. by rewrite Hs, <- app_assoc.
  - rewrite !omap_app, Hi, length_app. simpl.
    rewrite Nat.add_1_r, seq_S. do 2 f_equal. by rewrite Hs, length_app.
  - apply Forall_app. split; [done|]. constructor; [|done]. simpl. eauto.
Qed.

Lemma Numbered_empty before seen samples hsv :
  Numbered before seen samples ->
  Numbered before
    (seen ++ [{| filled := false; sample_idx := None; slot_hsv := hsv;
                 slot_bgr := None |}])
    samples.
Proof.
  intros [Hs Hi Hf]. split.
  - rewrite omap_app. simpl. by rewrite app_nil_r.
  - rewrite !omap_app. simpl. by rewrite !app_nil_r.
  - apply Forall_app. split; [done|]. by constructor.
Qed.

Lemma sampleSlot_Numbered bi rb ix iw iy ih slotH si before seen samples :
  Numbered before seen samples ->
  let '(slot, _, samples') :=
    sampleSlot hsvRoi bgrRoi bi rb ix iw iy ih slotH si samples in
  Numbered before (seen ++ [slot]) samples'.
Proof.
  intros Hn. unfold sampleSlot. cbv zeta.
  destruct (if match rb with Some r => _ | None => false end then false
            else isFilledSlot _) eqn:Hfill.
  - by apply Numbered_filled.
  - by apply Numbered_empty.
Qed.

Lemma sampleSlots_fold bi rb ix iw iy ih slotH before seen :
  forall sis slots0 points0 samples0,
  Numbered before (seen ++ slots0) samples0 ->
  let '(slots1, points1, samples1) :=
    fold_left
      (fun '(slots, points, samples) si =>
         let '(slot, point, samples') :=
           sampleSlot hsvRoi bgrRoi bi rb ix iw iy ih slotH si samples in
         (slots ++ [slot], points ++ [point], samples'))
      sis (slots0, points0, samples0) in
  Numbered before (seen ++ slots1) samples1 /\
  length slots1 = (length slots0 + length sis)%nat /\
  length points1 = (length points0 + length sis)%nat.
Proof.
  induction sis as [|si sis IH]; intros slots0 points0 samples0 H0; simpl.
  - split; [done|lia].
  - pose proof (sampleSlot_Numbered bi rb ix iw iy ih slotH si _ _ _ H0)
      as Hstep.
    destruct (sampleSlot _ _ _ _ _ _ _ _ _ si samples0)
      as [[slot point] samples'] eqn:Hslot.
    rewrite <- app_assoc in Hstep.
    specialize (IH (slots0 ++ [slot]) (points0 ++ [point]) samples' Hstep).
    destruct (fold_left _ sis _) as [[slots1 points1] samples1].
    destruct IH as (? & Hl1 & Hl2). rewrite !length_app in Hl1, Hl2.
    simpl in *. split; [done|lia].
Qed.

Lemma sampleBottle_Numbered capacity bi b rb before seen samples :
  Numbered before seen samples ->
  let '(bottle, points, samples') :=
    sampleBottle hsvRoi bgrRoi capacity bi b rb samples in
  Numbered before (seen ++ slots bottle) samples' /\
  bbox bottle = b /\ rock bottle = false /\
  length (slots bottle) = Z.to_nat capacity /\
  length points = Z.to_nat capacity.
Proof.
  intros Hn. unfold sampleBottle. cbv zeta.
  match goal with
  | |- context [fold_left ?f (seq 0 (Z.to_nat capacity)) ?a] =>
      match f with
      | context [sampleSlot hsvRoi bgrRoi bi rb ?ix ?iw ?iy ?ih ?sh] =>
          pose proof (sampleSlots_fold bi rb ix iw iy ih sh before seen
                        (seq 0 (Z.to_nat capacity)) [] [] samples) as Hfold
      end
  end.
  rewrite app_nil_r in Hfold. specialize (Hfold Hn).
  destruct (fold_left _ _ _) as [[slots1 points1] samples1].
  destruct Hfold as (? & Hl1 & Hl2). rewrite length_seq in Hl1, Hl2.
  simpl in *. done.
Qed.

Lemma sampleBottles_fold capacity (rockBoxes : option (list (option GridBox))) :
  forall ibs bottles0 points0 samples0,
  Numbered [] (flat_map slots bottles0) samples0 ->
  Forall (fun b => length (slots b) = Z.to_nat capacity /\ rock b = false)
         bottles0 ->
  let '(bottles1, points1, samples1) :=
    fold_left
      (fun '(bottles, points, samples) '(bi, b) =>
         let rb := rockBoxes ≫= fun rbs => mjoin (rbs !! bi) in
         let '(bottle, points', samples') :=
           sampleBottle hsvRoi bgrRoi capacity bi b rb samples in
         (bottles ++ [bottle], points ++ points', samples'))
      ibs (bottles0, points0, samples0) in
  Numbered [] (flat_map slots bottles1) samples1 /\
  map bbox bottles1 = map bbox bottles0 ++ map snd ibs /\
  Forall (fun b => length (slots b) = Z.to_nat capacity /\ rock b = false)
         bottles1 /\
  length points1 = (length points0 + length ibs * Z.to_nat capacity)%nat.
Proof.
  induction ibs as [|[bi b] ibs IH];
    intros bottles0 points0 samples0 H0 Hcap; simpl.
  - rewrite app_nil_r. split_and!; auto.
  - pose proof (sampleBottle_Numbered capacity bi b
      (rockBoxes ≫= fun rbs => mjoin (rbs !! bi)) _ _ _ H0) as Hb.
    destruct (sampleBottle _ _ capacity bi b _ samples0)
      as [[bottle points'] samples'].
    destruct Hb as (Hn & Hbb & Hrk & Hls & Hlp).
    specialize (IH (bottles0 ++ [bottle]) (points0 ++ points') samples').
    rewrite flat_map_app in IH. simpl in IH. rewrite app_nil_r in IH.
    specialize (IH Hn).
    destruct (fold_left _ ibs _) as [[bottles1 points1] samples1].
    destruct IH as (? & Hbx & ? & Hlen).
    { apply Forall_app. split; [done|]. by constructor. }
    rewrite map_app in Hbx. simpl in Hbx. rewrite <- app_assoc in Hbx.
    simpl in Hbx. rewrite Hbb in Hbx.
    rewrite length_app in Hlen. split_and!; auto. lia.
Qed.

Lemma map_snd_imap_pair {A} (l : list A) : map snd (imap pair l) = l.
Proof.
  assert (forall (f : nat -> nat) (l : list A),
            map snd (imap (fun i b => (f i, b)) l) = l) as Hgen.
  { clear l. intros f l. revert f.
    induction l as [|b l IH]; intros f; simpl; [done|].
    f_equal. apply (IH (f ∘ S)). }
  apply (Hgen (fun i => i)).
Qed.

Lemma sampleBottleSlots_spec
    (boxes : list GridBox) (capacity : Z)
    (rockBoxes : option (list (option GridBox))) :
  let out := sampleBottleSlots hsvRoi bgrRoi boxes capacity rockBoxes in
  let bottles := fst (fst out) in
  let samples := snd (fst out) in
  let all := flat_map slots bottles in
  map bbox bottles = boxes /\
  Forall (fun b => length (slots b) = Z.to_nat capacity /\ rock b = false)
         bottles /\
  length (snd out) = (length boxes * Z.to_nat capacity)%nat /\
  samples = omap slot_bgr all /\
  omap slotSample all = seq 0 (length samples) /\
  Forall (fun s => if filled s
                   then is_Some (sample_idx s) /\ is_Some (slot_bgr s)
                   else sample_idx s = None /\ slot_bgr s = None) all.
Proof.
  intros out bottles samples all. subst all samples bottles out.
  unfold sampleBottleSlots.
  pose proof (sampleBottles_fold capacity rockBoxes (imap pair boxes) [] [] []
                (Numbered_nil []) ltac:(constructor)) as Hfold.
  destruct (fold_left _ _ _) as [[bottles1 points1] samples1].
  destruct Hfold as ([Hs Hi Hf] & Hbx & Hcap & Hlen). simpl in *.
  rewrite length_imap in Hlen. rewrite map_snd_imap_pair in Hbx.
  split_and!; auto. by rewrite Hi, Hs.
Qed.

Lemma omap_aligned {A B} (f : A -> option nat) (g : A -> option B)
    (l : list A) (k n : nat) :
  Forall (fun s => is_Some (f s) <-> is_Some (g s)) l ->
  omap f l = seq k n ->
  forall s i, s ∈ l -> f s = Some i ->
    (k <= i)%nat /\ omap g l !! (i - k)%nat = g s.
Proof.
  intros Hl. revert k n. induction Hl as [|a l Ha _ IH]; intros k n Hseq s i Hs Hf.
  { by apply elem_of_nil in Hs. }
  cbn [omap list_omap] in *. destruct (f a) as [j|] eqn:Hfa.
  - destruct (g a) as [b|] eqn:Hga; [|by destruct (proj1 Ha) as [? [=]]; eauto].
    destruct n as [|n]; [done|]. simpl in Hseq.
    injection Hseq as -> Hseq.
    apply elem_of_cons in Hs as [->|Hs].
    + assert (i = k) as -> by congruence.
      split; [lia|]. by rewrite Nat.sub_diag, Hga.
    + destruct (IH _ _ Hseq s i Hs Hf) as [Hle Hlk]. split; [lia|].
      replace (i - k)%nat with (S (i - S k)) by lia. exact Hlk.
  - destruct (g a) as [b|] eqn:Hga; [by destruct (proj2 Ha) as [? [=]]; eauto|].
    apply elem_of_cons in Hs as [->|Hs]; [congruence|].
    exact (IH _ _ Hseq s i Hs Hf).
Qed.

(** X12.  [sampleBottleSlots] returns one bottle per box, in order, each
    with [capacity] slots and [rock] unset, and one sample point per slot;
    the samples are exactly the colours of the filled slots in bottle and
    slot order, the filled slots carry the sample indices 0, 1, 2, ... in
    that order, and a slot that is not filled carries neither a sample
    index nor a colour.  So the sample index of a filled slot points at that
    slot's own colour in the sample list. *)
Theorem sampling_numbers_the_filled_slots
    (boxes : list GridBox) (capacity : Z)
    (rockBoxes : option (list (option GridBox))) :
  let out := sampleBottleSlots hsvRoi bgrRoi boxes capacity rockBoxes in
  let bottles := fst (fst out) in
  let samples := snd (fst out) in
  let all := flat_map slots bottles in
  map bbox bottles = boxes /\
  Forall (fun b => length (slots b) = Z.to_nat capacity /\ rock b = false)
         bottles /\
  length (snd out) = (length boxes * Z.to_nat capacity)%nat /\
  samples = omap slot_bgr all /\
  omap slotSample all = seq 0 (length samples) /\
  Forall (fun s => if filled s
                   then is_Some (sample_idx s) /\ is_Some (slot_bgr s)
                   else sample_idx s = None /\ slot_bgr s = None) all /\
  (forall s i, s ∈ all -> slotSample s = Some i -> samples !! i = slot_bgr s).
Proof.
  intros out bottles samples all.
  destruct (sampleBottleSlots_spec boxes capacity rockBoxes)
    as (Hbox & Hcap & Hpts & Hsam & Hidx & Hall).
  fold out in Hbox, Hcap, Hpts, Hsam, Hidx, Hall.
  fold bottles in Hbox, Hcap, Hsam, Hidx, Hall.
  fold samples in Hsam, Hidx. fold all in Hsam, Hidx, Hall.
  split_and!; try done.
  intros s i Hs Hi.
  destruct (omap_aligned slotSample slot_bgr all 0 (length samples)) with s i
    as [_ Hlk]; try done.
  - eapply Forall_impl; [exact Hall|]. intros x Hx. unfold slotSample.
    simpl in Hx. destruct (filled x).
    + destruct Hx as [H1 H2]. by split.
    + destruct Hx as [_ ->]. split; by intros [].
  - rewrite Nat.sub_0_r in Hlk. by rewrite Hsam.
Qed.

End SamplingFacts.

Lemma detectRock_box W H rockMaskOf b g :
  1 <= W -> 1 <= H ->
  snd (detectRock W H rockMaskOf b) = Some g ->
  fst (detectRock W H rockMaskOf b) = true /\ insideFrame W H g.
Proof.
  intros HW HH. unfold detectRock. cbv zeta.
  destruct (_ <=? _); [done|]. simpl.
  destruct (PrimFloat.leb 0.06 _); [|done].
  destruct (largestContour _) as [best|]; [|done].
  intros [= <-]. split; [done|]. unfold insideFrame. simpl.
  match goal with
  | |- context [clampInt ?v 1 (W - clampInt ?u 0 (W - 1))] =>
      pose proof (clamped_span u v W HW)
  end.
  match goal with
  | |- context [clampInt ?v 1 (H - clampInt ?u 0 (H - 1))] =>
      pose proof (clamped_span u v H HH)
  end.
  simpl in *. lia.
Qed.

(** X13.  [detectRockBottles] returns one flag and one rock-box entry per
    bottle box; in a frame of at least one pixel a rock box is reported only
    for a bottle that is flagged as rock, and it lies inside the frame. *)
Theorem rock_boxes_belong_to_flagged_bottles
    (W H : Z) (rockMaskOf : Z -> Z -> Z -> Z -> RockMask)
    (boxes : list GridBox) :
  1 <= W -> 1 <= H ->
  let out := detectRockBottles W H rockMaskOf boxes in
  length (fst out) = length boxes /\ length (snd out) = length boxes /\
  forall i g, snd out !! i = Some (Some g) ->
    fst out !! i = Some true /\ insideFrame W H g.
Proof.
  intros HW HH out. subst out. unfold detectRockBottles. simpl.
  rewrite !length_map. split_and!; [done|done|].
  intros i g. rewrite !list_lookup_fmap.
  destruct (boxes !! i) as [b|]; [|done]. simpl. intros [= Hg].
  destruct (detectRock_box W H rockMaskOf b g HW HH Hg) as [-> ?]. done.
Qed.

Lemma rock_boxes_belong_to_flagged_bottles_witness :
  1 <= 1000 /\ 1 <= 2000 /\
  detectRockBottles 1000 2000
    (fun x y w h => mkRockMask h w (w * h) [(Z2F 50, mkGridBox 5 5 20 10)])
    [mkGridBox 100 100 110 640]
  = ([true], [Some (mkGridBox 103 551 24 14)]) /\
  length (fst (detectRockBottles 1000 2000
    (fun x y w h => mkRockMask h w (w * h) [(Z2F 50, mkGridBox 5 5 20 10)])
    [mkGridBox 100 100 110 640])) = 1%nat.
Proof.
  split; [lia|]. split; [lia|]. split; [vm_compute; reflexivity|].
  apply (rock_boxes_belong_to_flagged_bottles 1000 2000
           (fun x y w h => mkRockMask h w (w * h)
                             [(Z2F 50, mkGridBox 5 5 20 10)])
           [mkGridBox 100 100 110 640]); lia.
Defined.

(** ** What [buildResult] puts into its result *)

Lemma mapE_inr {A B} (f : A -> string + B) (l : list A) (bs : list B) :
  mapE f l = inr bs -> Forall2 (fun a b => f a = inr b) l bs.
Proof.
  revert bs. induction l as [|a l IH]; intros bs; simpl.
  - intros [= <-]. constructor.
  - destruct (f a) as [e|b] eqn:Ha; [done|].
    destruct (mapE f l) as [e|bs'] eqn:Hl; [done|].
    intros [= <-]. constructor; auto.
Qed.

Lemma Forall2_elem_of_r {A B} (P : A -> B -> Prop) (l : list A) (k : list B)
    (y : B) :
  Forall2 P l k -> y ∈ k -> exists x, x ∈ l /\ P x y.
Proof.
  intros HF (i & Hi)%list_elem_of_lookup_1.
  destruct (Forall2_lookup_r _ _ _ _ _ HF Hi) as (x & Hx & HP).
  exists x. split; [by eapply list_elem_of_lookup_2|done].
Qed.

Lemma mapE_total {A B} (f : A -> string + B) (l : list A) :
  Forall (fun a => exists b, f a = inr b) l -> exists bs, mapE f l = inr bs.
Proof.
  induction 1 as [|a l [b Hb] _ [bs Hbs]]; simpl; [by eexists|].
  rewrite Hb, Hbs. by eexists.
Qed.

(** The record of a key carries the key as its [id]. *)
Definition KeyIsId (info : gmap Z Cluster) : Prop :=
  forall k c, info !! k = Some c -> id c = k.

Lemma Reconcile_KeyIsId cap maxDist expected st st' :
  Reconcile cap maxDist expected st st' ->
  KeyIsId (ms_clusterInfo st) -> KeyIsId (ms_clusterInfo st').
Proof.
  induction 1 as [| |st lo hi a b c st' _ (Hlt & Ha & Hb & _) _ Hp _ IH];
    [done|done|].
  intros Hk. apply IH. simpl. intros k c'.
  destruct (decide (k = hi)) as [->|]; [by rewrite lookup_delete_eq|].
  rewrite lookup_delete_ne by done.
  destruct (decide (k = lo)) as [->|].
  - rewrite lookup_insert_eq. intros [= <-]. destruct Hp as (-> & _).
    by apply Hk.
  - rewrite lookup_insert_ne by done. apply Hk.
Qed.

Section ResultFacts.

Variable cvtColor_BGR2Lab : Bgr -> Lab.

(** The labels and clusters [buildResult] works with for the samples
    [samplesBgr]. *)
Definition reconciled (samplesBgr : list Bgr) (cap : Z) (eps : float)
    : MergeResult :=
  let out := clusterColorsDbscan cvtColor_BGR2Lab samplesBgr eps in
  mergeClustersToExpectedCount (fst out) (snd out) (Some cap) (Some eps).

Lemma reconciled_facts samplesBgr cap eps :
  let m := reconciled samplesBgr cap eps in
  length (labels m) = length samplesBgr /\
  (forall l, l ∈ labels m -> is_Some (clusterInfo m !! l)) /\
  totalCount (clusterInfo m) = Z.of_nat (length samplesBgr) /\
  KeyIsId (clusterInfo m).
Proof.
  intros m. subst m. unfold reconciled.
  destruct (cluster_facts cvtColor_BGR2Lab samplesBgr eps)
    as (Hlen & Hkeys & _ & Hrec & Htot).
  set (out := clusterColorsDbscan cvtColor_BGR2Lab samplesBgr eps) in *.
  destruct (merge_SafeMerges (fst out) (snd out) (Some cap) (Some eps))
    as [c Hsafe].
  destruct (merge_Reconcile (fst out) (snd out) (Some cap) (Some eps))
    as (c' & md & ex & Hr).
  pose proof (SafeMerges_length _ _ _ Hsafe) as Hl.
  apply Reconcile_KeyIsId in Hr.
  2: { simpl. intros k cl Hk. rewrite (Hrec k cl Hk). unfold clusterOf.
       by destruct (mean3 _ _) as [[??]?]. }
  apply SafeMerges_Conserved in Hsafe as [Hk Ht].
  - simpl in *. split_and!.
    + by rewrite Hl.
    + done.
    + rewrite Ht. f_equal. by rewrite Hl.
    + done.
  - split; simpl; [|by rewrite Htot, Hlen].
    intros l (i & Hi)%list_elem_of_lookup_1.
    assert (Hil : (i < length samplesBgr)%nat)
      by (rewrite <- Hlen; by eapply lookup_lt_Some).
    destruct (Hkeys i Hil) as (l' & Hl' & Hsome). by simplify_eq.
Qed.

Lemma slotColor_inr lbls cinfo slot c :
  slotColor lbls cinfo slot = inr c ->
  match slot with
  | None => c = None
  | Some idx => exists cid, c = Some cid /\ lbls !! idx = Some cid /\
                            is_Some (cinfo !! cid)
  end.
Proof.
  unfold slotColor. destruct slot as [idx|]; [|by intros [= <-]].
  destruct (lbls !! idx) as [cid|]; [|done].
  destruct (cinfo !! cid) eqn:Hc; [|done].
  intros [= <-]. exists cid. rewrite Hc. eauto.
Qed.

Variable candidateBoxes : list Box.
Variable detectBottleNear : float -> float -> float -> float -> option Box.
Variable Math_hypot : float -> float -> float.
Variables W H : Z.
Variable detectRockBottles : list GridBox -> list bool.
Variable sampleBottleSlots :
  list GridBox -> Z -> list (list (option nat)) * list Bgr.

Let boxes : list GridBox :=
  detectBottlesRobust candidateBoxes detectBottleNear Math_hypot W H.

(** The parts of a result, read off [buildResult]. *)
Lemma buildResult_inr cap eps r :
  buildResult cvtColor_BGR2Lab candidateBoxes detectBottleNear Math_hypot W H
    detectRockBottles sampleBottleSlots cap eps = inr r ->
  let bottles := fst (sampleBottleSlots boxes cap) in
  let m := reconciled (snd (sampleBottleSlots boxes cap)) cap eps in
  Forall2 (Forall2 (fun slot c =>
             slotColor (labels m) (clusterInfo m) slot = inr c))
          bottles (bottle_contents_ids (result r)) /\
  capacity (result r) = cap /\
  rock_bottles (result r)
  = omap (fun '(i, f) => if f : bool then Some i else None)
         (imap pair (detectRockBottles boxes)) /\
  add_bottles (result r) = None /\
  num_bottles r = length bottles /\
  num_colors r = length (sortedIds (clusterInfo m)) /\
  colors r = omap (fun cid => clusterInfo m !! cid) (sortedIds (clusterInfo m)).
Proof.
  unfold buildResult. fold boxes.
  destruct (Nat.eqb (length boxes) 0); [done|].
  destruct (sampleBottleSlots boxes cap) as [bottles samplesBgr] eqn:Hs.
  unfold reconciled. simpl.
  destruct (clusterColorsDbscan cvtColor_BGR2Lab samplesBgr eps)
    as [rawLabels clusterInfo0] eqn:Hc. simpl.
  destruct (mapE _ bottles) as [e|contents] eqn:Hm; [done|].
  intros [= <-]. simpl. split_and!; try done.
  apply mapE_inr in Hm. eapply Forall2_impl; [exact Hm|]. simpl.
  intros slots cs Hcs. by apply mapE_inr.
Qed.

Lemma boxes_six : length boxes = 6%nat.
Proof.
  unfold boxes, detectBottlesRobust, enforceFixedBottleGrid.
  by rewrite length_map, length_imap, greedyAssign_length.
Qed.

(** [buildResult] fails only in the attaching loop. *)
Lemma buildResult_total cap eps :
  let bottles := fst (sampleBottleSlots boxes cap) in
  let m := reconciled (snd (sampleBottleSlots boxes cap)) cap eps in
  Forall (Forall (fun slot =>
            exists c, slotColor (labels m) (clusterInfo m) slot = inr c))
         bottles ->
  exists r,
    buildResult cvtColor_BGR2Lab candidateBoxes detectBottleNear Math_hypot W H
      detectRockBottles sampleBottleSlots cap eps = inr r.
Proof.
  intros bottles m Hall. unfold buildResult. fold boxes.
  rewrite boxes_six. simpl. subst bottles m. unfold reconciled in Hall.
  destruct (sampleBottleSlots boxes cap) as [bottles samplesBgr] eqn:Hs.
  simpl in Hall.
  destruct (clusterColorsDbscan cvtColor_BGR2Lab samplesBgr eps)
    as [rawLabels clusterInfo0] eqn:Hc. simpl in Hall.
  destruct (mapE_total
    (mapE (slotColor
       (labels (mergeClustersToExpectedCount rawLabels clusterInfo0
                  (Some cap) (Some eps)))
       (clusterInfo (mergeClustersToExpectedCount rawLabels clusterInfo0
                       (Some cap) (Some eps))))) bottles) as [contents Hm].
  { eapply Forall_impl; [exact Hall|]. simpl. intros slots Hslots.
    by apply mapE_total. }
  rewrite Hm. by eexists.
Qed.

End ResultFacts.

(** The indices [f.map((f, i) => f ? i : null).filter(...)] leaves. *)
Lemma flagged_indices (flags : list bool) :
  let idxs := omap (fun '(i, f) => if f : bool then Some i else None)
                   (imap pair flags) in
  (forall i, i ∈ idxs <-> flags !! i = Some true) /\
  StronglySorted lt idxs.
Proof.
  assert (Hgen : forall (l : list bool) (n : nat),
    let idxs := omap (fun '(i, f) => if f : bool then Some i else None)
                     (imap (fun i x => ((n + i)%nat, x)) l) in
    (forall i, i ∈ idxs <-> (n <= i)%nat /\ l !! (i - n)%nat = Some true) /\
    StronglySorted lt idxs).
  { induction l as [|f l IH]; intros n; simpl.
    - split; [|constructor]. intros i. split; [by intros ?%not_elem_of_nil|].
      by intros [_ ?].
    - specialize (IH (S n)).
      rewrite (imap_ext _ (fun i x => ((S n + i)%nat, x)))
        by (intros; simpl; f_equal; lia).
      destruct IH as [Hin Hs]. rewrite Nat.add_0_r.
      assert (Hrest : forall i,
        i ∈ omap (fun '(i, f) => if f : bool then Some i else None)
                 (imap (fun i x => ((S n + i)%nat, x)) l)
        <-> (n < i)%nat /\ (f :: l) !! (i - n)%nat = Some true).
      { intros i. rewrite Hin. split.
        - intros [Hle Hl]. split; [lia|].
          replace (i - n)%nat with (S (i - S n)) by lia. done.
        - intros [Hlt Hl]. split; [lia|].
          replace (i - n)%nat with (S (i - S n)) in Hl by lia. done. }
      destruct f; simpl.
      + split.
        * intros i. rewrite elem_of_cons, Hrest. split.
          -- intros [->|[? ?]]; [by rewrite Nat.sub_diag|split; [lia|done]].
          -- intros [Hle Hl]. destruct (decide (i = n)) as [->|]; [by left|].
             right. split; [lia|done].
        * constructor; [done|]. apply Forall_forall. intros i Hi.
          apply Hrest in Hi. lia.
      + split; [|done].
        intros i. rewrite Hrest. split; [intros [? ?]; split; [lia|done]|].
        intros [Hle Hl]. destruct (decide (i = n)) as [->|].
        * by rewrite Nat.sub_diag in Hl.
        * split; [lia|done]. }
  intros idxs. destruct (Hgen flags 0%nat) as [Hin Hs]. split; [|done].
  intros i. subst idxs. rewrite (Hin i), Nat.sub_0_r. split; [by intros []|].
  intros ?. split; [lia|done].
Qed.

Lemma omap_lookup_keys (info : gmap Z Cluster) :
  omap (fun k => info !! k) (map fst (map_to_list info))
  = map snd (map_to_list info).
Proof.
  assert (Hall : Forall (fun kc => info !! fst kc = Some (snd kc))
                        (map_to_list info)).
  { apply Forall_forall. intros [k c] Hin. by apply elem_of_map_to_list. }
  induction Hall as [|kc l Hkc _ IH]; simpl; [done|].
  rewrite Hkc. simpl. f_equal. exact IH.
Qed.

Lemma palette_of_sortedIds (info : gmap Z Cluster) :
  let colors := omap (fun k => info !! k) (sortedIds info) in
  KeyIsId info ->
  map id colors = sortedIds info /\
  foldr Z.add 0 (map count colors) = totalCount info.
Proof.
  intros colors Hk. split.
  - subst colors.
    assert (Hall : Forall (fun k => is_Some (info !! k)) (sortedIds info)).
    { apply Forall_forall. intros k. apply sortedIds_elem. }
    induction Hall as [|k l [c Hc] _ IH]; simpl; [done|].
    rewrite Hc. simpl. rewrite (Hk k c Hc). f_equal. exact IH.
  - unfold totalCount. apply sum_Permutation.
    rewrite <- (map_map snd count), <- omap_lookup_keys.
    subst colors. unfold sortedIds. apply fmap_Permutation.
    apply omap_Permutation, merge_sort_Permutation.
Qed.

(** X14.  Whenever [buildResult] returns a result: the capacity is the one
    passed in; the palette [colors] has [num_colors] entries, one per
    cluster, with distinct ids in ascending order; every colour id that
    occurs in [bottle_contents_ids] is the id of a palette entry; and
    [rock_bottles] lists, in ascending order, exactly the indices of the
    bottles that the rock test flagged. *)
Theorem result_palette_covers_the_contents
    (cvtColor_BGR2Lab : Bgr -> Lab) (candidateBoxes : list Box)
    (detectBottleNear : float -> float -> float -> float -> option Box)
    (hypot : float -> float -> float) (W H : Z)
    (detectRockBottles : list GridBox -> list bool)
    (sampleBottleSlots : list GridBox -> Z -> list (list (option nat)) * list Bgr)
    (cap : Z) (eps : float) (r : WorkerResult) :
  buildResult cvtColor_BGR2Lab candidateBoxes detectBottleNear hypot W H
    detectRockBottles sampleBottleSlots cap eps = inr r ->
  let boxes := detectBottlesRobust candidateBoxes detectBottleNear hypot W H in
  capacity (result r) = cap /\
  num_colors r = length (colors r) /\
  StronglySorted Z.le (map id (colors r)) /\
  NoDup (map id (colors r)) /\
  (forall row cid, row ∈ bottle_contents_ids (result r) -> Some cid ∈ row ->
     exists cl, cl ∈ colors r /\ id cl = cid) /\
  (forall i, i ∈ rock_bottles (result r)
             <-> detectRockBottles boxes !! i = Some true) /\
  StronglySorted lt (rock_bottles (result r)).
Proof.
  intros Hr boxes.
  apply buildResult_inr in Hr
    as (Hcont & Hcap & Hrock & _ & _ & Hnum & Hcol).
  fold boxes in Hcont, Hrock, Hnum, Hcol.
  set (m := reconciled cvtColor_BGR2Lab (snd (sampleBottleSlots boxes cap))
              cap eps) in *.
  destruct (reconciled_facts cvtColor_BGR2Lab
              (snd (sampleBottleSlots boxes cap)) cap eps)
    as (_ & _ & _ & Hkey). fold m in Hkey.
  destruct (palette_of_sortedIds (clusterInfo m) Hkey) as [Hids _].
  rewrite <- Hcol in Hids.
  destruct (flagged_indices (detectRockBottles boxes)) as [Hin Hs].
  rewrite <- Hrock in Hin, Hs.
  split_and!; auto.
  - rewrite Hnum, <- Hids. by rewrite length_map.
  - rewrite Hids. apply sortedIds_sorted.
  - rewrite Hids. apply sortedIds_NoDup.
  - intros row cid Hrow Hcid.
    apply (Forall2_elem_of_r _ _ _ _ Hcont) in Hrow as (slots & _ & Hslots).
    apply (Forall2_elem_of_r _ _ _ _ Hslots) in Hcid as (slot & _ & Hslot).
    apply slotColor_inr in Hslot. destruct slot as [idx|]; [|done].
    destruct Hslot as (cid' & [= <-] & _ & Hsome).
    apply sortedIds_elem in Hsome. rewrite <- Hids in Hsome.
    apply list_elem_of_fmap in Hsome as (cl & -> & Hcl). eauto.
Qed.

Lemma result_palette_covers_the_contents_witness :
  exists r,
    buildResult (fun c => c) [] (fun _ _ _ _ => None) hypotSqrt 1000 2000
      (fun boxes => map (fun _ => false) boxes)
      (fun boxes cap => (map (fun _ => replicate (Z.to_nat cap) None) boxes, []))
      4 (Z2F 16) = inr r /\
    capacity (result r) = 4 /\ num_colors r = length (colors r).
Proof.
  destruct (buildResult (fun c => c) [] (fun _ _ _ _ => None) hypotSqrt
              1000 2000 (fun boxes => map (fun _ => false) boxes)
              (fun boxes cap =>
                 (map (fun _ => replicate (Z.to_nat cap) None) boxes, []))
              4 (Z2F 16)) as [e|r] eqn:E;
    [vm_compute in E; discriminate|].
  exists r. split; [reflexivity|].
  pose proof (result_palette_covers_the_contents _ _ _ _ _ _ _ _ _ _ _ E)
    as (H1 & H2 & _).
  exact (conj H1 H2).
Defined.

(** ** The analysis with the worker's own detectors *)

Lemma Forall2_filter_length {A B} (R : A -> B -> Prop)
    (P : A -> Prop) (Q : B -> Prop)
    `{forall a, Decision (P a)} `{forall b, Decision (Q b)} l k :
  Forall2 R l k -> (forall a b, R a b -> (P a <-> Q b)) ->
  length (filter P l) = length (filter Q k).
Proof.
  intros HF HR. induction HF as [|a b l k Hab _ IH]; [done|].
  rewrite !filter_cons.
  destruct (decide (P a)) as [Hp|Hp], (decide (Q b)) as [Hq|Hq]; simpl;
    try (by rewrite IH); exfalso; apply (HR a b Hab) in Hp || apply Hp;
    tauto || (apply (HR a b Hab); tauto).
Qed.

Lemma Forall2_concat_rows {A B} (R : A -> B -> Prop) ls ks :
  Forall2 (Forall2 R) ls ks -> Forall2 R (concat ls) (concat ks).
Proof.
  induction 1 as [|l k ls ks Hlk _ IH]; simpl; [constructor|].
  by apply Forall2_app.
Qed.

Lemma length_filter_is_Some {A B} (f : A -> option B) (l : list A) :
  length (filter is_Some (map f l)) = length (omap f l).
Proof.
  induction l as [|a l IH]; [done|]. cbn [map omap list_omap].
  rewrite filter_cons. destruct (f a) eqn:Ha.
  - rewrite decide_True by eauto. simpl. by rewrite IH.
  - rewrite decide_False by (by intros []). exact IH.
Qed.

Lemma concat_slot_samples (bottles : list Bottle) :
  concat (map (fun b => map slotSample (slots b)) bottles)
  = map slotSample (flat_map slots bottles).
Proof.
  induction bottles as [|b bottles IH]; simpl; [done|].
  by rewrite map_app, IH.
Qed.

(** X15.  With the worker's own detection, rock test and sampling,
    [buildResult] raises none of its errors, whatever OpenCV reports: six
    boxes are always found, so "No bottles detected" cannot occur, and every
    filled slot has a sample with a label whose cluster record exists.  The
    result has 6 bottles of [capacity] slots each, and the member counts of
    the palette add up to the number of filled slots in
    [bottle_contents_ids]. *)
Theorem analysis_raises_no_error_of_its_own
    (cvtColor_BGR2Lab : Bgr -> Lab) (W H : Z)
    (contourRects : GridBox -> float -> Z * Z * Z -> Z * Z * Z -> list GridBox)
    (mouthRects : GridBox -> option (list GridBox))
    (hypot : float -> float -> float)
    (rockMaskOf : Z -> Z -> Z -> Z -> RockMask)
    (hsvRoi bgrRoi : float -> float -> float -> float -> Mat)
    (cap : Z) (eps : float) :
  exists r,
    buildResultOnFrame cvtColor_BGR2Lab W H contourRects mouthRects hypot
      rockMaskOf hsvRoi bgrRoi cap eps = inr r /\
    num_bottles r = 6%nat /\
    length (bottle_contents_ids (result r)) = 6%nat /\
    Forall (fun row => length row = Z.to_nat cap)
           (bottle_contents_ids (result r)) /\
    foldr Z.add 0 (map count (colors r))
    = Z.of_nat (length (filter is_Some
                          (concat (bottle_contents_ids (result r))))).
Proof.
  unfold buildResultOnFrame.
  set (cands := gridCandidates W H contourRects).
  set (dbn := detectBottleNear W H contourRects mouthRects hypot).
  set (sampler := sampledSlots W H rockMaskOf hsvRoi bgrRoi).
  set (boxes := detectBottlesRobust cands dbn hypot W H).
  assert (Hsix : length boxes = 6%nat) by apply boxes_six.
  pose proof (sampleBottleSlots_spec hsvRoi bgrRoi boxes cap
    (Some (snd (detectRockBottles W H rockMaskOf boxes))))
    as (Hbbox & Hslots & _ & Hsamples & Hidx & _).
  assert (Hsampler : sampler boxes cap
    = (map (fun b => map slotSample (slots b))
           (fst (fst (sampleBottleSlots hsvRoi bgrRoi boxes cap
              (Some (snd (detectRockBottles W H rockMaskOf boxes)))))),
       snd (fst (sampleBottleSlots hsvRoi bgrRoi boxes cap
              (Some (snd (detectRockBottles W H rockMaskOf boxes))))))).
  { subst sampler. unfold sampledSlots.
    by destruct (sampleBottleSlots _ _ _ _ _) as [[??]?]. }
  destruct (sampleBottleSlots hsvRoi bgrRoi boxes cap _)
    as [[bottles0 samples] points]. simpl in *.
  destruct (reconciled_facts cvtColor_BGR2Lab samples cap eps)
    as (Hlen & Hkeys & Htot & Hkey).
  set (m := reconciled cvtColor_BGR2Lab samples cap eps) in *.
  destruct (buildResult_total cvtColor_BGR2Lab cands dbn hypot W H
              (rockFlagsOf W H rockMaskOf) sampler cap eps) as [r Hr].
  { fold boxes. rewrite Hsampler. simpl. fold m.
    apply Forall_fmap, Forall_forall. intros b Hb. simpl.
    apply Forall_fmap, Forall_forall. intros s Hs. simpl.
    destruct (slotSample s) as [idx|] eqn:Hidxs; [|by eexists].
    assert (Hin : idx ∈ omap slotSample (flat_map slots bottles0)).
    { apply list_elem_of_omap. exists s. split; [|done].
      apply elem_of_flat_map. eauto. }
    rewrite Hidx in Hin. apply elem_of_seq in Hin.
    destruct (lookup_lt_is_Some_2 (labels m) idx) as [cid Hcid]; [lia|].
    destruct (Hkeys cid) as [cl Hcl]; [by eapply list_elem_of_lookup_2|].
    exists (Some cid). unfold slotColor. by rewrite Hcid, Hcl. }
  exists r. split; [done|].
  apply buildResult_inr in Hr as (Hcont & _ & _ & _ & Hnb & _ & Hcol).
  fold boxes in Hcont, Hnb, Hcol. rewrite Hsampler in Hcont, Hnb, Hcol.
  simpl in Hcont, Hnb, Hcol. fold m in Hcont, Hcol.
  assert (Hb6 : length bottles0 = 6%nat).
  { rewrite <- Hsix, <- Hbbox. by rewrite length_map. }
  split_and!.
  - by rewrite Hnb, length_map.
  - rewrite <- (Forall2_length _ _ _ Hcont). by rewrite length_map.
  - apply Forall_forall. intros row Hrow.
    apply (Forall2_elem_of_r _ _ _ _ Hcont) in Hrow as (sl & Hsl & Hrow).
    rewrite <- (Forall2_length _ _ _ Hrow).
    apply list_elem_of_fmap in Hsl as (b & -> & Hb). rewrite length_map.
    rewrite Forall_forall in Hslots. by apply Hslots.
  - destruct (palette_of_sortedIds (clusterInfo m) Hkey) as [_ Hsum].
    rewrite Hcol, Hsum, Htot. f_equal.
    rewrite <- (Forall2_filter_length _ is_Some is_Some _ _
                 (Forall2_concat_rows _ _ _ Hcont)).
    + rewrite concat_slot_samples, length_filter_is_Some, Hidx.
      by rewrite length_seq.
    + intros slot c Hc%slotColor_inr. destruct slot as [idx|].
      * destruct Hc as (cid & -> & _). split; eauto.
      * subst c. done.
Qed.

(** ** Colour codes *)

Lemma byte_cases (P : Z -> Prop) :
  (forall k, (k < 256)%nat -> P (Z.of_nat k)) ->
  forall n, 0 <= n <= 255 -> P n.
Proof.
  intros HP n Hn. rewrite <- (Z2Nat.id n) by lia. apply HP. lia.
Qed.

(** A byte prints as two digits that read back as the byte. *)
Definition printsAndReads (n : Z) : Prop :=
  let c1 := hexDigit (n / 16) in
  let c2 := hexDigit (n mod 16) in
  hexByte (Z2F n) = String c1 (String c2 EmptyString) /\
  JSString.isWhiteSpace c1 = false /\ JSString.isWhiteSpace c2 = false /\
  JSString.parseInt16 (String c1 (String c2 EmptyString)) = Z2F n.

Lemma bytes_print_and_read (n : Z) : 0 <= n <= 255 -> printsAndReads n.
Proof.
  revert n. apply byte_cases. intros k Hk.
  do 256 (destruct k as [|k];
          [vm_compute; repeat split; reflexivity|]).
  lia.
Qed.

Lemma hexToRgb_six (c1 c2 c3 c4 c5 c6 : ascii) :
  JSString.isWhiteSpace c1 = false -> JSString.isWhiteSpace c6 = false ->
  hexToRgb (Some (String "#" (String c1 (String c2 (String c3 (String c4
              (String c5 (String c6 EmptyString))))))))
  = (JSString.parseInt16 (String c1 (String c2 EmptyString)),
     JSString.parseInt16 (String c3 (String c4 EmptyString)),
     JSString.parseInt16 (String c5 (String c6 EmptyString))).
Proof.
  intros H1 H6. unfold hexToRgb, JSString.trim. simpl.
  rewrite H1. simpl. rewrite H6. simpl. reflexivity.
Qed.

(** An upper-case hexadecimal digit. *)
Definition isUpperHexDigit (c : ascii) : bool :=
  let n := nat_of_ascii c in
  (Nat.leb 48 n && Nat.leb n 57) || (Nat.leb 65 n && Nat.leb n 70).

Lemma upperHex_digit (c : ascii) :
  isUpperHexDigit c = true ->
  let d := default 0 (JSString.hexDigitValue c) in
  (0 <=? d) && (d <=? 15) = true /\ c = hexDigit d.
Proof.
  destruct c as [[] [] [] [] [] [] [] []]; vm_compute;
    first [discriminate | (intros _; split; reflexivity)].
Qed.

Lemma upperHex_pair (c1 c2 : ascii) :
  isUpperHexDigit c1 = true -> isUpperHexDigit c2 = true ->
  exists n, 0 <= n <= 255 /\ c1 = hexDigit (n / 16) /\ c2 = hexDigit (n mod 16).
Proof.
  intros [Hr1 H1]%upperHex_digit [Hr2 H2]%upperHex_digit.
  set (d1 := default 0 (JSString.hexDigitValue c1)) in *.
  set (d2 := default 0 (JSString.hexDigitValue c2)) in *.
  apply andb_true_iff in Hr1 as [?%Z.leb_le ?%Z.leb_le].
  apply andb_true_iff in Hr2 as [?%Z.leb_le ?%Z.leb_le].
  exists (16 * d1 + d2). split; [lia|].
  replace ((16 * d1 + d2) / 16) with d1
    by (apply (Z.div_unique _ 16 d1 d2); lia).
  replace ((16 * d1 + d2) mod 16) with d2
    by (apply (Z.mod_unique _ 16 d1 d2); lia).
  done.
Qed.

Lemma append_two (c1 c2 : ascii) (s : string) :
  String.append (String c1 (String c2 EmptyString)) s = String c1 (String c2 s).
Proof. reflexivity. Qed.

(** X16.  Colour codes round-trip.  For byte values [b], [g], [r] the code
    [bgrToHex(b, g, r)] reads back with [hexToRgb] as the same three bytes;
    and a code of ['#'] and six upper-case hexadecimal digits, read with
    [hexToRgb] and printed again with [bgrToHex], is the code itself. *)
Theorem colour_codes_round_trip :
  (forall b g r, 0 <= b <= 255 -> 0 <= g <= 255 -> 0 <= r <= 255 ->
     hexToRgb (Some (bgrToHex (Z2F b) (Z2F g) (Z2F r)))
     = (Z2F r, Z2F g, Z2F b)) /\
  (forall c1 c2 c3 c4 c5 c6,
     Forall (fun c => isUpperHexDigit c = true) [c1; c2; c3; c4; c5; c6] ->
     let code := String "#" (String c1 (String c2 (String c3 (String c4
                   (String c5 (String c6 EmptyString)))))) in
     bgrToHex (hexToRgb (Some code)).2 (hexToRgb (Some code)).1.2
              (hexToRgb (Some code)).1.1 = code).
Proof.
  split.
  - intros b g r Hb Hg Hr.
    destruct (bytes_print_and_read b Hb) as (Eb & Wb1 & Wb2 & Pb).
    destruct (bytes_print_and_read g Hg) as (Eg & Wg1 & Wg2 & Pg).
    destruct (bytes_print_and_read r Hr) as (Er & Wr1 & Wr2 & Pr).
    unfold bgrToHex. rewrite Eb, Eg, Er, !append_two.
    rewrite hexToRgb_six by done. by rewrite Pb, Pg, Pr.
  - intros c1 c2 c3 c4 c5 c6 Hall code.
    repeat match goal with
           | H : Forall _ (_ :: _) |- _ => apply Forall_cons in H as [? H]
           end.
    destruct (upperHex_pair c1 c2) as (r & Hr & -> & ->); [done|done|].
    destruct (upperHex_pair c3 c4) as (g & Hg & -> & ->); [done|done|].
    destruct (upperHex_pair c5 c6) as (b & Hb & -> & ->); [done|done|].
    destruct (bytes_print_and_read b Hb) as (Eb & Wb1 & Wb2 & Pb).
    destruct (bytes_print_and_read g Hg) as (Eg & Wg1 & Wg2 & Pg).
    destruct (bytes_print_and_read r Hr) as (Er & Wr1 & Wr2 & Pr).
    subst code. rewrite hexToRgb_six by done. simpl.
    rewrite Pb, Pg, Pr. unfold bgrToHex. by rewrite Eb, Eg, Er, !append_two.
Qed.

Lemma colour_codes_round_trip_witness :
  hexToRgb (Some (bgrToHex (Z2F 18) (Z2F 171) (Z2F 255)))
  = (Z2F 255, Z2F 171, Z2F 18).
Proof. apply (proj1 colour_codes_round_trip); lia. Defined.

(** ** Editing the palette on the page *)

(** Every colour id in the bottle contents is a colour of the palette. *)
Definition paletteCovers (pr : Page.ParseResult) : Prop :=
  forall row cid, row ∈ Page.bottle_contents_ids pr -> Some cid ∈ row ->
    is_Some (Page.colors_by_id pr !! cid).

(** The sum of the unit counts. *)
Definition totalUnits (counts : gmap Z Z) : Z :=
  map_fold (fun _ v acc => v + acc) 0 counts.

Lemma totalUnits_insert (counts : gmap Z Z) (k v : Z) :
  counts !! k = None -> totalUnits (<[k := v]> counts) = v + totalUnits counts.
Proof.
  intros Hk. unfold totalUnits.
  rewrite map_fold_insert_L; [done| |done]. intros. lia.
Qed.

Lemma totalUnits_delete (counts : gmap Z Z) (k : Z) :
  totalUnits (delete k counts) = totalUnits counts - default 0 (counts !! k).
Proof.
  destruct (counts !! k) as [v|] eqn:Hk; simpl.
  - rewrite <- (insert_delete_id counts k v Hk) at 2.
    rewrite totalUnits_insert by apply lookup_delete_eq. lia.
  - rewrite delete_id by done. lia.
Qed.

Lemma int32_id (x : Z) : - 2 ^ 31 <= x < 2 ^ 31 -> Page.int32 x = x.
Proof.
  intros Hx. unfold Page.int32. rewrite Z.mod_small; lia.
Qed.

Lemma bgrToHex_nonempty b g r : bgrToHex b g r <> EmptyString.
Proof. done. Qed.

Lemma Forall2_map_self {A B} (R : A -> B -> Prop) (f : A -> B) (l : list A) :
  (forall a, R a (f a)) -> Forall2 R l (map f l).
Proof. intros HR. induction l; simpl; constructor; auto. Qed.

Lemma elem_of_map_inv {A B} (f : A -> B) (l : list A) (b : B) :
  b ∈ map f l -> exists a, a ∈ l /\ b = f a.
Proof.
  intros Hb. apply (list_elem_of_fmap f l b) in Hb as (a & -> & Ha). eauto.
Qed.

(** X17.  Merging colour [d] into colour [k] on the page, for two different
    colours of the palette: [d] leaves the palette, [k] gets a code of the
    form [#...], every other colour keeps its code, and [num_colors] is the
    new palette size, one less than before.  In the bottle contents every
    cell of [d] becomes a cell of [k] and no other cell changes; if the
    contents used only palette colours before, they still do; and
    [bottle_contents_hex] shows for each cell the palette's code of its
    colour.  Afterwards deleting [d], or merging [d] into any colour, changes
    nothing. *)
Theorem merging_two_palette_colours (k d : Z) (pr : Page.ParseResult) :
  k <> d ->
  is_Some (Page.colors_by_id pr !! k) ->
  is_Some (Page.colors_by_id pr !! d) ->
  exists pr',
    Page.mergeDetectedColors k d (Some pr) = Some pr' /\
    Page.colors_by_id pr' !! d = None /\
    (exists digits, Page.colors_by_id pr' !! k = Some (String "#" digits)) /\
    (forall c, c <> k -> c <> d ->
       Page.colors_by_id pr' !! c = Page.colors_by_id pr !! c) /\
    Page.num_colors pr' = size (Page.colors_by_id pr') /\
    S (Page.num_colors pr') = size (Page.colors_by_id pr) /\
    Forall2 (Forall2 (fun old new =>
               new <> Some d /\ (old = Some d -> new = Some k) /\
               (old <> Some d -> new = old)))
            (Page.bottle_contents_ids pr) (Page.bottle_contents_ids pr') /\
    (paletteCovers pr -> paletteCovers pr') /\
    Forall2 (Forall2 (fun cid hex =>
               hex = cid ≫= Page.hexOf (Page.colors_by_id pr')))
            (Page.bottle_contents_ids pr') (Page.bottle_contents_hex pr') /\
    Page.deleteDetectedColor d (Some pr') = Some pr' /\
    (forall k', Page.mergeDetectedColors k' d (Some pr') = Some pr').
Proof.
  intros Hkd Hk Hd. unfold Page.mergeDetectedColors.
  rewrite (proj2 (Z.eqb_neq k d) Hkd).
  rewrite !bool_decide_eq_true_2 by done. cbn [negb orb].
  destruct (mix3 _ _ _ _) as [[mb mg] mr].
  eexists. split; [reflexivity|]. unfold paletteCovers.
  cbn [Page.colors_by_id Page.num_colors
    Page.bottle_contents_ids Page.bottle_contents_hex].
  assert (Hd' : delete d (<[k:=bgrToHex mb mg mr]> (Page.colors_by_id pr)) !! d
                = None) by apply lookup_delete_eq.
  split_and!.
  - exact Hd'.
  - exists (hexByte mr ++ hexByte mg ++ hexByte mb)%string.
    rewrite lookup_delete_ne by done. by rewrite lookup_insert_eq.
  - intros c Hck Hcd. rewrite lookup_delete_ne by done.
    by rewrite lookup_insert_ne.
  - done.
  - rewrite map_size_delete_Some by (rewrite lookup_insert_ne; done).
    destruct Hk as [hk Hk]. rewrite map_size_insert_Some by done.
    assert (size (Page.colors_by_id pr) <> 0)%nat; [|lia].
    intros Hz%map_size_empty_inv. by rewrite Hz, lookup_empty in Hk.
  - apply Forall2_map_self. intros row. apply Forall2_map_self. intros cid.
    case_bool_decide; split_and!; congruence.
  - intros Hcov row cid Hrow Hcid.
    apply elem_of_map_inv in Hrow as (row0 & Hrow0 & ->).
    apply elem_of_map_inv in Hcid as (cid0 & Hcid0 & Heq).
    destruct (decide (cid = k)) as [->|Hne].
    { rewrite lookup_delete_ne by done. rewrite lookup_insert_eq. eauto. }
    case_bool_decide; [congruence|]. subst cid0.
    rewrite lookup_delete_ne by congruence.
    rewrite lookup_insert_ne by done. eauto.
  - unfold Page.contentsHex. apply Forall2_map_self. intros row.
    by apply Forall2_map_self.
  - unfold Page.deleteDetectedColor. cbn [Page.colors_by_id].
    rewrite bool_decide_eq_false_2; [done|]. rewrite Hd'. by intros [].
  - intros k'. cbn [Page.colors_by_id]. destruct (k' =? d); [done|].
    rewrite (bool_decide_eq_false_2 (is_Some (_ !! d)));
      [|rewrite Hd'; by intros []].
    by rewrite orb_true_r.
Qed.

Lemma updateFirst_ids (p : Cluster -> bool) (f : Cluster -> Cluster)
    (cs : list Cluster) :
  (forall c, id (f c) = id c) ->
  map id (Page.updateFirst p f cs) = map id cs.
Proof.
  intros Hf. induction cs as [|c cs IH]; simpl; [done|].
  destruct (p c); simpl; [by rewrite Hf|by rewrite IH].
Qed.

Lemma updateFirst_updated (k : Z) (f : Cluster -> Cluster) (cs : list Cluster)
    (c : Cluster) :
  (forall c, id (f c) = id c) -> NoDup (map id cs) ->
  c ∈ Page.updateFirst (fun c => id c =? k) f cs -> id c = k ->
  exists c0, c0 ∈ cs /\ c = f c0.
Proof.
  intros Hf Hnd Hc Hk. induction cs as [|x cs IH]; simpl in *.
  { by apply elem_of_nil in Hc. }
  apply NoDup_cons in Hnd as [Hx Hnd].
  destruct (id x =? k) eqn:Hxk.
  - apply Z.eqb_eq in Hxk. apply elem_of_cons in Hc as [->|Hc].
    + exists x. split; [left|done].
    + exfalso. apply Hx. rewrite Hxk, <- Hk.
      apply list_elem_of_fmap. eauto.
  - apply Z.eqb_neq in Hxk. apply elem_of_cons in Hc as [->|Hc]; [done|].
    destruct (IH Hnd Hc) as (c0 & Hc0 & ->). exists c0. split; [by right|done].
Qed.

Lemma filter_map_id (d : Z) (cs : list Cluster) :
  map id (filter (fun c => id c <> d) cs)
  = filter (fun i => i <> d) (map id cs).
Proof.
  induction cs as [|c cs IH]; [done|]. simpl. rewrite !filter_cons.
  destruct (decide (id c <> d)); simpl; by rewrite IH.
Qed.

(** X18.  Merging colour [d] into colour [k] keeps the other records of the
    page in step.  If unit counts are kept, [d] loses its count, [k] gets
    the sum of the two (taken as 0 where missing), the other counts stay,
    and, for counts of [k] and [d] within 32 bits, the total number of units
    is unchanged.  If the cluster list is kept, it loses the entries of [d]
    and keeps the others in order, and with distinct ids the entry of [k]
    carries the summed count and the new code of the palette.  If the
    bottle records are kept, a slot stays filled or unfilled as it was, no
    filled slot has colour [d] any more, and a filled slot of colour [k]
    shows the palette's new code. *)
Theorem merging_keeps_the_records_in_step (k d : Z) (pr : Page.ParseResult) :
  k <> d ->
  is_Some (Page.colors_by_id pr !! k) ->
  is_Some (Page.colors_by_id pr !! d) ->
  exists pr',
    Page.mergeDetectedColors k d (Some pr) = Some pr' /\
    (forall counts, Page.color_unit_counts pr = Some counts ->
       exists counts',
         Page.color_unit_counts pr' = Some counts' /\
         counts' !! d = None /\
         counts' !! k = Some (Page.int32 (default 0 (counts !! k)) +
                              Page.int32 (default 0 (counts !! d))) /\
         (forall c, c <> k -> c <> d -> counts' !! c = counts !! c) /\
         ((forall v, counts !! k = Some v \/ counts !! d = Some v ->
             - 2 ^ 31 <= v < 2 ^ 31) ->
          totalUnits counts' = totalUnits counts)) /\
    (forall cs, Page.colors pr = Some cs ->
       exists cs',
         Page.colors pr' = Some cs' /\
         map id cs' = filter (fun i => i <> d) (map id cs) /\
         (NoDup (map id cs) ->
          forall c, c ∈ cs' -> id c = k ->
            Page.colors_by_id pr' !! k = Some (center_hex c) /\
            count c =
              Page.int32 (default 0
                 (default ∅ (Page.color_unit_counts pr) !! k)) +
              Page.int32 (default 0
                 (default ∅ (Page.color_unit_counts pr) !! d)))) /\
    (forall bs, Page.bottles pr = Some bs ->
       exists bs',
         Page.bottles pr' = Some bs' /\
         Forall2 (Forall2 (fun old new =>
            Page.filled new = Page.filled old /\
            (Page.filled old = false -> new = old) /\
            (Page.filled old = true ->
               Page.color_id new <> Some d /\
               (Page.color_id old = Some d -> Page.color_id new = Some k) /\
               (Page.color_id old <> Some d ->
                  Page.color_id new = Page.color_id old) /\
               (Page.color_id new = Some k ->
                  Page.color_hex new = Page.colors_by_id pr' !! k))))
           bs bs').
Proof.
  intros Hkd Hk Hd. unfold Page.mergeDetectedColors.
  rewrite (proj2 (Z.eqb_neq k d) Hkd).
  rewrite !bool_decide_eq_true_2 by done. cbn [negb orb].
  destruct (mix3 _ _ _ _) as [[mb mg] mr].
  eexists. split; [reflexivity|].
  cbn [Page.colors_by_id Page.color_unit_counts Page.colors Page.bottles].
  assert (Hhex : delete d (<[k:=bgrToHex mb mg mr]> (Page.colors_by_id pr)) !! k
                 = Some (bgrToHex mb mg mr)).
  { rewrite lookup_delete_ne by done. by rewrite lookup_insert_eq. }
  split_and!.
  - intros counts ->. eexists. split; [reflexivity|]. simpl.
    set (cK := default 0 (counts !! k)). set (cD := default 0 (counts !! d)).
    split_and!.
    + apply lookup_delete_eq.
    + rewrite lookup_delete_ne by done. by rewrite lookup_insert_eq.
    + intros c Hck Hcd. rewrite lookup_delete_ne by done.
      by rewrite lookup_insert_ne.
    + intros Hrange.
      assert (HK : Page.int32 cK = cK).
      { apply int32_id. subst cK. destruct (counts !! k) as [v|] eqn:E;
          simpl; [apply Hrange; by left|lia]. }
      assert (HD : Page.int32 cD = cD).
      { apply int32_id. subst cD. destruct (counts !! d) as [v|] eqn:E;
          simpl; [apply Hrange; by right|lia]. }
      rewrite HK, HD, totalUnits_delete.
      rewrite lookup_insert_ne by done. fold cD.
      rewrite <- (insert_delete_eq counts).
      rewrite totalUnits_insert by apply lookup_delete_eq.
      rewrite totalUnits_delete. fold cK. lia.
  - intros cs ->. eexists. split; [reflexivity|]. split.
    + rewrite filter_map_id. by rewrite updateFirst_ids.
    + intros Hnd c Hc Hid. apply list_elem_of_filter in Hc as [_ Hc].
      apply updateFirst_updated in Hc as (c0 & _ & ->); [|done..].
      by rewrite Hhex.
  - intros bs ->. eexists. split; [reflexivity|].
    apply Forall2_map_self. intros row. apply Forall2_map_self.
    intros [f cid hex]. destruct f; simpl.
    + split_and!; try done. intros _. split_and!.
      * case_bool_decide; congruence.
      * by intros ->; rewrite bool_decide_eq_true_2.
      * by intros ?; rewrite bool_decide_eq_false_2.
      * intros Hnew. rewrite (bool_decide_eq_true_2 _ Hnew).
        by rewrite Hhex.
    + split_and!; done.
Qed.

(** X19.  Deleting a colour [d] of the palette on the page: [d] leaves the
    palette, every other colour keeps its code, and [num_colors] is the new
    palette size, one less than before.  In the bottle contents every cell
    of [d] becomes empty and no other cell changes; contents that used only
    palette colours still do; [bottle_contents_hex] shows for each cell the
    palette's code of its colour.  Unit counts, if kept, lose the count of
    [d] and nothing else, so their total drops by that count; the cluster
    list, if kept, loses exactly the entries of [d]; the bottle records, if
    kept, have every slot of colour [d] reset to an unfilled slot without
    colour and no other slot changed.  Deleting [d] once more changes
    nothing. *)
Theorem deleting_a_palette_colour (d : Z) (pr : Page.ParseResult) :
  is_Some (Page.colors_by_id pr !! d) ->
  exists pr',
    Page.deleteDetectedColor d (Some pr) = Some pr' /\
    Page.colors_by_id pr' !! d = None /\
    (forall c, c <> d ->
       Page.colors_by_id pr' !! c = Page.colors_by_id pr !! c) /\
    Page.num_colors pr' = size (Page.colors_by_id pr') /\
    S (Page.num_colors pr') = size (Page.colors_by_id pr) /\
    Forall2 (Forall2 (fun old new =>
               new <> Some d /\ (old = Some d -> new = None) /\
               (old <> Some d -> new = old)))
            (Page.bottle_contents_ids pr) (Page.bottle_contents_ids pr') /\
    (paletteCovers pr -> paletteCovers pr') /\
    Forall2 (Forall2 (fun cid hex =>
               hex = cid ≫= Page.hexOf (Page.colors_by_id pr')))
            (Page.bottle_contents_ids pr') (Page.bottle_contents_hex pr') /\
    (forall counts, Page.color_unit_counts pr = Some counts ->
       exists counts',
         Page.color_unit_counts pr' = Some counts' /\
         counts' !! d = None /\
         (forall c, c <> d -> counts' !! c = counts !! c) /\
         totalUnits counts' = totalUnits counts - default 0 (counts !! d)) /\
    (forall cs, Page.colors pr = Some cs ->
       exists cs',
         Page.colors pr' = Some cs' /\ sublist cs' cs /\
         forall c, c ∈ cs' <-> c ∈ cs /\ id c <> d) /\
    (forall bs, Page.bottles pr = Some bs ->
       exists bs',
         Page.bottles pr' = Some bs' /\
         Forall2 (Forall2 (fun old new =>
            Page.color_id new <> Some d /\
            (Page.color_id old = Some d ->
               new = Page.mkSlot false None None) /\
            (Page.color_id old <> Some d -> new = old)))
           bs bs') /\
    Page.deleteDetectedColor d (Some pr') = Some pr'.
Proof.
  intros Hd. unfold Page.deleteDetectedColor.
  rewrite !bool_decide_eq_true_2 by done. cbn [negb].
  eexists. split; [reflexivity|]. unfold paletteCovers.
  cbn [Page.colors_by_id Page.num_colors Page.bottle_contents_ids
       Page.bottle_contents_hex Page.color_unit_counts Page.colors
       Page.bottles].
  assert (Hd' : delete d (Page.colors_by_id pr) !! d = None)
    by apply lookup_delete_eq.
  split_and!.
  - exact Hd'.
  - intros c Hc. by rewrite lookup_delete_ne.
  - done.
  - destruct Hd as [hd Hd]. rewrite map_size_delete_Some by done.
    assert (size (Page.colors_by_id pr) <> 0)%nat; [|lia].
    intros Hz%map_size_empty_inv. by rewrite Hz, lookup_empty in Hd.
  - apply Forall2_map_self. intros row. apply Forall2_map_self. intros cid.
    case_bool_decide; split_and!; congruence.
  - intros Hcov row cid Hrow Hcid.
    apply elem_of_map_inv in Hrow as (row0 & Hrow0 & ->).
    apply elem_of_map_inv in Hcid as (cid0 & Hcid0 & Heq).
    case_bool_decide; [congruence|]. subst cid0.
    rewrite lookup_delete_ne by congruence. eauto.
  - unfold Page.contentsHex. apply Forall2_map_self. intros row.
    by apply Forall2_map_self.
  - intros counts ->. eexists. split; [reflexivity|]. split_and!.
    + apply lookup_delete_eq.
    + intros c Hc. by rewrite lookup_delete_ne.
    + apply totalUnits_delete.
  - intros cs ->. eexists. split; [reflexivity|]. split.
    + apply sublist_filter.
    + intros c. rewrite list_elem_of_filter. tauto.
  - intros bs ->. eexists. split; [reflexivity|].
    apply Forall2_map_self. intros row. apply Forall2_map_self.
    intros s. case_bool_decide; split_and!; done.
  - rewrite bool_decide_eq_false_2; [done|]. rewrite Hd'. by intros [].
Qed.

(** A page state with two colours, four units of each. *)
Definition twoColourPage : Page.ParseResult :=
  {| Page.capacity := 4;
     Page.colors_by_id := {[ 0 := "#FF0000"%string; 1 := "#00FF00"%string ]};
     Page.color_unit_counts := Some {[ 0 := 4; 1 := 4 ]};
     Page.colors := None;
     Page.bottle_contents_ids :=
       [[Some 0; Some 1; Some 0; Some 1]; [Some 1; Some 0; Some 1; Some 0];
        [None; None; None; None]];
     Page.bottle_contents_hex := [];
     Page.bottles := None;
     Page.num_colors := 2 |}.

Lemma merging_two_palette_colours_witness :
  exists pr',
    Page.mergeDetectedColors 0 1 (Some twoColourPage) = Some pr' /\
    Page.colors_by_id pr' !! 1 = None /\
    Page.num_colors pr' = 1%nat.
Proof.
  destruct (merging_two_palette_colours 0 1 twoColourPage)
    as (pr' & E & Hd & _ & _ & _ & Hn & _).
  - lia.
  - vm_compute. eauto.
  - vm_compute. eauto.
  - exists pr'. split_and!; [exact E|exact Hd|].
    vm_compute in Hn. by injection Hn.
Defined.

Lemma merging_keeps_the_records_in_step_witness :
  exists pr' counts',
    Page.mergeDetectedColors 0 1 (Some twoColourPage) = Some pr' /\
    Page.color_unit_counts pr' = Some counts' /\
    counts' !! 0 = Some 8.
Proof.
  destruct (merging_keeps_the_records_in_step 0 1 twoColourPage)
    as (pr' & E & Hc & _).
  - lia.
  - vm_compute. eauto.
  - vm_compute. eauto.
  - destruct (Hc _ eq_refl) as (counts' & E' & _ & Hk & _).
    exists pr', counts'. split_and!; [exact E|exact E'|exact Hk].
Defined.

Lemma deleting_a_palette_colour_witness :
  exists pr',
    Page.deleteDetectedColor 1 (Some twoColourPage) = Some pr' /\
    Page.colors_by_id pr' !! 1 = None.
Proof.
  destruct (deleting_a_palette_colour 1 twoColourPage) as (pr' & E & Hd & _).
  - vm_compute. eauto.
  - exists pr'. split; [exact E|exact Hd].
Defined.

(** ** The layout of the final board *)

Lemma last_removelast {A} (l : list A) (x : A) :
  last l = Some x -> l = removelast l ++ [x].
Proof.
  intros Hl. destruct (decide (l = [])) as [->|Hne]; [done|].
  rewrite (app_removelast_last x Hne) at 1. f_equal. f_equal.
  clear Hne. induction l as [|a [|b l] IH]; [done|by injection Hl|].
  apply IH. exact Hl.
Qed.

Lemma map_add_seq (n e : nat) :
  map (fun k => (n + k)%nat) (seq 0 e) = seq n e.
Proof.
  pose proof (fmap_add_seq n 0 e) as Hs. by rewrite Nat.add_0_r in Hs.
Qed.

(** X20.  [buildLayoutForFinal] throws only when there are extra bottles
    and the layout has no row.  Otherwise it returns a layout with as many
    rows as before, each old row a prefix of the new one, whose bottles in
    reading order are the old ones followed by the extra bottles
    [origBottleCount], [origBottleCount + 1], ...; without extra bottles the
    layout is returned as it is.  So when the old layout shows each of the
    [origBottleCount] bottles once, the final layout shows each bottle of
    the final board once.  With the one-row layout that [renderOutput] falls
    back to, it never throws. *)
Theorem final_layout_shows_every_bottle_once (layoutRows : list (list nat))
    (origBottleCount extraBottles : nat) :
  (buildLayoutForFinal layoutRows origBottleCount extraBottles = None
   <-> layoutRows = [] /\ extraBottles <> 0%nat) /\
  (forall out,
     buildLayoutForFinal layoutRows origBottleCount extraBottles = Some out ->
     length out = length layoutRows /\
     Forall2 (fun old new => old `prefix_of` new) layoutRows out /\
     concat out = concat layoutRows ++ seq origBottleCount extraBottles /\
     (extraBottles = 0%nat -> out = layoutRows) /\
     (concat layoutRows ≡ₚ seq 0 origBottleCount ->
      concat out ≡ₚ seq 0 (origBottleCount + extraBottles))) /\
  is_Some (snd (layouts None origBottleCount extraBottles)).
Proof.
  assert (Hsome : forall out,
     buildLayoutForFinal layoutRows origBottleCount extraBottles = Some out ->
     length out = length layoutRows /\
     Forall2 (fun old new => old `prefix_of` new) layoutRows out /\
     concat out = concat layoutRows ++ seq origBottleCount extraBottles /\
     (extraBottles = 0%nat -> out = layoutRows)).
  { unfold buildLayoutForFinal. intros out.
    destruct extraBottles as [|e]; simpl Nat.leb; cbv iota.
    - intros [= <-]. split_and!; auto.
      + apply Forall_Forall2_diag, Forall_forall. by intros.
      + simpl. by rewrite app_nil_r.
    - destruct (last layoutRows) as [lastRow|] eqn:Hl; [|done].
      rewrite map_add_seq. intros [= <-].
      pose proof (last_removelast _ _ Hl) as Heq.
      split_and!.
      + rewrite Heq at 2. by rewrite !length_app.
      + rewrite Heq at 1. apply Forall2_app.
        * apply Forall_Forall2_diag, Forall_forall. by intros.
        * constructor; [|constructor]. by eexists.
      + rewrite Heq at 2. rewrite !concat_app. simpl.
        by rewrite !app_nil_r, app_assoc.
      + done. }
  split_and!.
  - unfold buildLayoutForFinal. destruct extraBottles as [|e]; simpl Nat.leb;
      cbv iota.
    + split; [done|]. by intros [_ ?].
    + destruct (last layoutRows) as [lastRow|] eqn:Hl.
      * split; [done|]. intros [-> _]. done.
      * apply last_None in Hl. split; [done|]. done.
  - intros out Hout. destruct (Hsome out Hout) as (H1 & H2 & H3 & H4).
    split_and!; auto. intros Hperm. rewrite H3, Hperm.
    by rewrite seq_app.
  - unfold layouts, buildLayoutForFinal. simpl.
    destruct extraBottles; simpl; eauto.
Qed.

Lemma final_layout_shows_every_bottle_once_witness :
  exists out,
    buildLayoutForFinal [[0; 1; 2]; [3; 4; 5]]%nat 6 2 = Some out /\
    concat out ≡ₚ seq 0 8.
Proof.
  exists [[0; 1; 2]; [3; 4; 5; 6; 7]]%nat. split; [reflexivity|].
  apply (proj1 (proj2 (final_layout_shows_every_bottle_once
                         [[0; 1; 2]; [3; 4; 5]]%nat 6 2))
               _ eq_refl).
  reflexivity.
Defined.

(** ** The power-up badges *)

(** X21.  [detectRedBadges] returns at most three boxes, three whenever at
    least three contours pass its tests, ordered by [x] from left to right.
    Each is the bounding rectangle of a contour that passes the tests, no
    contour is used twice, and no candidate left out has a larger area than
    a returned one. *)
Theorem badges_are_the_three_largest_left_to_right
    (H : Z) (contours : list Contour) :
  let candidates :=
    map boundingRect (filter (fun c => badgeShaped H c = true) contours) in
  let out := detectRedBadges H contours in
  length out = Nat.min 3 (length candidates) /\
  StronglySorted (fun a b => gx a <= gx b) out /\
  exists rest,
    candidates ≡ₚ out ++ rest /\
    forall a b, a ∈ out -> b ∈ rest -> rectArea b <= rectArea a.
Proof.
  intros candidates out. subst out. unfold detectRedBadges. fold candidates.
  set (byArea := sort_by _ candidates).
  assert (Hperm : byArea ≡ₚ candidates) by apply sort_by_Permutation.
  assert (Hsorted : StronglySorted (fun a b => rectArea b <= rectArea a) byArea).
  { apply Sorted_StronglySorted; [intros x y z; lia|].
    eapply Sorted_weaken;
      [|apply (sort_by_Sorted (fun a b => rectArea b <? rectArea a));
        intros a b; lia].
    intros a b. unfold follows. lia. }
  split_and!.
  - rewrite sort_by_Permutation, length_take, <- Hperm. lia.
  - apply Sorted_StronglySorted; [intros x y z; lia|].
    eapply Sorted_weaken;
      [|apply (sort_by_Sorted (fun a b => gx a <? gx b)); intros a b; lia].
    intros a b. unfold follows. lia.
  - exists (skipn 3 byArea). split.
    + by rewrite sort_by_Permutation, take_drop, Hperm.
    + intros a b Ha Hb. rewrite sort_by_Permutation in Ha.
      rewrite <- (take_drop 3 byArea) in Hsorted.
      exact (StronglySorted_app_1_elem_of _ _ _ _ _ Hsorted Ha Hb).
Qed.

(** ** Colour names *)

Import Colors.

(** A string without a space. *)
Fixpoint spaceFree (s : string) : bool :=
  match s with
  | String c rest => negb (Ascii.eqb c " ") && spaceFree rest
  | EmptyString => true
  end.

Lemma spaced_inj (a b s t : string) :
  spaceFree a = true -> spaceFree b = true ->
  (a ++ String " " s)%string = (b ++ String " " t)%string -> a = b /\ s = t.
Proof.
  revert b. induction a as [|c a IH]; intros [|c' b] Ha Hb Heq; simpl in *.
  - by injection Heq.
  - injection Heq as <- _. done.
  - injection Heq as -> _. done.
  - apply andb_true_iff in Ha as [_ Ha]. apply andb_true_iff in Hb as [_ Hb].
    injection Heq as -> Heq. destruct (IH b Ha Hb Heq) as [-> ->]. done.
Qed.

Lemma spaced_neq (a b t : string) :
  spaceFree a = true -> a <> (b ++ String " " t)%string.
Proof.
  revert b. induction a as [|c a IH]; intros [|c' b] Ha Heq; simpl in *;
    try discriminate.
  - injection Heq as -> _. done.
  - apply andb_true_iff in Ha as [_ Ha]. injection Heq as _ Heq.
    exact (IH b Ha Heq).
Qed.

Lemma String__inj (n m : nat) : String_ n = String_ m -> n = m.
Proof.
  unfold String_. intros Heq. apply Unsigned.to_uint_inj.
  assert (Hn : forall k, Nat.to_uint k <> Decimal.Nil).
  { intros k. rewrite <- (Unsigned.of_to k) at 1. rewrite Unsigned.to_of.
    apply unorm_nonnil. }
  pose proof (NilZero.usu _ (Hn n)) as H1.
  pose proof (NilZero.usu _ (Hn m)) as H2.
  rewrite Heq in H1. congruence.
Qed.

Lemma guessColorName_spaceFree (hex : string) :
  spaceFree (guessColorName hex) = true.
Proof.
  unfold guessColorName.
  repeat match goal with
         | |- context [if ?b then _ else _] => destruct b
         end; reflexivity.
Qed.

Lemma length_append (a b : string) :
  String.length (a ++ b)%string = (String.length a + String.length b)%nat.
Proof. induction a as [|c a IH]; simpl; [done|]. by rewrite IH. Qed.

Lemma length_repeatChar (c : ascii) (n : nat) :
  String.length (repeatChar c n) = n.
Proof. induction n as [|n IH]; simpl; [done|]. by rewrite IH. Qed.

Lemma length_padEnd (n : nat) (c : ascii) (s : string) :
  String.length (padEnd n c s) = Nat.max n (String.length s).
Proof. unfold padEnd. rewrite length_append, length_repeatChar. lia. Qed.

Lemma length_substring_le (n : nat) (s : string) :
  (String.length (substring 0 n s) <= n)%nat.
Proof.
  revert s. induction n as [|n IH]; intros [|c s]; simpl; try lia.
  specialize (IH s). lia.
Qed.

Lemma length_substring_full (n : nat) (s : string) :
  (n <= String.length s)%nat -> String.length (substring 0 n s) = n.
Proof.
  revert s. induction n as [|n IH]; intros [|c s]; simpl; try lia.
  intros Hn. rewrite IH; lia.
Qed.

Lemma length_abbrForName (name : string) :
  String.length (abbrForName name) = 3%nat.
Proof.
  unfold abbrForName.
  repeat match goal with
         | |- context [if ?b then _ else _] => destruct b
         end; try reflexivity.
  rewrite length_padEnd.
  pose proof (length_substring_le 3 (lettersOnly (toUpperCase name))). lia.
Qed.

Lemma length_String_ (idx : nat) :
  (idx < 10)%nat -> String.length (String_ idx) = 1%nat.
Proof.
  intros Hidx. do 10 (destruct idx as [|idx]; [reflexivity|]). lia.
Qed.

Section LabelFacts.

Variable colorsById : gmap Z string.

#[local] Abbreviation ids := (Colors.ids colorsById).
#[local] Abbreviation names := (rawNames colorsById).
#[local] Abbreviation counts := (countNames colorsById (rawNames colorsById)).

Lemma paletteIds_elem (k : Z) : k ∈ ids <-> is_Some (colorsById !! k).
Proof.
  unfold Colors.ids. rewrite merge_sort_Permutation.
  rewrite list_elem_of_fmap. split.
  - intros ([k' c] & -> & Hin). apply elem_of_map_to_list in Hin. eauto.
  - intros [c Hc]. exists (k, c). split; [done|]. by apply elem_of_map_to_list.
Qed.

Lemma paletteIds_sorted : StronglySorted Z.le ids.
Proof.
  apply Sorted_StronglySorted; [intros ???; lia|].
  apply Sorted_merge_sort. intros x y. lia.
Qed.

Lemma paletteIds_NoDup : NoDup ids.
Proof.
  unfold Colors.ids. rewrite merge_sort_Permutation. apply NoDup_fst_map_to_list.
Qed.

Lemma length_paletteIds : length ids = size colorsById.
Proof.
  unfold Colors.ids. rewrite merge_sort_Permutation, length_map.
  by rewrite length_map_to_list.
Qed.

(** Every name of the map is free of spaces. *)
Definition allFree (m : gmap Z string) : Prop :=
  forall id n, m !! id = Some n -> spaceFree n = true.

Lemma allFree_insert (m : gmap Z string) (id : Z) (n : string) :
  spaceFree n = true -> allFree m -> allFree (<[id := n]> m).
Proof.
  intros Hn Hm k n' Hk. destruct (decide (k = id)) as [->|Hne].
  - rewrite lookup_insert_eq in Hk. congruence.
  - rewrite lookup_insert_ne in Hk by done. eauto.
Qed.

Lemma renameGroup_allFree (firstName lastName : string) (middle : Hsv -> string)
    (sorted : list Z) (m : gmap Z string) :
  spaceFree firstName = true -> spaceFree lastName = true ->
  (forall hsv, spaceFree (middle hsv) = true) ->
  allFree m ->
  allFree (renameGroup colorsById firstName lastName middle sorted m).
Proof.
  intros Hf Hl Hmid Hm. unfold renameGroup.
  destruct (Nat.leb 2 (length sorted)); [|done].
  generalize (removelast (tl sorted)). intros l.
  assert (Hstart : allFree (<[List.last sorted 0 := lastName]>
                              (<[hd 0 sorted := firstName]> m)))
    by auto using allFree_insert.
  revert Hstart. generalize (<[List.last sorted 0 := lastName]>
                               (<[hd 0 sorted := firstName]> m)).
  induction l as [|x l IH]; intros m' Hm'; simpl; [done|].
  apply IH. by apply allFree_insert.
Qed.

Lemma names_spaceFree (id : Z) : spaceFree (nameGet names id) = true.
Proof.
  assert (Hall : allFree names).
  { unfold rawNames. apply renameGroup_allFree; try done.
    { intros hsv. by destruct (PrimFloat.leb _ _). }
    apply renameGroup_allFree; try done.
    { intros hsv. by destruct (PrimFloat.leb _ _). }
    intros k n. rewrite lookup_fmap.
    destruct (colorsById !! k); [|done]. intros [= <-].
    apply guessColorName_spaceFree. }
  unfold nameGet. destruct (names !! id) as [n|] eqn:Hn; [|done].
  exact (Hall _ _ Hn).
Qed.

(** How many ids have the name [b]. *)
Definition sharing (b : string) : nat :=
  length (filter (fun id => nameGet names id = b) ids).

Lemma countNames_spec (b : string) : default 0%nat (counts !! b) = sharing b.
Proof.
  unfold countNames, sharing.
  assert (Hgen : forall l (c : gmap string nat),
    default 0%nat
      (fold_left (fun counts id =>
                    let n := nameGet names id in
                    <[n := (default 0 (counts !! n) + 1)%nat]> counts) l c !! b)
    = (default 0 (c !! b)
       + length (filter (fun id => nameGet names id = b) l))%nat).
  { induction l as [|x l IH]; intros c; simpl; [lia|].
    rewrite IH. rewrite filter_cons.
    destruct (decide (nameGet names x = b)) as [->|Hne].
    - rewrite lookup_insert_eq. simpl. lia.
    - rewrite lookup_insert_ne by done. lia. }
  rewrite Hgen. by rewrite lookup_empty.
Qed.

Lemma sharing_two (i j : Z) :
  i ∈ ids -> j ∈ ids -> i <> j -> nameGet names i = nameGet names j ->
  (2 <= sharing (nameGet names i))%nat.
Proof.
  intros Hi Hj Hne Heq. unfold sharing.
  set (P := fun id => nameGet names id = nameGet names i).
  assert (Hsub : [i; j] ⊆+ filter P ids).
  { apply NoDup_submseteq.
    - apply NoDup_cons. split; [|apply NoDup_singleton].
      by intros ->%list_elem_of_singleton.
    - intros x Hx. apply list_elem_of_filter.
      apply elem_of_cons in Hx as [->|Hx%list_elem_of_singleton].
      + by split.
      + subst x. split; [by unfold P|done]. }
  apply submseteq_length in Hsub. simpl in Hsub. lia.
Qed.

(** The state of the last loop after the ids [done]. *)
Record Labelled (done : list Z)
    (st : gmap string nat * gmap Z string * gmap Z string) : Prop := {
  labelled_names : forall id, is_Some (st.1.2 !! id) <-> id ∈ done;
  labelled_abbrs : forall id, is_Some (st.2 !! id) <-> id ∈ done;
  labelled_form : forall id n, st.1.2 !! id = Some n ->
    (n = nameGet names id /\ (sharing (nameGet names id) <= 1)%nat) \/
    (exists idx, n = (nameGet names id ++ " " ++ String_ idx)%string /\
                 (1 <= idx <= default 0 (st.1.1 !! nameGet names id))%nat);
  labelled_inj : forall i j n,
    st.1.2 !! i = Some n -> st.1.2 !! j = Some n -> i = j;
  labelled_seen : forall b, (default 0 (st.1.1 !! b) <= length done)%nat;
  labelled_three : forall id a, st.2 !! id = Some a ->
    (length ids < 10)%nat -> String.length a = 3%nat
}.

Lemma Labelled_nil : Labelled [] (∅, ∅, ∅).
Proof.
  split; simpl.
  - intros id. rewrite lookup_empty. split; [by intros []|].
    by intros ?%elem_of_nil.
  - intros id. rewrite lookup_empty. split; [by intros []|].
    by intros ?%elem_of_nil.
  - intros id n. by rewrite lookup_empty.
  - intros i j n. by rewrite lookup_empty.
  - intros b. by rewrite lookup_empty.
  - intros id a. by rewrite lookup_empty.
Qed.

Lemma Labelled_step (done : list Z) st (x : Z) :
  Labelled done st -> x ∉ done -> x ∈ ids -> (forall y, y ∈ done -> y ∈ ids) ->
  (S (length done) <= length ids)%nat ->
  Labelled (done ++ [x]) (labelStep names counts st x).
Proof.
  intros [Hn Ha Hform Hinj Hseen Hthree] Hx Hxi Hdone Hlen.
  destruct st as [[seen namesById] abbrById]. simpl in *.
  unfold labelStep.
  set (base := nameGet names x).
  assert (Hfree : forall id, spaceFree (nameGet names id) = true)
    by apply names_spaceFree.
  assert (Hfresh : namesById !! x = None).
  { destruct (namesById !! x) eqn:E; [|done].
    exfalso. apply Hx, Hn. eauto. }
  destruct (Nat.leb (default 1%nat (counts !! base)) 1) eqn:Htotal.
  - (* a name of its own *)
    apply Nat.leb_le in Htotal.
    assert (Hshare : (sharing base <= 1)%nat).
    { rewrite <- countNames_spec. destruct (counts !! base); simpl in *; lia. }
    split; simpl.
    + intros id. rewrite elem_of_app, list_elem_of_singleton, <- Hn.
      destruct (decide (id = x)) as [->|Hne].
      * rewrite lookup_insert_eq. split; eauto.
      * rewrite lookup_insert_ne by done. tauto.
    + intros id. rewrite elem_of_app, list_elem_of_singleton, <- Ha.
      destruct (decide (id = x)) as [->|Hne].
      * rewrite lookup_insert_eq. split; eauto.
      * rewrite lookup_insert_ne by done. tauto.
    + intros id n. destruct (decide (id = x)) as [->|Hne].
      * rewrite lookup_insert_eq. intros [= <-]. by left.
      * rewrite lookup_insert_ne by done. apply Hform.
    + assert (Hnew : forall j n, j <> x -> namesById !! j = Some n ->
                                 n <> base).
      { intros j n Hj Hjn ->. destruct (Hform j _ Hjn) as [[Hb _]|(idx & Hb & _)].
        - assert (Hjd : j ∈ done) by (apply Hn; eauto).
          pose proof (sharing_two x j Hxi (Hdone _ Hjd) (not_eq_sym Hj)
                        Hb) as H2.
          fold base in H2. lia.
        - exact (spaced_neq _ _ _ (Hfree x) Hb). }
      intros i j n. destruct (decide (i = x)) as [->|Hi],
        (decide (j = x)) as [->|Hj]; try done.
      * rewrite lookup_insert_eq, lookup_insert_ne by done.
        intros [= <-] Hjn. by destruct (Hnew j _ Hj Hjn).
      * rewrite lookup_insert_eq, lookup_insert_ne by done.
        intros Hin [= <-]. by destruct (Hnew i _ Hi Hin).
      * rewrite !lookup_insert_ne by done. apply Hinj.
    + intros b. rewrite length_app. specialize (Hseen b). simpl. lia.
    + intros id a. destruct (decide (id = x)) as [->|Hne].
      * rewrite lookup_insert_eq. intros [= <-] _. apply length_abbrForName.
      * rewrite lookup_insert_ne by done. apply Hthree.
  - (* a numbered name *)
    set (idx := (default 0 (seen !! base) + 1)%nat).
    split; simpl.
    + intros id. rewrite elem_of_app, list_elem_of_singleton, <- Hn.
      destruct (decide (id = x)) as [->|Hne].
      * rewrite lookup_insert_eq. split; eauto.
      * rewrite lookup_insert_ne by done. tauto.
    + intros id. rewrite elem_of_app, list_elem_of_singleton, <- Ha.
      destruct (decide (id = x)) as [->|Hne].
      * rewrite lookup_insert_eq. split; eauto.
      * rewrite lookup_insert_ne by done. tauto.
    + intros id n. destruct (decide (id = x)) as [->|Hne].
      * rewrite lookup_insert_eq. intros [= <-]. right. exists idx.
        split; [done|]. fold base. rewrite lookup_insert_eq. simpl. lia.
      * rewrite lookup_insert_ne by done. intros Hid.
        destruct (Hform _ _ Hid) as [?|(k & Hk & Hrange)]; [by left|].
        right. exists k. split; [done|].
        destruct (decide (nameGet names id = base)) as [Heq|Hb].
        -- rewrite Heq in Hrange |- *. rewrite lookup_insert_eq. simpl. lia.
        -- by rewrite lookup_insert_ne.
    + assert (Hnew : forall j n, j <> x -> namesById !! j = Some n ->
                       n <> (base ++ " " ++ String_ idx)%string).
      { intros j n Hj Hjn ->.
        destruct (Hform j _ Hjn) as [[Hb _]|(k & Hb & Hk)].
        - symmetry in Hb. exact (spaced_neq _ _ _ (Hfree j) Hb).
        - apply spaced_inj in Hb as [Hb Hs]; [|apply Hfree..].
          apply String__inj in Hs. rewrite <- Hb in Hk.
          fold base in Hk. lia. }
      intros i j n. destruct (decide (i = x)) as [->|Hi],
        (decide (j = x)) as [->|Hj]; try done.
      * rewrite lookup_insert_eq, lookup_insert_ne by done.
        intros [= <-] Hjn. by destruct (Hnew j _ Hj Hjn).
      * rewrite lookup_insert_eq, lookup_insert_ne by done.
        intros Hin [= <-]. by destruct (Hnew i _ Hi Hin).
      * rewrite !lookup_insert_ne by done. apply Hinj.
    + intros b. rewrite length_app. simpl.
      destruct (decide (b = base)) as [->|Hb].
      * rewrite lookup_insert_eq. simpl. specialize (Hseen base). lia.
      * rewrite lookup_insert_ne by done. specialize (Hseen b). lia.
    + intros id a. destruct (decide (id = x)) as [->|Hne].
      * rewrite lookup_insert_eq. intros [= <-] Hsmall.
        rewrite length_padEnd, length_append.
        rewrite length_substring_full by (rewrite length_abbrForName; lia).
        rewrite length_String_; [lia|].
        specialize (Hseen base). lia.
      * rewrite lookup_insert_ne by done. apply Hthree.
Qed.

Lemma Labelled_fold (rest done : list Z) st :
  ids = done ++ rest -> Labelled done st ->
  Labelled ids (fold_left (labelStep names counts) rest st).
Proof.
  revert done st. induction rest as [|x rest IH]; intros done st Hids Hst.
  { simpl. by rewrite Hids, app_nil_r. }
  simpl. apply (IH (done ++ [x])).
  - by rewrite <- app_assoc.
  - pose proof paletteIds_NoDup as Hnd. rewrite Hids in Hnd.
    apply NoDup_app in Hnd as (_ & Hdisj & _).
    apply Labelled_step; [done| | | |].
    + intros Hx. apply (Hdisj x Hx). by left.
    + rewrite Hids. apply elem_of_app. right. by left.
    + intros y Hy. rewrite Hids. apply elem_of_app. by left.
    + rewrite Hids, length_app. simpl. lia.
Qed.

End LabelFacts.

(** X22.  [buildColorLabels] names every colour of the palette and no other
    id: [orderedIds] are the ids of the palette in ascending order, each
    once, and [namesById] and [abbrById] have an entry for exactly these
    ids.  No two colours get the same name.  With fewer than ten colours
    in the palette every abbreviation has exactly three characters. *)
Theorem colour_names_are_distinct (colorsById : gmap Z string) :
  let labels := buildColorLabels colorsById in
  StronglySorted Z.le (orderedIds labels) /\
  NoDup (orderedIds labels) /\
  (forall id, id ∈ orderedIds labels <-> is_Some (colorsById !! id)) /\
  (forall id, is_Some (namesById labels !! id) <-> is_Some (colorsById !! id)) /\
  (forall id, is_Some (abbrById labels !! id) <-> is_Some (colorsById !! id)) /\
  (forall i j n,
     namesById labels !! i = Some n -> namesById labels !! j = Some n ->
     i = j) /\
  ((size colorsById < 10)%nat ->
   forall id a, abbrById labels !! id = Some a -> String.length a = 3%nat).
Proof.
  intros labels. subst labels. unfold buildColorLabels.
  pose proof (Labelled_fold colorsById (ids colorsById) [] (∅, ∅, ∅) eq_refl
                (Labelled_nil colorsById)) as Hfold.
  destruct (fold_left _ _ _) as [[seen names] abbrs].
  destruct Hfold as [Hn Ha _ Hinj _ Hthree]. simpl in *.
  split_and!.
  - apply paletteIds_sorted.
  - apply paletteIds_NoDup.
  - apply paletteIds_elem.
  - intros id. by rewrite Hn, paletteIds_elem.
  - intros id. by rewrite Ha, paletteIds_elem.
  - exact Hinj.
  - intros Hsize id a Hid. apply (Hthree id a Hid). by rewrite length_paletteIds.
Qed.
